(** * Ecology simulator: the per-tick engine of game_v3/src/model/model.ts

    A shallow embedding of the simulation core (terrain lookup, spatial
    grid, producer / herbivore / predator passes of [updateEcosystem]) and
    the properties of it that the specification states.

    Numbers.  A JavaScript [number] is modelled by its real value: finite
    arithmetic is exact (no rounding, no signed zero).  The non-finite
    values are modelled where the program can produce or consume them: the
    coordinates of deer and wolves, which the movement rules compute with a
    division by a distance, have type [number] (a real, an infinity or NaN);
    every other numeric field is only ever assigned finite values by the
    program and has type [R].  Identifiers come from a counter and are
    natural numbers.  Where a property would depend on the rounding, the
    underflow or the overflow of doubles (the colour channels, the steps
    of the movement rules), its theorem is stated on a range of inputs on
    which it does not.

    Objects.  Trees are shared between [ecosystem.trees] and the buckets of
    [ecosystem.grid] and are mutated in place, so they live in a store
    ([heap]) and both collections hold references ([loc]).  Deer and wolves
    are only reachable through their array, which is updated by index.

    Randomness.  [Math.random()] reads the next element of a stream of
    draws carried by the state. *)

From Stdlib Require Import Reals Lra Lia ZArith.
From stdpp Require Import base decidable option list functions gmap countable sorting.

#[global] Instance Rlt_decision : RelDecision Rlt := Rlt_dec.
#[global] Instance Rle_decision : RelDecision Rle := Rle_dec.
#[global] Instance Rgt_decision : RelDecision Rgt := Rgt_dec.
#[global] Instance Rge_decision : RelDecision Rge := Rge_dec.
#[global] Instance Req_decision : EqDecision R := Req_dec_T.

(** ** JavaScript numbers with their non-finite values *)

Inductive number : Type :=
  | Fin (r : R)
  | PInf
  | NInf
  | NaN.

Module Num.
Local Open Scope R_scope.

Definition neg (a : number) : number :=
  match a with
  | Fin r => Fin (- r)
  | PInf => NInf
  | NInf => PInf
  | NaN => NaN
  end.

Definition add (a b : number) : number :=
  match a, b with
  | NaN, _ | _, NaN => NaN
  | Fin x, Fin y => Fin (x + y)
  | PInf, NInf | NInf, PInf => NaN
  | PInf, _ | _, PInf => PInf
  | NInf, _ | _, NInf => NInf
  end.

Definition sub (a b : number) : number := add a (neg b).

(** An infinity (positive when [pos]) times a finite [r]; also the value
    of [r / 0] with [pos := true]. *)
Definition inf_times (pos : bool) (r : R) : number :=
  if decide (0 < r) then (if pos then PInf else NInf)
  else if decide (r < 0) then (if pos then NInf else PInf)
  else NaN.

Definition mul (a b : number) : number :=
  match a, b with
  | NaN, _ | _, NaN => NaN
  | Fin x, Fin y => Fin (x * y)
  | PInf, Fin y | Fin y, PInf => inf_times true y
  | NInf, Fin y | Fin y, NInf => inf_times false y
  | PInf, PInf | NInf, NInf => PInf
  | PInf, NInf | NInf, PInf => NInf
  end.

Definition div (a b : number) : number :=
  match a, b with
  | NaN, _ | _, NaN => NaN
  | Fin x, Fin y => if decide (y = 0) then inf_times true x else Fin (x / y)
  | Fin _, (PInf | NInf) => Fin 0
  | PInf, Fin y => if decide (y < 0) then NInf else PInf
  | NInf, Fin y => if decide (y < 0) then PInf else NInf
  | (PInf | NInf), (PInf | NInf) => NaN
  end.

(** [Math.sqrt] *)
Definition sqrt (a : number) : number :=
  match a with
  | Fin r => if decide (r < 0) then NaN else Fin (R_sqrt.sqrt r)
  | PInf => PInf
  | NInf | NaN => NaN
  end.

(** [a < b]; every comparison with NaN is false. *)
Definition lt (a b : number) : bool :=
  match a, b with
  | NaN, _ | _, NaN => false
  | Fin x, Fin y => bool_decide (x < y)
  | NInf, (Fin _ | PInf) | Fin _, PInf => true
  | _, _ => false
  end.

Definition gt (a b : number) : bool := lt b a.

(** Truncation toward zero of a real. *)
Definition trunc (r : R) : Z :=
  if decide (0 <= r) then Int_part r else (- Int_part (- r))%Z.

(** [a % 1]: the remainder has the sign of the dividend. *)
Definition rem1 (a : number) : number :=
  match a with
  | Fin r => Fin (r - IZR (trunc r))
  | _ => NaN
  end.

(** [Math.floor] of a number that is then used as a cell coordinate:
    [None] stands for the non-integers NaN and the infinities. *)
Definition floor (a : number) : option Z :=
  match a with
  | Fin r => Some (Int_part r)
  | _ => None
  end.

Definition is_finite (a : number) : Prop :=
  match a with Fin _ => True | _ => False end.
End Num.

Coercion Fin : R >-> number.

Declare Scope js_scope.
Delimit Scope js_scope with js.
Bind Scope js_scope with number.
Infix "+" := Num.add : js_scope.
Infix "-" := Num.sub : js_scope.
Infix "*" := Num.mul : js_scope.
Infix "/" := Num.div : js_scope.

(** ** Constants *)

Definition loc := nat.

Definition GRID_SIZE : Z := 20.
Definition ECOSYSTEM_SCALE : R := 0.5.

Definition DEER_EATING_RADIUS_BASE : R := 0.03.
Definition DEER_CROWDING_RADIUS_BASE : R := 0.15.
Definition WOLF_KILL_RADIUS_BASE : R := 0.035.
Definition WOLF_CROWDING_RADIUS_BASE : R := 0.3.

Definition DEER_CROWDING_DEATH_PENALTY : R := 0.002.
Definition WOLF_CROWDING_DEATH_PENALTY : R := 0.006.
Definition TREE_CROWDED_DEATH_BASE : R := 0.5.

Definition MIN_CROWDING_GROWTH_REDUCTION : R := 0.25.
Definition MIN_CROWDING_DEATH_MULTIPLIER : R := 0.40.

Definition DEER_MAX_ENERGY : R := 2.0.
Definition DEER_REPRODUCE_THRESHOLD : R := 1.0.
Definition DEER_REPRODUCE_AGE : R := 10.
Definition DEER_REPRODUCTION_COST : R := 0.5.

Definition WOLF_MAX_ENERGY : R := 2.5.
Definition WOLF_REPRODUCE_THRESHOLD : R := 1.0.
Definition WOLF_REPRODUCE_AGE : R := 5.
Definition WOLF_REPRODUCTION_COST : R := 0.6.
Definition WOLF_HUNT_SUCCESS_BASE : R := 0.7.

Definition DEFAULT_TREE_COUNT : nat := 120.
Definition DEFAULT_DEER_COUNT : nat := 30.
Definition DEFAULT_WOLF_COUNT : nat := 6.

(** A [{ min, max }] entry of a bound table. *)
Record Bounds : Type := { bmin : R; bmax : R }.

Definition within (b : Bounds) (v : R) : Prop := (bmin b <= v <= bmax b)%R.

(** The same interval with both ends multiplied by [ECOSYSTEM_SCALE]. *)
Definition within_scaled (b : Bounds) (v : R) : Prop :=
  (bmin b * ECOSYSTEM_SCALE <= v <= bmax b * ECOSYSTEM_SCALE)%R.

Module TREE_BOUNDS.
Definition MaxSize : Bounds := {| bmin := 5; bmax := 25 |}.
Definition AgeToSpread : Bounds := {| bmin := 3; bmax := 20 |}.
Definition SpreadDistance : Bounds := {| bmin := 0.03; bmax := 0.15 |}.
Definition DeathChance : Bounds := {| bmin := 0.002; bmax := 0.025 |}.
Definition SpreadChance : Bounds := {| bmin := 0.08; bmax := 0.25 |}.
Definition OptimalMoisture : Bounds := {| bmin := 0; bmax := 1 |}.
Definition CrowdingSusceptibility : Bounds := {| bmin := 0.5; bmax := 2.0 |}.
End TREE_BOUNDS.

Module DEER_BOUNDS.
Definition MaxSize : Bounds := {| bmin := 2; bmax := 5 |}.
Definition Speed : Bounds := {| bmin := 0.003; bmax := 0.015 |}.
Definition DeathChance : Bounds := {| bmin := 0.00001; bmax := 0.0001 |}.
Definition ReproduceChance : Bounds := {| bmin := 0.4; bmax := 0.98 |}.
Definition CrowdingSusceptibility : Bounds := {| bmin := 0.5; bmax := 2.0 |}.
Definition MaxEatableSize : Bounds := {| bmin := 3; bmax := 15 |}.
Definition EnergyNeeds : Bounds := {| bmin := 0.01; bmax := 0.05 |}.
End DEER_BOUNDS.

Module WOLF_BOUNDS.
Definition MaxSize : Bounds := {| bmin := 2.5; bmax := 6 |}.
Definition Speed : Bounds := {| bmin := 0.008; bmax := 0.025 |}.
Definition DeathChance : Bounds := {| bmin := 0.00001; bmax := 0.0003 |}.
Definition ReproduceChance : Bounds := {| bmin := 0.05; bmax := 0.35 |}.
Definition CrowdingSusceptibility : Bounds := {| bmin := 0.5; bmax := 2.0 |}.
Definition EnergyNeeds : Bounds := {| bmin := 0.025; bmax := 0.12 |}.
End WOLF_BOUNDS.

(** ** Types *)

Record TreeCharacteristics : Type := {
  tree_MaxSize : R;
  tree_AgeToSpread : R;
  tree_SpreadDistance : R;
  tree_DeathChance : R;
  tree_SpreadChance : R;
  tree_OptimalMoisture : R;
  tree_CrowdingSusceptibility : R;
}.

Record DeerCharacteristics : Type := {
  deer_MaxSize : R;
  deer_Speed : R;
  deer_DeathChance : R;
  deer_ReproduceChance : R;
  deer_CrowdingSusceptibility : R;
  deer_MaxEatableSize : R;
  deer_EnergyNeeds : R;
}.

Record WolfCharacteristics : Type := {
  wolf_MaxSize : R;
  wolf_Speed : R;
  wolf_DeathChance : R;
  wolf_ReproduceChance : R;
  wolf_CrowdingSusceptibility : R;
  wolf_EnergyNeeds : R;
}.

Record Tree : Type := {
  tree_id : nat;
  tree_x : R;
  tree_y : R;
  tree_age : R;
  tree_size : R;
  tree_characteristics : TreeCharacteristics;
}.

Record Deer : Type := {
  deer_id : nat;
  deer_x : number;
  deer_y : number;
  deer_age : R;
  deer_energy : R;
  deer_characteristics : DeerCharacteristics;
}.

Record Wolf : Type := {
  wolf_id : nat;
  wolf_x : number;
  wolf_y : number;
  wolf_age : R;
  wolf_energy : R;
  wolf_characteristics : WolfCharacteristics;
}.

(** A grid key [`${x},${y}`] of two integers. *)
Definition Cell : Type := (Z * Z)%type.

(** The [Ecosystem] object together with what [updateEcosystem] reaches
    besides it: the tree objects, the three id generators, the random
    source, and the arrays of offspring that one call collects. *)
Record World : Type := {
  trees : list loc;
  grid : gmap Cell (list loc);
  deer : list Deer;
  wolves : list Wolf;
  terrain : list (list R);
  heap : loc → Tree;
  nextLoc : loc;
  treeIdGenerator : nat;
  deerIdGenerator : nat;
  wolfIdGenerator : nat;
  rng : nat → R;
  cursor : nat;
  newTrees : list loc;
  newDeer : list Deer;
  newWolves : list Wolf;
}.

(** Field updates ([w.f = v]). *)
Definition set_trees (v : list loc) (w : World) : World :=
  Build_World v (grid w) (deer w) (wolves w) (terrain w) (heap w) (nextLoc w)
    (treeIdGenerator w) (deerIdGenerator w) (wolfIdGenerator w) (rng w)
    (cursor w) (newTrees w) (newDeer w) (newWolves w).
Definition set_grid (v : gmap Cell (list loc)) (w : World) : World :=
  Build_World (trees w) v (deer w) (wolves w) (terrain w) (heap w) (nextLoc w)
    (treeIdGenerator w) (deerIdGenerator w) (wolfIdGenerator w) (rng w)
    (cursor w) (newTrees w) (newDeer w) (newWolves w).
Definition set_deer (v : list Deer) (w : World) : World :=
  Build_World (trees w) (grid w) v (wolves w) (terrain w) (heap w) (nextLoc w)
    (treeIdGenerator w) (deerIdGenerator w) (wolfIdGenerator w) (rng w)
    (cursor w) (newTrees w) (newDeer w) (newWolves w).
Definition set_wolves (v : list Wolf) (w : World) : World :=
  Build_World (trees w) (grid w) (deer w) v (terrain w) (heap w) (nextLoc w)
    (treeIdGenerator w) (deerIdGenerator w) (wolfIdGenerator w) (rng w)
    (cursor w) (newTrees w) (newDeer w) (newWolves w).
Definition set_terrain (v : list (list R)) (w : World) : World :=
  Build_World (trees w) (grid w) (deer w) (wolves w) v (heap w) (nextLoc w)
    (treeIdGenerator w) (deerIdGenerator w) (wolfIdGenerator w) (rng w)
    (cursor w) (newTrees w) (newDeer w) (newWolves w).
Definition set_heap (v : loc → Tree) (w : World) : World :=
  Build_World (trees w) (grid w) (deer w) (wolves w) (terrain w) v (nextLoc w)
    (treeIdGenerator w) (deerIdGenerator w) (wolfIdGenerator w) (rng w)
    (cursor w) (newTrees w) (newDeer w) (newWolves w).
Definition set_nextLoc (v : loc) (w : World) : World :=
  Build_World (trees w) (grid w) (deer w) (wolves w) (terrain w) (heap w) v
    (treeIdGenerator w) (deerIdGenerator w) (wolfIdGenerator w) (rng w)
    (cursor w) (newTrees w) (newDeer w) (newWolves w).
Definition set_treeIdGenerator (v : nat) (w : World) : World :=
  Build_World (trees w) (grid w) (deer w) (wolves w) (terrain w) (heap w)
    (nextLoc w) v (deerIdGenerator w) (wolfIdGenerator w) (rng w)
    (cursor w) (newTrees w) (newDeer w) (newWolves w).
Definition set_deerIdGenerator (v : nat) (w : World) : World :=
  Build_World (trees w) (grid w) (deer w) (wolves w) (terrain w) (heap w)
    (nextLoc w) (treeIdGenerator w) v (wolfIdGenerator w) (rng w)
    (cursor w) (newTrees w) (newDeer w) (newWolves w).
Definition set_wolfIdGenerator (v : nat) (w : World) : World :=
  Build_World (trees w) (grid w) (deer w) (wolves w) (terrain w) (heap w)
    (nextLoc w) (treeIdGenerator w) (deerIdGenerator w) v (rng w)
    (cursor w) (newTrees w) (newDeer w) (newWolves w).
Definition set_cursor (v : nat) (w : World) : World :=
  Build_World (trees w) (grid w) (deer w) (wolves w) (terrain w) (heap w)
    (nextLoc w) (treeIdGenerator w) (deerIdGenerator w) (wolfIdGenerator w)
    (rng w) v (newTrees w) (newDeer w) (newWolves w).
Definition set_newTrees (v : list loc) (w : World) : World :=
  Build_World (trees w) (grid w) (deer w) (wolves w) (terrain w) (heap w)
    (nextLoc w) (treeIdGenerator w) (deerIdGenerator w) (wolfIdGenerator w)
    (rng w) (cursor w) v (newDeer w) (newWolves w).
Definition set_newDeer (v : list Deer) (w : World) : World :=
  Build_World (trees w) (grid w) (deer w) (wolves w) (terrain w) (heap w)
    (nextLoc w) (treeIdGenerator w) (deerIdGenerator w) (wolfIdGenerator w)
    (rng w) (cursor w) (newTrees w) v (newWolves w).
Definition set_newWolves (v : list Wolf) (w : World) : World :=
  Build_World (trees w) (grid w) (deer w) (wolves w) (terrain w) (heap w)
    (nextLoc w) (treeIdGenerator w) (deerIdGenerator w) (wolfIdGenerator w)
    (rng w) (cursor w) (newTrees w) (newDeer w) v.

(** ** The state monad of the engine *)

Definition M (A : Type) : Type := World → A * World.

Definition ret {A} (a : A) : M A := λ w, (a, w).
Definition bind {A B} (m : M A) (k : A → M B) : M B :=
  λ w, let '(a, w') := m w in k a w'.
Definition get : M World := λ w, (w, w).
Definition modify (f : World → World) : M unit := λ w, (tt, f w).

Notation "'let*' x := m 'in' k" := (bind m (λ x, k))
  (at level 10, x name, m at level 100, k at level 200, only parsing).
Notation "'let*' ' p := m 'in' k" := (bind m (λ 'p, k))
  (at level 10, p strict pattern, m at level 100, k at level 200, only parsing).
Notation "m ;;; k" := (bind m (λ _, k))
  (at level 100, k at level 200, right associativity, only parsing).

(** [Math.random()] *)
Definition random : M R :=
  λ w, (rng w (cursor w), set_cursor (S (cursor w)) w).

(** [IdGenerator.next()] for the three generators. *)
Definition treeIdGenerator_next : M nat :=
  λ w, (treeIdGenerator w, set_treeIdGenerator (S (treeIdGenerator w)) w).
Definition deerIdGenerator_next : M nat :=
  λ w, (deerIdGenerator w, set_deerIdGenerator (S (deerIdGenerator w)) w).
Definition wolfIdGenerator_next : M nat :=
  λ w, (wolfIdGenerator w, set_wolfIdGenerator (S (wolfIdGenerator w)) w).

(** Allocation of a tree object. *)
Definition new_tree (t : Tree) : M loc :=
  λ w, (nextLoc w,
        set_nextLoc (S (nextLoc w)) (set_heap (<[nextLoc w := t]> (heap w)) w)).

(** ** Utility functions *)

Definition randomInRange (min max : R) : M R :=
  let* u := random in ret (min + u * (max - min))%R.

Definition randomTreeCharacteristics : M TreeCharacteristics :=
  let* maxSize := randomInRange (bmin TREE_BOUNDS.MaxSize) (bmax TREE_BOUNDS.MaxSize) in
  let* ageToSpread := randomInRange (bmin TREE_BOUNDS.AgeToSpread) (bmax TREE_BOUNDS.AgeToSpread) in
  let* spreadDistance := randomInRange (bmin TREE_BOUNDS.SpreadDistance) (bmax TREE_BOUNDS.SpreadDistance) in
  let* deathChance := randomInRange (bmin TREE_BOUNDS.DeathChance) (bmax TREE_BOUNDS.DeathChance) in
  let* spreadChance := randomInRange (bmin TREE_BOUNDS.SpreadChance) (bmax TREE_BOUNDS.SpreadChance) in
  let* optimalMoisture := randomInRange (bmin TREE_BOUNDS.OptimalMoisture) (bmax TREE_BOUNDS.OptimalMoisture) in
  let* crowding := randomInRange (bmin TREE_BOUNDS.CrowdingSusceptibility) (bmax TREE_BOUNDS.CrowdingSusceptibility) in
  ret {| tree_MaxSize := maxSize;
         tree_AgeToSpread := ageToSpread;
         tree_SpreadDistance := (spreadDistance * ECOSYSTEM_SCALE)%R;
         tree_DeathChance := deathChance;
         tree_SpreadChance := spreadChance;
         tree_OptimalMoisture := optimalMoisture;
         tree_CrowdingSusceptibility := crowding |}.

Definition randomDeerCharacteristics : M DeerCharacteristics :=
  let* maxSize := randomInRange (bmin DEER_BOUNDS.MaxSize) (bmax DEER_BOUNDS.MaxSize) in
  let* speed := randomInRange (bmin DEER_BOUNDS.Speed) (bmax DEER_BOUNDS.Speed) in
  let* deathChance := randomInRange (bmin DEER_BOUNDS.DeathChance) (bmax DEER_BOUNDS.DeathChance) in
  let* reproduceChance := randomInRange (bmin DEER_BOUNDS.ReproduceChance) (bmax DEER_BOUNDS.ReproduceChance) in
  let* crowding := randomInRange (bmin DEER_BOUNDS.CrowdingSusceptibility) (bmax DEER_BOUNDS.CrowdingSusceptibility) in
  let* maxEatableSize := randomInRange (bmin DEER_BOUNDS.MaxEatableSize) (bmax DEER_BOUNDS.MaxEatableSize) in
  let* energyNeeds := randomInRange (bmin DEER_BOUNDS.EnergyNeeds) (bmax DEER_BOUNDS.EnergyNeeds) in
  ret {| deer_MaxSize := maxSize;
         deer_Speed := (speed * ECOSYSTEM_SCALE)%R;
         deer_DeathChance := deathChance;
         deer_ReproduceChance := reproduceChance;
         deer_CrowdingSusceptibility := crowding;
         deer_MaxEatableSize := maxEatableSize;
         deer_EnergyNeeds := energyNeeds |}.

Definition randomWolfCharacteristics : M WolfCharacteristics :=
  let* maxSize := randomInRange (bmin WOLF_BOUNDS.MaxSize) (bmax WOLF_BOUNDS.MaxSize) in
  let* speed := randomInRange (bmin WOLF_BOUNDS.Speed) (bmax WOLF_BOUNDS.Speed) in
  let* deathChance := randomInRange (bmin WOLF_BOUNDS.DeathChance) (bmax WOLF_BOUNDS.DeathChance) in
  let* reproduceChance := randomInRange (bmin WOLF_BOUNDS.ReproduceChance) (bmax WOLF_BOUNDS.ReproduceChance) in
  let* crowding := randomInRange (bmin WOLF_BOUNDS.CrowdingSusceptibility) (bmax WOLF_BOUNDS.CrowdingSusceptibility) in
  let* energyNeeds := randomInRange (bmin WOLF_BOUNDS.EnergyNeeds) (bmax WOLF_BOUNDS.EnergyNeeds) in
  ret {| wolf_MaxSize := maxSize;
         wolf_Speed := (speed * ECOSYSTEM_SCALE)%R;
         wolf_DeathChance := deathChance;
         wolf_ReproduceChance := reproduceChance;
         wolf_CrowdingSusceptibility := crowding;
         wolf_EnergyNeeds := energyNeeds |}.

(** [terrain[i][j]].  The indices that reach it are clamped to
    [0 .. GRID_SIZE - 1] and the terrain is a GRID_SIZE x GRID_SIZE array,
    so the lookup is always in range; the default is never returned for
    such a terrain (lemma [terrainAt_in_range]). *)
Definition terrainAt (terrain : list (list R)) (i j : Z) : R :=
  default 0%R (terrain !! Z.to_nat i ≫= λ row, row !! Z.to_nat j).

(** Get moisture level at a location from terrain. *)
Definition getMoisture (x y : R) (terrain : list (list R)) : R :=
  let gridX := Int_part (x * IZR GRID_SIZE) in
  let gridY := Int_part (y * IZR GRID_SIZE) in
  let clampedX := Z.max 0 (Z.min (GRID_SIZE - 1) gridX) in
  let clampedY := Z.max 0 (Z.min (GRID_SIZE - 1) gridY) in
  terrainAt terrain clampedX clampedY.

(** Moisture fitness: how well moisture matches the tree's optimum. *)
Definition getMoistureFitness (tree : Tree) (ecosystem : World) : R :=
  let moisture := getMoisture (tree_x tree) (tree_y tree) (terrain ecosystem) in
  let distance := Rabs (moisture - tree_OptimalMoisture (tree_characteristics tree)) in
  Rmax 0 (1 - distance * 2).

(** ** Color calculation *)

(** [a % 2] on a finite number: the remainder has the sign of the dividend. *)
Definition rem2 (a : R) : R := (a - 2 * IZR (Num.trunc (a / 2)))%R.

(** [ToInt32], which the operators [<<] and [|] apply to their operands. *)
Definition toInt32 (z : Z) : Z := ((z + 2 ^ 31) mod 2 ^ 32 - 2 ^ 31)%Z.

(** [a << n] and [a | b] on 32-bit integers. *)
Definition shl (a n : Z) : Z := toInt32 (Z.shiftl (toInt32 a) (n mod 32)).
Definition bor (a b : Z) : Z := Z.lor (toInt32 a) (toInt32 b).

(** The constants [red], [green] and [blue] of [hslToRgb]. *)
Definition hslChannels (h s l : R) : Z * Z * Z :=
  let s := (s / 100)%R in
  let l := (l / 100)%R in
  let c := ((1 - Rabs (2 * l - 1)) * s)%R in
  let x := (c * (1 - Rabs (rem2 (h / 60) - 1)))%R in
  let m := (l - c / 2)%R in
  let '(r, g, b) :=
    if bool_decide (h >= 0)%R && bool_decide (h < 60)%R then (c, x, 0%R)
    else if bool_decide (h >= 60)%R && bool_decide (h < 120)%R then (x, c, 0%R)
    else if bool_decide (h >= 120)%R && bool_decide (h < 180)%R then (0%R, c, x)
    else if bool_decide (h >= 180)%R && bool_decide (h < 240)%R then (0%R, x, c)
    else if bool_decide (h >= 240)%R && bool_decide (h < 300)%R then (x, 0%R, c)
    else (c, 0%R, x) in
  (Int_part ((r + m) * 255), Int_part ((g + m) * 255), Int_part ((b + m) * 255)).

(** Convert HSL to RGB hex color. *)
Definition hslToRgb (h s l : R) : Z :=
  let '(red, green, blue) := hslChannels h s l in
  bor (bor (shl red 16) (shl green 8)) blue.

Definition getTreeColor (characteristics : TreeCharacteristics) : Z :=
  let hue := (90 + tree_OptimalMoisture characteristics * 60)%R in
  let spreadNormalized :=
    ((tree_SpreadChance characteristics - bmin TREE_BOUNDS.SpreadChance)
     / (bmax TREE_BOUNDS.SpreadChance - bmin TREE_BOUNDS.SpreadChance))%R in
  let saturation := (40 + spreadNormalized * 50)%R in
  let crowdingNormalized :=
    ((tree_CrowdingSusceptibility characteristics
      - bmin TREE_BOUNDS.CrowdingSusceptibility)
     / (bmax TREE_BOUNDS.CrowdingSusceptibility
        - bmin TREE_BOUNDS.CrowdingSusceptibility))%R in
  let lightness := (55 - crowdingNormalized * 30)%R in
  hslToRgb hue saturation lightness.

Definition getDeerColor (characteristics : DeerCharacteristics) : Z :=
  let speedNormalized :=
    ((deer_Speed characteristics - bmin DEER_BOUNDS.Speed)
     / (bmax DEER_BOUNDS.Speed - bmin DEER_BOUNDS.Speed))%R in
  let hue := (25 + speedNormalized * 20)%R in
  let reproduceNormalized :=
    ((deer_ReproduceChance characteristics - bmin DEER_BOUNDS.ReproduceChance)
     / (bmax DEER_BOUNDS.ReproduceChance - bmin DEER_BOUNDS.ReproduceChance))%R in
  let saturation := (15 + reproduceNormalized * 45)%R in
  let crowdingNormalized :=
    ((deer_CrowdingSusceptibility characteristics
      - bmin DEER_BOUNDS.CrowdingSusceptibility)
     / (bmax DEER_BOUNDS.CrowdingSusceptibility
        - bmin DEER_BOUNDS.CrowdingSusceptibility))%R in
  let lightness := (60 - crowdingNormalized * 30)%R in
  hslToRgb hue saturation lightness.

Definition getWolfColor (characteristics : WolfCharacteristics) : Z :=
  let crowdingNormalized :=
    ((wolf_CrowdingSusceptibility characteristics
      - bmin WOLF_BOUNDS.CrowdingSusceptibility)
     / (bmax WOLF_BOUNDS.CrowdingSusceptibility
        - bmin WOLF_BOUNDS.CrowdingSusceptibility))%R in
  let hue := (200 + crowdingNormalized * 40)%R in
  let reproduceNormalized :=
    ((wolf_ReproduceChance characteristics - bmin WOLF_BOUNDS.ReproduceChance)
     / (bmax WOLF_BOUNDS.ReproduceChance - bmin WOLF_BOUNDS.ReproduceChance))%R in
  let saturation := (5 + reproduceNormalized * 20)%R in
  let speedNormalized :=
    ((wolf_Speed characteristics - bmin WOLF_BOUNDS.Speed)
     / (bmax WOLF_BOUNDS.Speed - bmin WOLF_BOUNDS.Speed))%R in
  let lightness := (20 + speedNormalized * 25)%R in
  hslToRgb hue saturation lightness.

(** Terrain generation: overlaid sine waves, normalized and clamped. *)
Definition generateTerrain : list (list R) :=
  (λ x : nat,
     (λ y : nat,
        let nx := INR x / IZR GRID_SIZE in
        let ny := INR y / IZR GRID_SIZE in
        let wave1 := 0.5 * sin (nx * PI * 2 * 1.3) * cos (ny * PI * 2 * 0.9) in
        let wave2 := 0.3 * sin (nx * PI * 2 * 2.7 + 1.2) * sin (ny * PI * 2 * 2.1) in
        let moisture := (wave1 + wave2 + 1) / 2 in
        Rmax 0 (Rmin 1 moisture))%R
     <$> seq 0 (Z.to_nat GRID_SIZE))
  <$> seq 0 (Z.to_nat GRID_SIZE).

(** ** Characteristics from slider values *)

(** The [sliders] objects: the callers build them with every key of the
    species' bounds table, each [null] or a number. *)
Record TreeSliders : Type := {
  tree_slider_MaxSize : option R;
  tree_slider_AgeToSpread : option R;
  tree_slider_SpreadDistance : option R;
  tree_slider_DeathChance : option R;
  tree_slider_SpreadChance : option R;
  tree_slider_OptimalMoisture : option R;
  tree_slider_CrowdingSusceptibility : option R;
}.

Record DeerSliders : Type := {
  deer_slider_MaxSize : option R;
  deer_slider_Speed : option R;
  deer_slider_DeathChance : option R;
  deer_slider_ReproduceChance : option R;
  deer_slider_CrowdingSusceptibility : option R;
  deer_slider_MaxEatableSize : option R;
  deer_slider_EnergyNeeds : option R;
}.

Record WolfSliders : Type := {
  wolf_slider_MaxSize : option R;
  wolf_slider_Speed : option R;
  wolf_slider_DeathChance : option R;
  wolf_slider_ReproduceChance : option R;
  wolf_slider_CrowdingSusceptibility : option R;
  wolf_slider_EnergyNeeds : option R;
}.

(** [sliders.K !== null ? min + sliders.K * (max - min) : randomInRange(min, max)] *)
Definition fromSlider (b : Bounds) (slider : option R) : M R :=
  match slider with
  | Some v => ret (bmin b + v * (bmax b - bmin b))%R
  | None => randomInRange (bmin b) (bmax b)
  end.

Definition createTreeCharacteristics (sliders : TreeSliders) : M TreeCharacteristics :=
  let* maxSize := fromSlider TREE_BOUNDS.MaxSize (tree_slider_MaxSize sliders) in
  let* ageToSpread := fromSlider TREE_BOUNDS.AgeToSpread (tree_slider_AgeToSpread sliders) in
  let* spreadDistance :=
    fromSlider TREE_BOUNDS.SpreadDistance (tree_slider_SpreadDistance sliders) in
  let* deathChance := fromSlider TREE_BOUNDS.DeathChance (tree_slider_DeathChance sliders) in
  let* spreadChance := fromSlider TREE_BOUNDS.SpreadChance (tree_slider_SpreadChance sliders) in
  let* optimalMoisture :=
    fromSlider TREE_BOUNDS.OptimalMoisture (tree_slider_OptimalMoisture sliders) in
  let* crowding :=
    fromSlider TREE_BOUNDS.CrowdingSusceptibility
      (tree_slider_CrowdingSusceptibility sliders) in
  ret {| tree_MaxSize := maxSize;
         tree_AgeToSpread := ageToSpread;
         tree_SpreadDistance := (spreadDistance * ECOSYSTEM_SCALE)%R;
         tree_DeathChance := deathChance;
         tree_SpreadChance := spreadChance;
         tree_OptimalMoisture := optimalMoisture;
         tree_CrowdingSusceptibility := crowding |}.

Definition createDeerCharacteristics (sliders : DeerSliders) : M DeerCharacteristics :=
  let* maxSize := fromSlider DEER_BOUNDS.MaxSize (deer_slider_MaxSize sliders) in
  let* speed := fromSlider DEER_BOUNDS.Speed (deer_slider_Speed sliders) in
  let* deathChance := fromSlider DEER_BOUNDS.DeathChance (deer_slider_DeathChance sliders) in
  let* reproduceChance :=
    fromSlider DEER_BOUNDS.ReproduceChance (deer_slider_ReproduceChance sliders) in
  let* crowding :=
    fromSlider DEER_BOUNDS.CrowdingSusceptibility
      (deer_slider_CrowdingSusceptibility sliders) in
  let* maxEatableSize :=
    fromSlider DEER_BOUNDS.MaxEatableSize (deer_slider_MaxEatableSize sliders) in
  let* energyNeeds := fromSlider DEER_BOUNDS.EnergyNeeds (deer_slider_EnergyNeeds sliders) in
  ret {| deer_MaxSize := maxSize;
         deer_Speed := (speed * ECOSYSTEM_SCALE)%R;
         deer_DeathChance := deathChance;
         deer_ReproduceChance := reproduceChance;
         deer_CrowdingSusceptibility := crowding;
         deer_MaxEatableSize := maxEatableSize;
         deer_EnergyNeeds := energyNeeds |}.

Definition createWolfCharacteristics (sliders : WolfSliders) : M WolfCharacteristics :=
  let* maxSize := fromSlider WOLF_BOUNDS.MaxSize (wolf_slider_MaxSize sliders) in
  let* speed := fromSlider WOLF_BOUNDS.Speed (wolf_slider_Speed sliders) in
  let* deathChance := fromSlider WOLF_BOUNDS.DeathChance (wolf_slider_DeathChance sliders) in
  let* reproduceChance :=
    fromSlider WOLF_BOUNDS.ReproduceChance (wolf_slider_ReproduceChance sliders) in
  let* crowding :=
    fromSlider WOLF_BOUNDS.CrowdingSusceptibility
      (wolf_slider_CrowdingSusceptibility sliders) in
  let* energyNeeds := fromSlider WOLF_BOUNDS.EnergyNeeds (wolf_slider_EnergyNeeds sliders) in
  ret {| wolf_MaxSize := maxSize;
         wolf_Speed := (speed * ECOSYSTEM_SCALE)%R;
         wolf_DeathChance := deathChance;
         wolf_ReproduceChance := reproduceChance;
         wolf_CrowdingSusceptibility := crowding;
         wolf_EnergyNeeds := energyNeeds |}.

(** A slider position: [null], or a number in [0, 1]. *)
Definition sliderInRange (slider : option R) : Prop :=
  match slider with
  | Some v => (0 <= v <= 1)%R
  | None => True
  end.

(** The number of random draws a slider costs. *)
Definition draws (slider : option R) : nat :=
  match slider with Some _ => 0 | None => 1 end.

Definition treeSliders (s : TreeSliders) : list (option R) :=
  [tree_slider_MaxSize s; tree_slider_AgeToSpread s; tree_slider_SpreadDistance s;
   tree_slider_DeathChance s; tree_slider_SpreadChance s;
   tree_slider_OptimalMoisture s; tree_slider_CrowdingSusceptibility s].
Definition deerSliders (s : DeerSliders) : list (option R) :=
  [deer_slider_MaxSize s; deer_slider_Speed s; deer_slider_DeathChance s;
   deer_slider_ReproduceChance s; deer_slider_CrowdingSusceptibility s;
   deer_slider_MaxEatableSize s; deer_slider_EnergyNeeds s].
Definition wolfSliders (s : WolfSliders) : list (option R) :=
  [wolf_slider_MaxSize s; wolf_slider_Speed s; wolf_slider_DeathChance s;
   wolf_slider_ReproduceChance s; wolf_slider_CrowdingSusceptibility s;
   wolf_slider_EnergyNeeds s].

(** Slider settings as the control panel produces them: some positions
    set, some left to chance. *)
Definition sampleTreeSliders : TreeSliders :=
  {| tree_slider_MaxSize := Some 0.5%R; tree_slider_AgeToSpread := None;
     tree_slider_SpreadDistance := Some 0%R; tree_slider_DeathChance := Some 1%R;
     tree_slider_SpreadChance := None; tree_slider_OptimalMoisture := Some 0.5%R;
     tree_slider_CrowdingSusceptibility := None |}.
Definition sampleDeerSliders : DeerSliders :=
  {| deer_slider_MaxSize := None; deer_slider_Speed := Some 0%R;
     deer_slider_DeathChance := Some 0.5%R; deer_slider_ReproduceChance := None;
     deer_slider_CrowdingSusceptibility := Some 1%R;
     deer_slider_MaxEatableSize := None; deer_slider_EnergyNeeds := Some 0.5%R |}.
Definition sampleWolfSliders : WolfSliders :=
  {| wolf_slider_MaxSize := Some 1%R; wolf_slider_Speed := None;
     wolf_slider_DeathChance := Some 0%R; wolf_slider_ReproduceChance := Some 0.5%R;
     wolf_slider_CrowdingSusceptibility := None; wolf_slider_EnergyNeeds := None |}.

(** ** Grid utilities *)

(** [getCell] of an entity with finite coordinates (every tree). *)
Definition getCell (x y : R) : Cell :=
  (Int_part (x * IZR GRID_SIZE), Int_part (y * IZR GRID_SIZE)).

Definition getCellOfTree (t : Tree) : Cell := getCell (tree_x t) (tree_y t).

(** [getCell] of a deer or a wolf.  When a coordinate is NaN or infinite
    the key is not a pair of integers: it is the key of no tree, and after
    [split(',').map(Number)] every comparison on it is false; [None] stands
    for all such keys. *)
Definition getCellOf (x y : number) : option Cell :=
  match Num.floor (x * IZR GRID_SIZE)%js, Num.floor (y * IZR GRID_SIZE)%js with
  | Some cx, Some cy => Some (cx, cy)
  | _, _ => None
  end.

(** The nine [(dx, dy)] offsets in the order of the two nested loops. *)
Definition neighborOffsets : list (Z * Z) :=
  dx ← [-1; 0; 1]%Z; dy ← [-1; 0; 1]%Z; [(dx, dy)].

(** Get trees in current and neighboring grid cells. *)
Definition getTreesInNeighborhood (x y : number) (ecosystem : World) : list loc :=
  match getCellOf x y with
  | Some (cellX, cellY) =>
      '(dx, dy) ← neighborOffsets;
      default [] (grid ecosystem !! ((cellX + dx)%Z, (cellY + dy)%Z))
  | None => []
  end.

(** [Math.abs(aX - bX) <= 1 && Math.abs(aY - bY) <= 1] on two parsed keys. *)
Definition cellsAdjacent (a b : option Cell) : bool :=
  match a, b with
  | Some (aX, aY), Some (bX, bY) =>
      bool_decide (Z.abs (aX - bX) ≤ 1)%Z && bool_decide (Z.abs (aY - bY) ≤ 1)%Z
  | _, _ => false
  end.

(** Get deer in current and neighboring grid cells. *)
Definition getDeerInNeighborhood (x y : number) (ecosystem : World) : list Deer :=
  let cell := getCellOf x y in
  filter (λ d, cellsAdjacent (getCellOf (deer_x d) (deer_y d)) cell = true)
    (deer ecosystem).

(** Get wolves in current and neighboring grid cells. *)
Definition getWolvesInNeighborhood (x y : number) (ecosystem : World) : list Wolf :=
  let cell := getCellOf x y in
  filter (λ v, cellsAdjacent (getCellOf (wolf_x v) (wolf_y v)) cell = true)
    (wolves ecosystem).

(** [cell.findIndex(t => t.id === tree.id)] then [cell.splice(index, 1)]. *)
Definition deleteFromGrid (tree : Tree) : M unit := λ ecosystem,
  let cellKey := getCellOfTree tree in
  match grid ecosystem !! cellKey with
  | None => (tt, ecosystem)
  | Some cell =>
      match list_find (λ t, tree_id (heap ecosystem t) = tree_id tree) cell with
      | Some (index, _) =>
          (tt, set_grid (<[cellKey := delete index cell]> (grid ecosystem)) ecosystem)
      | None => (tt, ecosystem)
      end
  end.

(** One iteration of the innermost loop of [crowdedness]: the new value of
    [crowdednessSum] after looking at neighbour [t]. *)
Definition crowdednessVisit (tree : Tree) (crowdednessSum : R) (t : Tree) : R :=
  if decide (tree_id t = tree_id tree) then crowdednessSum
  else if decide (tree_size t <= tree_size tree)%R then crowdednessSum
  else
    let maxDistance := tree_SpreadDistance (tree_characteristics t) in
    let distanceSquared :=
      ((tree_x t - tree_x tree) ^ 2 + (tree_y t - tree_y tree) ^ 2)%R in
    let maxDistanceSquared := (maxDistance * maxDistance)%R in
    if decide (distanceSquared < maxDistanceSquared)%R then
      let distance := sqrt distanceSquared in
      let proximity := ((maxDistance - distance) / maxDistance)%R in
      (crowdednessSum + proximity)%R
    else crowdednessSum.

(** Calculate crowdedness for a tree. *)
Definition crowdedness (tree : Tree) (ecosystem : World) : R :=
  let '(cellX, cellY) := getCellOfTree tree in
  let crowdednessSum :=
    foldl (λ acc '(dx, dy),
             let trees := default [] (grid ecosystem !! ((cellX + dx)%Z, (cellY + dy)%Z)) in
             foldl (λ acc t, crowdednessVisit tree acc (heap ecosystem t)) acc trees)
          0%R neighborOffsets in
  Rmin 1 crowdednessSum.

(** Helper: generate new location for tree spreading. *)
Definition newLocation (tree : Tree) : M (option (R * R)) :=
  let dist := tree_SpreadDistance (tree_characteristics tree) in
  let* u := random in
  let angle := (u * 2 * PI)%R in
  let* ux := random in
  let newX := (tree_x tree + cos angle * dist * ux)%R in
  let* uy := random in
  let newY := (tree_y tree + sin angle * dist * uy)%R in
  if bool_decide (newX > 1)%R || bool_decide (newX < 0)%R
     || bool_decide (newY > 1)%R || bool_decide (newY < 0)%R
  then ret None
  else ret (Some (newX, newY)).

(** ** Update ecosystem: the tree pass *)

Definition set_tree_age (v : R) (t : Tree) : Tree :=
  {| tree_id := tree_id t; tree_x := tree_x t; tree_y := tree_y t;
     tree_age := v; tree_size := tree_size t;
     tree_characteristics := tree_characteristics t |}.
Definition set_tree_size (v : R) (t : Tree) : Tree :=
  {| tree_id := tree_id t; tree_x := tree_x t; tree_y := tree_y t;
     tree_age := tree_age t; tree_size := v;
     tree_characteristics := tree_characteristics t |}.

(** Reading the tree object behind a reference, and assigning to it. *)
Definition read_tree (tree : loc) : M Tree := λ w, (heap w tree, w).
Definition update_tree (tree : loc) (f : Tree → Tree) : M unit :=
  modify (λ w, set_heap (<[tree := f (heap w tree)]> (heap w)) w).

(** [array.filter(callback)], the callback receiving element and index. *)
Fixpoint filterM {A} (callback : A → nat → M bool) (l : list A) (index : nat)
    : M (list A) :=
  match l with
  | [] => ret []
  | a :: l' =>
      let* keep := callback a index in
      let* rest := filterM callback l' (S index) in
      ret (if keep then a :: rest else rest)
  end.

(** [array.forEach(callback)] *)
Fixpoint forEach {A} (callback : A → M unit) (l : list A) : M unit :=
  match l with
  | [] => ret tt
  | a :: l' => callback a ;;; forEach callback l'
  end.

(** Susceptibility normalized to 0-1 against the species bounds. *)
Definition normalizedSusceptibility (t : Tree) : R :=
  ((tree_CrowdingSusceptibility (tree_characteristics t)
    - bmin TREE_BOUNDS.CrowdingSusceptibility)
   / (bmax TREE_BOUNDS.CrowdingSusceptibility
      - bmin TREE_BOUNDS.CrowdingSusceptibility))%R.

(** Crowding effect: minimum reduction plus additional reduction by
    susceptibility. *)
Definition crowdingEffect (t : Tree) : R :=
  let maxAdditionalReduction := (1.0 - MIN_CROWDING_GROWTH_REDUCTION)%R in
  (MIN_CROWDING_GROWTH_REDUCTION
   + maxAdditionalReduction * normalizedSusceptibility t)%R.

(** Death multiplier: minimum effect plus additional effect by
    susceptibility. *)
Definition deathMultiplier (t : Tree) : R :=
  let maxAdditionalMultiplier := (1.0 - MIN_CROWDING_DEATH_MULTIPLIER)%R in
  (MIN_CROWDING_DEATH_MULTIPLIER
   + maxAdditionalMultiplier * normalizedSusceptibility t)%R.

(** The value of [growth]: base growth of 1, modified by moisture and
    crowding.  [crowd] is [None] when [precalculatedCrowdedness[treeIndex]]
    is [undefined], for which [crowd > 0] is false. *)
Definition treeGrowth (t : Tree) (moistureFitness : R) (crowd : option R) : R :=
  let growth := (1.0 * moistureFitness)%R in
  match crowd with
  | Some crowd =>
      if decide (crowd > 0)%R
      then (growth * (1 - crowd * crowdingEffect t))%R
      else growth
  | None => growth
  end.

(** The block guarded by [tree.size < tree.characteristics.MaxSize]:
    growth, then death from crowding.  Returns [true] when the tree died. *)
Definition treeGrow (precalculatedCrowdedness : option (list R))
    (tree : loc) (treeIndex : nat) : M bool :=
  let* t := read_tree tree in
  let* ecosystem := get in
  let moistureFitness := getMoistureFitness t ecosystem in
  let crowd :=
    match precalculatedCrowdedness with
    | Some pre => pre !! treeIndex
    | None => Some (crowdedness t ecosystem)
    end in
  let growth := treeGrowth t moistureFitness crowd in
  update_tree tree
    (set_tree_size
       (Rmin (tree_MaxSize (tree_characteristics t))
             (tree_size t + Rmax 0 growth))) ;;;
  match crowd with
  | Some crowd =>
      if decide (crowd > 0)%R then
        let crowdedDeathChance :=
          (TREE_CROWDED_DEATH_BASE * crowd * deathMultiplier t)%R in
        let* u := random in
        if decide (u < crowdedDeathChance)%R then
          let* t := read_tree tree in
          deleteFromGrid t ;;; ret true
        else ret false
      else ret false
  | None => ret false
  end.

(** Reproduction: if old enough and random chance succeeds. *)
Definition treeReproduce (tree : loc) : M unit :=
  let* t := read_tree tree in
  if decide (tree_age t > tree_AgeToSpread (tree_characteristics t))%R then
    let* ecosystem := get in
    let moistureFitness := getMoistureFitness t ecosystem in
    let spreadChance :=
      (tree_SpreadChance (tree_characteristics t) * moistureFitness)%R in
    let* u := random in
    if decide (u < spreadChance)%R then
      let* newLoc := newLocation t in
      match newLoc with
      | Some (x, y) =>
          let* id := treeIdGenerator_next in
          let* newTree :=
            new_tree {| tree_id := id; tree_x := x; tree_y := y;
                        tree_age := 0; tree_size := 0;
                        tree_characteristics := tree_characteristics t |} in
          modify (λ w, set_newTrees (newTrees w ++ [newTree]) w)
      | None => ret tt
      end
    else ret tt
  else ret tt.

(** The end of the callback, for a tree that did not die from crowding:
    natural death, then reproduction.  Returns what the callback returns. *)
Definition treeSurvive (tree : loc) : M bool :=
  let* t := read_tree tree in
  let* u := random in
  if decide (u < tree_DeathChance (tree_characteristics t))%R then
    deleteFromGrid t ;;; ret false
  else
    treeReproduce tree ;;; ret true.

(** The callback after [tree.age += 1]. *)
Definition treeAfterAging (precalculatedCrowdedness : option (list R))
    (tree : loc) (treeIndex : nat) : M bool :=
  let* t := read_tree tree in
  let* crowdedDeath :=
    if decide (tree_size t < tree_MaxSize (tree_characteristics t))%R
    then treeGrow precalculatedCrowdedness tree treeIndex
    else ret false in
  if crowdedDeath : bool then ret false
  else treeSurvive tree.

(** The callback of [ecosystem.trees.filter]. *)
Definition treeCallback (precalculatedCrowdedness : option (list R))
    (tree : loc) (treeIndex : nat) : M bool :=
  update_tree tree (λ t, set_tree_age (tree_age t + 1) t) ;;;
  treeAfterAging precalculatedCrowdedness tree treeIndex.

(** Adding one new tree to the grid. *)
Definition addToGrid (tree : loc) : M unit := λ ecosystem,
  let cell := getCellOfTree (heap ecosystem tree) in
  match grid ecosystem !! cell with
  | Some cellTrees =>
      (tt, set_grid (<[cell := cellTrees ++ [tree]]> (grid ecosystem)) ecosystem)
  | None => (tt, set_grid (<[cell := [tree]]> (grid ecosystem)) ecosystem)
  end.

Definition treePass (precalculatedCrowdedness : option (list R)) : M unit :=
  modify (set_newTrees []) ;;;
  let* ecosystem := get in
  let* kept := filterM (treeCallback precalculatedCrowdedness) (trees ecosystem) 0 in
  modify (set_trees kept) ;;;
  modify (λ w, set_trees (trees w ++ newTrees w) w) ;;;
  let* ecosystem := get in
  forEach addToGrid (newTrees ecosystem).

(** ** Update ecosystem: the deer pass *)

Definition set_deer_pos (x y : number) (d : Deer) : Deer :=
  {| deer_id := deer_id d; deer_x := x; deer_y := y; deer_age := deer_age d;
     deer_energy := deer_energy d;
     deer_characteristics := deer_characteristics d |}.
Definition set_deer_age (v : R) (d : Deer) : Deer :=
  {| deer_id := deer_id d; deer_x := deer_x d; deer_y := deer_y d;
     deer_age := v; deer_energy := deer_energy d;
     deer_characteristics := deer_characteristics d |}.
Definition set_deer_energy (v : R) (d : Deer) : Deer :=
  {| deer_id := deer_id d; deer_x := deer_x d; deer_y := deer_y d;
     deer_age := deer_age d; deer_energy := v;
     deer_characteristics := deer_characteristics d |}.

(** [array.filter(callback)] on an array whose objects the callback
    mutates in place: the element is read when its turn comes, and the
    indices for which the callback returned [true] are collected. *)
Fixpoint filterInPlace {A} (array : World → list A)
    (callback : A → nat → M bool) (index count : nat) : M (list nat) :=
  match count with
  | O => ret []
  | S count' =>
      let* w := get in
      match array w !! index with
      | Some a =>
          let* keep := callback a index in
          let* rest := filterInPlace array callback (S index) count' in
          ret (if keep then index :: rest else rest)
      | None => filterInPlace array callback (S index) count'
      end
  end.

(** The objects selected by a filter, in their state after it. *)
Definition selected {A} (array : list A) (kept : list nat) : list A :=
  omap (λ i, array !! i) kept.

(** [Math.sqrt((ax - bx) ** 2 + (ay - by) ** 2)] *)
Definition distanceBetween (ax ay bx by_ : number) : number :=
  Num.sqrt ((ax - bx) * (ax - bx) + (ay - by_) * (ay - by_))%js.

(** Movement in a random direction. *)
Definition randomStep (x y : number) (speed : R) : M (number * number) :=
  let* u := random in
  let angle := (u * PI * 2)%R in
  ret ((x + (cos angle * speed)%R)%js, (y + (sin angle * speed)%R)%js).

(** The closest nearby tree that is small enough to eat. *)
Definition nearestEdibleTree (d : Deer) (ecosystem : World)
    (nearbyTrees : list loc) : option loc :=
  (foldl (λ '(targetTree, closestDistance) tree,
            let t := heap ecosystem tree in
            if decide (tree_size t <= deer_MaxEatableSize (deer_characteristics d))%R
            then
              let distance :=
                distanceBetween (tree_x t) (tree_y t) (deer_x d) (deer_y d) in
              if Num.lt distance closestDistance
              then (Some tree, distance)
              else (targetTree, closestDistance)
            else (targetTree, closestDistance))
         (None, PInf) nearbyTrees).1.

(** Move toward target. *)
Definition deerSeekStep (d : Deer) (targetTree : Tree) : Deer :=
  let dx := (tree_x targetTree - deer_x d)%js in
  let dy := (tree_y targetTree - deer_y d)%js in
  let distance := Num.sqrt (dx * dx + dy * dy)%js in
  let speed := deer_Speed (deer_characteristics d) in
  set_deer_pos (deer_x d + (dx / distance) * speed)%js
               (deer_y d + (dy / distance) * speed)%js d.

(** The nearest of the nearby wolves. *)
Definition nearestWolfOf (d : Deer) (nearbyWolves : list Wolf) : option Wolf :=
  (foldl (λ '(nearestWolf, closestWolfDistance) wolf,
            if decide (wolf_id wolf = deer_id d)
            then (nearestWolf, closestWolfDistance)
            else
              let distance :=
                distanceBetween (wolf_x wolf) (wolf_y wolf) (deer_x d) (deer_y d) in
              if Num.lt distance closestWolfDistance
              then (Some wolf, distance)
              else (nearestWolf, closestWolfDistance))
         (None, PInf) nearbyWolves).1.

(** Flee from nearest wolf. *)
Definition deerFleeStep (d : Deer) (nearestWolf : Wolf) : M Deer :=
  let dx := (deer_x d - wolf_x nearestWolf)%js in
  let dy := (deer_y d - wolf_y nearestWolf)%js in
  let distance := Num.sqrt (dx * dx + dy * dy)%js in
  let speed := deer_Speed (deer_characteristics d) in
  if Num.gt distance 0%R then
    ret (set_deer_pos (deer_x d + (dx / distance) * speed)%js
                      (deer_y d + (dy / distance) * speed)%js d)
  else
    let* '(x, y) := randomStep (deer_x d) (deer_y d) speed in
    ret (set_deer_pos x y d).

(** Movement priority: seek food if hungry, flee wolves if not, random
    otherwise. *)
Definition deerMove (d : Deer) : M Deer :=
  let* ecosystem := get in
  let speed := deer_Speed (deer_characteristics d) in
  if decide (deer_energy d < DEER_REPRODUCE_THRESHOLD)%R then
    let nearbyTrees := getTreesInNeighborhood (deer_x d) (deer_y d) ecosystem in
    match nearestEdibleTree d ecosystem nearbyTrees with
    | Some targetTree => ret (deerSeekStep d (heap ecosystem targetTree))
    | None =>
        let* '(x, y) := randomStep (deer_x d) (deer_y d) speed in
        ret (set_deer_pos x y d)
    end
  else
    let nearbyWolves := getWolvesInNeighborhood (deer_x d) (deer_y d) ecosystem in
    match nearestWolfOf d nearbyWolves with
    | Some nearestWolf => deerFleeStep d nearestWolf
    | None =>
        let* '(x, y) := randomStep (deer_x d) (deer_y d) speed in
        ret (set_deer_pos x y d)
    end.

(** Wrap around edges. *)
Definition wrap (a : number) : number := Num.rem1 (a + 1%R)%js.

(** Eating: the loop [for (i = trees.length - 1; i >= 0; i--)], entered
    with [i] indices left to visit; it stops at the first tree eaten. *)
Fixpoint deerEatLoop (d : Deer) (i : nat) : M Deer :=
  match i with
  | O => ret d
  | S i =>
      let* ecosystem := get in
      match trees ecosystem !! i with
      | Some tree =>
          let t := heap ecosystem tree in
          let distance :=
            distanceBetween (tree_x t) (tree_y t) (deer_x d) (deer_y d) in
          if Num.lt distance (DEER_EATING_RADIUS_BASE * ECOSYSTEM_SCALE)%R
             && bool_decide (tree_size t <= deer_MaxEatableSize (deer_characteristics d))%R
          then
            deleteFromGrid t ;;;
            modify (λ w, set_trees (delete i (trees w)) w) ;;;
            ret (set_deer_energy
                   (Rmin DEER_MAX_ENERGY (deer_energy d + tree_size t * 0.1)) d)
          else deerEatLoop d i
      | None => deerEatLoop d i
      end
  end.

(** Count nearby deer for crowding. *)
Definition countNearbyDeer (d : Deer) (ecosystem : World) : nat :=
  foldl (λ nearbyDeer other,
           if decide (deer_id other = deer_id d) then nearbyDeer
           else
             let distance :=
               distanceBetween (deer_x other) (deer_y other) (deer_x d) (deer_y d) in
             if Num.lt distance (DEER_CROWDING_RADIUS_BASE * ECOSYSTEM_SCALE)%R
             then S nearbyDeer else nearbyDeer)
        O (deer ecosystem).

(** Death: base chance + crowding penalty + starvation. *)
Definition deerDeathChance (d : Deer) (nearbyDeer : nat) : R :=
  let deathChance := deer_DeathChance (deer_characteristics d) in
  let deathChance :=
    (deathChance
     + INR nearbyDeer * DEER_CROWDING_DEATH_PENALTY
       * deer_CrowdingSusceptibility (deer_characteristics d))%R in
  if decide (deer_energy d < 0.3)%R
  then (deathChance + (0.3 - deer_energy d) * 0.01)%R
  else deathChance.

Definition store_deer (index : nat) (d : Deer) : M unit :=
  modify (λ w, set_deer (<[index := d]> (deer w)) w).

(** The death check of a deer: [true] when the deer is removed. *)
Definition deerDeathCheck (immortalDeer : bool) (d : Deer) : M bool :=
  let* ecosystem := get in
  let nearbyDeer := countNearbyDeer d ecosystem in
  let deathChance := deerDeathChance d nearbyDeer in
  let isLastDeer := bool_decide (length (deer ecosystem) = 1%nat) in
  let shouldPreventDeath := immortalDeer && isLastDeer in
  if negb shouldPreventDeath then
    let* u := random in ret (bool_decide (u < deathChance)%R)
  else ret false.

(** Reproduction: if old enough and energy above threshold. *)
Definition deerReproduce (d : Deer) (index : nat) : M unit :=
  if bool_decide (deer_age d > DEER_REPRODUCE_AGE)%R
     && bool_decide (deer_energy d >= DEER_REPRODUCE_THRESHOLD)%R
  then
    let* u := random in
    if decide (u < deer_ReproduceChance (deer_characteristics d))%R then
      let* id := deerIdGenerator_next in
      let* ux := random in
      let* uy := random in
      let babyDeer :=
        {| deer_id := id;
           deer_x := (deer_x d + ((ux - 0.5) * 0.05)%R)%js;
           deer_y := (deer_y d + ((uy - 0.5) * 0.05)%R)%js;
           deer_age := 0; deer_energy := 1.0;
           deer_characteristics := deer_characteristics d |} in
      modify (λ w, set_newDeer (newDeer w ++ [babyDeer]) w) ;;;
      store_deer index
        (set_deer_energy (deer_energy d - DEER_REPRODUCTION_COST) d)
    else ret tt
  else ret tt.

(** The callback of [ecosystem.deer.filter].  The deer object is held in
    [d] and written back to the array before the array is read. *)
Definition deerCallback (immortalDeer : bool) (d : Deer) (index : nat) : M bool :=
  let d := set_deer_age (deer_age d + 1) d in
  let* d := deerMove d in
  let d := set_deer_pos (wrap (deer_x d)) (wrap (deer_y d)) d in
  let* d :=
    if decide (deer_energy d < DEER_MAX_ENERGY)%R then
      let* ecosystem := get in
      deerEatLoop d (length (trees ecosystem))
    else ret d in
  let d :=
    set_deer_energy
      (Rmax 0 (deer_energy d - deer_EnergyNeeds (deer_characteristics d))) d in
  store_deer index d ;;;
  let* dies := deerDeathCheck immortalDeer d in
  if dies : bool then ret false
  else deerReproduce d index ;;; ret true.

Definition deerPass (immortalDeer : bool) : M unit :=
  modify (set_newDeer []) ;;;
  let* ecosystem := get in
  let* kept :=
    filterInPlace deer (deerCallback immortalDeer) 0 (length (deer ecosystem)) in
  modify (λ w, set_deer (selected (deer w) kept) w) ;;;
  modify (λ w, set_deer (deer w ++ newDeer w) w).

(** ** Update ecosystem: the wolf pass *)

Definition set_wolf_pos (x y : number) (v : Wolf) : Wolf :=
  {| wolf_id := wolf_id v; wolf_x := x; wolf_y := y; wolf_age := wolf_age v;
     wolf_energy := wolf_energy v;
     wolf_characteristics := wolf_characteristics v |}.
Definition set_wolf_age (a : R) (v : Wolf) : Wolf :=
  {| wolf_id := wolf_id v; wolf_x := wolf_x v; wolf_y := wolf_y v;
     wolf_age := a; wolf_energy := wolf_energy v;
     wolf_characteristics := wolf_characteristics v |}.
Definition set_wolf_energy (e : R) (v : Wolf) : Wolf :=
  {| wolf_id := wolf_id v; wolf_x := wolf_x v; wolf_y := wolf_y v;
     wolf_age := wolf_age v; wolf_energy := e;
     wolf_characteristics := wolf_characteristics v |}.

(** The closest of the nearby deer. *)
Definition nearestDeerOf (v : Wolf) (nearbyDeer : list Deer) : option Deer :=
  (foldl (λ '(targetDeer, closestDistance) d,
            let distance :=
              distanceBetween (deer_x d) (deer_y d) (wolf_x v) (wolf_y v) in
            if Num.lt distance closestDistance
            then (Some d, distance)
            else (targetDeer, closestDistance))
         (None, PInf) nearbyDeer).1.

(** Chase target. *)
Definition wolfChaseStep (v : Wolf) (targetDeer : Deer) : Wolf :=
  let dx := (deer_x targetDeer - wolf_x v)%js in
  let dy := (deer_y targetDeer - wolf_y v)%js in
  let distance := Num.sqrt (dx * dx + dy * dy)%js in
  let speed := wolf_Speed (wolf_characteristics v) in
  set_wolf_pos (wolf_x v + (dx / distance) * speed)%js
               (wolf_y v + (dy / distance) * speed)%js v.

(** Movement: toward prey if hungry, random otherwise. *)
Definition wolfMove (v : Wolf) : M Wolf :=
  let* ecosystem := get in
  let speed := wolf_Speed (wolf_characteristics v) in
  if decide (wolf_energy v < WOLF_REPRODUCE_THRESHOLD)%R then
    let nearbyDeer := getDeerInNeighborhood (wolf_x v) (wolf_y v) ecosystem in
    match nearestDeerOf v nearbyDeer with
    | Some targetDeer => ret (wolfChaseStep v targetDeer)
    | None =>
        let* '(x, y) := randomStep (wolf_x v) (wolf_y v) speed in
        ret (set_wolf_pos x y v)
    end
  else
    let* '(x, y) := randomStep (wolf_x v) (wolf_y v) speed in
    ret (set_wolf_pos x y v).

(** Hunting: the loop [for (i = deer.length - 1; i >= 0; i--)], entered
    with [i] indices left to visit. *)
Fixpoint wolfHuntLoop (v : Wolf) (i : nat) : M Wolf :=
  match i with
  | O => ret v
  | S i =>
      let* ecosystem := get in
      match deer ecosystem !! i with
      | Some d =>
          let distance :=
            distanceBetween (deer_x d) (deer_y d) (wolf_x v) (wolf_y v) in
          if Num.lt distance (WOLF_KILL_RADIUS_BASE * ECOSYSTEM_SCALE)%R then
            (* Prevent deer extinction: don't kill last deer *)
            if decide (length (deer ecosystem) = 1%nat) then ret v
            else
              let* u := random in
              if decide (u < WOLF_HUNT_SUCCESS_BASE)%R then
                modify (λ w, set_deer (delete i (deer w)) w) ;;;
                let energyGain := (deer_MaxSize (deer_characteristics d) * 0.3)%R in
                ret (set_wolf_energy
                       (Rmin WOLF_MAX_ENERGY (wolf_energy v + energyGain)) v)
              else wolfHuntLoop v i
          else wolfHuntLoop v i
      | None => wolfHuntLoop v i
      end
  end.

(** Count nearby wolves for crowding. *)
Definition countNearbyWolves (v : Wolf) (ecosystem : World) : nat :=
  foldl (λ nearbyWolves other,
           if decide (wolf_id other = wolf_id v) then nearbyWolves
           else
             let distance :=
               distanceBetween (wolf_x other) (wolf_y other) (wolf_x v) (wolf_y v) in
             if Num.lt distance (WOLF_CROWDING_RADIUS_BASE * ECOSYSTEM_SCALE)%R
             then S nearbyWolves else nearbyWolves)
        O (wolves ecosystem).

(** Death: base chance + crowding penalty + starvation. *)
Definition wolfDeathChance (v : Wolf) (nearbyWolves : nat) : R :=
  let deathChance := wolf_DeathChance (wolf_characteristics v) in
  let deathChance :=
    (deathChance
     + INR nearbyWolves * WOLF_CROWDING_DEATH_PENALTY
       * wolf_CrowdingSusceptibility (wolf_characteristics v))%R in
  if decide (wolf_energy v < 0.3)%R
  then (deathChance + (0.3 - wolf_energy v) * 0.01)%R
  else deathChance.

Definition store_wolf (index : nat) (v : Wolf) : M unit :=
  modify (λ w, set_wolves (<[index := v]> (wolves w)) w).

(** The death check of a wolf: [true] when the wolf is removed. *)
Definition wolfDeathCheck (immortalWolf : bool) (v : Wolf) : M bool :=
  let* ecosystem := get in
  let nearbyWolves := countNearbyWolves v ecosystem in
  let deathChance := wolfDeathChance v nearbyWolves in
  let isLastWolf := bool_decide (length (wolves ecosystem) = 1%nat) in
  let shouldPreventWolfDeath := immortalWolf && isLastWolf in
  if negb shouldPreventWolfDeath then
    let* u := random in ret (bool_decide (u < deathChance)%R)
  else ret false.

(** Reproduction: if old enough and energy above threshold. *)
Definition wolfReproduce (v : Wolf) (index : nat) : M unit :=
  if bool_decide (wolf_age v > WOLF_REPRODUCE_AGE)%R
     && bool_decide (wolf_energy v >= WOLF_REPRODUCE_THRESHOLD)%R
  then
    let* u := random in
    if decide (u < wolf_ReproduceChance (wolf_characteristics v))%R then
      let* id := wolfIdGenerator_next in
      let* ux := random in
      let* uy := random in
      let babyWolf :=
        {| wolf_id := id;
           wolf_x := (wolf_x v + ((ux - 0.5) * 0.05)%R)%js;
           wolf_y := (wolf_y v + ((uy - 0.5) * 0.05)%R)%js;
           wolf_age := 0; wolf_energy := 1.5;
           wolf_characteristics := wolf_characteristics v |} in
      modify (λ w, set_newWolves (newWolves w ++ [babyWolf]) w) ;;;
      store_wolf index
        (set_wolf_energy (wolf_energy v - WOLF_REPRODUCTION_COST) v)
    else ret tt
  else ret tt.

(** The callback of [ecosystem.wolves.filter]. *)
Definition wolfCallback (immortalWolf : bool) (v : Wolf) (index : nat) : M bool :=
  let v := set_wolf_age (wolf_age v + 1) v in
  let* v := wolfMove v in
  let v := set_wolf_pos (wrap (wolf_x v)) (wrap (wolf_y v)) v in
  let* v :=
    if decide (wolf_energy v < WOLF_MAX_ENERGY)%R then
      let* ecosystem := get in
      wolfHuntLoop v (length (deer ecosystem))
    else ret v in
  let v :=
    set_wolf_energy
      (Rmax 0 (wolf_energy v - wolf_EnergyNeeds (wolf_characteristics v))) v in
  store_wolf index v ;;;
  let* dies := wolfDeathCheck immortalWolf v in
  if dies : bool then ret false
  else wolfReproduce v index ;;; ret true.

Definition wolfPass (immortalWolf : bool) : M unit :=
  modify (set_newWolves []) ;;;
  let* ecosystem := get in
  let* kept :=
    filterInPlace wolves (wolfCallback immortalWolf) 0 (length (wolves ecosystem)) in
  modify (λ w, set_wolves (selected (wolves w) kept) w) ;;;
  modify (λ w, set_wolves (wolves w ++ newWolves w) w).

(** ** Update ecosystem *)

Definition updateEcosystem (precalculatedCrowdedness : option (list R))
    (immortalDeer immortalWolf : bool) : M unit :=
  treePass precalculatedCrowdedness ;;;
  deerPass immortalDeer ;;;
  wolfPass immortalWolf.

(** ** Initialization *)

Fixpoint repeatM (n : nat) (body : M unit) : M unit :=
  match n with
  | O => ret tt
  | S n => body ;;; repeatM n body
  end.

Definition initTree : M unit :=
  let* id := treeIdGenerator_next in
  let* x := random in
  let* y := random in
  let* characteristics := randomTreeCharacteristics in
  let* tree :=
    new_tree {| tree_id := id; tree_x := x; tree_y := y; tree_age := 0;
                tree_size := 0; tree_characteristics := characteristics |} in
  modify (λ w, set_trees (trees w ++ [tree]) w) ;;;
  modify (λ w, let cell := getCellOfTree (heap w tree) in
               set_grid (<[cell := default [] (grid w !! cell) ++ [tree]]> (grid w)) w).

Definition initDeer : M unit :=
  let* id := deerIdGenerator_next in
  let* x := random in
  let* y := random in
  let* characteristics := randomDeerCharacteristics in
  modify (λ w, set_deer
                 (deer w ++ [{| deer_id := id; deer_x := x; deer_y := y;
                                deer_age := 0; deer_energy := 1.5;
                                deer_characteristics := characteristics |}]) w).

Definition initWolf : M unit :=
  let* id := wolfIdGenerator_next in
  let* x := random in
  let* y := random in
  let* characteristics := randomWolfCharacteristics in
  modify (λ w, set_wolves
                 (wolves w ++ [{| wolf_id := id; wolf_x := x; wolf_y := y;
                                  wolf_age := 0; wolf_energy := 1.5;
                                  wolf_characteristics := characteristics |}]) w).

(** [initializeEcosystem()], run in a state that provides the id
    generators, the store and the random source. *)
Definition initializeEcosystem : M unit :=
  modify (set_trees []) ;;;
  modify (set_grid ∅) ;;;
  modify (set_deer []) ;;;
  modify (set_wolves []) ;;;
  modify (set_terrain generateTerrain) ;;;
  repeatM DEFAULT_TREE_COUNT initTree ;;;
  repeatM DEFAULT_DEER_COUNT initDeer ;;;
  repeatM DEFAULT_WOLF_COUNT initWolf.

(** The state after running a computation. *)
Definition exec {A} (m : M A) (w : World) : World := (m w).2.
Definition eval {A} (m : M A) (w : World) : A := (m w).1.

(** ** Concrete states used by the examples *)

Definition noTree : Tree :=
  {| tree_id := 0; tree_x := 0; tree_y := 0; tree_age := 0; tree_size := 0;
     tree_characteristics :=
       {| tree_MaxSize := 0; tree_AgeToSpread := 0; tree_SpreadDistance := 0;
          tree_DeathChance := 0; tree_SpreadChance := 0;
          tree_OptimalMoisture := 0; tree_CrowdingSusceptibility := 0 |} |}.

(** The state of the module when it is loaded: fresh id generators, no
    ecosystem yet, and [draws] as the values [Math.random()] will return. *)
Definition moduleState (draws : nat → R) : World :=
  {| trees := []; grid := ∅; deer := []; wolves := []; terrain := [];
     heap := λ _, noTree; nextLoc := 0;
     treeIdGenerator := 0; deerIdGenerator := 0; wolfIdGenerator := 0;
     rng := draws; cursor := 0;
     newTrees := []; newDeer := []; newWolves := [] |}.

(** A terrain that is uniformly dry. *)
Definition dryTerrain : list (list R) :=
  replicate (Z.to_nat GRID_SIZE) (replicate (Z.to_nat GRID_SIZE) 0%R).

(** A tree at the origin with the given optimal moisture and crowding
    susceptibility. *)
Definition sampleTree (optimalMoisture susceptibility : R) : Tree :=
  {| tree_id := 0; tree_x := 0; tree_y := 0; tree_age := 0; tree_size := 0;
     tree_characteristics :=
       {| tree_MaxSize := 5; tree_AgeToSpread := 3; tree_SpreadDistance := 0.015;
          tree_DeathChance := 0.002; tree_SpreadChance := 0.08;
          tree_OptimalMoisture := optimalMoisture;
          tree_CrowdingSusceptibility := susceptibility |} |}.

(** The distance between the local moisture and the tree's optimum, the
    argument of the last line of [getMoistureFitness]. *)
Definition moistureDistance (t : Tree) (w : World) : R :=
  Rabs (getMoisture (tree_x t) (tree_y t) (terrain w)
        - tree_OptimalMoisture (tree_characteristics t)).

(** A uniformly dry site. *)
Definition dryWorld : World := set_terrain dryTerrain (moduleState (λ _, 0%R)).

(** [t'] is [t] up to the two fields the tree pass assigns, age and size. *)
Definition same_identity (t t' : Tree) : Prop :=
  tree_id t' = tree_id t ∧ tree_x t' = tree_x t ∧ tree_y t' = tree_y t
  ∧ tree_characteristics t' = tree_characteristics t.

(** The state after tree [tree] has spawned an offspring at [(x, y)]: the
    effect of the three statements that build [newTree] and push it. *)
Definition spawned (tree : loc) (x y : R) (w : World) : World :=
  let child :=
    {| tree_id := treeIdGenerator w; tree_x := x; tree_y := y;
       tree_age := 0; tree_size := 0;
       tree_characteristics := tree_characteristics (heap w tree) |} in
  let w1 := set_treeIdGenerator (S (treeIdGenerator w)) w in
  let w2 := set_nextLoc (S (nextLoc w1)) (set_heap (<[nextLoc w1 := child]> (heap w1)) w1) in
  set_newTrees (newTrees w2 ++ [nextLoc w]) w2.

(** [d'] is the deer object [d] in a later state: same id, same
    characteristics. *)
Definition deer_kin (d d' : Deer) : Prop :=
  deer_id d' = deer_id d ∧ deer_characteristics d' = deer_characteristics d.

Definition wolf_kin (v v' : Wolf) : Prop :=
  wolf_id v' = wolf_id v ∧ wolf_characteristics v' = wolf_characteristics v.

(** The state after the deer has eaten the tree at index [i]. *)
Definition eaten (i : nat) (tree : loc) (w : World) : World :=
  let w1 := exec (deleteFromGrid (heap w tree)) w in
  set_trees (delete i (trees w1)) w1.

(** ** The grid invariant *)

(** The spatial index is exact: every tree of [ecosystem.trees] is in the
    bucket keyed by its cell, and every bucket is free of duplicates and
    holds only trees of [ecosystem.trees] whose cell is the bucket's key
    (so a tree is in exactly one bucket, exactly once, and no bucket holds
    a tree that is not live). *)
Definition grid_exact (w : World) : Prop :=
  (∀ tree, tree ∈ trees w →
     ∃ bucket, grid w !! getCellOfTree (heap w tree) = Some bucket ∧ tree ∈ bucket)
  ∧ (∀ cell bucket, grid w !! cell = Some bucket →
       NoDup bucket
       ∧ ∀ tree, tree ∈ bucket →
           tree ∈ trees w ∧ getCellOfTree (heap w tree) = cell).

(** The inductive form of the invariant, for the trees [live] that the grid
    must index and the trees [pending] that are allocated but not indexed
    yet: references are distinct and allocated, ids are distinct and were
    issued by the generator, and the grid is exact for [live]. *)
Record TInv (live pending : list loc) (w : World) : Prop := {
  ti_nodup : NoDup (live ++ pending);
  ti_ids : ∀ r1 r2,
    r1 ∈ live ++ pending → r2 ∈ live ++ pending →
    tree_id (heap w r1) = tree_id (heap w r2) → r1 = r2;
  ti_fresh : ∀ r,
    r ∈ live ++ pending →
    r < nextLoc w ∧ tree_id (heap w r) < treeIdGenerator w;
  ti_bucket : ∀ c b,
    grid w !! c = Some b →
    NoDup b ∧ ∀ r, r ∈ b → r ∈ live ∧ getCellOfTree (heap w r) = c;
  ti_indexed : ∀ r,
    r ∈ live → ∃ b, grid w !! getCellOfTree (heap w r) = Some b ∧ r ∈ b;
}.

Definition Inv (w : World) : Prop := TInv (trees w) [] w.

(** The states of a run: an ecosystem is initialized in some state of the
    module, in which [Math.random()] yields values in [0, 1), and then
    updated any number of times with any arguments. *)
Inductive reachable : World → Prop :=
  | reach_init w0 :
      (∀ n, 0 <= rng w0 n < 1)%R →
      reachable (exec initializeEcosystem w0)
  | reach_update w precalculatedCrowdedness immortalDeer immortalWolf :
      reachable w →
      reachable (exec (updateEcosystem precalculatedCrowdedness
                         immortalDeer immortalWolf) w).

(** A deer and a wolf at the origin, and a state in which they are the
    only animals. *)
Definition sampleDeer : Deer :=
  {| deer_id := 0; deer_x := 0%R; deer_y := 0%R; deer_age := 0; deer_energy := 0.5;
     deer_characteristics :=
       {| deer_MaxSize := 2; deer_Speed := 0.0015; deer_DeathChance := 0.00001;
          deer_ReproduceChance := 0.4; deer_CrowdingSusceptibility := 0.5;
          deer_MaxEatableSize := 3; deer_EnergyNeeds := 0.01 |} |}.

Definition sampleWolf : Wolf :=
  {| wolf_id := 0; wolf_x := 0%R; wolf_y := 0%R; wolf_age := 0; wolf_energy := 0.5;
     wolf_characteristics :=
       {| wolf_MaxSize := 2.5; wolf_Speed := 0.004; wolf_DeathChance := 0.00001;
          wolf_ReproduceChance := 0.05; wolf_CrowdingSusceptibility := 0.5;
          wolf_EnergyNeeds := 0.025 |} |}.

Definition lastPair (draws : nat → R) : World :=
  set_deer [sampleDeer] (set_wolves [sampleWolf] (moduleState draws)).

(** A state with one tree, two ticks old with [AgeToSpread = 3], of size 5
    with [MaxSize = 5]. *)
Definition grownTree : Tree := set_tree_size 5 (set_tree_age 2 (sampleTree 0 1)).

Definition oneTree (draws : nat → R) : World :=
  set_trees [0]
    (set_grid {[ getCellOfTree grownTree := [0] ]}
       (set_heap (λ _, grownTree)
          (set_nextLoc 1 (set_treeIdGenerator 1
             (set_terrain dryTerrain (moduleState draws)))))).

(** ** Bounds of the characteristics *)

(** Every characteristic within its declared bounds, the distance-like one
    within the declared bounds scaled by [ECOSYSTEM_SCALE]. *)
Definition treeCharacteristicsInBounds (c : TreeCharacteristics) : Prop :=
  within TREE_BOUNDS.MaxSize (tree_MaxSize c)
  ∧ within TREE_BOUNDS.AgeToSpread (tree_AgeToSpread c)
  ∧ within_scaled TREE_BOUNDS.SpreadDistance (tree_SpreadDistance c)
  ∧ within TREE_BOUNDS.DeathChance (tree_DeathChance c)
  ∧ within TREE_BOUNDS.SpreadChance (tree_SpreadChance c)
  ∧ within TREE_BOUNDS.OptimalMoisture (tree_OptimalMoisture c)
  ∧ within TREE_BOUNDS.CrowdingSusceptibility (tree_CrowdingSusceptibility c).

Definition deerCharacteristicsInBounds (c : DeerCharacteristics) : Prop :=
  within DEER_BOUNDS.MaxSize (deer_MaxSize c)
  ∧ within_scaled DEER_BOUNDS.Speed (deer_Speed c)
  ∧ within DEER_BOUNDS.DeathChance (deer_DeathChance c)
  ∧ within DEER_BOUNDS.ReproduceChance (deer_ReproduceChance c)
  ∧ within DEER_BOUNDS.CrowdingSusceptibility (deer_CrowdingSusceptibility c)
  ∧ within DEER_BOUNDS.MaxEatableSize (deer_MaxEatableSize c)
  ∧ within DEER_BOUNDS.EnergyNeeds (deer_EnergyNeeds c).

Definition wolfCharacteristicsInBounds (c : WolfCharacteristics) : Prop :=
  within WOLF_BOUNDS.MaxSize (wolf_MaxSize c)
  ∧ within_scaled WOLF_BOUNDS.Speed (wolf_Speed c)
  ∧ within WOLF_BOUNDS.DeathChance (wolf_DeathChance c)
  ∧ within WOLF_BOUNDS.ReproduceChance (wolf_ReproduceChance c)
  ∧ within WOLF_BOUNDS.CrowdingSusceptibility (wolf_CrowdingSusceptibility c)
  ∧ within WOLF_BOUNDS.EnergyNeeds (wolf_EnergyNeeds c).

(** The characteristics of the given trees, deer and wolves satisfy the
    given predicates. *)
Definition all_satisfy
    (GT : TreeCharacteristics → Prop) (GD : DeerCharacteristics → Prop)
    (GW : WolfCharacteristics → Prop)
    (ts : list loc) (ds : list Deer) (vs : list Wolf) (w : World) : Prop :=
  (∀ tree, tree ∈ ts → GT (tree_characteristics (heap w tree)))
  ∧ (∀ d, d ∈ ds → GD (deer_characteristics d))
  ∧ (∀ v, v ∈ vs → GW (wolf_characteristics v)).

(** Every live entity has its characteristics in bounds. *)
Definition bounds_respected (w : World) : Prop :=
  all_satisfy treeCharacteristicsInBounds deerCharacteristicsInBounds
    wolfCharacteristicsInBounds (trees w) (deer w) (wolves w) w.

(** A hungry deer standing exactly on an edible tree: the tree [sampleTree]
    (at the origin, size 0) is the only tree, indexed in cell (0, 0), and
    [sampleDeer] (at the origin, energy 0.5) is the only deer. *)
Definition feedingWorld (draws : nat → R) : World :=
  set_trees [0]
    (set_grid {[ (0, 0)%Z := [0] ]}
       (set_heap (λ _, sampleTree 0 1)
          (set_nextLoc 1 (set_treeIdGenerator 1
             (set_deer [sampleDeer]
                (set_terrain dryTerrain (moduleState draws))))))).

(** A hungry wolf standing exactly on a deer. *)
Definition huntingWorld (draws : nat → R) : World := lastPair draws.

(** ** Predicates of the further properties *)

(** A freshly created tree, deer, wolf. *)
Definition newborn_tree (w : World) (tree : loc) : Prop :=
  tree_age (heap w tree) = 0%R ∧ tree_size (heap w tree) = 0%R.
Definition initial_deer (d : Deer) : Prop :=
  deer_age d = 0%R ∧ deer_energy d = 1.5%R.
Definition initial_wolf (v : Wolf) : Prop :=
  wolf_age v = 0%R ∧ wolf_energy v = 1.5%R.


(** The distance from the point [(x, y)] to a tree, and to a deer with
    finite coordinates. *)
Definition distanceTo (x y tx ty : R) : R :=
  sqrt ((tx - x) * (tx - x) + (ty - y) * (ty - y)).

Definition edibleBy (d : Deer) (t : Tree) : Prop :=
  (tree_size t <= deer_MaxEatableSize (deer_characteristics d))%R.

(** The condition under which the deer eats the tree (line 741). *)
Definition canEat (d : Deer) (t : Tree) : bool :=
  Num.lt (distanceBetween (tree_x t) (tree_y t) (deer_x d) (deer_y d))
         (DEER_EATING_RADIUS_BASE * ECOSYSTEM_SCALE)%R
  && bool_decide (tree_size t <= deer_MaxEatableSize (deer_characteristics d))%R.

(** The condition under which the wolf attacks the deer (line 853). *)
Definition canKill (v : Wolf) (d : Deer) : bool :=
  Num.lt (distanceBetween (deer_x d) (deer_y d) (wolf_x v) (wolf_y v))
         (WOLF_KILL_RADIUS_BASE * ECOSYSTEM_SCALE)%R.

(** A deer one of whose coordinates is NaN. *)
Definition isNaN (a : number) : bool :=
  match a with NaN => true | _ => false end.
Definition lost (d : Deer) : bool := isNaN (deer_x d) || isNaN (deer_y d).

(** [d'] is what one call of the deer callback makes of the deer [d]. *)
Definition deerTick (d d' : Deer) : Prop :=
  deer_kin d d' ∧ deer_age d' = (deer_age d + 1)%R
  ∧ (0 <= deer_energy d')%R
  ∧ ((0 <= deer_EnergyNeeds (deer_characteristics d))%R →
     (deer_energy d' <= Rmax (deer_energy d) DEER_MAX_ENERGY)%R)
  ∧ (deer_x d = NaN → deer_x d' = NaN) ∧ (deer_y d = NaN → deer_y d' = NaN).

(** [b] is an offspring of the deer [d], born when the generator of deer
    ids is at [g]. *)
Definition deerOffspring (g : nat) (d b : Deer) : Prop :=
  deer_id b = g ∧ deer_age b = 0%R ∧ deer_energy b = 1.0%R
  ∧ deer_characteristics b = deer_characteristics d
  ∧ (deer_x d = NaN → deer_x b = NaN) ∧ (deer_y d = NaN → deer_y b = NaN).

(** The trees after the deer [d'] has eaten: unchanged, or without one
    tree that the deer could eat. *)
Definition grazed (d' : Deer) (h : loc → Tree) (ts ts' : list loc) : Prop :=
  ts' = ts
  ∨ ∃ j tree, ts !! j = Some tree ∧ canEat d' (h tree) = true ∧ ts' = delete j ts.

Definition wolfTick (v v' : Wolf) : Prop :=
  wolf_kin v v' ∧ wolf_age v' = (wolf_age v + 1)%R
  ∧ (0 <= wolf_energy v')%R
  ∧ ((0 <= wolf_EnergyNeeds (wolf_characteristics v))%R →
     (wolf_energy v' <= Rmax (wolf_energy v) WOLF_MAX_ENERGY)%R)
  ∧ (wolf_x v = NaN → wolf_x v' = NaN) ∧ (wolf_y v = NaN → wolf_y v' = NaN).

Definition wolfOffspring (g : nat) (v b : Wolf) : Prop :=
  wolf_id b = g ∧ wolf_age b = 0%R ∧ wolf_energy b = 1.5%R
  ∧ wolf_characteristics b = wolf_characteristics v.

(** The deer after the wolf [v'] has hunted: unchanged, or without one
    deer that the wolf could kill, and then there was more than one. *)
Definition hunted (v' : Wolf) (ds ds' : list Deer) : Prop :=
  ds' = ds
  ∨ ∃ j d, ds !! j = Some d ∧ canKill v' d = true ∧ length ds ≠ 1
           ∧ ds' = delete j ds.

(** The indices a filter keeps: increasing, from [index] on, at most
    [count] of them. *)
Definition keptIndices (index count : nat) (kept : list nat) : Prop :=
  StronglySorted lt kept ∧ Forall (λ i, index ≤ i) kept ∧ length kept ≤ count.

(** [t'] is what one call of the tree callback makes of the tree [t]. *)
Definition treeTick (t t' : Tree) : Prop :=
  same_identity t t' ∧ tree_age t' = (tree_age t + 1)%R
  ∧ (tree_size t <= tree_size t'
     <= Rmax (tree_size t) (tree_MaxSize (tree_characteristics t)))%R.

(** [c] is an offspring of the tree [t], made when the generator of tree
    ids is at [g]. *)
Definition treeOffspring (g : nat) (t c : Tree) : Prop :=
  tree_id c = g ∧ tree_age c = 0%R ∧ tree_size c = 0%R
  ∧ tree_characteristics c = tree_characteristics t
  ∧ (0 <= tree_x c <= 1)%R ∧ (0 <= tree_y c <= 1)%R.

(** The tree objects and the offspring collected so far, after a call of
    the tree callback that made the tree object [t'] of the tree [tree],
    without offspring and with the offspring [c]. *)
Definition treeStored (tree : loc) (t' : Tree) (w w' : World) : Prop :=
  (∀ r, heap w' r = <[tree := t']> (heap w) r)
  ∧ trees w' = trees w ∧ newTrees w' = newTrees w
  ∧ nextLoc w' = nextLoc w ∧ treeIdGenerator w' = treeIdGenerator w.

Definition treeSpawned (tree : loc) (t' c : Tree) (w w' : World) : Prop :=
  (∀ r, heap w' r = <[nextLoc w := c]> (<[tree := t']> (heap w)) r)
  ∧ trees w' = trees w ∧ newTrees w' = newTrees w ++ [nextLoc w]
  ∧ nextLoc w' = S (nextLoc w) ∧ treeIdGenerator w' = S (treeIdGenerator w).

(** [t'] is the tree object [t] in a later state: same id, position and
    characteristics, and not smaller. *)
Definition treeGrew (t t' : Tree) : Prop :=
  same_identity t t' ∧ (tree_size t <= tree_size t')%R.

(** A tree of a size between 0 and its [MaxSize], inside the unit square;
    tree objects that are allocated and such trees. *)
Definition treeOK (t : Tree) : Prop :=
  (0 <= tree_size t <= tree_MaxSize (tree_characteristics t))%R
  ∧ (0 <= tree_x t <= 1)%R ∧ (0 <= tree_y t <= 1)%R.
Definition forestOK (ts : list loc) (w : World) : Prop :=
  Forall (λ r, r < nextLoc w ∧ treeOK (heap w r)) ts.

(** A deer with its energy in range; a herd with distinct ids, all issued
    by the generator. *)
Definition deerOK (d : Deer) : Prop :=
  (0 <= deer_energy d <= DEER_MAX_ENERGY)%R
  ∧ (0 <= deer_EnergyNeeds (deer_characteristics d))%R.
Definition herdOK (ds : list Deer) (g : nat) : Prop :=
  NoDup (deer_id <$> ds) ∧ Forall (λ d, deer_id d < g ∧ deerOK d) ds.

Definition wolfOK (v : Wolf) : Prop :=
  (0 <= wolf_energy v <= WOLF_MAX_ENERGY)%R
  ∧ (0 <= wolf_EnergyNeeds (wolf_characteristics v))%R.
Definition packOK (vs : list Wolf) (g : nat) : Prop :=
  NoDup (wolf_id <$> vs) ∧ Forall (λ v, wolf_id v < g ∧ wolfOK v) vs.

Definition animalsOK (w : World) : Prop :=
  herdOK (deer w) (deerIdGenerator w) ∧ packOK (wolves w) (wolfIdGenerator w).

(** ** The actions of the user interface (App.tsx)

    The handlers of the buttons that add and remove entities, with
    [ecosystemRef.current] and [pixiAppRef.current] set (otherwise a
    handler returns at once).  The pieces of React state a handler reads
    are its arguments: the counts [addTreeCount], [addDeerCount] and
    [addWolfCount] are integers ([parseInt(...) || 0]), the percentages
    [treeCullPercent], [deerCullPercent] and [wolfCullPercent] are integers
    as well, and [sliders] is the object built from the slider positions
    and the check boxes.  [updateStatistics] and [renderTrees], called at
    the end of each handler, read the ecosystem and do not change it. *)

(** The body of the loop of [addTrees]. *)
Definition addTrees_body (sliders : TreeSliders) : M unit :=
  let* id := treeIdGenerator_next in
  let* x := random in
  let* y := random in
  let* characteristics := createTreeCharacteristics sliders in
  let* tree :=
    new_tree {| tree_id := id; tree_x := x; tree_y := y; tree_age := 0;
                tree_size := 0; tree_characteristics := characteristics |} in
  modify (λ w, set_trees (trees w ++ [tree]) w) ;;;
  modify (λ w, let cell := getCellOfTree (heap w tree) in
               set_grid (<[cell := default [] (grid w !! cell) ++ [tree]]> (grid w)) w).

Definition addTrees (count : Z) (sliders : TreeSliders) : M unit :=
  repeatM (Z.to_nat count) (addTrees_body sliders).

Definition addDeer_body (sliders : DeerSliders) : M unit :=
  let* id := deerIdGenerator_next in
  let* x := random in
  let* y := random in
  let* characteristics := createDeerCharacteristics sliders in
  modify (λ w, set_deer
                 (deer w ++ [{| deer_id := id; deer_x := x; deer_y := y;
                                deer_age := 0; deer_energy := 1.5;
                                deer_characteristics := characteristics |}]) w).

Definition addDeer (count : Z) (sliders : DeerSliders) : M unit :=
  repeatM (Z.to_nat count) (addDeer_body sliders).

Definition addWolves_body (sliders : WolfSliders) : M unit :=
  let* id := wolfIdGenerator_next in
  let* x := random in
  let* y := random in
  let* characteristics := createWolfCharacteristics sliders in
  modify (λ w, set_wolves
                 (wolves w ++ [{| wolf_id := id; wolf_x := x; wolf_y := y;
                                  wolf_age := 0; wolf_energy := 1.5;
                                  wolf_characteristics := characteristics |}]) w).

Definition addWolves (count : Z) (sliders : WolfSliders) : M unit :=
  repeatM (Z.to_nat count) (addWolves_body sliders).

(** [array[index]] for an integer index: [None] is [undefined]. *)
Definition at_index {A} (array : list A) (index : Z) : option A :=
  if decide (0 ≤ index)%Z then array !! Z.to_nat index else None.

(** [array.splice(start, 1)] for an integer [start]: a negative [start]
    counts from the end, and a [start] beyond the end removes nothing. *)
Definition splice1 {A} (start : Z) (array : list A) : list A :=
  let len := Z.of_nat (length array) in
  let actualStart :=
    if decide (start < 0)%Z then Z.max (len + start) 0 else Z.min start len in
  delete (Z.to_nat actualStart) array.

(** [Math.floor((currentCount * percent) / 100)] *)
Definition cullCount (currentCount : nat) (percent : Z) : Z :=
  (Z.of_nat currentCount * percent / 100)%Z.

(** [Math.floor(Math.random() * length)] *)
Definition randomIndexOf (u : R) (length : nat) : Z := Int_part (u * INR length).

(** The loop of [cullTrees], for [n] more iterations.  The result is
    [None] when [getCell(tree)] throws a TypeError, the tree at
    [randomIndex] being [undefined].  The removal from the grid is the
    code of [deleteFromGrid], written out in the handler. *)
Fixpoint cullTrees_loop (n : nat) : M (option unit) :=
  match n with
  | O => ret (Some tt)
  | S n =>
      let* ecosystem := get in
      if decide (length (trees ecosystem) = 0) then ret (Some tt)
      else
        let* u := random in
        let randomIndex := randomIndexOf u (length (trees ecosystem)) in
        match at_index (trees ecosystem) randomIndex with
        | Some tree =>
            let* t := read_tree tree in
            deleteFromGrid t ;;;
            modify (λ w, set_trees (splice1 randomIndex (trees w)) w) ;;;
            cullTrees_loop n
        | None => ret None
        end
  end.

Definition cullTrees (treeCullPercent : Z) : M (option unit) :=
  let* ecosystem := get in
  let currentCount := length (trees ecosystem) in
  cullTrees_loop (Z.to_nat (cullCount currentCount treeCullPercent)).

Fixpoint cullDeer_loop (n : nat) : M unit :=
  match n with
  | O => ret tt
  | S n =>
      let* ecosystem := get in
      if decide (length (deer ecosystem) = 0) then ret tt
      else
        let* u := random in
        let randomIndex := randomIndexOf u (length (deer ecosystem)) in
        modify (λ w, set_deer (splice1 randomIndex (deer w)) w) ;;;
        cullDeer_loop n
  end.

Definition cullDeer (deerCullPercent : Z) : M unit :=
  let* ecosystem := get in
  let currentCount := length (deer ecosystem) in
  cullDeer_loop (Z.to_nat (cullCount currentCount deerCullPercent)).

Fixpoint cullWolves_loop (n : nat) : M unit :=
  match n with
  | O => ret tt
  | S n =>
      let* ecosystem := get in
      if decide (length (wolves ecosystem) = 0) then ret tt
      else
        let* u := random in
        let randomIndex := randomIndexOf u (length (wolves ecosystem)) in
        modify (λ w, set_wolves (splice1 randomIndex (wolves w)) w) ;;;
        cullWolves_loop n
  end.

Definition cullWolves (wolfCullPercent : Z) : M unit :=
  let* ecosystem := get in
  let currentCount := length (wolves ecosystem) in
  cullWolves_loop (Z.to_nat (cullCount currentCount wolfCullPercent)).

Definition resetEcosystem
    (addTreeCount : Z) (treeSliders : TreeSliders)
    (addDeerCount : Z) (deerSliders : DeerSliders)
    (addWolfCount : Z) (wolfSliders : WolfSliders) : M unit :=
  modify (set_trees []) ;;;
  modify (set_grid ∅) ;;;
  modify (set_deer []) ;;;
  modify (set_wolves []) ;;;
  addTrees addTreeCount treeSliders ;;;
  addDeer addDeerCount deerSliders ;;;
  addWolves addWolfCount wolfSliders.

(** The states of a session: the ecosystem is initialized, and then
    updated or changed by a handler, any number of times in any order. *)
Inductive session : World → Prop :=
  | session_init w0 :
      (∀ n, 0 <= rng w0 n < 1)%R →
      session (exec initializeEcosystem w0)
  | session_update w precalculatedCrowdedness immortalDeer immortalWolf :
      session w →
      session (exec (updateEcosystem precalculatedCrowdedness
                       immortalDeer immortalWolf) w)
  | session_addTrees w count sliders :
      session w → session (exec (addTrees count sliders) w)
  | session_addDeer w count sliders :
      session w → session (exec (addDeer count sliders) w)
  | session_addWolves w count sliders :
      session w → session (exec (addWolves count sliders) w)
  | session_cullTrees w percent :
      session w → session (exec (cullTrees percent) w)
  | session_cullDeer w percent :
      session w → session (exec (cullDeer percent) w)
  | session_cullWolves w percent :
      session w → session (exec (cullWolves percent) w)
  | session_reset w nt st nd sd nv sv :
      session w → session (exec (resetEcosystem nt st nd sd nv sv) w).

(** ** Sample states and inputs of the further properties *)

(** The state right after [initializeEcosystem()] when every draw is 0. *)
Definition initialWorld : World := exec initializeEcosystem (moduleState (λ _, 0%R)).

(** A tree that is old enough to spread and still grows, alone on a dry
    site that suits it, with draws that let it survive (0.5 for the
    natural death) and spread (0 for the spread chance and for the new
    location). *)
Definition matureTree : Tree := set_tree_age 5 (sampleTree 0 1).

Definition seedDraws (n : nat) : R :=
  match n with O => 0.5%R | S _ => 0%R end.

Definition seedingWorld : World :=
  set_trees [0]
    (set_grid {[ (0, 0)%Z := [0] ]}
       (set_heap (λ _, matureTree)
          (set_nextLoc 1 (set_treeIdGenerator 1
             (set_terrain dryTerrain (moduleState seedDraws)))))).

(** A deer that lost its position (both coordinates NaN) and is old and
    fed enough to reproduce, alone with the tree of [feedingWorld]. *)
Definition lostDeer : Deer :=
  set_deer_pos NaN NaN (set_deer_energy 1.5 (set_deer_age 10 sampleDeer)).

Definition lostWorld : World := set_deer [lostDeer] (feedingWorld (λ _, 0%R)).

(** The point of an interval at the fraction [p] of its width. *)
Definition between (b : Bounds) (p : R) : R :=
  (bmin b + p * (bmax b - bmin b))%R.

(** Characteristics with every field at the fraction [p] of its range:
    [p = 0] gives the lower ends of the bounds, [p = 1] the upper ends. *)
Definition treeCharacteristicsAt (p : R) : TreeCharacteristics :=
  {| tree_MaxSize := between TREE_BOUNDS.MaxSize p;
     tree_AgeToSpread := between TREE_BOUNDS.AgeToSpread p;
     tree_SpreadDistance := (between TREE_BOUNDS.SpreadDistance p * ECOSYSTEM_SCALE)%R;
     tree_DeathChance := between TREE_BOUNDS.DeathChance p;
     tree_SpreadChance := between TREE_BOUNDS.SpreadChance p;
     tree_OptimalMoisture := between TREE_BOUNDS.OptimalMoisture p;
     tree_CrowdingSusceptibility := between TREE_BOUNDS.CrowdingSusceptibility p |}.

Definition deerCharacteristicsAt (p : R) : DeerCharacteristics :=
  {| deer_MaxSize := between DEER_BOUNDS.MaxSize p;
     deer_Speed := (between DEER_BOUNDS.Speed p * ECOSYSTEM_SCALE)%R;
     deer_DeathChance := between DEER_BOUNDS.DeathChance p;
     deer_ReproduceChance := between DEER_BOUNDS.ReproduceChance p;
     deer_CrowdingSusceptibility := between DEER_BOUNDS.CrowdingSusceptibility p;
     deer_MaxEatableSize := between DEER_BOUNDS.MaxEatableSize p;
     deer_EnergyNeeds := between DEER_BOUNDS.EnergyNeeds p |}.

Definition wolfCharacteristicsAt (p : R) : WolfCharacteristics :=
  {| wolf_MaxSize := between WOLF_BOUNDS.MaxSize p;
     wolf_Speed := (between WOLF_BOUNDS.Speed p * ECOSYSTEM_SCALE)%R;
     wolf_DeathChance := between WOLF_BOUNDS.DeathChance p;
     wolf_ReproduceChance := between WOLF_BOUNDS.ReproduceChance p;
     wolf_CrowdingSusceptibility := between WOLF_BOUNDS.CrowdingSusceptibility p;
     wolf_EnergyNeeds := between WOLF_BOUNDS.EnergyNeeds p |}.

(** Slider settings with every slider at the same position, or every
    slider left to chance. *)
Definition allTreeSliders (s : option R) : TreeSliders :=
  {| tree_slider_MaxSize := s; tree_slider_AgeToSpread := s;
     tree_slider_SpreadDistance := s; tree_slider_DeathChance := s;
     tree_slider_SpreadChance := s; tree_slider_OptimalMoisture := s;
     tree_slider_CrowdingSusceptibility := s |}.
Definition allDeerSliders (s : option R) : DeerSliders :=
  {| deer_slider_MaxSize := s; deer_slider_Speed := s;
     deer_slider_DeathChance := s; deer_slider_ReproduceChance := s;
     deer_slider_CrowdingSusceptibility := s;
     deer_slider_MaxEatableSize := s; deer_slider_EnergyNeeds := s |}.
Definition allWolfSliders (s : option R) : WolfSliders :=
  {| wolf_slider_MaxSize := s; wolf_slider_Speed := s;
     wolf_slider_DeathChance := s; wolf_slider_ReproduceChance := s;
     wolf_slider_CrowdingSusceptibility := s; wolf_slider_EnergyNeeds := s |}.

(** The largest draw [Math.random()] can make: the double just below 1. *)
Definition largestDraw : R := (1 - / 2 ^ 53)%R.

(** ** Specifications of computations *)

(** [hoare P m Q]: from a state satisfying [P], [m] returns a value and a
    state related by [Q].  All computations are total functions, so this
    is total correctness. *)
Definition hoare {A} (P : World → Prop) (m : M A) (Q : A → World → Prop) : Prop :=
  ∀ w, P w → Q (m w).1 (m w).2.

(** [preserves P m]: [m] maintains the invariant [P]. *)
Definition preserves {A} (P : World → Prop) (m : M A) : Prop :=
  hoare P m (λ _, P).

(** * Properties *)

(** ** Arithmetic helpers *)

Lemma Int_part_IZR (z : Z) : Int_part (IZR z) = z.
Proof. symmetry. apply Int_part_spec. lra. Qed.

Lemma Rmax_0_nonneg (v : R) : (0 <= Rmax 0 v)%R.
Proof. apply Rmax_l. Qed.

(** ** Moisture fitness (C3) *)

Section MoistureFitness.
Local Open Scope R_scope.

Lemma getMoistureFitness_eq t w :
  getMoistureFitness t w = Rmax 0 (1 - moistureDistance t w * 2).
Proof. reflexivity. Qed.

Lemma moistureDistance_nonneg t w : 0 <= moistureDistance t w.
Proof. apply Rabs_pos. Qed.

Lemma getMoistureFitness_range t w : 0 <= getMoistureFitness t w <= 1.
Proof.
  rewrite getMoistureFitness_eq. pose proof (moistureDistance_nonneg t w).
  split; [apply Rmax_l | apply Rmax_lub; lra].
Qed.

Lemma getMoistureFitness_antitone t w t' w' :
  moistureDistance t w <= moistureDistance t' w' →
  getMoistureFitness t' w' <= getMoistureFitness t w.
Proof.
  intros Hd. rewrite !getMoistureFitness_eq.
  apply Rle_max_compat_l. lra.
Qed.

Lemma getMoistureFitness_far t w :
  1 / 2 <= moistureDistance t w → getMoistureFitness t w = 0.
Proof. intros Hd. rewrite getMoistureFitness_eq. apply Rmax_left. lra. Qed.

Lemma getMoistureFitness_near t w :
  moistureDistance t w < 1 / 2 →
  getMoistureFitness t w = 1 - moistureDistance t w * 2
  ∧ 0 < getMoistureFitness t w.
Proof.
  intros Hd. rewrite getMoistureFitness_eq.
  rewrite Rmax_right by lra. split; [reflexivity | lra].
Qed.

Lemma dryWorld_distance : moistureDistance (sampleTree 1 1) dryWorld = 1.
Proof.
  unfold moistureDistance, getMoisture. cbn [sampleTree tree_x tree_y].
  rewrite Rmult_0_l, (Int_part_IZR 0).
  change (Rabs (0 - 1) = 1).
  replace (0 - 1) with (- (1)) by lra.
  rewrite Rabs_Ropp. apply Rabs_R1.
Qed.

(** C3, as stated, fails: at total mismatch the fitness is not strictly
    positive.  A tree whose optimum is 1 on a site of moisture 0 has
    fitness exactly 0. *)
Lemma moisture_fitness_no_positive_floor :
  ¬ (0 < getMoistureFitness (sampleTree 1 1) dryWorld).
Proof.
  rewrite getMoistureFitness_far; [lra |].
  rewrite dryWorld_distance. lra.
Qed.

(** C3 (amended).  The moisture fitness of a tree is
    [max(0, 1 - 2 * d)] for [d] the absolute difference between the local
    moisture and the tree's [OptimalMoisture]: it lies in [0, 1], it is
    exactly 1 when [d = 0], it never increases when [d] grows, it is
    positive while [d < 1/2], and it is 0 (no positive floor) from
    [d = 1/2] on. *)
Theorem moisture_fitness_shape (t : Tree) (w : World) :
  getMoistureFitness t w = Rmax 0 (1 - moistureDistance t w * 2)
  ∧ 0 <= getMoistureFitness t w <= 1
  ∧ (moistureDistance t w = 0 → getMoistureFitness t w = 1)
  ∧ (∀ t' w', moistureDistance t w <= moistureDistance t' w' →
              getMoistureFitness t' w' <= getMoistureFitness t w)
  ∧ (moistureDistance t w < 1 / 2 → 0 < getMoistureFitness t w)
  ∧ (1 / 2 <= moistureDistance t w → getMoistureFitness t w = 0).
Proof.
  split; [reflexivity |].
  split; [apply getMoistureFitness_range |].
  split.
  { intros H0. destruct (getMoistureFitness_near t w) as [-> _]; lra. }
  split; [intros t' w'; apply getMoistureFitness_antitone |].
  split; [intros Hd; apply getMoistureFitness_near, Hd |].
  apply getMoistureFitness_far.
Qed.

(** The amended statement at a perfect match: a tree with optimum 0 on
    the dry site. *)
Lemma moisture_fitness_shape_witness :
  getMoistureFitness (sampleTree 0 1) dryWorld = 1.
Proof.
  apply (moisture_fitness_shape (sampleTree 0 1) dryWorld).
  unfold moistureDistance, getMoisture. cbn [sampleTree tree_x tree_y].
  rewrite Rmult_0_l, (Int_part_IZR 0).
  change (Rabs (0 - 0) = 0).
  rewrite Rminus_diag. apply Rabs_R0.
Defined.
End MoistureFitness.

(** ** Growth under crowding (C6) *)

Section Growth.
Local Open Scope R_scope.

Lemma normalizedSusceptibility_range t :
  within TREE_BOUNDS.CrowdingSusceptibility
    (tree_CrowdingSusceptibility (tree_characteristics t)) →
  0 <= normalizedSusceptibility t <= 1.
Proof.
  unfold within, normalizedSusceptibility. cbn [bmin bmax TREE_BOUNDS.CrowdingSusceptibility].
  intros [Hlo Hhi]. split.
  - apply Rmult_le_pos; [lra |]. apply Rlt_le, Rinv_0_lt_compat. lra.
  - apply (Rmult_le_reg_r (2.0 - 0.5)); [lra |].
    unfold Rdiv. rewrite Rmult_assoc, Rinv_l by lra. lra.
Qed.

Lemma crowdingEffect_range t :
  within TREE_BOUNDS.CrowdingSusceptibility
    (tree_CrowdingSusceptibility (tree_characteristics t)) →
  MIN_CROWDING_GROWTH_REDUCTION <= crowdingEffect t <= 1.
Proof.
  intros Hin. apply normalizedSusceptibility_range in Hin.
  unfold crowdingEffect, MIN_CROWDING_GROWTH_REDUCTION. nra.
Qed.

Lemma crowdingEffect_max o : crowdingEffect (sampleTree o 2.0) = 1.
Proof.
  unfold crowdingEffect, normalizedSusceptibility, MIN_CROWDING_GROWTH_REDUCTION.
  cbn [sampleTree tree_characteristics tree_CrowdingSusceptibility
       bmin bmax TREE_BOUNDS.CrowdingSusceptibility].
  lra.
Qed.

Lemma treeGrowth_crowded t fitness crowd :
  0 < crowd →
  treeGrowth t fitness (Some crowd)
  = 1.0 * fitness * (1 - crowd * crowdingEffect t).
Proof.
  intros Hc. unfold treeGrowth. destruct (decide (crowd > 0)); [reflexivity | lra].
Qed.

(** C6, as stated, fails: there is no ceiling below total loss.  A tree of
    maximal susceptibility (2.0, inside the bounds) at density 1 has its
    whole growth removed, whatever its moisture fitness. *)
Lemma crowding_can_cost_everything :
  within TREE_BOUNDS.CrowdingSusceptibility
    (tree_CrowdingSusceptibility (tree_characteristics (sampleTree 0 2.0)))
  ∧ 1 * crowdingEffect (sampleTree 0 2.0) = 1
  ∧ treeGrowth (sampleTree 0 2.0) 1 (Some 1) = 0.
Proof.
  split.
  { unfold within.
    cbn [sampleTree tree_characteristics tree_CrowdingSusceptibility
         bmin bmax TREE_BOUNDS.CrowdingSusceptibility]. lra. }
  split.
  - rewrite crowdingEffect_max. lra.
  - rewrite treeGrowth_crowded by lra. rewrite crowdingEffect_max. lra.
Qed.

(** C6 (amended).  For a tree whose [CrowdingSusceptibility] is within its
    bounds and a density in (0, 1], growth is
    [1.0 * fitness * (1 - density * crowdingEffect)] with
    [crowdingEffect = 0.25 + 0.75 * normalized susceptibility]; the
    reduction [density * crowdingEffect] is at least [0.25 * density]
    (positive even at minimal susceptibility) and at most [density], hence
    at most 1: total loss is the ceiling, reached at maximal
    susceptibility and density 1. *)
Theorem growth_reduction_bounds (t : Tree) (fitness crowd : R) :
  within TREE_BOUNDS.CrowdingSusceptibility
    (tree_CrowdingSusceptibility (tree_characteristics t)) →
  0 < crowd <= 1 →
  treeGrowth t fitness (Some crowd)
    = 1.0 * fitness * (1 - crowd * crowdingEffect t)
  ∧ crowdingEffect t
    = MIN_CROWDING_GROWTH_REDUCTION
      + (1 - MIN_CROWDING_GROWTH_REDUCTION) * normalizedSusceptibility t
  ∧ 0 < MIN_CROWDING_GROWTH_REDUCTION * crowd <= crowd * crowdingEffect t
  ∧ crowd * crowdingEffect t <= crowd
  ∧ crowd * crowdingEffect t <= 1.
Proof.
  intros Hin [Hc0 Hc1].
  pose proof (crowdingEffect_range t Hin) as [Hlo Hhi].
  unfold MIN_CROWDING_GROWTH_REDUCTION in *.
  split; [apply treeGrowth_crowded, Hc0 |].
  split; [unfold crowdingEffect, MIN_CROWDING_GROWTH_REDUCTION; lra |].
  repeat split; nra.
Qed.

Lemma growth_reduction_bounds_witness :
  treeGrowth (sampleTree 0 0.5) 1 (Some 1)
    = 1.0 * 1 * (1 - 1 * crowdingEffect (sampleTree 0 0.5))
  ∧ crowdingEffect (sampleTree 0 0.5)
    = MIN_CROWDING_GROWTH_REDUCTION
      + (1 - MIN_CROWDING_GROWTH_REDUCTION)
        * normalizedSusceptibility (sampleTree 0 0.5)
  ∧ 0 < MIN_CROWDING_GROWTH_REDUCTION * 1 <= 1 * crowdingEffect (sampleTree 0 0.5)
  ∧ 1 * crowdingEffect (sampleTree 0 0.5) <= 1
  ∧ 1 * crowdingEffect (sampleTree 0 0.5) <= 1.
Proof.
  apply (growth_reduction_bounds (sampleTree 0 0.5) 1 1).
  - unfold within.
    cbn [sampleTree tree_characteristics tree_CrowdingSusceptibility
         bmin bmax TREE_BOUNDS.CrowdingSusceptibility]. lra.
  - lra.
Defined.
End Growth.

(** ** Crowdedness (C7) *)

Section Crowdedness.
Local Open Scope R_scope.

(** A neighbour inside the radius contributes a positive proximity. *)
Lemma proximity_pos (maxDistance distanceSquared : R) :
  0 <= distanceSquared →
  distanceSquared < maxDistance * maxDistance →
  0 < (maxDistance - sqrt distanceSquared) / maxDistance.
Proof.
  intros Hd Hlt.
  assert (Hs : sqrt distanceSquared < Rabs maxDistance).
  { rewrite <- sqrt_Rsqr_abs. apply sqrt_lt_1_alt. unfold Rsqr. lra. }
  pose proof (sqrt_pos distanceSquared) as Hs0.
  unfold Rabs in Hs. destruct (Rcase_abs maxDistance) as [Hneg | Hpos].
  - replace ((maxDistance - sqrt distanceSquared) / maxDistance)
      with ((sqrt distanceSquared - maxDistance) / (- maxDistance)).
    + apply Rdiv_lt_0_compat; lra.
    + field. lra.
  - apply Rdiv_lt_0_compat; lra.
Qed.

Lemma crowdednessVisit_mono tree acc t : acc <= crowdednessVisit tree acc t.
Proof.
  unfold crowdednessVisit.
  destruct (decide (tree_id t = tree_id tree)); [lra |].
  destruct (decide (tree_size t <= tree_size tree)); [lra |].
  cbv zeta.
  destruct (decide (_ < _)) as [Hlt | _]; [| lra].
  match type of Hlt with
  | ?d < _ =>
      assert (H0 : 0 <= d) by (apply Rplus_le_le_0_compat; apply pow2_ge_0)
  end.
  pose proof (proximity_pos _ _ H0 Hlt). lra.
Qed.

Lemma crowdedness_bucket_mono tree (h : loc → Tree) (l : list loc) acc :
  acc <= foldl (λ acc t, crowdednessVisit tree acc (h t)) acc l.
Proof.
  revert acc. induction l as [| r l IH]; intros acc; cbn [foldl]; [lra |].
  etransitivity; [apply (crowdednessVisit_mono tree acc (h r)) | apply IH].
Qed.

Lemma crowdedness_cells_mono tree w cellX cellY (cells : list (Z * Z)) acc :
  acc <= foldl (λ acc '(dx, dy),
                  let trees := default [] (grid w !! ((cellX + dx)%Z, (cellY + dy)%Z)) in
                  foldl (λ acc t, crowdednessVisit tree acc (heap w t)) acc trees)
               acc cells.
Proof.
  revert acc. induction cells as [| [dx dy] cells IH]; intros acc; cbn [foldl]; [lra |].
  etransitivity; [| apply IH]. apply crowdedness_bucket_mono.
Qed.

(** C7.  The crowdedness computed for any tree in any ecosystem lies in
    [0, 1]: every neighbour visited leaves the running sum unchanged or
    increases it, and the total is clamped to at most 1. *)
Theorem crowdedness_range (tree : Tree) (w : World) :
  0 <= crowdedness tree w <= 1
  ∧ ∀ acc t, acc <= crowdednessVisit tree acc t.
Proof.
  split; [| intros; apply crowdednessVisit_mono].
  unfold crowdedness. destruct (getCellOfTree tree) as [cellX cellY].
  cbv zeta. split.
  - apply Rmin_glb; [lra | apply crowdedness_cells_mono].
  - apply Rmin_l.
Qed.
End Crowdedness.

(** ** Reasoning about computations in [M] *)

Section Hoare.
Context {A : Type}.

Lemma hoare_conseq (P P' : World → Prop) (Q Q' : A → World → Prop) m :
  hoare P' m Q' → (∀ w, P w → P' w) → (∀ a w, Q' a w → Q a w) → hoare P m Q.
Proof. intros Hm HP HQ w Hw. apply HQ, Hm, HP, Hw. Qed.

Lemma hoare_ret (P : World → Prop) (Q : A → World → Prop) (a : A) :
  (∀ w, P w → Q a w) → hoare P (ret a) Q.
Proof. intros H w Hw. apply H, Hw. Qed.

Lemma preserves_ret P (a : A) : preserves P (ret a).
Proof. apply hoare_ret. auto. Qed.
End Hoare.

Lemma bind_eq {A B} (m : M A) (k : A → M B) w :
  bind m k w = k (m w).1 (m w).2.
Proof. unfold bind. destruct (m w). reflexivity. Qed.

Lemma bind_run {A B} (m : M A) (k : A → M B) w a w' :
  m w = (a, w') → bind m k w = k a w'.
Proof. intros Hm. by rewrite bind_eq, Hm. Qed.

Lemma hoare_bind {A B} (P : World → Prop) (R : A → World → Prop)
    (Q : B → World → Prop) (m : M A) (k : A → M B) :
  hoare P m R → (∀ a, hoare (R a) (k a) Q) → hoare P (bind m k) Q.
Proof. intros Hm Hk w Hw. rewrite bind_eq. apply Hk, Hm, Hw. Qed.

Lemma preserves_bind {A B} P (m : M A) (k : A → M B) :
  preserves P m → (∀ a, preserves P (k a)) → preserves P (bind m k).
Proof. intros Hm Hk. eapply hoare_bind; [apply Hm | apply Hk]. Qed.

Lemma hoare_get (P : World → Prop) (Q : World → World → Prop) :
  (∀ w, P w → Q w w) → hoare P get Q.
Proof. intros H w Hw. apply H, Hw. Qed.

Lemma preserves_get P : preserves P get.
Proof. apply hoare_get. auto. Qed.

Lemma hoare_modify (P : World → Prop) (Q : unit → World → Prop) f :
  (∀ w, P w → Q tt (f w)) → hoare P (modify f) Q.
Proof. intros H w Hw. apply H, Hw. Qed.

Lemma preserves_modify (P : World → Prop) f :
  (∀ w, P w → P (f w)) → preserves P (modify f).
Proof. intros H w Hw. apply H, Hw. Qed.

(** Binding a state snapshot: the continuation may use that the snapshot
    is the current state. *)
Lemma hoare_bind_get {B} (P : World → Prop) (Q : B → World → Prop) (k : World → M B) :
  (∀ w0, hoare (λ w, P w ∧ w = w0) (k w0) Q) → hoare P (bind get k) Q.
Proof. intros Hk w Hw. rewrite bind_eq. cbn. apply (Hk w). auto. Qed.

Lemma exec_bind {A B} (m : M A) (k : A → M B) w :
  exec (bind m k) w = exec (k (eval m w)) (exec m w).
Proof. unfold exec, eval. rewrite bind_eq. reflexivity. Qed.

Lemma eval_bind {A B} (m : M A) (k : A → M B) w :
  eval (bind m k) w = eval (k (eval m w)) (exec m w).
Proof. unfold exec, eval. rewrite bind_eq. reflexivity. Qed.

Lemma preserves_exec {A} P (m : M A) w : preserves P m → P w → P (exec m w).
Proof. intros Hm Hw. apply (Hm w Hw). Qed.

(** One step of a syntax-directed proof that a computation preserves an
    invariant: split binds, discharge the primitives, and case on the
    conditions. *)
Ltac pres_step :=
  lazymatch goal with
  | |- preserves _ (bind _ _) => apply preserves_bind; [| intros ?]
  | |- preserves _ (ret _) => apply preserves_ret
  | |- preserves _ get => apply preserves_get
  | |- preserves _ (modify _) => apply preserves_modify; intros ? ?
  | |- preserves _ (if ?c then _ else _) => destruct c
  | |- preserves _ (match ?x with _ => _ end) => destruct x
  | |- preserves _ (let _ := _ in _) => cbv zeta
  end.

Section BasicFrames.
Variable P : World → Prop.
(** [P] does not depend on the position in the stream of draws ... *)
Hypothesis P_cursor : ∀ n w, P w → P (set_cursor n w).

Lemma preserves_random : preserves P random.
Proof. intros w Hw. apply P_cursor, Hw. Qed.

Lemma preserves_randomInRange lo hi : preserves P (randomInRange lo hi).
Proof. unfold randomInRange. pres_step; [apply preserves_random | pres_step]. Qed.

Lemma preserves_randomStep x y speed : preserves P (randomStep x y speed).
Proof. unfold randomStep. pres_step; [apply preserves_random | pres_step]. Qed.
End BasicFrames.

Lemma preserves_filterM {A} P (callback : A → nat → M bool) l index :
  (∀ a i, a ∈ l → preserves P (callback a i)) →
  preserves P (filterM callback l index).
Proof.
  revert index. induction l as [| a l IH]; intros index Hcb; cbn [filterM].
  - apply preserves_ret.
  - apply preserves_bind; [apply Hcb; left |]. intros keep.
    apply preserves_bind; [apply IH; intros; apply Hcb; right; done |].
    intros rest. apply preserves_ret.
Qed.

Lemma preserves_forEach {A} P (callback : A → M unit) l :
  (∀ a, a ∈ l → preserves P (callback a)) → preserves P (forEach callback l).
Proof.
  induction l as [| a l IH]; intros Hcb; cbn [forEach].
  - apply preserves_ret.
  - apply preserves_bind; [apply Hcb; left |]. intros _.
    apply IH. intros; apply Hcb; right; done.
Qed.

Lemma preserves_filterInPlace {A} P (array : World → list A) callback index count :
  (∀ a i, preserves P (callback a i)) →
  preserves P (filterInPlace array callback index count).
Proof.
  intros Hcb. revert index. induction count as [| count IH]; intros index;
    cbn [filterInPlace].
  - apply preserves_ret.
  - apply preserves_bind; [apply preserves_get |]. intros w0.
    destruct (array w0 !! index).
    + apply preserves_bind; [apply Hcb |]. intros keep.
      apply preserves_bind; [apply IH |]. intros rest. apply preserves_ret.
    + apply IH.
Qed.

Lemma preserves_repeatM P n body : preserves P body → preserves P (repeatM n body).
Proof.
  intros Hb. induction n as [| n IH]; cbn [repeatM].
  - apply preserves_ret.
  - apply preserves_bind; [apply Hb | intros _; apply IH].
Qed.

(** ** The tree callback, for an arbitrary invariant *)

Section TreeReproduce.
Variables (tree : loc) (Q : World → Prop).
Hypothesis Q_cursor : ∀ n w, Q w → Q (set_cursor n w).
Hypothesis Q_spawn : ∀ x y w, Q w → Q (spawned tree x y w).

(** The invariant together with the knowledge of the object read. *)
Let Qat (t : Tree) : World → Prop := λ w, Q w ∧ heap w tree = t.

Lemma Qat_cursor t n w : Qat t w → Qat t (set_cursor n w).
Proof. intros [Hw Ht]. split; [apply Q_cursor, Hw | exact Ht]. Qed.

Lemma Qat_newLocation t t' : preserves (Qat t) (newLocation t').
Proof.
  unfold newLocation. cbv zeta.
  repeat (first [apply preserves_random, Qat_cursor | pres_step]).
Qed.

Lemma treeReproduce_spec : preserves Q (treeReproduce tree).
Proof.
  unfold treeReproduce.
  eapply hoare_bind with (R := Qat); [by intros w Hw |]. intros t.
  destruct (decide (_ > _)%R); [| apply hoare_ret; by intros w [Hw _]].
  eapply hoare_bind; [apply preserves_get |]. intros ecosystem. cbv zeta.
  eapply hoare_bind; [apply preserves_random, Qat_cursor |]. intros u.
  destruct (decide (u < _)%R); [| apply hoare_ret; by intros w [Hw _]].
  eapply hoare_bind; [apply Qat_newLocation |].
  intros [[x y] |]; [| apply hoare_ret; by intros w [Hw _]].
  intros w [Hw <-]. rewrite !bind_eq. exact (Q_spawn x y w Hw).
Qed.
End TreeReproduce.

Section TreeCallback.
Variables (tree : loc) (Q Qd : World → Prop).
Hypothesis Q_cursor : ∀ n w, Q w → Q (set_cursor n w).
Hypothesis Q_size : ∀ size w,
  Q w → Q (set_heap (<[tree := set_tree_size size (heap w tree)]> (heap w)) w).
Hypothesis Q_age : ∀ w,
  Q w →
  Q (set_heap (<[tree := set_tree_age (tree_age (heap w tree) + 1) (heap w tree)]>
                 (heap w)) w).
Hypothesis Q_delete : ∀ w, Q w → Qd (exec (deleteFromGrid (heap w tree)) w).
Hypothesis Q_reproduce : preserves Q (treeReproduce tree).

Lemma Q_delete_read (b : bool) :
  hoare Q (let* t := read_tree tree in deleteFromGrid t ;;; ret b)
        (λ r w, r = b ∧ Qd w).
Proof.
  eapply hoare_bind with (R := λ t w, Q w ∧ heap w tree = t); [by intros w Hw |].
  intros t.
  eapply hoare_bind with (R := λ _, Qd); [| intros ?; by apply hoare_ret].
  intros w [Hw <-]. apply Q_delete, Hw.
Qed.

Lemma treeGrow_spec pre index :
  hoare Q (treeGrow pre tree index) (λ dead w, if dead : bool then Qd w else Q w).
Proof.
  unfold treeGrow.
  eapply hoare_bind with (R := λ _, Q); [by intros w Hw |]. intros t.
  eapply hoare_bind; [apply preserves_get |]. intros ecosystem. cbv zeta.
  eapply hoare_bind with (R := λ _, Q).
  { apply preserves_modify. intros w Hw. apply Q_size, Hw. }
  intros ?. cbv beta.
  destruct (match pre with Some p => p !! index | None => _ end) as [crowd |];
    [| by apply hoare_ret].
  destruct (decide (crowd > 0)%R); [| by apply hoare_ret].
  eapply hoare_bind; [apply preserves_random, Q_cursor |]. intros u.
  destruct (decide (u < _)%R); [| by apply hoare_ret].
  eapply hoare_conseq; [apply (Q_delete_read true) | done |].
  by intros ? w [-> Hw].
Qed.

Lemma treeSurvive_spec :
  hoare Q (treeSurvive tree) (λ keep w, if keep : bool then Q w else Qd w).
Proof.
  unfold treeSurvive.
  eapply hoare_bind with (R := λ t w, Q w ∧ heap w tree = t); [by intros w Hw |].
  intros t.
  eapply hoare_bind.
  { apply (preserves_random (λ w, Q w ∧ heap w tree = t)).
    intros n w [Hw Ht]. split; [apply Q_cursor, Hw | exact Ht]. }
  intros u.
  destruct (decide (u < _)%R).
  - eapply hoare_bind with (R := λ _, Qd); [| intros ?; by apply hoare_ret].
    intros w [Hw <-]. apply Q_delete, Hw.
  - eapply hoare_bind with (R := λ _, Q); [| intros ?; by apply hoare_ret].
    eapply hoare_conseq; [apply Q_reproduce | by intros w [Hw _] | done].
Qed.

Lemma treeAfterAging_spec pre index :
  hoare Q (treeAfterAging pre tree index)
        (λ keep w, if keep : bool then Q w else Qd w).
Proof.
  unfold treeAfterAging.
  eapply hoare_bind with (R := λ _, Q); [by intros w Hw |]. intros t.
  eapply hoare_bind with (R := λ dead w, if dead : bool then Qd w else Q w).
  { destruct (decide (_ < _)%R); [apply treeGrow_spec | by apply hoare_ret]. }
  intros [|]; [by apply hoare_ret | apply treeSurvive_spec].
Qed.

Lemma treeCallback_spec pre index :
  hoare Q (treeCallback pre tree index)
        (λ keep w, if keep : bool then Q w else Qd w).
Proof.
  unfold treeCallback.
  eapply hoare_bind with (R := λ _, Q); [| intros ?; apply treeAfterAging_spec].
  apply preserves_modify. intros w Hw. apply Q_age, Hw.
Qed.
End TreeCallback.

(** ** The deer callback, for an arbitrary invariant *)

Lemma deleteFromGrid_frame (t : Tree) (w : World) :
  let w' := exec (deleteFromGrid t) w in
  trees w' = trees w ∧ deer w' = deer w ∧ wolves w' = wolves w
  ∧ heap w' = heap w ∧ terrain w' = terrain w ∧ nextLoc w' = nextLoc w
  ∧ treeIdGenerator w' = treeIdGenerator w
  ∧ deerIdGenerator w' = deerIdGenerator w
  ∧ wolfIdGenerator w' = wolfIdGenerator w
  ∧ rng w' = rng w ∧ cursor w' = cursor w ∧ newTrees w' = newTrees w
  ∧ newDeer w' = newDeer w ∧ newWolves w' = newWolves w.
Proof.
  unfold exec, deleteFromGrid. cbv zeta.
  destruct (grid w !! getCellOfTree t) as [cell |]; [| done].
  destruct (list_find _ cell) as [[index ?] |]; done.
Qed.

Section DeerCallback.
Variables (index : nat) (d0 : Deer) (Q : World → Prop).
Hypothesis Q_cursor : ∀ n w, Q w → Q (set_cursor n w).
Hypothesis Q_eat : ∀ i tree w, Q w → trees w !! i = Some tree → Q (eaten i tree w).
Hypothesis Q_store : ∀ d w,
  Q w → deer_kin d0 d → Q (set_deer (<[index := d]> (deer w)) w).
Hypothesis Q_deerId : ∀ n w, Q w → Q (set_deerIdGenerator n w).
Hypothesis Q_baby : ∀ b w,
  Q w → deer_characteristics b = deer_characteristics d0 →
  Q (set_newDeer (newDeer w ++ [b]) w).

(** The invariant, and the local deer being the object of the callback. *)
Let Qk (d : Deer) : World → Prop := λ w, Q w ∧ deer_kin d0 d.

Lemma Qk_randomStep d :
  deer_kin d0 d →
  hoare Q (let* '(x, y) := randomStep (deer_x d) (deer_y d)
                             (deer_Speed (deer_characteristics d)) in
           ret (set_deer_pos x y d)) Qk.
Proof.
  intros Hk.
  eapply hoare_bind; [apply preserves_randomStep, Q_cursor |].
  intros [x y]. apply hoare_ret. intros w Hw. by split.
Qed.

Lemma deerFleeStep_spec d v : deer_kin d0 d → hoare Q (deerFleeStep d v) Qk.
Proof.
  intros Hk. unfold deerFleeStep. cbv zeta.
  destruct (Num.gt _ _).
  - apply hoare_ret. intros w Hw. by split.
  - by apply Qk_randomStep.
Qed.

Lemma deerMove_spec d : deer_kin d0 d → hoare Q (deerMove d) Qk.
Proof.
  intros Hk. unfold deerMove.
  eapply hoare_bind; [apply preserves_get |]. intros ecosystem. cbv zeta.
  destruct (decide (_ < _)%R).
  - destruct (nearestEdibleTree _ _ _).
    + apply hoare_ret. intros w Hw. by split.
    + by apply Qk_randomStep.
  - destruct (nearestWolfOf _ _).
    + by apply deerFleeStep_spec.
    + by apply Qk_randomStep.
Qed.

Lemma deerEatLoop_spec d i : deer_kin d0 d → hoare Q (deerEatLoop d i) Qk.
Proof.
  intros Hk. induction i as [| i IH]; cbn [deerEatLoop].
  - apply hoare_ret. intros w Hw. by split.
  - apply hoare_bind_get. intros w0.
    destruct (trees w0 !! i) as [tree |] eqn:Hi.
    + cbv zeta. destruct (_ && _).
      * intros w [Hw ->]. rewrite !bind_eq. split; [| done].
        apply (Q_eat i tree w0 Hw Hi).
      * eapply hoare_conseq; [apply IH | by intros w [Hw _] | done].
    + eapply hoare_conseq; [apply IH | by intros w [Hw _] | done].
Qed.

Lemma deerDeathCheck_spec immortalDeer d : preserves Q (deerDeathCheck immortalDeer d).
Proof.
  unfold deerDeathCheck.
  eapply hoare_bind; [apply preserves_get |]. intros ecosystem. cbv zeta.
  destruct (negb _); [| apply preserves_ret].
  eapply hoare_bind; [apply preserves_random, Q_cursor |].
  intros u. apply preserves_ret.
Qed.

Lemma deerReproduce_spec d : deer_kin d0 d → preserves Q (deerReproduce d index).
Proof.
  intros Hk. unfold deerReproduce.
  destruct (_ && _); [| apply preserves_ret].
  eapply hoare_bind; [apply preserves_random, Q_cursor |]. intros u.
  destruct (decide (u < _)%R); [| apply preserves_ret].
  eapply hoare_bind with (R := λ _, Q).
  { intros w Hw. apply Q_deerId, Hw. }
  intros id.
  eapply hoare_bind; [apply preserves_random, Q_cursor |]. intros ux.
  eapply hoare_bind; [apply preserves_random, Q_cursor |]. intros uy.
  cbv zeta.
  eapply hoare_bind with (R := λ _, Q).
  - apply preserves_modify. intros w Hw. apply Q_baby; [done |]. apply Hk.
  - intros ?. apply preserves_modify. intros w Hw. apply Q_store; [done |].
    split; apply Hk.
Qed.

Lemma deerCallback_preserves immortalDeer :
  preserves Q (deerCallback immortalDeer d0 index).
Proof.
  unfold deerCallback. cbv zeta.
  eapply hoare_bind.
  { apply (deerMove_spec (set_deer_age (deer_age d0 + 1) d0)). by split. }
  intros d1.
  eapply hoare_bind with (R := Qk).
  { destruct (decide (_ < _)%R).
    - intros w [Hw Hk]. rewrite bind_eq.
      apply (deerEatLoop_spec (set_deer_pos _ _ d1)); [by split; apply Hk | done].
    - apply hoare_ret. intros w [Hw Hk]. split; [done |]. split; apply Hk. }
  intros d2.
  eapply hoare_bind with (R := λ _, Qk d2).
  { intros w [Hw Hk]. split; [| done]. apply Q_store; [done |]. split; apply Hk. }
  intros ?.
  eapply hoare_bind with (R := λ _, Qk d2).
  { intros w [Hw Hk]. split; [| done]. by apply deerDeathCheck_spec. }
  intros [|]; [apply hoare_ret; by intros w [Hw _] |].
  eapply hoare_bind with (R := λ _, Q); [| intros ?; apply preserves_ret].
  intros w [Hw Hk]. apply deerReproduce_spec; [| done]. split; apply Hk.
Qed.
End DeerCallback.

(** ** The wolf callback, for an arbitrary invariant *)

Section WolfCallback.
Variables (index : nat) (v0 : Wolf) (Q : World → Prop).
Hypothesis Q_cursor : ∀ n w, Q w → Q (set_cursor n w).
Hypothesis Q_kill : ∀ i w,
  Q w → length (deer w) ≠ 1 → is_Some (deer w !! i) →
  Q (set_deer (delete i (deer w)) w).
Hypothesis Q_store : ∀ v w,
  Q w → wolf_kin v0 v → Q (set_wolves (<[index := v]> (wolves w)) w).
Hypothesis Q_wolfId : ∀ n w, Q w → Q (set_wolfIdGenerator n w).
Hypothesis Q_baby : ∀ b w,
  Q w → wolf_characteristics b = wolf_characteristics v0 →
  Q (set_newWolves (newWolves w ++ [b]) w).

Let Qk (v : Wolf) : World → Prop := λ w, Q w ∧ wolf_kin v0 v.

Lemma Qk_wolf_randomStep v :
  wolf_kin v0 v →
  hoare Q (let* '(x, y) := randomStep (wolf_x v) (wolf_y v)
                             (wolf_Speed (wolf_characteristics v)) in
           ret (set_wolf_pos x y v)) Qk.
Proof.
  intros Hk.
  eapply hoare_bind; [apply preserves_randomStep, Q_cursor |].
  intros [x y]. apply hoare_ret. intros w Hw. by split.
Qed.

Lemma wolfMove_spec v : wolf_kin v0 v → hoare Q (wolfMove v) Qk.
Proof.
  intros Hk. unfold wolfMove.
  eapply hoare_bind; [apply preserves_get |]. intros ecosystem. cbv zeta.
  destruct (decide (_ < _)%R).
  - destruct (nearestDeerOf _ _).
    + apply hoare_ret. intros w Hw. by split.
    + by apply Qk_wolf_randomStep.
  - by apply Qk_wolf_randomStep.
Qed.

Lemma wolfHuntLoop_spec v i : wolf_kin v0 v → hoare Q (wolfHuntLoop v i) Qk.
Proof.
  intros Hk. induction i as [| i IH]; cbn [wolfHuntLoop].
  - apply hoare_ret. intros w Hw. by split.
  - apply hoare_bind_get. intros w0.
    destruct (deer w0 !! i) as [d |] eqn:Hi.
    + cbv zeta. destruct (Num.lt _ _).
      * destruct (decide (length (deer w0) = 1)) as [| Hlen].
        { apply hoare_ret. by intros w [Hw _]. }
        intros w [Hw ->]. rewrite bind_eq.
        pose proof (preserves_random Q Q_cursor w0 Hw) as Hw1.
        assert (Hd : deer (random w0).2 = deer w0) by reflexivity.
        revert Hw1 Hd. generalize (random w0).1 as u. generalize (random w0).2 as w1.
        intros w1 u Hw1 Hd.
        destruct (decide (u < _)%R).
        -- rewrite bind_eq. split; [| done]. apply Q_kill; [done | |].
           ++ by rewrite Hd.
           ++ rewrite Hd, Hi. by eexists.
        -- by apply IH.
      * eapply hoare_conseq; [apply IH | by intros w [Hw _] | done].
    + eapply hoare_conseq; [apply IH | by intros w [Hw _] | done].
Qed.

Lemma wolfDeathCheck_spec immortalWolf v : preserves Q (wolfDeathCheck immortalWolf v).
Proof.
  unfold wolfDeathCheck.
  eapply hoare_bind; [apply preserves_get |]. intros ecosystem. cbv zeta.
  destruct (negb _); [| apply preserves_ret].
  eapply hoare_bind; [apply preserves_random, Q_cursor |].
  intros u. apply preserves_ret.
Qed.

Lemma wolfReproduce_spec v : wolf_kin v0 v → preserves Q (wolfReproduce v index).
Proof.
  intros Hk. unfold wolfReproduce.
  destruct (_ && _); [| apply preserves_ret].
  eapply hoare_bind; [apply preserves_random, Q_cursor |]. intros u.
  destruct (decide (u < _)%R); [| apply preserves_ret].
  eapply hoare_bind with (R := λ _, Q).
  { intros w Hw. apply Q_wolfId, Hw. }
  intros id.
  eapply hoare_bind; [apply preserves_random, Q_cursor |]. intros ux.
  eapply hoare_bind; [apply preserves_random, Q_cursor |]. intros uy.
  cbv zeta.
  eapply hoare_bind with (R := λ _, Q).
  - apply preserves_modify. intros w Hw. apply Q_baby; [done |]. apply Hk.
  - intros ?. apply preserves_modify. intros w Hw. apply Q_store; [done |].
    split; apply Hk.
Qed.

Lemma wolfCallback_preserves immortalWolf :
  preserves Q (wolfCallback immortalWolf v0 index).
Proof.
  unfold wolfCallback. cbv zeta.
  eapply hoare_bind.
  { apply (wolfMove_spec (set_wolf_age (wolf_age v0 + 1) v0)). by split. }
  intros v1.
  eapply hoare_bind with (R := Qk).
  { destruct (decide (_ < _)%R).
    - intros w [Hw Hk]. rewrite bind_eq.
      apply (wolfHuntLoop_spec (set_wolf_pos _ _ v1)); [by split; apply Hk | done].
    - apply hoare_ret. intros w [Hw Hk]. split; [done |]. split; apply Hk. }
  intros v2.
  eapply hoare_bind with (R := λ _, Qk v2).
  { intros w [Hw Hk]. split; [| done]. apply Q_store; [done |]. split; apply Hk. }
  intros ?.
  eapply hoare_bind with (R := λ _, Qk v2).
  { intros w [Hw Hk]. split; [| done]. by apply wolfDeathCheck_spec. }
  intros [|]; [apply hoare_ret; by intros w [Hw _] |].
  eapply hoare_bind with (R := λ _, Q); [| intros ?; apply preserves_ret].
  intros w [Hw Hk]. apply wolfReproduce_spec; [| done]. split; apply Hk.
Qed.
End WolfCallback.

(** ** The three passes, for an arbitrary invariant *)

Lemma filterM_sublist {A} (callback : A → nat → M bool) l index w :
  sublist (filterM callback l index w).1 l.
Proof.
  revert index w. induction l as [| a l IH]; intros index w; cbn [filterM].
  - constructor.
  - rewrite !bind_eq. cbn [ret fst snd].
    destruct (callback a index w).1.
    + constructor. apply IH.
    + constructor. apply IH.
Qed.

Lemma hoare_filterInPlace {A} (P : World → Prop) (array : World → list A)
    callback index count :
  (∀ a i, hoare (λ w, P w ∧ array w !! i = Some a) (callback a i) (λ _, P)) →
  preserves P (filterInPlace array callback index count).
Proof.
  intros Hcb. revert index. induction count as [| count IH]; intros index;
    cbn [filterInPlace].
  - apply preserves_ret.
  - apply hoare_bind_get. intros w0.
    destruct (array w0 !! index) as [a |] eqn:Ha.
    + eapply hoare_bind with (R := λ _, P).
      * intros w [Hw ->]. apply Hcb. by split.
      * intros keep. eapply hoare_bind; [apply IH |]. intros rest.
        apply preserves_ret.
    + eapply hoare_conseq; [apply IH | by intros w [Hw _] | done].
Qed.

Lemma selected_subseteq {A} (array : list A) kept : selected array kept ⊆ array.
Proof.
  intros x Hx. unfold selected in Hx. apply list_elem_of_omap in Hx as (i & _ & Hi).
  by eapply list_elem_of_lookup_2.
Qed.

Section TreePass.
Variable Q : World → Prop.
Hypothesis Q_cursor : ∀ n w, Q w → Q (set_cursor n w).
Hypothesis Q_update : ∀ tree f w,
  Q w → tree ∈ trees w → (∀ t, same_identity t (f t)) →
  Q (set_heap (<[tree := f (heap w tree)]> (heap w)) w).
Hypothesis Q_grid : ∀ g w, Q w → Q (set_grid g w).
Hypothesis Q_spawn : ∀ tree x y w, Q w → tree ∈ trees w → Q (spawned tree x y w).
Hypothesis Q_reset : ∀ w, Q w → Q (set_newTrees [] w).
Hypothesis Q_trees : ∀ kept w,
  Q w → sublist kept (trees w) → Q (set_trees (kept ++ newTrees w) w).

Lemma Q_deleteFromGrid t w : Q w → Q (exec (deleteFromGrid t) w).
Proof.
  intros Hw. unfold exec, deleteFromGrid. cbv zeta.
  destruct (grid w !! getCellOfTree t) as [cell |]; [| done].
  destruct (list_find _ cell) as [[index ?] |]; [| done].
  apply Q_grid, Hw.
Qed.

Lemma treeCallback_preserves pre tree index (T : list loc) :
  tree ∈ T →
  preserves (λ w, Q w ∧ trees w = T) (treeCallback pre tree index).
Proof.
  intros Hin.
  eapply hoare_conseq;
    [apply (treeCallback_spec tree (λ w, Q w ∧ trees w = T) (λ w, Q w ∧ trees w = T))
    | done | by intros [] w Hw].
  - intros n w [Hw HT]. split; [apply Q_cursor, Hw | exact HT].
  - intros size w [Hw HT]. split; [| exact HT].
    apply (Q_update tree (set_tree_size size)); [done | by rewrite HT |].
    intros t. by repeat split.
  - intros w [Hw HT]. split; [| exact HT].
    apply (Q_update tree (λ t, set_tree_age (tree_age t + 1) t)); [done | by rewrite HT |].
    intros t. by repeat split.
  - intros w [Hw HT]. split; [apply Q_deleteFromGrid, Hw |].
    rewrite <- HT. apply deleteFromGrid_frame.
  - apply treeReproduce_spec.
    + intros n w [Hw HT]. split; [apply Q_cursor, Hw | exact HT].
    + intros x y w [Hw HT]. split; [| exact HT]. apply Q_spawn; [done |].
      by rewrite HT.
Qed.

Lemma treePass_preserves pre : preserves Q (treePass pre).
Proof.
  unfold treePass.
  eapply hoare_bind; [apply preserves_modify, Q_reset |]. intros ?.
  apply hoare_bind_get. intros w0.
  eapply hoare_bind
    with (R := λ kept w, (Q w ∧ trees w = trees w0) ∧ sublist kept (trees w0)).
  { intros w [Hw ->]. split; [| apply filterM_sublist].
    apply (preserves_filterM (λ w, Q w ∧ trees w = trees w0)); [| done].
    intros r i Hr. by apply treeCallback_preserves. }
  intros kept w [[Hw HT] Hsub]. rewrite !bind_eq. cbn [modify get fst snd].
  apply (preserves_forEach Q).
  - intros r _ w' Hw'. unfold addToGrid. cbv zeta.
    destruct (grid w' !! _); apply Q_grid, Hw'.
  - apply (Q_trees kept w Hw). by rewrite HT.
Qed.
End TreePass.

Section DeerPass.
Variable Q : World → Prop.
Hypothesis Q_cursor : ∀ n w, Q w → Q (set_cursor n w).
Hypothesis Q_eat : ∀ i tree w, Q w → trees w !! i = Some tree → Q (eaten i tree w).
Hypothesis Q_store : ∀ index d d' w,
  Q w → deer w !! index = Some d → deer_kin d d' →
  Q (set_deer (<[index := d']> (deer w)) w).
Hypothesis Q_deerId : ∀ n w, Q w → Q (set_deerIdGenerator n w).
Hypothesis Q_baby : ∀ b d w,
  Q w → d ∈ deer w → deer_characteristics b = deer_characteristics d →
  Q (set_newDeer (newDeer w ++ [b]) w).
Hypothesis Q_reset : ∀ w, Q w → Q (set_newDeer [] w).
Hypothesis Q_select : ∀ kept w, Q w → Q (set_deer (selected (deer w) kept) w).
Hypothesis Q_append : ∀ w, Q w → Q (set_deer (deer w ++ newDeer w) w).

Lemma deerCallback_in_pass immortalDeer d0 index :
  hoare (λ w, Q w ∧ deer w !! index = Some d0)
        (deerCallback immortalDeer d0 index) (λ _, Q).
Proof.
  set (Q' := λ w, Q w ∧ ∃ d, deer w !! index = Some d ∧ deer_kin d0 d).
  eapply hoare_conseq with (P' := Q') (Q' := λ _, Q').
  - apply deerCallback_preserves; unfold Q'.
    + intros n w [Hw Hd]. split; [apply Q_cursor, Hw | exact Hd].
    + intros i tree w [Hw Hd] Hi. split; [by apply Q_eat |].
      unfold eaten. cbn. by destruct (deleteFromGrid_frame (heap w tree) w) as (_ & -> & _).
    + intros d w [Hw (dc & Hdc & Hk)] Hk'. split.
      * apply (Q_store index dc d w Hw Hdc).
        destruct Hk as [? ?], Hk' as [? ?]. split; congruence.
      * exists d. split; [| done]. cbn. apply list_lookup_insert_eq.
        by eapply lookup_lt_Some.
    + intros n w [Hw Hd]. split; [apply Q_deerId, Hw | exact Hd].
    + intros b w [Hw (dc & Hdc & Hk)] Hb. split; [| by exists dc].
      apply (Q_baby b dc w Hw); [by eapply list_elem_of_lookup_2 |].
      destruct Hk as [_ ->]. exact Hb.
  - intros w [Hw Hd]. split; [done |]. exists d0. by repeat split.
  - by intros ? w [Hw _].
Qed.

Lemma deerPass_preserves immortalDeer : preserves Q (deerPass immortalDeer).
Proof.
  unfold deerPass.
  eapply hoare_bind; [apply preserves_modify, Q_reset |]. intros ?.
  eapply hoare_bind; [apply preserves_get |]. intros w0.
  eapply hoare_bind.
  { apply (hoare_filterInPlace Q deer). intros d i. apply deerCallback_in_pass. }
  intros kept.
  eapply hoare_bind; [apply preserves_modify; intros w; apply Q_select |].
  intros ?. apply preserves_modify, Q_append.
Qed.
End DeerPass.

Section WolfPass.
Variable Q : World → Prop.
Hypothesis Q_cursor : ∀ n w, Q w → Q (set_cursor n w).
Hypothesis Q_kill : ∀ i w,
  Q w → length (deer w) ≠ 1 → is_Some (deer w !! i) →
  Q (set_deer (delete i (deer w)) w).
Hypothesis Q_store : ∀ index v v' w,
  Q w → wolves w !! index = Some v → wolf_kin v v' →
  Q (set_wolves (<[index := v']> (wolves w)) w).
Hypothesis Q_wolfId : ∀ n w, Q w → Q (set_wolfIdGenerator n w).
Hypothesis Q_baby : ∀ b v w,
  Q w → v ∈ wolves w → wolf_characteristics b = wolf_characteristics v →
  Q (set_newWolves (newWolves w ++ [b]) w).
Hypothesis Q_reset : ∀ w, Q w → Q (set_newWolves [] w).
Hypothesis Q_select : ∀ kept w, Q w → Q (set_wolves (selected (wolves w) kept) w).
Hypothesis Q_append : ∀ w, Q w → Q (set_wolves (wolves w ++ newWolves w) w).

Lemma wolfCallback_in_pass immortalWolf v0 index :
  hoare (λ w, Q w ∧ wolves w !! index = Some v0)
        (wolfCallback immortalWolf v0 index) (λ _, Q).
Proof.
  set (Q' := λ w, Q w ∧ ∃ v, wolves w !! index = Some v ∧ wolf_kin v0 v).
  eapply hoare_conseq with (P' := Q') (Q' := λ _, Q').
  - apply wolfCallback_preserves; unfold Q'.
    + intros n w [Hw Hd]. split; [apply Q_cursor, Hw | exact Hd].
    + intros i w [Hw Hd] Hlen Hi. split; [by apply Q_kill | exact Hd].
    + intros v w [Hw (vc & Hvc & Hk)] Hk'. split.
      * apply (Q_store index vc v w Hw Hvc).
        destruct Hk as [? ?], Hk' as [? ?]. split; congruence.
      * exists v. split; [| done]. cbn. apply list_lookup_insert_eq.
        by eapply lookup_lt_Some.
    + intros n w [Hw Hd]. split; [apply Q_wolfId, Hw | exact Hd].
    + intros b w [Hw (vc & Hvc & Hk)] Hb. split; [| by exists vc].
      apply (Q_baby b vc w Hw); [by eapply list_elem_of_lookup_2 |].
      destruct Hk as [_ ->]. exact Hb.
  - intros w [Hw Hd]. split; [done |]. exists v0. by repeat split.
  - by intros ? w [Hw _].
Qed.

Lemma wolfPass_preserves immortalWolf : preserves Q (wolfPass immortalWolf).
Proof.
  unfold wolfPass.
  eapply hoare_bind; [apply preserves_modify, Q_reset |]. intros ?.
  eapply hoare_bind; [apply preserves_get |]. intros w0.
  eapply hoare_bind.
  { apply (hoare_filterInPlace Q wolves). intros v i. apply wolfCallback_in_pass. }
  intros kept.
  eapply hoare_bind; [apply preserves_modify; intros w; apply Q_select |].
  intros ?. apply preserves_modify, Q_append.
Qed.
End WolfPass.

(** ** The grid invariant (C1) *)

Lemma elem_of_delete_NoDup {A} (l : list A) i x y :
  NoDup l → l !! i = Some x → y ∈ delete i l ↔ y ∈ l ∧ y ≠ x.
Proof.
  intros Hnd Hi. rewrite delete_take_drop.
  pose proof (take_drop_middle l i x Hi) as Hl.
  assert (Hy : y ∈ l ↔ y ∈ take i l ∨ y = x ∨ y ∈ drop (S i) l).
  { rewrite <- Hl at 1. by rewrite elem_of_app, elem_of_cons. }
  rewrite <- Hl in Hnd.
  apply list.NoDup_app in Hnd as (_ & Hdisj & Hnd2).
  apply list.NoDup_cons in Hnd2 as [Hx _].
  rewrite Hy, elem_of_app. split.
  - intros [Hin | Hin].
    + split; [by left |]. intros ->. apply (Hdisj x Hin). left.
    + split; [by right; right |]. by intros ->.
  - intros [[Hin | [-> | Hin]] Hne]; [by left | done | by right].
Qed.

Lemma NoDup_delete {A} (l : list A) i : NoDup l → NoDup (delete i l).
Proof. intros Hnd. eapply sublist_NoDup; [exact Hnd | apply sublist_delete]. Qed.

Lemma TInv_equiv live pending w w' :
  grid w' = grid w → nextLoc w' = nextLoc w →
  treeIdGenerator w' = treeIdGenerator w →
  (∀ r, tree_id (heap w' r) = tree_id (heap w r)
        ∧ getCellOfTree (heap w' r) = getCellOfTree (heap w r)) →
  TInv live pending w → TInv live pending w'.
Proof.
  intros Hg Hn Hi Hh [H1 H2 H3 H4 H5]. split.
  - exact H1.
  - intros r1 r2 Hr1 Hr2. rewrite (proj1 (Hh r1)), (proj1 (Hh r2)). by apply H2.
  - intros r Hr. rewrite Hn, Hi, (proj1 (Hh r)). by apply H3.
  - intros c b. rewrite Hg. intros Hb. destruct (H4 c b Hb) as [Hnd Hm].
    split; [done |]. intros r Hr. rewrite (proj2 (Hh r)). by apply Hm.
  - intros r Hr. rewrite Hg, (proj2 (Hh r)). by apply H5.
Qed.

Lemma TInv_delete l1 tree l2 pending w :
  TInv (l1 ++ tree :: l2) pending w →
  TInv (l1 ++ l2) pending (exec (deleteFromGrid (heap w tree)) w).
Proof.
  intros [H1 H2 H3 H4 H5].
  assert (Hin : tree ∈ l1 ++ tree :: l2) by (rewrite elem_of_app, elem_of_cons; auto).
  assert (Hsub : ∀ r, r ∈ (l1 ++ l2) ++ pending → r ∈ (l1 ++ tree :: l2) ++ pending).
  { intros r. rewrite !elem_of_app, elem_of_cons. tauto. }
  assert (Hout : ∀ r, r ∈ l1 ++ tree :: l2 → r ≠ tree → r ∈ l1 ++ l2).
  { intros r. rewrite !elem_of_app, elem_of_cons. tauto. }
  assert (Hnot : tree ∉ l1 ++ l2).
  { rewrite <- app_assoc in H1. apply list.NoDup_app in H1 as (_ & Hd & Hnd).
    cbn in Hnd. apply list.NoDup_cons in Hnd as [Ht _].
    rewrite elem_of_app. intros [Ht1 | Ht2].
    - apply (Hd tree Ht1). left.
    - apply Ht. rewrite elem_of_app. by left. }
  destruct (H5 tree Hin) as (b & Hb & Htb).
  destruct (H4 _ b Hb) as [Hndb Hmem].
  unfold exec, deleteFromGrid. cbv zeta. rewrite Hb.
  destruct (list_find _ b) as [[i t] |] eqn:Hfind; cycle 1.
  { exfalso. apply list_find_None in Hfind.
    rewrite list.Forall_forall in Hfind. by apply (Hfind tree Htb). }
  apply list_find_Some in Hfind as (Hi & Hid & _).
  assert (t = tree) as ->.
  { apply H2; [| | done].
    - rewrite elem_of_app. left. apply Hmem. by eapply list_elem_of_lookup_2.
    - rewrite elem_of_app. by left. }
  cbn [snd]. split; cbn [grid heap nextLoc treeIdGenerator set_grid].
  - rewrite <- app_assoc in H1 |- *. apply list.NoDup_app in H1 as (Ha & Hd & Hnd).
    apply list.NoDup_app. split; [done |]. split.
    + intros r Hr Hr'. apply (Hd r Hr). cbn. right. done.
    + cbn in Hnd. by apply list.NoDup_cons in Hnd as [_ ?].
  - intros r1 r2 Hr1 Hr2. apply H2; by apply Hsub.
  - intros r Hr. apply H3. by apply Hsub.
  - intros c b'. destruct (decide (c = getCellOfTree (heap w tree))) as [-> | Hne].
    + rewrite lookup_insert_eq. intros [= <-]. split; [by apply NoDup_delete |].
      intros r Hr. apply (elem_of_delete_NoDup b i tree r Hndb Hi) in Hr as [Hr Hrt].
      destruct (Hmem r Hr) as [Hl Hc]. split; [by apply Hout | done].
    + rewrite lookup_insert_ne by done. intros Hb'.
      destruct (H4 c b' Hb') as [Hnd' Hmem']. split; [done |].
      intros r Hr. destruct (Hmem' r Hr) as [Hl Hc]. split; [| done].
      apply Hout; [done |]. intros ->. by apply Hne.
  - intros r Hr.
    assert (Hr' : r ∈ l1 ++ tree :: l2).
    { revert Hr. rewrite !elem_of_app, elem_of_cons. tauto. }
    assert (Hrt : r ≠ tree) by (intros ->; by apply Hnot).
    destruct (H5 r Hr') as (b' & Hb' & Hrb').
    destruct (decide (getCellOfTree (heap w r) = getCellOfTree (heap w tree))) as [He | Hne].
    + rewrite He, lookup_insert_eq. eexists. split; [done |].
      rewrite He, Hb in Hb'. injection Hb' as <-.
      by apply (elem_of_delete_NoDup b i tree r Hndb Hi).
    + rewrite lookup_insert_ne by done. by exists b'.
Qed.

(** Allocation of a tree carrying the next id. *)
Lemma TInv_alloc live pending (t : Tree) w :
  tree_id t = treeIdGenerator w →
  TInv live pending w →
  TInv live (pending ++ [nextLoc w])
    (set_nextLoc (S (nextLoc w))
       (set_heap (<[nextLoc w := t]> (heap w))
          (set_treeIdGenerator (S (treeIdGenerator w)) w))).
Proof.
  intros Hid [H1 H2 H3 H4 H5].
  assert (Hold : ∀ r, r ∈ live ++ pending → r ≠ nextLoc w).
  { intros r Hr ->. destruct (H3 _ Hr). lia. }
  assert (Hcase : ∀ r, r ∈ live ++ pending ++ [nextLoc w] →
                       r ∈ live ++ pending ∨ r = nextLoc w).
  { intros r. rewrite !elem_of_app, list_elem_of_singleton. tauto. }
  split; cbn [grid heap nextLoc treeIdGenerator set_nextLoc set_heap set_treeIdGenerator].
  - rewrite app_assoc. apply list.NoDup_app. split; [done |]. split.
    + intros r Hr Hr'. apply list_elem_of_singleton in Hr'. by apply (Hold r).
    + apply NoDup_singleton.
  - intros r1 r2 Hr1 Hr2.
    destruct (Hcase _ Hr1) as [Ho1 | ->], (Hcase _ Hr2) as [Ho2 | ->].
    + rewrite !fn_lookup_insert_ne by (apply not_eq_sym; by apply Hold). by apply H2.
    + rewrite fn_lookup_insert, fn_lookup_insert_ne by (apply not_eq_sym; by apply Hold).
      rewrite Hid. destruct (H3 _ Ho1). lia.
    + rewrite fn_lookup_insert, fn_lookup_insert_ne by (apply not_eq_sym; by apply Hold).
      rewrite Hid. destruct (H3 _ Ho2). lia.
    + done.
  - intros r Hr. destruct (Hcase _ Hr) as [Ho | ->].
    + rewrite fn_lookup_insert_ne by (apply not_eq_sym; by apply Hold).
      destruct (H3 _ Ho). lia.
    + rewrite fn_lookup_insert. lia.
  - intros c b Hb. destruct (H4 c b Hb) as [Hnd Hmem]. split; [done |].
    intros r Hr. destruct (Hmem r Hr) as [Hl Hc].
    rewrite fn_lookup_insert_ne; [done |].
    apply not_eq_sym, Hold. rewrite elem_of_app. by left.
  - intros r Hr. rewrite fn_lookup_insert_ne; [by apply H5 |].
    apply not_eq_sym, Hold. rewrite elem_of_app. by left.
Qed.

(** Indexing the first pending tree. *)
Lemma TInv_add live tree pending w :
  TInv live (tree :: pending) w →
  let cell := getCellOfTree (heap w tree) in
  TInv (live ++ [tree]) pending
    (set_grid (<[cell := default [] (grid w !! cell) ++ [tree]]> (grid w)) w).
Proof.
  intros [H1 H2 H3 H4 H5] cell.
  assert (Hnot : tree ∉ live).
  { apply list.NoDup_app in H1 as (_ & Hd & _). intros Ht. apply (Hd tree Ht). left. }
  assert (Hbk : NoDup (default [] (grid w !! cell))
                ∧ ∀ r, r ∈ default [] (grid w !! cell) →
                       r ∈ live ∧ getCellOfTree (heap w r) = cell).
  { destruct (grid w !! cell) as [b |] eqn:Hb; cbn.
    - by apply H4.
    - split; [constructor | intros r Hr; by apply elem_of_nil in Hr]. }
  destruct Hbk as [Hnd0 Hmem0].
  split; cbn [grid heap nextLoc treeIdGenerator set_grid].
  - by rewrite <- app_assoc.
  - intros r1 r2. rewrite <- !app_assoc. apply H2.
  - intros r. rewrite <- app_assoc. apply H3.
  - intros c b. destruct (decide (c = cell)) as [-> | Hne].
    + rewrite lookup_insert_eq. intros [= <-]. split.
      * apply list.NoDup_app. split; [done |]. split; [| apply NoDup_singleton].
        intros r Hr Hr'. apply list_elem_of_singleton in Hr' as ->.
        apply Hnot. by apply Hmem0.
      * intros r. rewrite !elem_of_app, list_elem_of_singleton.
        intros [Hr | ->]; [| by split; [right |]].
        destruct (Hmem0 r Hr). by split; [left |].
    + rewrite lookup_insert_ne by done. intros Hb.
      destruct (H4 c b Hb) as [Hnd Hmem]. split; [done |].
      intros r Hr. destruct (Hmem r Hr). split; [| done].
      rewrite elem_of_app. by left.
  - intros r. rewrite elem_of_app, list_elem_of_singleton. intros [Hr | ->].
    + destruct (H5 r Hr) as (b & Hb & Hrb).
      destruct (decide (getCellOfTree (heap w r) = cell)) as [He | Hne].
      * rewrite He, lookup_insert_eq. eexists. split; [done |].
        rewrite He in Hb. rewrite Hb. cbn. rewrite elem_of_app. by left.
      * rewrite lookup_insert_ne by done. by exists b.
    + fold cell. rewrite lookup_insert_eq. eexists. split; [done |].
      rewrite elem_of_app, list_elem_of_singleton. by right.
Qed.

Lemma addToGrid_eq tree w :
  exec (addToGrid tree) w
  = set_grid (<[getCellOfTree (heap w tree)
                := default [] (grid w !! getCellOfTree (heap w tree)) ++ [tree]]>
                (grid w)) w.
Proof.
  unfold exec, addToGrid. cbv zeta.
  by destruct (grid w !! getCellOfTree (heap w tree)).
Qed.

Lemma TInv_update_tree live pending tree (f : Tree → Tree) w :
  (∀ t, same_identity t (f t)) →
  TInv live pending w →
  TInv live pending (set_heap (<[tree := f (heap w tree)]> (heap w)) w).
Proof.
  intros Hf. apply TInv_equiv; [done .. |].
  intros r. cbn [heap set_heap].
  destruct (decide (tree = r)) as [-> | Hne].
  - rewrite fn_lookup_insert. destruct (Hf (heap w r)) as (Hid & Hx & Hy & _).
    split; [done |]. unfold getCellOfTree. by rewrite Hx, Hy.
  - by rewrite fn_lookup_insert_ne.
Qed.

Lemma TInv_spawned live tree x y w :
  TInv live (newTrees w) w →
  TInv live (newTrees (spawned tree x y w)) (spawned tree x y w).
Proof.
  intros Hw. unfold spawned. cbv zeta.
  set (child := Build_Tree _ _ _ _ _ _).
  pose proof (TInv_alloc live (newTrees w) child w eq_refl Hw) as Ha.
  revert Ha. by apply TInv_equiv.
Qed.

(** The tree callback keeps the index exact for the trees that remain. *)
Lemma treeCallback_TInv pre tree index done_ todo :
  hoare (λ w, TInv (done_ ++ tree :: todo) (newTrees w) w)
        (treeCallback pre tree index)
        (λ keep w, TInv (done_ ++ (if keep : bool then tree :: todo else todo))
                        (newTrees w) w).
Proof.
  eapply hoare_conseq;
    [apply (treeCallback_spec tree
              (λ w, TInv (done_ ++ tree :: todo) (newTrees w) w)
              (λ w, TInv (done_ ++ todo) (newTrees w) w))
    | done | by intros [] w Hw].
  - intros n w. by apply TInv_equiv.
  - intros size w. apply (TInv_update_tree _ _ tree (set_tree_size size)).
    intros t. by repeat split.
  - intros w. apply (TInv_update_tree _ _ tree (λ t, set_tree_age (tree_age t + 1) t)).
    intros t. by repeat split.
  - intros w Hw.
    destruct (deleteFromGrid_frame (heap w tree) w)
      as (_ & _ & _ & _ & _ & _ & _ & _ & _ & _ & _ & -> & _).
    by apply TInv_delete.
  - apply treeReproduce_spec.
    + intros n w. by apply TInv_equiv.
    + intros x y w. apply TInv_spawned.
Qed.

Lemma filterM_TInv pre todo : ∀ done_ index,
  hoare (λ w, TInv (done_ ++ todo) (newTrees w) w)
        (filterM (treeCallback pre) todo index)
        (λ kept w, TInv (done_ ++ kept) (newTrees w) w).
Proof.
  induction todo as [| tree todo IH]; intros done_ index; cbn [filterM].
  - by apply hoare_ret.
  - eapply hoare_bind; [apply treeCallback_TInv |]. intros [|].
    + eapply hoare_bind.
      { eapply hoare_conseq; [apply (IH (done_ ++ [tree]) (S index)) | | done].
        intros w. by rewrite <- app_assoc. }
      intros rest. apply hoare_ret. intros w. by rewrite <- app_assoc.
    + eapply hoare_bind; [apply (IH done_ (S index)) |].
      intros rest. by apply hoare_ret.
Qed.

Lemma forEach_addToGrid_TInv pending : ∀ live,
  hoare (λ w, TInv live pending w)
        (forEach addToGrid pending)
        (λ _ w, TInv (live ++ pending) [] w).
Proof.
  induction pending as [| tree pending IH]; intros live; cbn [forEach].
  - apply hoare_ret. intros w. by rewrite app_nil_r.
  - eapply hoare_bind with (R := λ _ w, TInv (live ++ [tree]) pending w).
    + intros w Hw. change ((addToGrid tree w).2) with (exec (addToGrid tree) w).
      rewrite addToGrid_eq. by apply TInv_add.
    + intros ?. eapply hoare_conseq; [apply (IH (live ++ [tree])) | done |].
      intros ? w. by rewrite <- app_assoc.
Qed.

Lemma treePass_Inv pre : preserves Inv (treePass pre).
Proof.
  unfold treePass, Inv.
  eapply hoare_bind with (R := λ _ w, TInv (trees w) (newTrees w) w ∧ newTrees w = []).
  { intros w Hw. cbn. split; [| done]. by eapply TInv_equiv; [.. | exact Hw]. }
  intros ?. apply hoare_bind_get. intros w0.
  eapply hoare_bind with (R := λ kept w, TInv kept (newTrees w) w).
  { intros w [[Hw _] ->]. by apply (filterM_TInv pre (trees w0) [] 0). }
  intros kept w Hw. rewrite !bind_eq. cbn [modify get fst snd].
  cbn [trees newTrees set_trees].
  pose proof (forEach_addToGrid_TInv (newTrees w) kept
                (set_trees (kept ++ newTrees w) w)) as Hf.
  cbv beta in Hf.
  assert (Htrees : ∀ l w', trees ((forEach addToGrid l w').2) = trees w').
  { induction l as [| r l IHl]; intros w'; cbn [forEach]; [done |].
    rewrite bind_eq, IHl. change ((addToGrid r w').2) with (exec (addToGrid r) w').
    by rewrite addToGrid_eq. }
  rewrite Htrees. cbn [trees set_trees]. apply Hf.
  by eapply TInv_equiv; [.. | exact Hw].
Qed.

(** [Inv] reads only the trees, the grid, the store and the tree id
    generator. *)
Lemma Inv_ext w w' :
  trees w' = trees w → grid w' = grid w → heap w' = heap w →
  nextLoc w' = nextLoc w → treeIdGenerator w' = treeIdGenerator w →
  Inv w → Inv w'.
Proof.
  unfold Inv. intros -> Hg Hh Hn Hi. apply TInv_equiv; [done .. |].
  intros r. by rewrite Hh.
Qed.

Lemma Inv_eaten i tree w : Inv w → trees w !! i = Some tree → Inv (eaten i tree w).
Proof.
  unfold Inv, eaten. intros Hw Hi. cbv zeta.
  destruct (deleteFromGrid_frame (heap w tree) w) as (Ht & _).
  cbv zeta in Ht. cbn [trees set_trees]. rewrite Ht, delete_take_drop.
  rewrite <- (take_drop_middle _ _ _ Hi) in Hw.
  apply TInv_delete in Hw. revert Hw. by apply TInv_equiv.
Qed.

Lemma deerPass_Inv immortalDeer : preserves Inv (deerPass immortalDeer).
Proof.
  apply deerPass_preserves.
  - intros n w. by apply Inv_ext.
  - intros i tree w. apply Inv_eaten.
  - intros index d d' w Hw _ _. revert Hw. by apply Inv_ext.
  - intros n w. by apply Inv_ext.
  - intros b d w Hw _ _. revert Hw. by apply Inv_ext.
  - intros w. by apply Inv_ext.
  - intros kept w. by apply Inv_ext.
  - intros w. by apply Inv_ext.
Qed.

Lemma wolfPass_Inv immortalWolf : preserves Inv (wolfPass immortalWolf).
Proof.
  apply wolfPass_preserves.
  - intros n w. by apply Inv_ext.
  - intros i w Hw _ _. revert Hw. by apply Inv_ext.
  - intros index v v' w Hw _ _. revert Hw. by apply Inv_ext.
  - intros n w. by apply Inv_ext.
  - intros b v w Hw _ _. revert Hw. by apply Inv_ext.
  - intros w. by apply Inv_ext.
  - intros kept w. by apply Inv_ext.
  - intros w. by apply Inv_ext.
Qed.

Lemma updateEcosystem_Inv pre immortalDeer immortalWolf :
  preserves Inv (updateEcosystem pre immortalDeer immortalWolf).
Proof.
  unfold updateEcosystem.
  apply preserves_bind; [apply treePass_Inv |]. intros ?.
  apply preserves_bind; [apply deerPass_Inv |]. intros ?.
  apply wolfPass_Inv.
Qed.

Lemma randomTreeCharacteristics_state w :
  (randomTreeCharacteristics w).2 = set_cursor (7 + cursor w) w.
Proof. reflexivity. Qed.

Lemma initTree_Inv : preserves Inv initTree.
Proof.
  intros w Hw. unfold initTree, Inv in *.
  rewrite !bind_eq. cbn [treeIdGenerator_next random fst snd].
  rewrite randomTreeCharacteristics_state.
  set (c := (randomTreeCharacteristics _).1).
  cbn [new_tree modify fst snd].
  set (t := Build_Tree _ _ _ _ _ _).
  pose proof (TInv_alloc (trees w) [] t w eq_refl Hw) as Ha.
  cbn [app] in Ha. apply TInv_add in Ha. cbv zeta in Ha.
  revert Ha. cbn. by apply TInv_equiv.
Qed.

Lemma initializeEcosystem_Inv w0 : Inv (exec initializeEcosystem w0).
Proof.
  unfold exec, initializeEcosystem. rewrite !bind_eq. cbn [modify fst snd].
  set (w1 := set_terrain _ _).
  assert (H1 : Inv w1).
  { split; cbn.
    - constructor.
    - intros r1 r2 Hr. by apply elem_of_nil in Hr.
    - intros r Hr. by apply elem_of_nil in Hr.
    - intros c b Hb. by rewrite lookup_empty in Hb.
    - intros r Hr. by apply elem_of_nil in Hr. }
  assert (H2 : Inv (repeatM DEFAULT_TREE_COUNT initTree w1).2).
  { apply (preserves_repeatM Inv); [apply initTree_Inv | exact H1]. }
  revert H2. generalize (repeatM DEFAULT_TREE_COUNT initTree w1).2 as w2.
  intros w2 H2.
  assert (H3 : Inv (repeatM DEFAULT_DEER_COUNT initDeer w2).2).
  { apply (preserves_repeatM Inv); [| exact H2].
    intros w Hw. revert Hw. by apply Inv_ext. }
  revert H3. generalize (repeatM DEFAULT_DEER_COUNT initDeer w2).2 as w3.
  intros w3 H3.
  apply (preserves_repeatM Inv); [| exact H3].
  intros w Hw. revert Hw. by apply Inv_ext.
Qed.

Lemma reachable_Inv w : reachable w → Inv w.
Proof.
  induction 1 as [w0 _ | w pre iD iW _ IH].
  - apply initializeEcosystem_Inv.
  - by apply updateEcosystem_Inv.
Qed.

Lemma Inv_grid_exact w : Inv w → grid_exact w.
Proof.
  intros [_ _ _ H4 H5]. split; [exact H5 | exact H4].
Qed.

(** C1.  After initialization and after every [updateEcosystem] call the
    spatial index holds exactly the live trees: every tree of
    [ecosystem.trees] is in the bucket keyed by
    [(floor(x * GRID_SIZE), floor(y * GRID_SIZE))], every bucket is free of
    duplicates, and every member of a bucket is a live tree whose cell is
    that bucket's key. *)
Theorem grid_index_exact (w : World) : reachable w → grid_exact w.
Proof. intros Hr. apply Inv_grid_exact, reachable_Inv, Hr. Qed.

(** ** The hunt spares the last deer (C10) *)

Lemma wolfHuntLoop_last_deer v i w :
  length (deer w) = 1 → wolfHuntLoop v i w = (v, w).
Proof.
  intros Hlen. induction i as [| i IH]; cbn [wolfHuntLoop]; [done |].
  rewrite bind_eq. cbn [get fst snd].
  destruct (deer w !! i); [| exact IH].
  cbv zeta. destruct (Num.lt _ _); [| exact IH].
  by destruct (decide (length (deer w) = 1)).
Qed.

Lemma delete_nonempty {A} (l : list A) i :
  length l ≠ 1 → is_Some (l !! i) → delete i l ≠ [].
Proof.
  intros Hlen Hi Hnil. apply length_delete in Hi as Hd.
  rewrite Hnil in Hd. cbn in Hd.
  destruct Hi as [x Hx]. apply lookup_lt_Some in Hx. lia.
Qed.

Lemma wolfHuntLoop_nonempty v i w :
  deer w ≠ [] → deer (exec (wolfHuntLoop v i) w) ≠ [].
Proof.
  intros Hw.
  apply (wolfHuntLoop_spec v (λ w, deer w ≠ [])); [done | | done | done].
  intros j w' _. apply delete_nonempty.
Qed.

Lemma wolfPass_nonempty immortalWolf w :
  deer w ≠ [] → deer (exec (wolfPass immortalWolf) w) ≠ [].
Proof.
  apply (wolfPass_preserves (λ w, deer w ≠ [])); try done.
  intros j w' _. apply delete_nonempty.
Qed.

(** C10.  The hunting loop of a wolf never removes the last deer: when the
    deer array has exactly one member the loop returns without a kill
    roll and without any change of state, and neither the loop nor the
    whole wolf pass (nor therefore the wolf pass of an update, whatever
    [immortalDeer] and [immortalWolf] are) ever empties a non-empty deer
    array. *)
Theorem hunt_spares_last_deer (v : Wolf) (i : nat) (w : World)
    (pre : option (list R)) (immortalDeer immortalWolf : bool) :
  (length (deer w) = 1 → wolfHuntLoop v i w = (v, w))
  ∧ (deer w ≠ [] → deer (exec (wolfHuntLoop v i) w) ≠ [])
  ∧ (deer w ≠ [] → deer (exec (wolfPass immortalWolf) w) ≠ [])
  ∧ (deer (exec (deerPass immortalDeer) (exec (treePass pre) w)) ≠ [] →
     deer (exec (updateEcosystem pre immortalDeer immortalWolf) w) ≠ []).
Proof.
  split; [apply wolfHuntLoop_last_deer |].
  split; [apply wolfHuntLoop_nonempty |].
  split; [apply wolfPass_nonempty |].
  unfold updateEcosystem. rewrite !exec_bind. apply wolfPass_nonempty.
Qed.

(** One wolf on top of the only deer, with draws that would make every
    hunt succeed: the hunt is skipped. *)
Lemma hunt_spares_last_deer_witness :
  wolfHuntLoop sampleWolf 1 (lastPair (λ _, 0%R))
  = (sampleWolf, lastPair (λ _, 0%R)).
Proof.
  apply (hunt_spares_last_deer sampleWolf 1 (lastPair (λ _, 0%R)) None false false).
  reflexivity.
Defined.

(** ** The extinction floor: an individual alone in its array *)

Lemma deerDeathCheck_last d w :
  length (deer w) = 1 → deerDeathCheck true d w = (false, w).
Proof.
  intros Hlen. unfold deerDeathCheck. rewrite bind_eq. cbn [get fst snd].
  cbv zeta. by rewrite bool_decide_eq_true_2.
Qed.

Lemma wolfDeathCheck_last v w :
  length (wolves w) = 1 → wolfDeathCheck true v w = (false, w).
Proof.
  intros Hlen. unfold wolfDeathCheck. rewrite bind_eq. cbn [get fst snd].
  cbv zeta. by rewrite bool_decide_eq_true_2.
Qed.

Section LastDeer.
Variables (index : nat) (d0 : Deer) (Q : World → Prop).
Hypothesis Q_cursor : ∀ n w, Q w → Q (set_cursor n w).
Hypothesis Q_eat : ∀ i tree w, Q w → trees w !! i = Some tree → Q (eaten i tree w).
Hypothesis Q_store : ∀ d w,
  Q w → deer_kin d0 d → Q (set_deer (<[index := d]> (deer w)) w).
Hypothesis Q_deerId : ∀ n w, Q w → Q (set_deerIdGenerator n w).
Hypothesis Q_baby : ∀ b w,
  Q w → deer_characteristics b = deer_characteristics d0 →
  Q (set_newDeer (newDeer w ++ [b]) w).
Hypothesis Q_last : ∀ w, Q w → length (deer w) = 1.

Lemma deerCallback_last :
  hoare Q (deerCallback true d0 index) (λ keep w, keep = true ∧ Q w).
Proof.
  unfold deerCallback. cbv zeta.
  eapply hoare_bind.
  { apply (deerMove_spec d0 Q Q_cursor (set_deer_age (deer_age d0 + 1) d0)). by split. }
  intros d1.
  eapply hoare_bind with (R := λ d w, Q w ∧ deer_kin d0 d).
  { destruct (decide (_ < _)%R).
    - intros w [Hw Hk]. rewrite bind_eq.
      apply (deerEatLoop_spec d0 Q Q_eat (set_deer_pos _ _ d1));
        [by split; apply Hk | done].
    - apply hoare_ret. intros w [Hw Hk]. split; [done |]. split; apply Hk. }
  intros d2.
  eapply hoare_bind with (R := λ _ w, Q w ∧ deer_kin d0 d2).
  { intros w [Hw Hk]. split; [| done]. apply Q_store; [done |]. split; apply Hk. }
  intros ? w [Hw Hk]. rewrite bind_eq.
  rewrite (deerDeathCheck_last _ w (Q_last w Hw)). cbn [fst snd].
  rewrite bind_eq. split; [done |].
  apply (deerReproduce_spec index d0 Q); done.
Qed.
End LastDeer.

Section LastWolf.
Variables (index : nat) (v0 : Wolf) (Q : World → Prop).
Hypothesis Q_cursor : ∀ n w, Q w → Q (set_cursor n w).
Hypothesis Q_kill : ∀ i w,
  Q w → length (deer w) ≠ 1 → is_Some (deer w !! i) →
  Q (set_deer (delete i (deer w)) w).
Hypothesis Q_store : ∀ v w,
  Q w → wolf_kin v0 v → Q (set_wolves (<[index := v]> (wolves w)) w).
Hypothesis Q_wolfId : ∀ n w, Q w → Q (set_wolfIdGenerator n w).
Hypothesis Q_baby : ∀ b w,
  Q w → wolf_characteristics b = wolf_characteristics v0 →
  Q (set_newWolves (newWolves w ++ [b]) w).
Hypothesis Q_last : ∀ w, Q w → length (wolves w) = 1.

Lemma wolfCallback_last :
  hoare Q (wolfCallback true v0 index) (λ keep w, keep = true ∧ Q w).
Proof.
  unfold wolfCallback. cbv zeta.
  eapply hoare_bind.
  { apply (wolfMove_spec v0 Q Q_cursor (set_wolf_age (wolf_age v0 + 1) v0)). by split. }
  intros v1.
  eapply hoare_bind with (R := λ v w, Q w ∧ wolf_kin v0 v).
  { destruct (decide (_ < _)%R).
    - intros w [Hw Hk]. rewrite bind_eq.
      apply (wolfHuntLoop_spec v0 Q Q_cursor Q_kill (set_wolf_pos _ _ v1));
        [by split; apply Hk | done].
    - apply hoare_ret. intros w [Hw Hk]. split; [done |]. split; apply Hk. }
  intros v2.
  eapply hoare_bind with (R := λ _ w, Q w ∧ wolf_kin v0 v2).
  { intros w [Hw Hk]. split; [| done]. apply Q_store; [done |]. split; apply Hk. }
  intros ? w [Hw Hk]. rewrite bind_eq.
  rewrite (wolfDeathCheck_last _ w (Q_last w Hw)). cbn [fst snd].
  rewrite bind_eq. split; [done |].
  apply (wolfReproduce_spec index v0 Q); done.
Qed.
End LastWolf.

Lemma deerPass_last d w :
  deer w = [d] →
  ∃ d' rest, deer (exec (deerPass true) w) = d' :: rest ∧ deer_kin d d'.
Proof.
  intros Hd.
  set (Q := λ w : World,
         length (deer w) = 1 ∧ ∃ d', deer w !! 0 = Some d' ∧ deer_kin d d').
  assert (Hcb : hoare Q (deerCallback true d 0) (λ keep w, keep = true ∧ Q w)).
  { apply deerCallback_last; unfold Q.
    - by intros n w' Hw'.
    - intros i tree w' Hw' _. unfold eaten. cbn.
      by destruct (deleteFromGrid_frame (heap w' tree) w') as (_ & -> & _).
    - intros d' w' [Hlen _] Hk. cbn. rewrite length_insert. split; [done |].
      exists d'. split; [| done]. apply list_lookup_insert_eq. lia.
    - by intros n w' Hw'.
    - by intros b w' Hw' _.
    - by intros w' [Hlen _]. }
  unfold exec, deerPass. rewrite !bind_eq. cbn [modify get fst snd].
  cbn [deer set_newDeer]. rewrite Hd. cbn [length filterInPlace].
  rewrite bind_eq. cbn [get fst snd deer set_newDeer]. rewrite Hd.
  cbn [lookup list_lookup]. rewrite !bind_eq. cbn [ret fst snd].
  destruct (Hcb (set_newDeer [] w)) as (-> & Hlen & d' & Hd' & Hk).
  { unfold Q. cbn. rewrite Hd. split; [done |]. exists d. by repeat split. }
  assert (Hsel : selected (deer (deerCallback true d 0 (set_newDeer [] w)).2) [0] = [d']).
  { unfold selected. cbn. by rewrite Hd'. }
  rewrite Hsel. cbn. by eexists _, _.
Qed.

Lemma wolfPass_last v w :
  wolves w = [v] →
  ∃ v' rest, wolves (exec (wolfPass true) w) = v' :: rest ∧ wolf_kin v v'.
Proof.
  intros Hv.
  set (Q := λ w : World,
         length (wolves w) = 1 ∧ ∃ v', wolves w !! 0 = Some v' ∧ wolf_kin v v').
  assert (Hcb : hoare Q (wolfCallback true v 0) (λ keep w, keep = true ∧ Q w)).
  { apply wolfCallback_last; unfold Q.
    - by intros n w' Hw'.
    - by intros i w' Hw' _ _.
    - intros v' w' [Hlen _] Hk. cbn. rewrite length_insert. split; [done |].
      exists v'. split; [| done]. apply list_lookup_insert_eq. lia.
    - by intros n w' Hw'.
    - by intros b w' Hw' _.
    - by intros w' [Hlen _]. }
  unfold exec, wolfPass. rewrite !bind_eq. cbn [modify get fst snd].
  cbn [wolves set_newWolves]. rewrite Hv. cbn [length filterInPlace].
  rewrite bind_eq. cbn [get fst snd wolves set_newWolves]. rewrite Hv.
  cbn [lookup list_lookup]. rewrite !bind_eq. cbn [ret fst snd].
  destruct (Hcb (set_newWolves [] w)) as (-> & Hlen & v' & Hv' & Hk).
  { unfold Q. cbn. rewrite Hv. split; [done |]. exists v. by repeat split. }
  assert (Hsel : selected (wolves (wolfCallback true v 0 (set_newWolves [] w)).2) [0] = [v']).
  { unfold selected. cbn. by rewrite Hv'. }
  rewrite Hsel. cbn. by eexists _, _.
Qed.

(** With the extinction floor enabled, an individual that is alone in the
    array of its species is not removed by the death check of its pass,
    whatever [Math.random()] returns: when the array has exactly one
    member the death check answers "survives" without drawing a random
    number, and after the pass the individual (same id, same
    characteristics) is still the first member of the array.  The array
    is the one under [filter], which keeps the individuals that died
    earlier in the pass: the last living individual of a longer array is
    not spared. *)
Lemma last_individual_survives (w : World) (d : Deer) (v : Wolf) :
  (length (deer w) = 1 → deerDeathCheck true d w = (false, w))
  ∧ (deer w = [d] →
     ∃ d' rest, deer (exec (deerPass true) w) = d' :: rest ∧ deer_kin d d')
  ∧ (length (wolves w) = 1 → wolfDeathCheck true v w = (false, w))
  ∧ (wolves w = [v] →
     ∃ v' rest, wolves (exec (wolfPass true) w) = v' :: rest ∧ wolf_kin v v').
Proof.
  split; [apply deerDeathCheck_last |].
  split; [apply deerPass_last |].
  split; [apply wolfDeathCheck_last | apply wolfPass_last].
Qed.

(** The last deer and the last wolf, with draws (all 0) that are below
    every death chance. *)
Lemma last_individual_survives_witness :
  (∃ d' rest, deer (exec (deerPass true) (lastPair (λ _, 0%R))) = d' :: rest
              ∧ deer_kin sampleDeer d')
  ∧ (∃ v' rest, wolves (exec (wolfPass true) (lastPair (λ _, 0%R))) = v' :: rest
                ∧ wolf_kin sampleWolf v').
Proof.
  pose proof (last_individual_survives (lastPair (λ _, 0%R)) sampleDeer sampleWolf)
    as (_ & Hd & _ & Hv).
  split; [apply Hd | apply Hv]; reflexivity.
Defined.

(** ** Boundaries of reproduction and growth (C9) *)

Lemma treeReproduce_too_young tree w :
  ¬ (tree_age (heap w tree)
     > tree_AgeToSpread (tree_characteristics (heap w tree)))%R →
  treeReproduce tree w = (tt, w).
Proof.
  intros Hage. unfold treeReproduce. rewrite bind_eq. cbn [read_tree fst snd].
  by destruct (decide (_ > _)%R).
Qed.

Lemma treeCallback_at_AgeToSpread pre tree index w :
  (tree_age (heap w tree) + 1
   = tree_AgeToSpread (tree_characteristics (heap w tree)))%R →
  let w' := exec (treeCallback pre tree index) w in
  newTrees w' = newTrees w ∧ treeIdGenerator w' = treeIdGenerator w
  ∧ nextLoc w' = nextLoc w.
Proof.
  intros Hage.
  set (Q := λ w' : World,
         (newTrees w' = newTrees w ∧ treeIdGenerator w' = treeIdGenerator w
          ∧ nextLoc w' = nextLoc w)
         ∧ tree_age (heap w' tree)
           = tree_AgeToSpread (tree_characteristics (heap w' tree))).
  assert (Hspec : hoare Q (treeAfterAging pre tree index)
                        (λ keep w', if keep : bool then Q w' else Q w')).
  { apply treeAfterAging_spec; unfold Q.
    - by intros n w1 Hw1.
    - intros size w1 [Hf Ha]. split; [done |]. cbn [heap set_heap].
      by rewrite fn_lookup_insert.
    - intros w1 [Hf Ha].
      destruct (deleteFromGrid_frame (heap w1 tree) w1)
        as (_ & _ & _ & -> & _ & -> & -> & _ & _ & _ & _ & -> & _).
      done.
    - intros w1 [Hf Ha]. rewrite treeReproduce_too_young; [done |].
      rewrite Ha. apply Rgt_irrefl. }
  unfold exec, treeCallback. rewrite bind_eq. cbn [update_tree modify fst snd].
  match goal with |- context [treeAfterAging pre tree index ?w1] =>
    assert (Hw1 : Q w1) end.
  { unfold Q. cbn [newTrees treeIdGenerator nextLoc heap set_heap].
    split; [done |]. rewrite fn_lookup_insert. cbn. exact Hage. }
  apply Hspec in Hw1. cbv zeta. by destruct (_.1); destruct Hw1.
Qed.

Lemma treeCallback_at_MaxSize pre tree index w :
  tree_size (heap w tree) = tree_MaxSize (tree_characteristics (heap w tree)) →
  treeCallback pre tree index w
  = (update_tree tree (λ t, set_tree_age (tree_age t + 1) t) ;;;
     treeSurvive tree) w.
Proof.
  intros Hsize. unfold treeCallback, treeAfterAging. rewrite !bind_eq.
  cbn [update_tree modify read_tree fst snd heap set_heap].
  rewrite fn_lookup_insert. cbn [tree_size tree_characteristics set_tree_age].
  destruct (decide (_ < _)%R) as [Hlt | _]; [rewrite Hsize in Hlt; lra |].
  reflexivity.
Qed.

(** C9.  A tree whose age, after the increment of this tick, equals its
    [AgeToSpread] does not reproduce: the reproduction step leaves the
    state untouched, and the callback creates no tree and issues no id.
    A tree whose size equals its [MaxSize] skips the growth block: its
    callback is the age increment followed by natural death and
    reproduction only, whatever the precalculated crowdedness is. *)
Theorem reproduction_and_growth_boundaries
    (pre : option (list R)) (tree : loc) (index : nat) (w : World) :
  ((tree_age (heap w tree) + 1
    = tree_AgeToSpread (tree_characteristics (heap w tree)))%R →
   let w' := exec (treeCallback pre tree index) w in
   newTrees w' = newTrees w ∧ treeIdGenerator w' = treeIdGenerator w
   ∧ nextLoc w' = nextLoc w)
  ∧ (tree_age (heap w tree)
     = tree_AgeToSpread (tree_characteristics (heap w tree)) →
     treeReproduce tree w = (tt, w))
  ∧ (tree_size (heap w tree) = tree_MaxSize (tree_characteristics (heap w tree)) →
     treeCallback pre tree index w
     = (update_tree tree (λ t, set_tree_age (tree_age t + 1) t) ;;;
        treeSurvive tree) w).
Proof.
  split; [apply treeCallback_at_AgeToSpread |].
  split; [| apply treeCallback_at_MaxSize].
  intros Hage. apply treeReproduce_too_young. rewrite Hage. apply Rgt_irrefl.
Qed.

(** The grown tree turns three with [AgeToSpread = 3] and has reached its
    [MaxSize]: with draws (all 0.01) that survive the natural death roll
    and would pass the spread roll, no offspring appears, and the
    crowdedness is not consulted. *)
Lemma reproduction_and_growth_boundaries_witness :
  newTrees (exec (treeCallback None 0 0) (oneTree (λ _, 0.01%R)))
  = newTrees (oneTree (λ _, 0.01%R))
  ∧ treeCallback None 0 0 (oneTree (λ _, 0.01%R))
    = (update_tree 0 (λ t, set_tree_age (tree_age t + 1) t) ;;; treeSurvive 0)
        (oneTree (λ _, 0.01%R)).
Proof.
  pose proof (reproduction_and_growth_boundaries None 0 0 (oneTree (λ _, 0.01%R)))
    as (Ha & _ & Hs).
  split.
  - apply Ha. cbn. lra.
  - apply Hs. reflexivity.
Defined.

(** ** The order of the passes (C8) *)







(** ** Characteristics stay what the generators made them (C4) *)

Lemma elem_of_insert_inv {A} (l : list A) i x y :
  y ∈ <[i := x]> l → y = x ∨ y ∈ l.
Proof.
  revert i. induction l as [| a l IH]; intros [| i]; cbn;
    rewrite ?elem_of_cons; try tauto.
  intros [-> | Hy]; [tauto |]. destruct (IH i Hy); tauto.
Qed.

Section Characteristics.
Variables (GT : TreeCharacteristics → Prop) (GD : DeerCharacteristics → Prop)
          (GW : WolfCharacteristics → Prop) (RngOK : (nat → R) → Prop).

(** The invariant between passes, and inside each pass (where the
    offspring collected so far count as well). *)
Let B (w : World) : Prop :=
  RngOK (rng w) ∧ all_satisfy GT GD GW (trees w) (deer w) (wolves w) w.
Let QT (w : World) : Prop :=
  RngOK (rng w)
  ∧ all_satisfy GT GD GW (trees w ++ newTrees w) (deer w) (wolves w) w.
Let QD (w : World) : Prop :=
  RngOK (rng w)
  ∧ all_satisfy GT GD GW (trees w) (deer w ++ newDeer w) (wolves w) w.
Let QW (w : World) : Prop :=
  RngOK (rng w)
  ∧ all_satisfy GT GD GW (trees w) (deer w) (wolves w ++ newWolves w) w.

Lemma treePass_QT pre : preserves QT (treePass pre).
Proof.
  apply treePass_preserves; unfold QT, all_satisfy.
  - by intros n w Hw.
  - intros tree f w (Hr & Ht & Hd & Hv) Hin Hf. cbn. repeat split; [done | | done ..].
    intros r Hr'. destruct (decide (tree = r)) as [-> | Hne].
    + rewrite fn_lookup_insert. destruct (Hf (heap w r)) as (_ & _ & _ & ->). by apply Ht.
    + rewrite fn_lookup_insert_ne by done. by apply Ht.
  - by intros g w Hw.
  - intros tree x y w (Hr & Ht & Hd & Hv) Hin. unfold spawned. cbn.
    repeat split; [done | | done ..].
    intros r Hr'. destruct (decide (nextLoc w = r)) as [<- | Hne].
    + rewrite fn_lookup_insert. cbn. apply Ht. rewrite elem_of_app. by left.
    + rewrite fn_lookup_insert_ne by done. apply Ht.
      revert Hr'. rewrite !elem_of_app, list_elem_of_singleton.
      intros [? | [? | ->]]; [tauto | tauto | done].
  - intros w (Hr & Ht & Hd & Hv). cbn. repeat split; [done | | done ..].
    intros r Hr'. apply Ht. rewrite app_nil_r in Hr'. rewrite elem_of_app. by left.
  - intros kept w (Hr & Ht & Hd & Hv) Hsub. cbn. repeat split; [done | | done ..].
    intros r Hr'. apply Ht. revert Hr'. rewrite !elem_of_app.
    intros [[Hk | ?] | ?]; [left | by right | by right].
    by eapply elem_of_sublist.
Qed.

Lemma treePass_B pre : preserves B (treePass pre).
Proof.
  intros w (Hr & Ht & Hd & Hv).
  assert (Hq : QT (set_newTrees [] w)).
  { unfold QT, all_satisfy. cbn. rewrite app_nil_r. by repeat split. }
  apply (treePass_QT pre) in Hq. cbv beta in Hq.
  change (treePass pre (set_newTrees [] w)) with (treePass pre w) in Hq.
  destruct Hq as (Hr' & Ht' & Hd' & Hv'). unfold B, all_satisfy.
  repeat split; [done | | done ..].
  intros r Hin. apply Ht'. rewrite elem_of_app. by left.
Qed.

Lemma deerPass_QD immortalDeer : preserves QD (deerPass immortalDeer).
Proof.
  apply deerPass_preserves; unfold QD, all_satisfy.
  - by intros n w Hw.
  - intros i tree w (Hr & Ht & Hd & Hv) Hi. unfold eaten.
    destruct (deleteFromGrid_frame (heap w tree) w)
      as (E1 & E2 & E3 & E4 & _ & _ & _ & _ & _ & E5 & _ & _ & E6 & _).
    cbv zeta in *. cbn. rewrite E1, E2, E3, E4, E5, E6.
    repeat split; [done | | done ..].
    intros r Hr'. apply Ht. by eapply list_elem_of_delete_inv.
  - intros index d d' w (Hr & Ht & Hd & Hv) Hi [_ Hk]. cbn.
    repeat split; [done .. | | done].
    intros x. rewrite elem_of_app. intros [Hx | Hx].
    + apply elem_of_insert_inv in Hx as [-> | Hx].
      * rewrite Hk. apply Hd. rewrite elem_of_app. left.
        by eapply list_elem_of_lookup_2.
      * apply Hd. rewrite elem_of_app. by left.
    + apply Hd. rewrite elem_of_app. by right.
  - by intros n w Hw.
  - intros b d w (Hr & Ht & Hd & Hv) Hin Hb. cbn. repeat split; [done .. | | done].
    intros x. rewrite !elem_of_app, list_elem_of_singleton.
    intros [Hx | [Hx | ->]].
    + apply Hd. rewrite elem_of_app. by left.
    + apply Hd. rewrite elem_of_app. by right.
    + rewrite Hb. apply Hd. rewrite elem_of_app. by left.
  - intros w (Hr & Ht & Hd & Hv). cbn. repeat split; [done .. | | done].
    intros x Hx. rewrite app_nil_r in Hx. apply Hd. rewrite elem_of_app. by left.
  - intros kept w (Hr & Ht & Hd & Hv). cbn. repeat split; [done .. | | done].
    intros x. rewrite elem_of_app. intros [Hx | Hx]; apply Hd; rewrite elem_of_app.
    + left. by eapply selected_subseteq.
    + by right.
  - intros w (Hr & Ht & Hd & Hv). cbn. repeat split; [done .. | | done].
    intros x. rewrite !elem_of_app. intros [[Hx | Hx] | Hx]; apply Hd;
      rewrite elem_of_app; tauto.
Qed.

Lemma deerPass_B immortalDeer : preserves B (deerPass immortalDeer).
Proof.
  intros w (Hr & Ht & Hd & Hv).
  assert (Hq : QD (set_newDeer [] w)).
  { unfold QD, all_satisfy. cbn. rewrite app_nil_r. by repeat split. }
  apply (deerPass_QD immortalDeer) in Hq. cbv beta in Hq.
  change (deerPass immortalDeer (set_newDeer [] w))
    with (deerPass immortalDeer w) in Hq.
  destruct Hq as (Hr' & Ht' & Hd' & Hv'). unfold B, all_satisfy.
  repeat split; [done .. | | done].
  intros x Hin. apply Hd'. rewrite elem_of_app. by left.
Qed.

Lemma wolfPass_QW immortalWolf : preserves QW (wolfPass immortalWolf).
Proof.
  apply wolfPass_preserves; unfold QW, all_satisfy.
  - by intros n w Hw.
  - intros i w (Hr & Ht & Hd & Hv) _ _. cbn. repeat split; [done .. | | done].
    intros x Hx. apply Hd. by eapply list_elem_of_delete_inv.
  - intros index v v' w (Hr & Ht & Hd & Hv) Hi [_ Hk]. cbn.
    repeat split; [done .. |].
    intros x. rewrite elem_of_app. intros [Hx | Hx].
    + apply elem_of_insert_inv in Hx as [-> | Hx].
      * rewrite Hk. apply Hv. rewrite elem_of_app. left.
        by eapply list_elem_of_lookup_2.
      * apply Hv. rewrite elem_of_app. by left.
    + apply Hv. rewrite elem_of_app. by right.
  - by intros n w Hw.
  - intros b v w (Hr & Ht & Hd & Hv) Hin Hb. cbn. repeat split; [done .. |].
    intros x. rewrite !elem_of_app, list_elem_of_singleton.
    intros [Hx | [Hx | ->]].
    + apply Hv. rewrite elem_of_app. by left.
    + apply Hv. rewrite elem_of_app. by right.
    + rewrite Hb. apply Hv. rewrite elem_of_app. by left.
  - intros w (Hr & Ht & Hd & Hv). cbn. repeat split; [done .. |].
    intros x Hx. rewrite app_nil_r in Hx. apply Hv. rewrite elem_of_app. by left.
  - intros kept w (Hr & Ht & Hd & Hv). cbn. repeat split; [done .. |].
    intros x. rewrite elem_of_app. intros [Hx | Hx]; apply Hv; rewrite elem_of_app.
    + left. by eapply selected_subseteq.
    + by right.
  - intros w (Hr & Ht & Hd & Hv). cbn. repeat split; [done .. |].
    intros x. rewrite !elem_of_app. intros [[Hx | Hx] | Hx]; apply Hv;
      rewrite elem_of_app; tauto.
Qed.

Lemma wolfPass_B immortalWolf : preserves B (wolfPass immortalWolf).
Proof.
  intros w (Hr & Ht & Hd & Hv).
  assert (Hq : QW (set_newWolves [] w)).
  { unfold QW, all_satisfy. cbn. rewrite app_nil_r. by repeat split. }
  apply (wolfPass_QW immortalWolf) in Hq. cbv beta in Hq.
  change (wolfPass immortalWolf (set_newWolves [] w))
    with (wolfPass immortalWolf w) in Hq.
  destruct Hq as (Hr' & Ht' & Hd' & Hv'). unfold B, all_satisfy.
  repeat split; [done .. |].
  intros x Hin. apply Hv'. rewrite elem_of_app. by left.
Qed.

Lemma updateEcosystem_B pre immortalDeer immortalWolf :
  preserves B (updateEcosystem pre immortalDeer immortalWolf).
Proof.
  unfold updateEcosystem.
  apply preserves_bind; [apply treePass_B |]. intros ?.
  apply preserves_bind; [apply deerPass_B |]. intros ?.
  apply wolfPass_B.
Qed.
End Characteristics.

Section Initialization.
Variables (GT : TreeCharacteristics → Prop) (GD : DeerCharacteristics → Prop)
          (GW : WolfCharacteristics → Prop) (RngOK : (nat → R) → Prop).
Hypothesis HT : ∀ w, RngOK (rng w) → GT (eval randomTreeCharacteristics w).
Hypothesis HD : ∀ w, RngOK (rng w) → GD (eval randomDeerCharacteristics w).
Hypothesis HW : ∀ w, RngOK (rng w) → GW (eval randomWolfCharacteristics w).

Let B (w : World) : Prop :=
  RngOK (rng w) ∧ all_satisfy GT GD GW (trees w) (deer w) (wolves w) w.

Lemma initTree_B : preserves B initTree.
Proof.
  intros w (Hr & Ht & Hd & Hv). unfold initTree.
  rewrite !bind_eq. cbn [treeIdGenerator_next random fst snd].
  rewrite randomTreeCharacteristics_state.
  match goal with |- context [(randomTreeCharacteristics ?w1).1] =>
    pose proof (HT w1 Hr) as Hc; unfold eval in Hc;
    set (c := (randomTreeCharacteristics w1).1) in * end.
  cbn [new_tree modify fst snd]. unfold B, all_satisfy. cbn.
  repeat split; [done | | done ..].
  intros r Hin. destruct (decide (nextLoc w = r)) as [<- | Hne].
  - by rewrite fn_lookup_insert.
  - rewrite fn_lookup_insert_ne by done. apply Ht.
    revert Hin. rewrite elem_of_app, list_elem_of_singleton. by intros [? | ->].
Qed.

Lemma initDeer_B : preserves B initDeer.
Proof.
  intros w (Hr & Ht & Hd & Hv). unfold initDeer.
  rewrite !bind_eq. cbn [deerIdGenerator_next random fst snd].
  match goal with |- context [(randomDeerCharacteristics ?w1).1] =>
    pose proof (HD w1 Hr) as Hc; unfold eval in Hc;
    set (c := (randomDeerCharacteristics w1).1) in * end.
  unfold B, all_satisfy. cbn. repeat split; [done .. | | done].
  intros d. rewrite elem_of_app, list_elem_of_singleton. intros [Hin | ->]; [by apply Hd | done].
Qed.

Lemma initWolf_B : preserves B initWolf.
Proof.
  intros w (Hr & Ht & Hd & Hv). unfold initWolf.
  rewrite !bind_eq. cbn [wolfIdGenerator_next random fst snd].
  match goal with |- context [(randomWolfCharacteristics ?w1).1] =>
    pose proof (HW w1 Hr) as Hc; unfold eval in Hc;
    set (c := (randomWolfCharacteristics w1).1) in * end.
  unfold B, all_satisfy. cbn. repeat split; [done .. |].
  intros v. rewrite elem_of_app, list_elem_of_singleton. intros [Hin | ->]; [by apply Hv | done].
Qed.

Lemma initializeEcosystem_B w0 :
  RngOK (rng w0) → B (exec initializeEcosystem w0).
Proof.
  intros Hr. unfold exec, initializeEcosystem. rewrite !bind_eq. cbn [modify fst snd].
  set (w1 := set_terrain _ _).
  assert (H1 : B w1).
  { unfold B, all_satisfy. cbn. repeat split; [done | ..]; intros x Hx;
      by apply elem_of_nil in Hx. }
  apply (preserves_repeatM B); [apply initWolf_B |].
  apply (preserves_repeatM B); [apply initDeer_B |].
  apply (preserves_repeatM B); [apply initTree_B | exact H1].
Qed.
End Initialization.

Lemma repeatM_S n body w :
  repeatM (S n) body w = repeatM n body (body w).2.
Proof. cbn [repeatM]. by rewrite bind_eq. Qed.

Lemma initializeEcosystem_trees_nonempty w0 :
  trees (exec initializeEcosystem w0) ≠ [].
Proof.
  unfold exec, initializeEcosystem. rewrite !bind_eq. cbn [modify fst snd].
  set (w1 := set_terrain _ _).
  set (P := λ w : World, trees w ≠ []).
  assert (Happ : ∀ w, P (initTree w).2).
  { intros w. unfold P, initTree. rewrite !bind_eq. cbn [modify fst snd trees set_trees].
    intros Heq. by apply app_eq_nil in Heq as [_ ?]. }
  assert (Htree : preserves P initTree) by (intros w _; apply Happ).
  assert (Hdeer : preserves P initDeer).
  { intros w Hw. unfold initDeer. by rewrite !bind_eq. }
  assert (Hwolf : preserves P initWolf).
  { intros w Hw. unfold initWolf. by rewrite !bind_eq. }
  apply (preserves_repeatM P DEFAULT_WOLF_COUNT initWolf Hwolf).
  apply (preserves_repeatM P DEFAULT_DEER_COUNT initDeer Hdeer).
  change DEFAULT_TREE_COUNT with (S 119).
  rewrite (repeatM_S 119 initTree w1).
  apply (preserves_repeatM P 119 initTree Htree). apply Happ.
Qed.

Section GeneratorBounds.
Local Open Scope R_scope.
Variable w : World.
Hypothesis rng_range : ∀ n, 0 <= rng w n < 1.

Local Ltac bound_field :=
  unfold within, within_scaled;
  cbn -[Rplus Rmult Rminus Rle IZR Rdiv Rinv];
  unfold ECOSYSTEM_SCALE;
  match goal with
  | |- context [rng w ?n] => pose proof (rng_range n); lra
  end.

Lemma randomTreeCharacteristics_in_bounds :
  treeCharacteristicsInBounds (eval randomTreeCharacteristics w).
Proof. repeat split; bound_field. Qed.

Lemma randomDeerCharacteristics_in_bounds :
  deerCharacteristicsInBounds (eval randomDeerCharacteristics w).
Proof. repeat split; bound_field. Qed.

Lemma randomWolfCharacteristics_in_bounds :
  wolfCharacteristicsInBounds (eval randomWolfCharacteristics w).
Proof. repeat split; bound_field. Qed.
End GeneratorBounds.

Lemma reachable_bounds w :
  reachable w →
  (∀ n, 0 <= rng w n < 1)%R ∧ bounds_respected w.
Proof.
  induction 1 as [w0 Hr | w pre iD iW _ IH].
  - apply (initializeEcosystem_B treeCharacteristicsInBounds
             deerCharacteristicsInBounds wolfCharacteristicsInBounds
             (λ f, ∀ n, 0 <= f n < 1)%R); [| | | exact Hr].
    + apply randomTreeCharacteristics_in_bounds.
    + apply randomDeerCharacteristics_in_bounds.
    + apply randomWolfCharacteristics_in_bounds.
  - apply (updateEcosystem_B treeCharacteristicsInBounds
             deerCharacteristicsInBounds wolfCharacteristicsInBounds
             (λ f, ∀ n, 0 <= f n < 1)%R pre iD iW w IH).
Qed.

(** C4, as stated, fails: after [initializeEcosystem] with draws that are
    all 0 there are trees, and every one of them has
    [SpreadDistance = 0.015], below the declared minimum 0.03; the deer
    and wolf generators likewise give a [Speed] below the declared
    minimum. *)
Lemma initialized_trees_below_declared_minimum :
  let w := exec initializeEcosystem (moduleState (λ _, 0%R)) in
  reachable w
  ∧ trees w ≠ []
  ∧ (∀ tree, tree ∈ trees w →
       ¬ within TREE_BOUNDS.SpreadDistance
           (tree_SpreadDistance (tree_characteristics (heap w tree))))
  ∧ ¬ within DEER_BOUNDS.Speed
        (deer_Speed (eval randomDeerCharacteristics (moduleState (λ _, 0%R))))
  ∧ ¬ within WOLF_BOUNDS.Speed
        (wolf_Speed (eval randomWolfCharacteristics (moduleState (λ _, 0%R)))).
Proof.
  cbv zeta. split.
  { apply reach_init. intros n. cbn. lra. }
  split; [apply initializeEcosystem_trees_nonempty |].
  split.
  - pose proof (initializeEcosystem_B
                  (λ c, tree_SpreadDistance c = 0.015%R) (λ _, True) (λ _, True)
                  (λ f, ∀ n, f n = 0%R)) as Hinit.
    destruct (Hinit) with (w0 := moduleState (λ _, 0%R)) as (_ & Ht & _); try done.
    + intros w Hw. cbn -[Rplus Rmult Rminus IZR Rdiv Rinv].
      rewrite Hw. unfold ECOSYSTEM_SCALE. lra.
    + intros tree Hin [Hlo _]. rewrite (Ht tree Hin) in Hlo.
      cbn in Hlo. lra.
  - split; intros [Hlo _]; cbn -[Rplus Rmult Rminus Rle IZR Rdiv Rinv] in Hlo;
      unfold ECOSYSTEM_SCALE in Hlo; lra.
Qed.

(** C4 (amended).  For every entity at every tick, freshly initialized
    entities and offspring included, every characteristic lies within its
    declared species bounds, except the distance-like ones (a tree's
    [SpreadDistance], a deer's or wolf's [Speed]), which lie within the
    declared bounds multiplied by [ECOSYSTEM_SCALE]. *)
Theorem characteristics_within_scaled_bounds (w : World) :
  reachable w → bounds_respected w.
Proof. intros Hr. apply reachable_bounds, Hr. Qed.

(** ** Movement at distance zero (C5) *)

Section ZeroDistance.
Local Open Scope R_scope.

(** The unit-vector component [d / sqrt(dx * dx + dy * dy)] when both
    differences are zero: 0 / 0. *)
Lemma unit_component_zero (x y : R) :
  let dx := (Fin x - Fin x)%js in
  let dy := (Fin y - Fin y)%js in
  (dx / Num.sqrt (dx * dx + dy * dy))%js = NaN
  ∧ (dy / Num.sqrt (dx * dx + dy * dy))%js = NaN.
Proof.
  cbv zeta. cbn [Num.sub Num.add Num.neg Num.mul].
  replace (x + - x) with 0 by lra. replace (y + - y) with 0 by lra.
  replace (0 * 0 + 0 * 0) with 0 by lra.
  unfold Num.sqrt. destruct (decide (0 < 0)) as [Hlt | _]; [lra |].
  rewrite sqrt_0. unfold Num.div.
  destruct (decide (0 = 0)) as [_ | Hne]; [| done].
  unfold Num.inf_times. by destruct (decide (0 < 0)) as [Hlt | _]; [lra |].
Qed.

Lemma nan_step (a : number) (speed : R) : (a + NaN * speed)%js = NaN.
Proof. by destruct a. Qed.

(** A deer that seeks a tree at its own position gets NaN coordinates:
    the division is not guarded. *)
Lemma deerSeekStep_on_target (d : Deer) (t : Tree) :
  deer_x d = Fin (tree_x t) → deer_y d = Fin (tree_y t) →
  deer_x (deerSeekStep d t) = NaN ∧ deer_y (deerSeekStep d t) = NaN.
Proof.
  intros Hx Hy. unfold deerSeekStep. cbv zeta. cbn [deer_x deer_y set_deer_pos].
  rewrite Hx, Hy.
  destruct (unit_component_zero (tree_x t) (tree_y t)) as [-> ->].
  by rewrite !nan_step.
Qed.

(** A wolf that chases a deer at its own position gets NaN coordinates. *)
Lemma wolfChaseStep_on_target (v : Wolf) (d : Deer) (x y : R) :
  wolf_x v = Fin x → wolf_y v = Fin y → deer_x d = Fin x → deer_y d = Fin y →
  wolf_x (wolfChaseStep v d) = NaN ∧ wolf_y (wolfChaseStep v d) = NaN.
Proof.
  intros Hx Hy Hdx Hdy. unfold wolfChaseStep. cbv zeta.
  cbn [wolf_x wolf_y set_wolf_pos]. rewrite Hx, Hy, Hdx, Hdy.
  destruct (unit_component_zero x y) as [-> ->].
  by rewrite !nan_step.
Qed.

(** The sibling path: a deer that flees a wolf at its own position takes
    the guarded branch and moves in a random direction; its coordinates
    stay finite. *)
Lemma deerFleeStep_on_target (d : Deer) (v : Wolf) (x y : R) (w : World) :
  deer_x d = Fin x → deer_y d = Fin y → wolf_x v = Fin x → wolf_y v = Fin y →
  Num.is_finite (deer_x (eval (deerFleeStep d v) w))
  ∧ Num.is_finite (deer_y (eval (deerFleeStep d v) w)).
Proof.
  intros Hx Hy Hvx Hvy. unfold eval, deerFleeStep. cbv zeta.
  rewrite Hx, Hy, Hvx, Hvy. cbn [Num.sub Num.add Num.neg Num.mul].
  replace (x + - x) with 0 by lra. replace (y + - y) with 0 by lra.
  replace (0 * 0 + 0 * 0) with 0 by lra.
  unfold Num.sqrt. destruct (decide (0 < 0)) as [Hlt | _]; [lra |].
  rewrite sqrt_0. unfold Num.gt, Num.lt.
  rewrite bool_decide_eq_false_2 by lra.
  rewrite bind_eq. unfold randomStep. rewrite bind_eq. by cbn.
Qed.

Lemma getCellOf_origin : getCellOf (Fin 0) (Fin 0) = Some (0, 0)%Z.
Proof.
  unfold getCellOf. cbn [Num.mul Num.floor].
  by rewrite Rmult_0_l, (Int_part_IZR 0).
Qed.

Lemma distanceBetween_origin :
  distanceBetween (Fin 0) (Fin 0) (Fin 0) (Fin 0) = Fin 0.
Proof.
  unfold distanceBetween. cbn [Num.sub Num.add Num.neg Num.mul].
  replace ((0 + - 0) * (0 + - 0) + (0 + - 0) * (0 + - 0)) with 0 by lra.
  unfold Num.sqrt. destruct (decide (0 < 0)) as [Hlt | _]; [lra |].
  by rewrite sqrt_0.
Qed.

Lemma getCell_origin : getCell 0 0 = (0, 0)%Z.
Proof. unfold getCell. by rewrite Rmult_0_l, (Int_part_IZR 0). Qed.

(** A tree alone in its neighbourhood is not crowded. *)
Lemma crowdedness_alone (t : Tree) (w : World) :
  tree_x t = 0 → tree_y t = 0 → tree_id t = tree_id (heap w 0%nat) →
  grid w = {[ (0, 0)%Z := [0%nat] ]} →
  crowdedness t w = 0.
Proof.
  intros Hx Hy Hid Hg. unfold crowdedness, getCellOfTree.
  rewrite Hx, Hy, getCell_origin, Hg.
  assert (Hv : ∀ acc, crowdednessVisit t acc (heap w 0%nat) = acc).
  { intros acc. unfold crowdednessVisit. by rewrite Hid, decide_True. }
  assert (Hk : ∀ acc k,
    foldl (λ acc t0, crowdednessVisit t acc (heap w t0)) acc
      (default [] (({[ (0, 0)%Z := [0%nat] ]} : gmap Cell (list loc)) !! k)) = acc).
  { intros acc k. destruct (decide (k = (0, 0)%Z)) as [-> | Hne].
    - rewrite lookup_singleton_eq. cbn [default foldl]. apply Hv.
    - by rewrite lookup_singleton_ne. }
  unfold neighborOffsets. cbn [mbind list_bind mret list_ret app foldl].
  rewrite !Hk. apply Rmin_right. lra.
Qed.

(** The tree pass on [feedingWorld]: the tree ages, grows by at most 1 and
    survives; the grid and the deer are as before. *)
Lemma treePass_feeding :
  ∃ w', treePass None (feedingWorld (λ _, 0.5)) = (tt, w')
        ∧ deer w' = [sampleDeer] ∧ wolves w' = [] ∧ trees w' = [0%nat]
        ∧ grid w' = {[ (0, 0)%Z := [0%nat] ]}
        ∧ tree_x (heap w' 0%nat) = 0 ∧ tree_y (heap w' 0%nat) = 0
        ∧ tree_size (heap w' 0%nat) <= 1.
Proof.
  unfold treePass.
  erewrite bind_run; [| reflexivity]. cbv beta.
  erewrite bind_run; [| reflexivity]. cbv beta.
  set (w0 := set_newTrees [] (feedingWorld (λ _, 0.5))).
  change (trees w0) with [0%nat]. cbn [filterM].
  assert (Hcb : ∃ w1, treeCallback None 0%nat 0%nat w0 = (true, w1)
                      ∧ deer w1 = [sampleDeer] ∧ wolves w1 = [] ∧ newTrees w1 = []
                      ∧ grid w1 = {[ (0, 0)%Z := [0%nat] ]}
                      ∧ tree_x (heap w1 0%nat) = 0 ∧ tree_y (heap w1 0%nat) = 0
                      ∧ tree_size (heap w1 0%nat) <= 1).
  { unfold treeCallback. erewrite bind_run; [| reflexivity]. cbv beta.
    set (wA := set_heap _ w0).
    assert (HtA : heap wA 0%nat = set_tree_age (0 + 1) (sampleTree 0 1))
      by apply fn_lookup_insert.
    unfold treeAfterAging. erewrite bind_run; [| reflexivity]. cbv beta.
    set (f := getMoistureFitness (heap wA 0%nat) wA).
    set (wB := set_heap (<[0%nat := set_tree_size (Rmin 5 (0 + Rmax 0 (1.0 * f)))
                                      (heap wA 0%nat)]> (heap wA)) wA).
    erewrite (bind_run _ _ wA false wB); cycle 1.
    { destruct (decide (_ < _)) as [_ | Hn]; cycle 1.
      { exfalso. apply Hn. rewrite HtA. cbn. lra. }
      unfold treeGrow. erewrite bind_run; [| reflexivity]. cbv beta.
      erewrite bind_run; [| reflexivity]. cbv beta zeta.
      rewrite (crowdedness_alone (heap wA 0%nat) wA) by reflexivity.
      unfold treeGrowth. destruct (decide (0 > 0)) as [Hgt | _]; [lra |].
      erewrite bind_run; [| reflexivity]. reflexivity. }
    cbv iota. unfold treeSurvive. erewrite bind_run; [| reflexivity]. cbv beta.
    erewrite bind_run; [| reflexivity]. cbv beta.
    destruct (decide (_ < _)) as [Hlt | _].
    { exfalso. cbn in Hlt. rewrite !fn_lookup_insert in Hlt. cbn in Hlt. lra. }
    erewrite bind_run; cycle 1.
    { apply treeReproduce_too_young. cbn. rewrite !fn_lookup_insert. cbn. lra. }
    eexists. split; [reflexivity |]. cbn [deer wolves newTrees grid heap set_cursor set_heap wB wA w0].
    repeat split; try reflexivity.
    rewrite fn_lookup_insert. cbn [tree_size set_tree_size].
    pose proof (getMoistureFitness_range (heap wA 0%nat) wA) as [Hf0 Hf1]. fold f in Hf0, Hf1.
    etransitivity; [apply Rmin_r |]. rewrite (Rmax_right 0 (1.0 * f)) by lra. lra. }
  destruct Hcb as (w1 & Hcb & Hd & Hv & Hn & Hg & Hx & Hy & Hs).
  erewrite bind_run; cycle 1.
  { erewrite bind_run; [| exact Hcb]. reflexivity. }
  cbv beta iota.
  erewrite bind_run; [| reflexivity]. cbv beta.
  erewrite bind_run; [| reflexivity]. cbv beta.
  erewrite bind_run; [| reflexivity]. cbv beta.
  cbn [newTrees set_trees]. rewrite Hn. cbn [forEach ret].
  eexists. split; [reflexivity |]. cbn [deer wolves trees grid heap set_trees].
  by repeat split.
Qed.

(** A hungry deer that stands exactly on the only tree of its
    neighbourhood, an edible one, targets it. *)
Lemma deerMove_on_tree (d : Deer) (w : World) :
  deer_x d = Fin 0 → deer_y d = Fin 0 →
  deer_energy d < DEER_REPRODUCE_THRESHOLD →
  grid w = {[ (0, 0)%Z := [0%nat] ]} →
  tree_x (heap w 0%nat) = 0 → tree_y (heap w 0%nat) = 0 →
  tree_size (heap w 0%nat) <= deer_MaxEatableSize (deer_characteristics d) →
  deerMove d w = (deerSeekStep d (heap w 0%nat), w).
Proof.
  intros Hx Hy He Hg Htx Hty Hs. unfold deerMove. rewrite bind_eq. cbn [get fst snd].
  cbv zeta. rewrite (decide_True _ _ He).
  assert (Hnear : getTreesInNeighborhood (deer_x d) (deer_y d) w = [0%nat]).
  { unfold getTreesInNeighborhood. rewrite Hx, Hy, getCellOf_origin, Hg. reflexivity. }
  rewrite Hnear.
  assert (Htarget : nearestEdibleTree d w [0%nat] = Some 0%nat).
  { unfold nearestEdibleTree. cbn [foldl]. cbv zeta.
    rewrite (decide_True _ _ Hs), Hx, Hy, Htx, Hty.
    by rewrite distanceBetween_origin. }
  by rewrite Htarget.
Qed.

Lemma distanceBetween_NaN (a b : number) : distanceBetween a b NaN NaN = NaN.
Proof. by destruct a, b. Qed.

(** A deer at NaN is within eating distance of no tree: every comparison
    [distToTree < eatDistance] is false. *)
Lemma deerEatLoop_NaN (d : Deer) (i : nat) (w : World) :
  deer_x d = NaN → deer_y d = NaN → deerEatLoop d i w = (d, w).
Proof.
  intros Hx Hy. induction i as [| i IH]; cbn [deerEatLoop]; [done |].
  rewrite bind_eq. cbn [get fst snd].
  destruct (trees w !! i); [| exact IH].
  cbv zeta. rewrite Hx, Hy, distanceBetween_NaN. exact IH.
Qed.

Lemma deerCallback_on_tree (w : World) :
  deer w = [sampleDeer] →
  grid w = {[ (0, 0)%Z := [0%nat] ]} →
  tree_x (heap w 0%nat) = 0 → tree_y (heap w 0%nat) = 0 →
  tree_size (heap w 0%nat) <= 1 →
  ∃ d, deerCallback true sampleDeer 0 w = (true, set_deer [d] w)
       ∧ deer_x d = NaN ∧ deer_y d = NaN.
Proof.
  intros Hd Hg Htx Hty Hs. unfold deerCallback. cbv zeta.
  set (d1 := set_deer_age (deer_age sampleDeer + 1) sampleDeer).
  destruct (deerSeekStep_on_target d1 (heap w 0%nat)) as [Hx Hy];
    [by rewrite Htx | by rewrite Hty |].
  erewrite bind_run; cycle 1.
  { apply deerMove_on_tree; try done.
    - unfold DEER_REPRODUCE_THRESHOLD. cbn. lra.
    - cbn. lra. }
  rewrite Hx, Hy. change (wrap NaN) with NaN.
  set (d2 := set_deer_pos NaN NaN _).
  erewrite bind_run; cycle 1.
  { destruct (decide (deer_energy d2 < DEER_MAX_ENERGY)); [| reflexivity].
    rewrite bind_eq. by apply deerEatLoop_NaN. }
  cbv beta. set (d3 := set_deer_energy _ d2).
  erewrite bind_run; [| reflexivity]. cbv beta.
  erewrite bind_run; cycle 1.
  { apply deerDeathCheck_last. cbn [store_deer deer set_deer]. by rewrite Hd. }
  cbv beta iota.
  erewrite bind_run; cycle 1.
  { unfold deerReproduce.
    rewrite (bool_decide_eq_false_2 (deer_age d3 > DEER_REPRODUCE_AGE)); [reflexivity |].
    unfold DEER_REPRODUCE_AGE. cbn. lra. }
  exists d3. split; [| done]. rewrite Hd. reflexivity.
Qed.

Lemma deerPass_on_tree (w : World) :
  deer w = [sampleDeer] →
  grid w = {[ (0, 0)%Z := [0%nat] ]} →
  tree_x (heap w 0%nat) = 0 → tree_y (heap w 0%nat) = 0 →
  tree_size (heap w 0%nat) <= 1 →
  ∃ d w', deerPass true w = (tt, w') ∧ deer w' = [d] ∧ wolves w' = wolves w
          ∧ deer_x d = NaN ∧ deer_y d = NaN.
Proof.
  intros Hd Hg Htx Hty Hs.
  destruct (deerCallback_on_tree (set_newDeer [] w)) as (d & Hcb & Hx & Hy); try done.
  exists d. unfold deerPass.
  erewrite bind_run; [| reflexivity]. cbv beta.
  erewrite bind_run; [| reflexivity]. cbv beta.
  erewrite bind_run; cycle 1.
  { change (deer (set_newDeer [] w)) with (deer w). rewrite Hd.
    cbn [length filterInPlace].
    erewrite bind_run; [| reflexivity]. cbv beta.
    change (deer (set_newDeer [] w)) with (deer w). rewrite Hd.
    change ([sampleDeer] !! 0%nat) with (Some sampleDeer). cbv iota.
    erewrite bind_run; [| exact Hcb].
    reflexivity. }
  cbv beta iota.
  erewrite bind_run; [| reflexivity]. cbv beta.
  eexists. split; [reflexivity |]. by repeat split.
Qed.

Lemma wolfPass_no_wolves (b : bool) (w : World) :
  wolves w = [] → deer (exec (wolfPass b) w) = deer w.
Proof.
  intros Hv. unfold exec, wolfPass.
  erewrite bind_run; [| reflexivity]. cbv beta.
  erewrite bind_run; [| reflexivity]. cbv beta.
  change (wolves (set_newWolves [] w)) with (wolves w). rewrite Hv.
  reflexivity.
Qed.

Lemma deerMove_on_its_tree (draws : nat → R) :
  let d := eval (deerMove sampleDeer) (feedingWorld draws) in
  deer_x d = NaN ∧ deer_y d = NaN.
Proof.
  cbv zeta. unfold eval. rewrite deerMove_on_tree; try done.
  - by apply deerSeekStep_on_target.
  - unfold DEER_REPRODUCE_THRESHOLD. cbn. lra.
  - cbn. lra.
Qed.

(** A hungry wolf that stands exactly on the deer it targets: the chase
    step assigns NaN to both coordinates of the wolf. *)
Lemma wolfMove_on_deer (draws : nat → R) :
  let v := eval (wolfMove sampleWolf) (huntingWorld draws) in
  wolf_x v = NaN ∧ wolf_y v = NaN.
Proof.
  cbv zeta. unfold eval, wolfMove. rewrite bind_eq. cbn [get fst snd]. cbv zeta.
  destruct (decide (wolf_energy sampleWolf < WOLF_REPRODUCE_THRESHOLD)) as [_ | Hn];
    cycle 1.
  { exfalso. apply Hn. unfold WOLF_REPRODUCE_THRESHOLD. cbn. lra. }
  assert (Hnear : getDeerInNeighborhood (wolf_x sampleWolf) (wolf_y sampleWolf)
                    (huntingWorld draws) = [sampleDeer]).
  { unfold getDeerInNeighborhood. cbn [sampleWolf wolf_x wolf_y].
    cbn [huntingWorld lastPair deer set_deer]. cbn [filter list_filter].
    cbn [sampleDeer deer_x deer_y]. rewrite getCellOf_origin.
    by destruct (decide _). }
  rewrite Hnear.
  assert (Htarget : nearestDeerOf sampleWolf [sampleDeer] = Some sampleDeer).
  { unfold nearestDeerOf. cbn [foldl]. cbv zeta.
    change (distanceBetween _ _ _ _)
      with (distanceBetween (Fin 0) (Fin 0) (Fin 0) (Fin 0)).
    by rewrite distanceBetween_origin. }
  rewrite Htarget. cbn [ret fst].
  by apply (wolfChaseStep_on_target _ _ 0 0).
Qed.

Lemma updateEcosystem_feeding :
  ∃ d, deer (exec (updateEcosystem None true true) (feedingWorld (λ _, 0.5))) = [d]
       ∧ deer_x d = NaN ∧ deer_y d = NaN.
Proof.
  destruct treePass_feeding as (w1 & Ht & Hd & Hv & _ & Hg & Htx & Hty & Hs).
  destruct (deerPass_on_tree w1) as (d & w2 & Hp & Hd2 & Hv2 & Hx & Hy); try done.
  exists d. split; [| done].
  unfold exec, updateEcosystem.
  erewrite bind_run; [| exact Ht]. cbv beta.
  erewrite bind_run; [| exact Hp]. cbv beta.
  rewrite <- Hd2. apply wolfPass_no_wolves. by rewrite Hv2.
Qed.

(** C5 fails on the code.  A hungry deer that stands exactly on the
    edible tree it targets, and a hungry wolf that stands exactly on the
    deer it targets, are at distance zero of their target: the seek step
    and the chase step assign NaN to both of their coordinates.  One call
    of [updateEcosystem] on the first state, with every random draw 0.5,
    leaves the ecosystem with that deer at (NaN, NaN). *)
Theorem zero_distance_step_assigns_NaN :
  (let d := eval (deerMove sampleDeer) (feedingWorld (λ _, 0.5)) in
   deer_x d = NaN ∧ deer_y d = NaN)
  ∧ (let v := eval (wolfMove sampleWolf) (huntingWorld (λ _, 0.5)) in
     wolf_x v = NaN ∧ wolf_y v = NaN)
  ∧ ∃ d, deer (exec (updateEcosystem None true true) (feedingWorld (λ _, 0.5))) = [d]
         ∧ deer_x d = NaN ∧ deer_y d = NaN.
Proof.
  split; [apply deerMove_on_its_tree |].
  split; [apply wolfMove_on_deer | apply updateEcosystem_feeding].
Qed.
End ZeroDistance.

(** * Further properties of the engine *)

Section Colors.
Local Open Scope R_scope.

Lemma Int_part_bounds (r : R) (lo hi : Z) :
  IZR lo <= r → r <= IZR hi → (lo ≤ Int_part r ≤ hi)%Z.
Proof.
  intros Hlo Hhi. destruct (base_Int_part r) as [H1 H2].
  split.
  - apply Z.lt_succ_r, lt_IZR. rewrite succ_IZR. lra.
  - apply le_IZR. lra.
Qed.

Lemma Int_part_mono (a b : R) : a <= b → (Int_part a ≤ Int_part b)%Z.
Proof.
  intros Hab. destruct (base_Int_part a) as [H1 H2], (base_Int_part b) as [H3 H4].
  apply Z.lt_succ_r, lt_IZR. rewrite succ_IZR. lra.
Qed.

Lemma rem2_range (a : R) : 0 <= a → 0 <= rem2 a < 2.
Proof.
  intros Ha. unfold rem2, Num.trunc.
  destruct (decide (0 <= a / 2)) as [_ | Hn]; [| exfalso; apply Hn; lra].
  destruct (base_Int_part (a / 2)) as [H1 H2]. lra.
Qed.

Lemma toInt32_small (z : Z) : (- 2 ^ 31 ≤ z < 2 ^ 31)%Z → toInt32 z = z.
Proof. intros Hz. unfold toInt32. rewrite Z.mod_small; lia. Qed.

Lemma lor_disjoint (a b n : Z) :
  (0 ≤ n)%Z → (0 ≤ b < 2 ^ n)%Z → Z.lor (a * 2 ^ n) b = (a * 2 ^ n + b)%Z.
Proof.
  intros Hn Hb. destruct (decide (b = 0%Z)) as [-> | Hne].
  { by rewrite Z.lor_0_r, Z.add_0_r. }
  assert (Hland : Z.land (a * 2 ^ n) b = 0%Z).
  { apply Z.bits_inj'. intros k Hk. rewrite Z.land_spec, Z.bits_0.
    destruct (Z.lt_ge_cases k n) as [Hlt | Hge].
    - by rewrite Z.mul_pow2_bits_low.
    - rewrite (Z.bits_above_log2 b k), andb_false_r; [done | lia |].
      apply Z.lt_le_trans with n; [apply Z.log2_lt_pow2; lia | exact Hge]. }
  by rewrite <- Z.lxor_lor, <- Z.add_nocarry_lxor.
Qed.

Lemma pack_channels (r g b : Z) :
  (0 ≤ r ≤ 255)%Z → (0 ≤ g ≤ 255)%Z → (0 ≤ b ≤ 255)%Z →
  bor (bor (shl r 16) (shl g 8)) b = (r * 65536 + g * 256 + b)%Z.
Proof.
  intros Hr Hg Hb.
  assert (H16 : shl r 16 = (r * 2 ^ 16)%Z).
  { unfold shl. change (16 mod 32)%Z with 16%Z. rewrite (toInt32_small r) by lia.
    rewrite Z.shiftl_mul_pow2 by lia. apply toInt32_small. lia. }
  assert (H8 : shl g 8 = (g * 256)%Z).
  { unfold shl. change (8 mod 32)%Z with 8%Z. rewrite (toInt32_small g) by lia.
    rewrite Z.shiftl_mul_pow2 by lia. apply toInt32_small. lia. }
  rewrite H16, H8. unfold bor.
  rewrite (toInt32_small (r * 2 ^ 16)), (toInt32_small (g * 256)),
    (toInt32_small b) by lia.
  rewrite (lor_disjoint r (g * 256) 16) by lia.
  rewrite toInt32_small by lia.
  replace (r * 2 ^ 16 + g * 256)%Z with ((r * 256 + g) * 2 ^ 8)%Z by lia.
  rewrite lor_disjoint by lia. lia.
Qed.

Lemma channel_range (v : R) : 0 <= v <= 1 → (0 ≤ Int_part (v * 255) ≤ 255)%Z.
Proof. intros Hv. apply Int_part_bounds; lra. Qed.

(** The chroma [c], the second component [x] and the offset [m] of
    [hslToRgb], for a saturation and a lightness given as fractions. *)
Lemma chroma_bounds (s l k : R) :
  0 <= s <= 1 → 0 <= l <= 1 → 0 <= k <= 1 →
  let c := (1 - Rabs (2 * l - 1)) * s in
  let x := c * k in
  let m := l - c / 2 in
  0 <= x <= c ∧ 0 <= m ∧ c + m <= 1.
Proof.
  intros Hs Hl Hk c x m.
  assert (Ha : 0 <= 1 - Rabs (2 * l - 1) <= 1).
  { unfold Rabs. destruct (Rcase_abs _); lra. }
  assert (Hc : 0 <= c <= 1 - Rabs (2 * l - 1)) by (unfold c; nra).
  assert (Hx : 0 <= x <= c) by (unfold x; nra).
  split; [exact Hx |]. unfold m.
  revert Hc. generalize c. intros c'. unfold Rabs. destruct (Rcase_abs _); lra.
Qed.

Lemma hue_factor (h : R) : 0 <= h → 0 <= 1 - Rabs (rem2 (h / 60) - 1) <= 1.
Proof.
  intros Hh. destruct (rem2_range (h / 60)) as [H1 H2]; [lra |].
  unfold Rabs. destruct (Rcase_abs _); lra.
Qed.

(** The channels are bytes, and the sector of the hue orders them. *)
Lemma hslChannels_sectors (h s l : R) :
  0 <= h → 0 <= s <= 100 → 0 <= l <= 100 →
  let '(red, green, blue) := hslChannels h s l in
  ((0 ≤ red ≤ 255)%Z ∧ (0 ≤ green ≤ 255)%Z ∧ (0 ≤ blue ≤ 255)%Z)
  ∧ (h < 60 → (blue ≤ green ≤ red)%Z)
  ∧ (60 <= h < 180 → (red ≤ green)%Z ∧ (blue ≤ green)%Z)
  ∧ (180 <= h < 300 → (red ≤ blue)%Z ∧ (green ≤ blue)%Z)
  ∧ (300 <= h → (green ≤ blue ≤ red)%Z).
Proof.
  intros Hh Hs Hl.
  destruct (chroma_bounds (s / 100) (l / 100) (1 - Rabs (rem2 (h / 60) - 1)))
    as (Hx & Hm & Hcm); [lra | lra | by apply hue_factor |].
  cbv zeta in Hx, Hm, Hcm.
  unfold hslChannels. cbv zeta.
  set (c := (1 - Rabs (2 * (l / 100) - 1)) * (s / 100)) in *.
  set (x := c * (1 - Rabs (rem2 (h / 60) - 1))) in *.
  set (m := l / 100 - c / 2) in *.
  assert (Hall : ∀ v, 0 <= v <= c → (0 ≤ Int_part ((v + m) * 255) ≤ 255)%Z).
  { intros v Hv. apply channel_range. lra. }
  assert (Hle : ∀ u v, u <= v → (Int_part ((u + m) * 255) ≤ Int_part ((v + m) * 255))%Z).
  { intros u v Huv. apply Int_part_mono. lra. }
  assert (H0 : 0 <= 0 <= c) by lra.
  assert (Hc : 0 <= c <= c) by lra.
  assert (H0x : 0 <= x) by lra. assert (H0c : 0 <= c) by lra. assert (Hxc : x <= c) by lra.
  repeat (case_bool_decide; cbn [andb]; try (exfalso; lra));
    (split; [repeat split; apply Hall; assumption |]);
    repeat split; intros; try (exfalso; lra); apply Hle; assumption.
Qed.

(** The offset [m = l - c / 2] that [hslToRgb] adds to every channel,
    away from the ends of the saturation and lightness ranges. *)
Lemma channel_offset_margin (s l : R) :
  0 <= s <= 99 → 1 <= l <= 100 →
  / 10000 <= l / 100 - (1 - Rabs (2 * (l / 100) - 1)) * (s / 100) / 2.
Proof.
  intros Hs Hl. unfold Rabs. destruct (Rcase_abs _); nra.
Qed.

(** X1.  For a hue that is not negative, a saturation between 0 and 99
    and a lightness between 1 and 100, the three channels [hslToRgb]
    computes are bytes and the number it returns is
    [red * 65536 + green * 256 + blue]: a 24-bit RGB colour, on which the
    32-bit shifts and ors lose nothing.  Numbers are exact reals here; in
    these ranges the offset [l - c / 2] that every channel adds is at
    least 0.0001, out of the reach of the rounding of doubles, which at
    saturation 100 makes it negative for some lightnesses and a channel
    -1. *)
Theorem hslToRgb_is_rgb (h s l : R) :
  0 <= h → 0 <= s <= 99 → 1 <= l <= 100 →
  / 10000 <= l / 100 - (1 - Rabs (2 * (l / 100) - 1)) * (s / 100) / 2
  ∧ ∃ red green blue : Z,
      hslChannels h s l = (red, green, blue)
      ∧ hslToRgb h s l = (red * 65536 + green * 256 + blue)%Z
      ∧ (0 ≤ red ≤ 255)%Z ∧ (0 ≤ green ≤ 255)%Z ∧ (0 ≤ blue ≤ 255)%Z
      ∧ (0 ≤ hslToRgb h s l ≤ 16777215)%Z.
Proof.
  intros Hh Hs Hl. split; [by apply channel_offset_margin |].
  assert (Hs' : 0 <= s <= 100) by lra. assert (Hl' : 0 <= l <= 100) by lra.
  pose proof (hslChannels_sectors h s l Hh Hs' Hl') as Hch.
  unfold hslToRgb. destruct (hslChannels h s l) as [[red green] blue].
  destruct Hch as ((Hr & Hg & Hb) & _).
  exists red, green, blue. rewrite pack_channels by done.
  repeat split; try tauto; lia.
Qed.

Lemma hslToRgb_is_rgb_witness :
  (/ 10000 <= 1 / 100 - (1 - Rabs (2 * (1 / 100) - 1)) * (99 / 100) / 2
   ∧ ∃ red green blue : Z,
       hslChannels 0 99 1 = (red, green, blue)
       ∧ hslToRgb 0 99 1 = (red * 65536 + green * 256 + blue)%Z
       ∧ (0 ≤ red ≤ 255)%Z ∧ (0 ≤ green ≤ 255)%Z ∧ (0 ≤ blue ≤ 255)%Z
       ∧ (0 ≤ hslToRgb 0 99 1 ≤ 16777215)%Z)
  ∧ (/ 10000 <= 100 / 100 - (1 - Rabs (2 * (100 / 100) - 1)) * (0 / 100) / 2
     ∧ ∃ red green blue : Z,
         hslChannels 359 0 100 = (red, green, blue)
         ∧ hslToRgb 359 0 100 = (red * 65536 + green * 256 + blue)%Z
         ∧ (0 ≤ red ≤ 255)%Z ∧ (0 ≤ green ≤ 255)%Z ∧ (0 ≤ blue ≤ 255)%Z
         ∧ (0 ≤ hslToRgb 359 0 100 ≤ 16777215)%Z).
Proof.
  split; [apply (hslToRgb_is_rgb 0 99 1) | apply (hslToRgb_is_rgb 359 0 100)];
    lra.
Defined.

(** The color of a sector, for the three species. *)
Lemma hslToRgb_sector (h s l : R) :
  0 <= h → 0 <= s <= 100 → 0 <= l <= 100 →
  ∃ red green blue : Z,
    hslToRgb h s l = (red * 65536 + green * 256 + blue)%Z
    ∧ ((0 ≤ red ≤ 255)%Z ∧ (0 ≤ green ≤ 255)%Z ∧ (0 ≤ blue ≤ 255)%Z)
    ∧ (h < 60 → (blue ≤ green ≤ red)%Z)
    ∧ (60 <= h < 180 → (red ≤ green)%Z ∧ (blue ≤ green)%Z)
    ∧ (180 <= h < 300 → (red ≤ blue)%Z ∧ (green ≤ blue)%Z).
Proof.
  intros Hh Hs Hl. pose proof (hslChannels_sectors h s l Hh Hs Hl) as Hch.
  unfold hslToRgb. destruct (hslChannels h s l) as [[red green] blue].
  destruct Hch as ((Hr & Hg & Hb) & H1 & H2 & H3 & _).
  exists red, green, blue. by rewrite pack_channels.
Qed.

Local Ltac color_range :=
  unfold within, within_scaled in *;
  cbn -[Rplus Rmult Rminus Rle Rlt IZR Rdiv Rinv] in *;
  unfold ECOSYSTEM_SCALE in *; lra.

(** X2.  The colour of a tree whose characteristics are within the bounds
    of the generators is a 24-bit RGB colour whose green channel is at
    least its red and its blue channel. *)
Theorem tree_color_is_green (c : TreeCharacteristics) :
  treeCharacteristicsInBounds c →
  ∃ red green blue : Z,
    getTreeColor c = (red * 65536 + green * 256 + blue)%Z
    ∧ (0 ≤ red ≤ green)%Z ∧ (0 ≤ blue ≤ green)%Z ∧ (green ≤ 255)%Z.
Proof.
  intros (_ & _ & _ & _ & Hsc & Hom & Hcs). unfold getTreeColor. cbv zeta.
  match goal with |- context [hslToRgb ?h ?s ?l] =>
    destruct (hslToRgb_sector h s l) as (r & g & b & Heq & Hrange & _ & Hsec & _);
    [color_range .. |]; exists r, g, b end.
  split; [exact Heq |]. destruct Hsec as [? ?]; [color_range |]. lia.
Qed.

(** X3.  The colour of a deer whose characteristics are within the bounds
    of the generators is a 24-bit RGB colour with
    [blue <= green <= red]. *)
Theorem deer_color_is_brown (c : DeerCharacteristics) :
  deerCharacteristicsInBounds c →
  ∃ red green blue : Z,
    getDeerColor c = (red * 65536 + green * 256 + blue)%Z
    ∧ (0 ≤ blue ≤ green)%Z ∧ (green ≤ red ≤ 255)%Z.
Proof.
  intros (_ & Hsp & _ & Hrc & Hcs & _). unfold getDeerColor. cbv zeta.
  match goal with |- context [hslToRgb ?h ?s ?l] =>
    destruct (hslToRgb_sector h s l) as (r & g & b & Heq & Hrange & Hsec & _);
    [color_range .. |]; exists r, g, b end.
  split; [exact Heq |]. destruct Hsec as [? ?]; [color_range |]. lia.
Qed.

(** X4.  The colour of a wolf whose characteristics are within the bounds
    of the generators is a 24-bit RGB colour whose blue channel is at
    least its red and its green channel. *)
Theorem wolf_color_is_blue_grey (c : WolfCharacteristics) :
  wolfCharacteristicsInBounds c →
  ∃ red green blue : Z,
    getWolfColor c = (red * 65536 + green * 256 + blue)%Z
    ∧ (0 ≤ red ≤ blue)%Z ∧ (0 ≤ green ≤ blue)%Z ∧ (blue ≤ 255)%Z.
Proof.
  intros (_ & Hsp & _ & Hrc & Hcs & _). unfold getWolfColor. cbv zeta.
  match goal with |- context [hslToRgb ?h ?s ?l] =>
    destruct (hslToRgb_sector h s l) as (r & g & b & Heq & Hrange & _ & _ & Hsec);
    [color_range .. |]; exists r, g, b end.
  split; [exact Heq |]. destruct Hsec as [? ?]; [color_range |]. lia.
Qed.

(** At the fractions 0, 1/2 and 1 of the bounds the hue is 90, 120 and 150:
    the two sectors a tree's hue can be in, and their boundary. *)
Lemma tree_color_is_green_witness :
  (∃ red green blue : Z,
     getTreeColor (treeCharacteristicsAt 0) = (red * 65536 + green * 256 + blue)%Z
     ∧ (0 ≤ red ≤ green)%Z ∧ (0 ≤ blue ≤ green)%Z ∧ (green ≤ 255)%Z)
  ∧ (∃ red green blue : Z,
       getTreeColor (treeCharacteristicsAt (1 / 2))
       = (red * 65536 + green * 256 + blue)%Z
       ∧ (0 ≤ red ≤ green)%Z ∧ (0 ≤ blue ≤ green)%Z ∧ (green ≤ 255)%Z)
  ∧ (∃ red green blue : Z,
       getTreeColor (treeCharacteristicsAt 1) = (red * 65536 + green * 256 + blue)%Z
       ∧ (0 ≤ red ≤ green)%Z ∧ (0 ≤ blue ≤ green)%Z ∧ (green ≤ 255)%Z).
Proof.
  split; [| split].
  - apply (tree_color_is_green (treeCharacteristicsAt 0)).
    unfold treeCharacteristicsAt, between. repeat split; color_range.
  - apply (tree_color_is_green (treeCharacteristicsAt (1 / 2))).
    unfold treeCharacteristicsAt, between. repeat split; color_range.
  - apply (tree_color_is_green (treeCharacteristicsAt 1)).
    unfold treeCharacteristicsAt, between. repeat split; color_range.
Defined.

(** At the fractions 0, 1/2 and 1 of the bounds the hue is 22.5, 27.5 and
    32.5, the saturation 15, 37.5 and 60, the lightness 60, 45 and 30. *)
Lemma deer_color_is_brown_witness :
  (∃ red green blue : Z,
     getDeerColor (deerCharacteristicsAt 0) = (red * 65536 + green * 256 + blue)%Z
     ∧ (0 ≤ blue ≤ green)%Z ∧ (green ≤ red ≤ 255)%Z)
  ∧ (∃ red green blue : Z,
       getDeerColor (deerCharacteristicsAt (1 / 2))
       = (red * 65536 + green * 256 + blue)%Z
       ∧ (0 ≤ blue ≤ green)%Z ∧ (green ≤ red ≤ 255)%Z)
  ∧ (∃ red green blue : Z,
       getDeerColor (deerCharacteristicsAt 1) = (red * 65536 + green * 256 + blue)%Z
       ∧ (0 ≤ blue ≤ green)%Z ∧ (green ≤ red ≤ 255)%Z).
Proof.
  split; [| split].
  - apply (deer_color_is_brown (deerCharacteristicsAt 0)).
    unfold deerCharacteristicsAt, between. repeat split; color_range.
  - apply (deer_color_is_brown (deerCharacteristicsAt (1 / 2))).
    unfold deerCharacteristicsAt, between. repeat split; color_range.
  - apply (deer_color_is_brown (deerCharacteristicsAt 1)).
    unfold deerCharacteristicsAt, between. repeat split; color_range.
Defined.

(** At the fractions 0, 1/2 and 1 of the bounds the hue is 200, 220 and 240:
    the two sectors a wolf's hue can be in. *)
Lemma wolf_color_is_blue_grey_witness :
  (∃ red green blue : Z,
     getWolfColor (wolfCharacteristicsAt 0) = (red * 65536 + green * 256 + blue)%Z
     ∧ (0 ≤ red ≤ blue)%Z ∧ (0 ≤ green ≤ blue)%Z ∧ (blue ≤ 255)%Z)
  ∧ (∃ red green blue : Z,
       getWolfColor (wolfCharacteristicsAt (1 / 2))
       = (red * 65536 + green * 256 + blue)%Z
       ∧ (0 ≤ red ≤ blue)%Z ∧ (0 ≤ green ≤ blue)%Z ∧ (blue ≤ 255)%Z)
  ∧ (∃ red green blue : Z,
       getWolfColor (wolfCharacteristicsAt 1) = (red * 65536 + green * 256 + blue)%Z
       ∧ (0 ≤ red ≤ blue)%Z ∧ (0 ≤ green ≤ blue)%Z ∧ (blue ≤ 255)%Z).
Proof.
  split; [| split].
  - apply (wolf_color_is_blue_grey (wolfCharacteristicsAt 0)).
    unfold wolfCharacteristicsAt, between. repeat split; color_range.
  - apply (wolf_color_is_blue_grey (wolfCharacteristicsAt (1 / 2))).
    unfold wolfCharacteristicsAt, between. repeat split; color_range.
  - apply (wolf_color_is_blue_grey (wolfCharacteristicsAt 1)).
    unfold wolfCharacteristicsAt, between. repeat split; color_range.
Defined.
End Colors.

Section Sliders.
Local Open Scope R_scope.

Lemma set_cursor_same (w : World) : set_cursor (cursor w) w = w.
Proof. by destruct w. Qed.

Lemma fromSlider_run (b : Bounds) (slider : option R) (w : World) :
  ∃ v, fromSlider b slider w = (v, set_cursor (draws slider + cursor w) w)
       ∧ (bmin b <= bmax b → sliderInRange slider → 0 <= rng w (cursor w) < 1 →
          within b v).
Proof.
  destruct slider as [v |]; cbn [fromSlider draws].
  - exists (bmin b + v * (bmax b - bmin b)). split.
    + unfold ret. change (0 + cursor w)%nat with (cursor w). by rewrite set_cursor_same.
    + intros Hb Hv _. unfold within. cbn in Hv. nra.
  - exists (bmin b + rng w (cursor w) * (bmax b - bmin b)). split; [reflexivity |].
    intros Hb _ Hu. unfold within. nra.
Qed.

Lemma set_cursor_set_cursor (m n : nat) (w : World) :
  set_cursor m (set_cursor n w) = set_cursor m w.
Proof. reflexivity. Qed.

(** One field of a [create...Characteristics] call, followed by the rest. *)
Lemma fromSlider_bind {B} (b : Bounds) (slider : option R) (k : R → M B) (w : World) :
  ∃ v, bind (fromSlider b slider) k w = k v (set_cursor (draws slider + cursor w) w)
       ∧ (bmin b <= bmax b → sliderInRange slider → 0 <= rng w (cursor w) < 1 →
          within b v).
Proof.
  destruct (fromSlider_run b slider w) as (v & Hrun & Hv).
  exists v. split; [by apply bind_run | exact Hv].
Qed.

Local Ltac slider_step H :=
  match goal with
  | |- context [bind (fromSlider ?b ?s) ?k ?w] =>
      let v := fresh "v" in
      destruct (fromSlider_bind b s k w) as (v & -> & H); cbv beta
  end.

(** X5.  With every slider either [null] or a position in [0, 1], and
    draws in [0, 1), the characteristics that [createTreeCharacteristics],
    [createDeerCharacteristics] and [createWolfCharacteristics] build are
    within the bounds of the species, the distance-like ones within the
    bounds scaled by [ECOSYSTEM_SCALE]. *)
Theorem created_characteristics_within_scaled_bounds
    (ts : TreeSliders) (ds : DeerSliders) (vs : WolfSliders) (w : World) :
  (∀ n, 0 <= rng w n < 1) →
  Forall sliderInRange (treeSliders ts) →
  Forall sliderInRange (deerSliders ds) →
  Forall sliderInRange (wolfSliders vs) →
  treeCharacteristicsInBounds (eval (createTreeCharacteristics ts) w)
  ∧ deerCharacteristicsInBounds (eval (createDeerCharacteristics ds) w)
  ∧ wolfCharacteristicsInBounds (eval (createWolfCharacteristics vs) w).
Proof.
  intros Hrng Ht Hd Hv.
  unfold treeSliders, deerSliders, wolfSliders in *.
  rewrite !list.Forall_cons in Ht. rewrite !list.Forall_cons in Hd.
  rewrite !list.Forall_cons in Hv.
  destruct Ht as (T1 & T2 & T3 & T4 & T5 & T6 & T7 & _).
  destruct Hd as (D1 & D2 & D3 & D4 & D5 & D6 & D7 & _).
  destruct Hv as (V1 & V2 & V3 & V4 & V5 & V6 & _).
  assert (Hscale : ∀ b v, within b v → within_scaled b (v * ECOSYSTEM_SCALE)).
  { intros b v [H1 H2]. unfold within_scaled, ECOSYSTEM_SCALE. lra. }
  split; [| split].
  - unfold eval, createTreeCharacteristics.
    slider_step H1. slider_step H2. slider_step H3. slider_step H4.
    slider_step H5. slider_step H6. slider_step H7.
    cbn [ret fst]. unfold treeCharacteristicsInBounds. cbn [tree_MaxSize tree_AgeToSpread
      tree_SpreadDistance tree_DeathChance tree_SpreadChance tree_OptimalMoisture
      tree_CrowdingSusceptibility].
    repeat split; first [apply Hscale | idtac];
      first [apply H1 | apply H2 | apply H3 | apply H4 | apply H5 | apply H6 | apply H7];
      first [assumption | apply Hrng | cbn; lra].
  - unfold eval, createDeerCharacteristics.
    slider_step H1. slider_step H2. slider_step H3. slider_step H4.
    slider_step H5. slider_step H6. slider_step H7.
    cbn [ret fst]. unfold deerCharacteristicsInBounds. cbn [deer_MaxSize deer_Speed
      deer_DeathChance deer_ReproduceChance deer_CrowdingSusceptibility
      deer_MaxEatableSize deer_EnergyNeeds].
    repeat split; first [apply Hscale | idtac];
      first [apply H1 | apply H2 | apply H3 | apply H4 | apply H5 | apply H6 | apply H7];
      first [assumption | apply Hrng | cbn; lra].
  - unfold eval, createWolfCharacteristics.
    slider_step H1. slider_step H2. slider_step H3. slider_step H4.
    slider_step H5. slider_step H6.
    cbn [ret fst]. unfold wolfCharacteristicsInBounds. cbn [wolf_MaxSize wolf_Speed
      wolf_DeathChance wolf_ReproduceChance wolf_CrowdingSusceptibility
      wolf_EnergyNeeds].
    repeat split; first [apply Hscale | idtac];
      first [apply H1 | apply H2 | apply H3 | apply H4 | apply H5 | apply H6];
      first [assumption | apply Hrng | cbn; lra].
Qed.

Lemma largestDraw_range : 0 <= largestDraw < 1.
Proof.
  unfold largestDraw. assert (H : 1 <= 2 ^ 53) by (apply pow_R1_Rle; lra).
  assert (H' : 0 < / 2 ^ 53) by (apply Rinv_0_lt_compat; lra).
  assert (H2 : / 2 ^ 53 <= 1).
  { rewrite <- Rinv_1. apply Rinv_le_contravar; lra. }
  lra.
Qed.

Local Ltac sliders_in_range :=
  unfold treeSliders, deerSliders, wolfSliders;
  repeat (apply list.Forall_cons; split; [cbn; first [lra | exact I] |]);
  apply list.Forall_nil_2.

(** Every slider at 0, every slider at 1, and every slider left to
    chance with the smallest and with the largest draw. *)
Lemma created_characteristics_within_scaled_bounds_witness :
  let inBounds (s : option R) (u : R) :=
    let w := moduleState (λ _, u) in
    treeCharacteristicsInBounds (eval (createTreeCharacteristics (allTreeSliders s)) w)
    ∧ deerCharacteristicsInBounds (eval (createDeerCharacteristics (allDeerSliders s)) w)
    ∧ wolfCharacteristicsInBounds (eval (createWolfCharacteristics (allWolfSliders s)) w) in
  inBounds (Some 0) 0 ∧ inBounds (Some 1) 0
  ∧ inBounds None 0 ∧ inBounds None largestDraw.
Proof.
  cbv zeta. split; [| split; [| split]].
  - apply (created_characteristics_within_scaled_bounds
             (allTreeSliders (Some 0)) (allDeerSliders (Some 0))
             (allWolfSliders (Some 0)) (moduleState (λ _, 0))).
    + intros n. cbn. lra.
    + sliders_in_range.
    + sliders_in_range.
    + sliders_in_range.
  - apply (created_characteristics_within_scaled_bounds
             (allTreeSliders (Some 1)) (allDeerSliders (Some 1))
             (allWolfSliders (Some 1)) (moduleState (λ _, 0))).
    + intros n. cbn. lra.
    + sliders_in_range.
    + sliders_in_range.
    + sliders_in_range.
  - apply (created_characteristics_within_scaled_bounds
             (allTreeSliders None) (allDeerSliders None)
             (allWolfSliders None) (moduleState (λ _, 0))).
    + intros n. cbn. lra.
    + sliders_in_range.
    + sliders_in_range.
    + sliders_in_range.
  - apply (created_characteristics_within_scaled_bounds
             (allTreeSliders None) (allDeerSliders None)
             (allWolfSliders None) (moduleState (λ _, largestDraw))).
    + intros n. exact largestDraw_range.
    + sliders_in_range.
    + sliders_in_range.
    + sliders_in_range.
Defined.

End Sliders.

Section Terrain.
Local Open Scope R_scope.


Lemma generateTerrain_shape :
  length generateTerrain = 20%nat
  ∧ Forall (λ row, length row = 20%nat) generateTerrain.
Proof.
  unfold generateTerrain. change (Z.to_nat GRID_SIZE) with 20%nat.
  split; [by rewrite length_fmap, length_seq |].
  apply Forall_fmap, Forall_true. intros x. unfold compose.
  by rewrite length_fmap, length_seq.
Qed.




Lemma updateEcosystem_terrain pre immortalDeer immortalWolf (T : list (list R)) :
  preserves (λ w, terrain w = T) (updateEcosystem pre immortalDeer immortalWolf).
Proof.
  unfold updateEcosystem.
  apply preserves_bind; [| intros ?; apply preserves_bind; [| intros ?]].
  - apply treePass_preserves; try (by intros).
  - apply deerPass_preserves; try (by intros).
    intros i tree w Hw _. unfold eaten. cbn.
    by destruct (deleteFromGrid_frame (heap w tree) w) as (_ & _ & _ & _ & -> & _).
  - apply wolfPass_preserves; by intros.
Qed.

Lemma initializeEcosystem_terrain w0 :
  terrain (exec initializeEcosystem w0) = generateTerrain.
Proof.
  unfold exec, initializeEcosystem. rewrite !bind_eq. cbn [modify fst snd].
  set (P := λ w : World, terrain w = generateTerrain).
  apply (preserves_repeatM P DEFAULT_WOLF_COUNT initWolf); [by intros w Hw |].
  apply (preserves_repeatM P DEFAULT_DEER_COUNT initDeer); [by intros w Hw |].
  apply (preserves_repeatM P DEFAULT_TREE_COUNT initTree); [by intros w Hw |].
  reflexivity.
Qed.

(** X8.  The terrain of every state of a run is the terrain that
    [generateTerrain] built: no pass of [updateEcosystem] changes it. *)
Theorem terrain_is_never_modified (w : World) :
  reachable w → terrain w = generateTerrain.
Proof.
  induction 1 as [w0 Hr | w pre iD iW _ IH].
  - apply initializeEcosystem_terrain.
  - by apply (updateEcosystem_terrain pre iD iW generateTerrain w).
Qed.

Lemma terrain_is_never_modified_witness :
  terrain (exec (updateEcosystem None true true)
             (exec initializeEcosystem (moduleState (λ _, 0))))
  = generateTerrain.
Proof.
  apply terrain_is_never_modified. apply reach_update, reach_init.
  intros n. cbn. lra.
Defined.
End Terrain.

Section InitialPopulation.
Local Open Scope R_scope.

Lemma repeatM_count (P : nat → World → Prop) (body : M unit) :
  (∀ k, hoare (P k) body (λ _, P (S k))) →
  ∀ n k, hoare (P k) (repeatM n body) (λ _, P (n + k)%nat).
Proof.
  intros Hbody. induction n as [| n IH]; intros k; cbn [repeatM].
  - by apply hoare_ret.
  - eapply hoare_bind; [apply Hbody |]. intros ?.
    replace (S n + k)%nat with (n + S k)%nat by lia. apply IH.
Qed.

Let PT (k : nat) (w : World) : Prop :=
  (length (trees w) = k ∧ Forall (λ tree, (tree < nextLoc w)%nat ∧ newborn_tree w tree) (trees w))
  ∧ deer w = [] ∧ wolves w = [].
Let PD (k : nat) (w : World) : Prop :=
  (length (trees w) = DEFAULT_TREE_COUNT ∧ Forall (newborn_tree w) (trees w))
  ∧ (length (deer w) = k ∧ Forall initial_deer (deer w)) ∧ wolves w = [].
Let PW (k : nat) (w : World) : Prop :=
  (length (trees w) = DEFAULT_TREE_COUNT ∧ Forall (newborn_tree w) (trees w))
  ∧ (length (deer w) = DEFAULT_DEER_COUNT ∧ Forall initial_deer (deer w))
  ∧ (length (wolves w) = k ∧ Forall initial_wolf (wolves w)).

Lemma initTree_count k : hoare (PT k) initTree (λ _, PT (S k)).
Proof.
  intros w ((Hlen & Hall) & Hd & Hv). unfold initTree.
  rewrite !bind_eq. cbn [treeIdGenerator_next random fst snd].
  rewrite randomTreeCharacteristics_state.
  set (c := (randomTreeCharacteristics _).1).
  cbn [new_tree modify fst snd]. unfold PT. cbn.
  repeat split; try done.
  - rewrite length_app. cbn. lia.
  - apply Forall_app. split.
    + eapply list.Forall_impl; [exact Hall |]. intros r [Hr [Ha Hs]].
      unfold newborn_tree. cbn. rewrite fn_lookup_insert_ne by lia. split; [lia | done].
    + apply Forall_singleton. unfold newborn_tree. cbn. rewrite fn_lookup_insert.
      split; [lia | done].
Qed.

Lemma initDeer_count k : hoare (PD k) initDeer (λ _, PD (S k)).
Proof.
  intros w (Ht & (Hlen & Hall) & Hv). unfold initDeer.
  rewrite !bind_eq. cbn [deerIdGenerator_next random fst snd].
  set (c := (randomDeerCharacteristics _).1).
  split; [exact Ht |]. split; [| exact Hv]. cbn. split.
  - rewrite length_app. cbn. lia.
  - apply Forall_app. split; [exact Hall |]. by apply Forall_singleton.
Qed.

Lemma initWolf_count k : hoare (PW k) initWolf (λ _, PW (S k)).
Proof.
  intros w (Ht & Hd & (Hlen & Hall)). unfold initWolf.
  rewrite !bind_eq. cbn [wolfIdGenerator_next random fst snd].
  set (c := (randomWolfCharacteristics _).1).
  split; [exact Ht |]. split; [exact Hd |]. cbn. split.
  - rewrite length_app. cbn. lia.
  - apply Forall_app. split; [exact Hall |]. by apply Forall_singleton.
Qed.

(** X9.  [initializeEcosystem] returns [DEFAULT_TREE_COUNT] trees of age
    0 and size 0, [DEFAULT_DEER_COUNT] deer and [DEFAULT_WOLF_COUNT]
    wolves of age 0 and energy 1.5, whatever the state it starts from. *)
Theorem initializeEcosystem_populations (w0 : World) :
  let w := exec initializeEcosystem w0 in
  (length (trees w) = DEFAULT_TREE_COUNT ∧ Forall (newborn_tree w) (trees w))
  ∧ (length (deer w) = DEFAULT_DEER_COUNT ∧ Forall initial_deer (deer w))
  ∧ (length (wolves w) = DEFAULT_WOLF_COUNT ∧ Forall initial_wolf (wolves w)).
Proof.
  cbv zeta. unfold exec, initializeEcosystem. rewrite !bind_eq. cbn [modify fst snd].
  set (w1 := set_terrain _ _).
  assert (H1 : PT 0 w1) by (unfold PT; cbn; repeat split; constructor).
  apply (repeatM_count PT initTree initTree_count DEFAULT_TREE_COUNT 0) in H1.
  cbv beta in H1. rewrite Nat.add_0_r in H1.
  set (w2 := (repeatM DEFAULT_TREE_COUNT initTree w1).2) in *. clearbody w2.
  assert (H2 : PD 0 w2).
  { destruct H1 as ((Hlen & Hall) & Hd & Hv). unfold PD. rewrite Hd.
    repeat split; try done. eapply list.Forall_impl; [exact Hall |]. by intros r [_ ?]. }
  apply (repeatM_count PD initDeer initDeer_count DEFAULT_DEER_COUNT 0) in H2.
  cbv beta in H2. rewrite Nat.add_0_r in H2.
  set (w3 := (repeatM DEFAULT_DEER_COUNT initDeer w2).2) in *. clearbody w3.
  assert (H3 : PW 0 w3).
  { destruct H2 as (Ht & Hd & Hv). unfold PW. rewrite Hv.
    split; [exact Ht |]. split; [exact Hd |]. split; [done | constructor]. }
  apply (repeatM_count PW initWolf initWolf_count DEFAULT_WOLF_COUNT 0) in H3.
  cbv beta in H3. rewrite Nat.add_0_r in H3. exact H3.
Qed.
End InitialPopulation.

Section NewLocation.
Local Open Scope R_scope.

Lemma newLocation_run (t : Tree) (w : World) :
  let dist := tree_SpreadDistance (tree_characteristics t) in
  let angle := rng w (cursor w) * 2 * PI in
  let newX := tree_x t + cos angle * dist * rng w (S (cursor w)) in
  let newY := tree_y t + sin angle * dist * rng w (S (S (cursor w))) in
  newLocation t w
  = (if bool_decide (newX > 1) || bool_decide (newX < 0)
        || bool_decide (newY > 1) || bool_decide (newY < 0)
     then None else Some (newX, newY),
     set_cursor (3 + cursor w) w).
Proof.
  cbv zeta. unfold newLocation. rewrite !bind_eq. cbn [random fst snd cursor set_cursor rng].
  cbv zeta. by destruct (_ || _).
Qed.

Lemma unit_disc_step (c s d ux uy : R) :
  c * c + s * s = 1 → 0 <= ux <= 1 → 0 <= uy <= 1 →
  (c * d * ux) ^ 2 + (s * d * uy) ^ 2 <= d ^ 2.
Proof.
  intros Hcs Hux Huy.
  assert (H1 : (c * d * ux) ^ 2 <= (c * d) ^ 2).
  { replace ((c * d * ux) ^ 2) with ((c * d) ^ 2 * (ux * ux)) by ring.
    pose proof (pow2_ge_0 (c * d)). assert (ux * ux <= 1) by nra.
    generalize dependent ((c * d) ^ 2). intros X HX. nra. }
  assert (H2 : (s * d * uy) ^ 2 <= (s * d) ^ 2).
  { replace ((s * d * uy) ^ 2) with ((s * d) ^ 2 * (uy * uy)) by ring.
    pose proof (pow2_ge_0 (s * d)). assert (uy * uy <= 1) by nra.
    generalize dependent ((s * d) ^ 2). intros X HX. nra. }
  replace (d ^ 2) with ((c * d) ^ 2 + (s * d) ^ 2); [lra |].
  replace ((c * d) ^ 2 + (s * d) ^ 2) with ((c * c + s * s) * d ^ 2) by ring.
  rewrite Hcs. ring.
Qed.

(** X10.  A location that [newLocation] returns is inside the unit
    square and at most [SpreadDistance] away from the parent tree. *)
Theorem newLocation_stays_close (t : Tree) (w : World) (x y : R) :
  (∀ n, 0 <= rng w n < 1) →
  eval (newLocation t) w = Some (x, y) →
  (0 <= x <= 1 ∧ 0 <= y <= 1)
  ∧ (x - tree_x t) ^ 2 + (y - tree_y t) ^ 2
    <= tree_SpreadDistance (tree_characteristics t) ^ 2.
Proof.
  intros Hrng. unfold eval. rewrite newLocation_run. cbv zeta. cbn [fst].
  repeat case_bool_decide; cbn [orb]; try done.
  intros [= <- <-]. split; [lra |].
  set (a := rng w (cursor w) * 2 * PI).
  replace (tree_x t + _ - tree_x t)
    with (cos a * tree_SpreadDistance (tree_characteristics t) * rng w (S (cursor w)))
    by ring.
  replace (tree_y t + _ - tree_y t)
    with (sin a * tree_SpreadDistance (tree_characteristics t) * rng w (S (S (cursor w))))
    by ring.
  pose proof (Hrng (S (cursor w))). pose proof (Hrng (S (S (cursor w)))).
  apply unit_disc_step; [| lra | lra].
  pose proof (sin2_cos2 a) as Hsc. unfold Rsqr in Hsc. lra.
Qed.

Lemma newLocation_stays_close_witness :
  (0 <= 0 <= 1 ∧ 0 <= 0 <= 1)
  ∧ (0 - tree_x (sampleTree 0 1)) ^ 2 + (0 - tree_y (sampleTree 0 1)) ^ 2
    <= tree_SpreadDistance (tree_characteristics (sampleTree 0 1)) ^ 2.
Proof.
  apply (newLocation_stays_close (sampleTree 0 1) (moduleState (λ _, 0)) 0 0).
  - intros n. cbn. lra.
  - unfold eval. rewrite newLocation_run. cbv zeta. cbn [fst].
    cbn [sampleTree tree_x tree_y moduleState rng cursor].
    rewrite !Rmult_0_r, !Rplus_0_r.
    rewrite !bool_decide_eq_false_2 by lra. reflexivity.
Defined.
End NewLocation.

Section Shading.
Local Open Scope R_scope.






End Shading.

Section NearestTarget.
Local Open Scope R_scope.

Lemma distanceBetween_Fin (ax ay bx by_ : R) :
  distanceBetween (Fin ax) (Fin ay) (Fin bx) (Fin by_) = Fin (distanceTo bx by_ ax ay).
Proof.
  unfold distanceBetween, distanceTo. cbn [Num.sub Num.add Num.neg Num.mul].
  unfold Num.sqrt.
  destruct (decide (_ < 0)) as [Hneg | _].
  { exfalso. pose proof (Rle_0_sqr (ax + - bx)). pose proof (Rle_0_sqr (ay + - by_)).
    unfold Rsqr in *. lra. }
  reflexivity.
Qed.

(** X12.  For a deer with finite coordinates, the target a hungry deer
    selects among the nearby trees is an edible tree, and no edible nearby
    tree is closer; no target is selected exactly when no nearby tree is
    edible. *)
Theorem deer_targets_nearest_edible_tree
    (d : Deer) (ecosystem : World) (nearbyTrees : list loc) (x y : R) :
  deer_x d = Fin x → deer_y d = Fin y →
  let dist tree :=
    distanceTo x y (tree_x (heap ecosystem tree)) (tree_y (heap ecosystem tree)) in
  match nearestEdibleTree d ecosystem nearbyTrees with
  | Some target =>
      target ∈ nearbyTrees ∧ edibleBy d (heap ecosystem target)
      ∧ ∀ tree, tree ∈ nearbyTrees → edibleBy d (heap ecosystem tree) →
                dist target <= dist tree
  | None => ∀ tree, tree ∈ nearbyTrees → ¬ edibleBy d (heap ecosystem tree)
  end.
Proof.
  intros Hx Hy dist. unfold nearestEdibleTree.
  match goal with |- context [foldl ?f ?a _] => set (step := f); set (init := a) end.
  assert (Hinv : ∀ l,
    match foldl step init l with
    | (Some target, closest) =>
        closest = Fin (dist target)
        ∧ target ∈ l ∧ edibleBy d (heap ecosystem target)
        ∧ ∀ tree, tree ∈ l → edibleBy d (heap ecosystem tree) → dist target <= dist tree
    | (None, closest) =>
        closest = PInf ∧ ∀ tree, tree ∈ l → ¬ edibleBy d (heap ecosystem tree)
    end).
  { induction l as [| tree l IH] using rev_ind.
    - cbn. split; [done |]. intros tree Hin. by apply elem_of_nil in Hin.
    - rewrite foldl_app. cbn [foldl]. destruct (foldl step init l) as [best closest].
      unfold step at 1. cbv zeta. fold (edibleBy d (heap ecosystem tree)).
      rewrite Hx, Hy, distanceBetween_Fin. fold (dist tree).
      destruct (decide (edibleBy d (heap ecosystem tree))) as [He | He].
      + destruct best as [target |].
        * destruct IH as (-> & Hin & Het & Hmin). cbn [Num.lt].
          case_bool_decide as Hlt.
          -- split; [done |]. split; [apply elem_of_app; right; by left |].
             split; [done |]. intros t' Ht' He'.
             apply elem_of_app in Ht' as [Ht' | Ht'].
             ++ specialize (Hmin t' Ht' He'). lra.
             ++ apply list_elem_of_singleton in Ht' as ->. lra.
          -- split; [done |]. split; [apply elem_of_app; by left |].
             split; [done |]. intros t' Ht' He'.
             apply elem_of_app in Ht' as [Ht' | Ht'].
             ++ by apply Hmin.
             ++ apply list_elem_of_singleton in Ht' as ->. lra.
        * destruct IH as (-> & Hnone). cbn [Num.lt].
          split; [done |]. split; [apply elem_of_app; right; by left |].
          split; [done |]. intros t' Ht' He'.
          apply elem_of_app in Ht' as [Ht' | Ht'].
          ++ by destruct (Hnone t' Ht').
          ++ apply list_elem_of_singleton in Ht' as ->. lra.
      + destruct best as [target |].
        * destruct IH as (-> & Hin & Het & Hmin).
          split; [done |]. split; [apply elem_of_app; by left |].
          split; [done |]. intros t' Ht' He'.
          apply elem_of_app in Ht' as [Ht' | Ht'].
          ++ by apply Hmin.
          ++ apply list_elem_of_singleton in Ht' as ->. done.
        * destruct IH as (-> & Hnone). split; [done |]. intros t' Ht'.
          apply elem_of_app in Ht' as [Ht' | Ht'].
          ++ by apply Hnone.
          ++ by apply list_elem_of_singleton in Ht' as ->. }
  specialize (Hinv nearbyTrees).
  destruct (foldl step init nearbyTrees) as [[target |] closest]; cbn [fst]; tauto.
Qed.

Lemma deer_targets_nearest_edible_tree_witness :
  let ecosystem := feedingWorld (λ _, 0) in
  let dist (tree : loc) :=
    distanceTo 0 0 (tree_x (heap ecosystem tree)) (tree_y (heap ecosystem tree)) in
  match nearestEdibleTree sampleDeer ecosystem [0%nat] with
  | Some target =>
      target ∈ [0%nat] ∧ edibleBy sampleDeer (heap ecosystem target)
      ∧ ∀ tree, tree ∈ [0%nat] → edibleBy sampleDeer (heap ecosystem tree) →
                dist target <= dist tree
  | None => ∀ tree, tree ∈ [0%nat] → ¬ edibleBy sampleDeer (heap ecosystem tree)
  end.
Proof.
  cbv zeta.
  apply (deer_targets_nearest_edible_tree sampleDeer (feedingWorld (λ _, 0))
           [0%nat] 0 0); reflexivity.
Defined.
End NearestTarget.

Section Steps.
Local Open Scope R_scope.

(** The step [p + (dx / distance) * speed] of the seek, flee and chase
    rules, for finite operands. *)
Lemma unit_step (px py dx dy speed : R) :
  dx ≠ 0 ∨ dy ≠ 0 →
  let distance := Num.sqrt (Fin dx * Fin dx + Fin dy * Fin dy)%js in
  ∃ δ x' y',
    0 < δ ∧ δ * δ = dx * dx + dy * dy
    ∧ (Fin px + (Fin dx / distance) * Fin speed)%js = Fin x'
    ∧ (Fin py + (Fin dy / distance) * Fin speed)%js = Fin y'
    ∧ (x' - px) * δ = speed * dx ∧ (y' - py) * δ = speed * dy
    ∧ (x' - px) ^ 2 + (y' - py) ^ 2 = speed ^ 2.
Proof.
  intros Hne. cbv zeta. cbn [Num.mul Num.add]. unfold Num.sqrt.
  assert (Hpos : 0 < dx * dx + dy * dy).
  { pose proof (Rle_0_sqr dx). pose proof (Rle_0_sqr dy). unfold Rsqr in *.
    destruct Hne as [Hne | Hne]; [assert (0 < dx * dx) by nra | assert (0 < dy * dy) by nra];
      lra. }
  destruct (decide (dx * dx + dy * dy < 0)) as [? | _]; [lra |].
  set (δ := sqrt (dx * dx + dy * dy)).
  assert (Hδ : 0 < δ) by (apply sqrt_lt_R0; lra).
  assert (Hδ2 : δ * δ = dx * dx + dy * dy) by (apply sqrt_sqrt; lra).
  cbn [Num.div]. destruct (decide (δ = 0)) as [? | _]; [lra |].
  cbn [Num.mul Num.add].
  exists δ, (px + dx / δ * speed), (py + dy / δ * speed).
  repeat split; try done.
  - field. lra.
  - field. lra.
  - replace ((px + dx / δ * speed - px) ^ 2 + (py + dy / δ * speed - py) ^ 2)
      with (speed ^ 2 * ((dx * dx + dy * dy) / (δ * δ))) by (field; lra).
    rewrite Hδ2. field. lra.
Qed.

(** The gap [1e-100] below which the theorems on steps say nothing: the
    coordinates are exact reals here, while the square of a double below
    about [1.5e-162] is 0. *)
Lemma gap_pos : 0 < / 10 ^ 100.
Proof. apply Rinv_0_lt_compat, pow_lt. lra. Qed.

Lemma gap_small : / 10 ^ 100 <= / 10.
Proof.
  apply Rinv_le_contravar; [lra |].
  replace 10 with (10 ^ 1) at 1 by ring. apply Rle_pow; [lra | lia].
Qed.

Lemma Rabs_bound (a b : R) : - b <= a <= b → Rabs a <= b.
Proof. intros H. unfold Rabs. destruct (Rcase_abs a); lra. Qed.

Lemma Rabs_lower (a b : R) : b <= a ∨ a <= - b → b <= Rabs a.
Proof. intros H. unfold Rabs. destruct (Rcase_abs a); lra. Qed.

(** A gap in one coordinate is a distance of at least that gap. *)
Lemma gap_distance (dx dy δ ε : R) :
  0 < ε → 0 < δ → δ * δ = dx * dx + dy * dy →
  ε <= Rabs dx ∨ ε <= Rabs dy →
  (dx ≠ 0 ∨ dy ≠ 0) ∧ ε <= δ.
Proof.
  intros Hε Hδ Hδ2 Hgap.
  assert (Hsq : ε * ε <= δ * δ).
  { rewrite Hδ2. pose proof (Rle_0_sqr dx). pose proof (Rle_0_sqr dy).
    unfold Rsqr in *. unfold Rabs in Hgap.
    destruct Hgap as [Hg | Hg]; [destruct (Rcase_abs dx) | destruct (Rcase_abs dy)]; nra. }
  split; [| nra].
  unfold Rabs in Hgap.
  destruct Hgap as [Hg | Hg]; [left; destruct (Rcase_abs dx) | right; destruct (Rcase_abs dy)];
    lra.
Qed.

(** A step of length [speed] from a point of [-1, 1], with [speed <= 1],
    ends in [-2, 2]. *)
Lemma step_bounded (x y x' y' speed : R) :
  Rabs x <= 1 → Rabs y <= 1 → 0 <= speed <= 1 →
  (x' - x) ^ 2 + (y' - y) ^ 2 = speed ^ 2 →
  Rabs x' <= 2 ∧ Rabs y' <= 2.
Proof.
  intros Hx Hy Hs Hlen.
  assert (H1 : - speed <= x' - x <= speed).
  { pose proof (pow2_ge_0 (y' - y)). split; nra. }
  assert (H2 : - speed <= y' - y <= speed).
  { pose proof (pow2_ge_0 (x' - x)). split; nra. }
  unfold Rabs in *.
  destruct (Rcase_abs x), (Rcase_abs y), (Rcase_abs x'), (Rcase_abs y'); lra.
Qed.

(** [unit_step] for operands with a gap. *)
Lemma unit_step_gap (px py dx dy speed : R) :
  / 10 ^ 100 <= Rabs dx ∨ / 10 ^ 100 <= Rabs dy →
  let distance := Num.sqrt (Fin dx * Fin dx + Fin dy * Fin dy)%js in
  ∃ δ x' y',
    / 10 ^ 100 <= δ ∧ δ * δ = dx * dx + dy * dy
    ∧ distance = Fin δ
    ∧ (Fin px + (Fin dx / distance) * Fin speed)%js = Fin x'
    ∧ (Fin py + (Fin dy / distance) * Fin speed)%js = Fin y'
    ∧ (x' - px) * δ = speed * dx ∧ (y' - py) * δ = speed * dy
    ∧ (x' - px) ^ 2 + (y' - py) ^ 2 = speed ^ 2.
Proof.
  intros Hgap. cbv zeta.
  assert (Hne : dx ≠ 0 ∨ dy ≠ 0).
  { pose proof gap_pos. unfold Rabs in Hgap.
    destruct Hgap as [Hg | Hg]; [left; destruct (Rcase_abs dx) | right; destruct (Rcase_abs dy)];
      lra. }
  destruct (unit_step px py dx dy speed Hne)
    as (δ & x' & y' & Hδ & Hδ2 & Hx' & Hy' & Hdx & Hdy & Hlen).
  cbv zeta in Hx', Hy'.
  exists δ, x', y'.
  destruct (gap_distance dx dy δ (/ 10 ^ 100) gap_pos Hδ Hδ2 Hgap) as [_ Hle].
  split; [exact Hle |]. split; [exact Hδ2 |]. split; [| by repeat split].
  cbn [Num.mul Num.add]. unfold Num.sqrt.
  destruct (decide (_ < 0)) as [Hneg | _].
  { pose proof (Rle_0_sqr dx). pose proof (Rle_0_sqr dy). unfold Rsqr in *. lra. }
  f_equal. apply sqrt_lem_1; [| lra | lra].
  pose proof (Rle_0_sqr dx). pose proof (Rle_0_sqr dy). unfold Rsqr in *. lra.
Qed.

(** X13.  A deer in the square [-1, 1] whose target tree, in that square
    too, is at least [1e-100] away in one coordinate moves by [Speed]
    times the unit vector toward the tree: a step of length [Speed],
    whatever the distance to the tree, that ends at finite coordinates.
    Coordinates are exact reals here; the gap keeps the squares of the
    differences out of the range where doubles underflow to 0 and the
    division yields NaN. *)
Theorem seek_step_has_length_speed (d : Deer) (targetTree : Tree) (x y : R) :
  deer_x d = Fin x → deer_y d = Fin y →
  Rabs x <= 1 → Rabs y <= 1 →
  Rabs (tree_x targetTree) <= 1 → Rabs (tree_y targetTree) <= 1 →
  0 <= deer_Speed (deer_characteristics d) <= 1 →
  / 10 ^ 100 <= Rabs (tree_x targetTree - x)
  ∨ / 10 ^ 100 <= Rabs (tree_y targetTree - y) →
  ∃ distance x' y',
    / 10 ^ 100 <= distance
    ∧ distance * distance
      = (tree_x targetTree - x) * (tree_x targetTree - x)
        + (tree_y targetTree - y) * (tree_y targetTree - y)
    ∧ deer_x (deerSeekStep d targetTree) = Fin x'
    ∧ deer_y (deerSeekStep d targetTree) = Fin y'
    ∧ (x' - x) * distance
      = deer_Speed (deer_characteristics d) * (tree_x targetTree - x)
    ∧ (y' - y) * distance
      = deer_Speed (deer_characteristics d) * (tree_y targetTree - y)
    ∧ (x' - x) ^ 2 + (y' - y) ^ 2 = deer_Speed (deer_characteristics d) ^ 2
    ∧ Rabs x' <= 2 ∧ Rabs y' <= 2.
Proof.
  intros Hx Hy Hbx Hby _ _ Hs Hgap.
  destruct (unit_step_gap x y (tree_x targetTree - x) (tree_y targetTree - y)
              (deer_Speed (deer_characteristics d)) Hgap)
    as (δ & x' & y' & Hδ & Hδ2 & _ & Hx' & Hy' & Hdx & Hdy & Hlen).
  exists δ, x', y'. unfold deerSeekStep. cbv zeta. cbn [deer_x deer_y set_deer_pos].
  rewrite Hx, Hy. split_and!; try done.
  all: by destruct (step_bounded x y x' y' _ Hbx Hby Hs Hlen).
Qed.

Lemma seek_step_has_length_speed_witness :
  let d := set_deer_pos 0.3 0.4 sampleDeer in
  let targetTree := sampleTree 0 1 in
  ∃ distance x' y',
    / 10 ^ 100 <= distance
    ∧ distance * distance
      = (tree_x targetTree - 0.3) * (tree_x targetTree - 0.3)
        + (tree_y targetTree - 0.4) * (tree_y targetTree - 0.4)
    ∧ deer_x (deerSeekStep d targetTree) = Fin x'
    ∧ deer_y (deerSeekStep d targetTree) = Fin y'
    ∧ (x' - 0.3) * distance
      = deer_Speed (deer_characteristics d) * (tree_x targetTree - 0.3)
    ∧ (y' - 0.4) * distance
      = deer_Speed (deer_characteristics d) * (tree_y targetTree - 0.4)
    ∧ (x' - 0.3) ^ 2 + (y' - 0.4) ^ 2 = deer_Speed (deer_characteristics d) ^ 2
    ∧ Rabs x' <= 2 ∧ Rabs y' <= 2.
Proof.
  cbv zeta.
  apply (seek_step_has_length_speed (set_deer_pos 0.3 0.4 sampleDeer)
           (sampleTree 0 1) 0.3 0.4).
  - reflexivity.
  - reflexivity.
  - apply Rabs_bound. lra.
  - apply Rabs_bound. lra.
  - apply Rabs_bound. cbn. lra.
  - apply Rabs_bound. cbn. lra.
  - cbn. lra.
  - left. apply Rabs_lower. right. pose proof gap_small. cbn. lra.
Defined.

(** X14.  A wolf in the square [-1, 1] whose target deer, in that square
    too, is at least [1e-100] away in one coordinate moves by [Speed]
    times the unit vector toward the deer, and ends at finite
    coordinates.  Coordinates are exact reals here; the gap keeps the
    squares of the differences out of the range where doubles underflow
    to 0 and the division yields NaN. *)
Theorem chase_step_has_length_speed
    (v : Wolf) (targetDeer : Deer) (x y tx ty : R) :
  wolf_x v = Fin x → wolf_y v = Fin y →
  deer_x targetDeer = Fin tx → deer_y targetDeer = Fin ty →
  Rabs x <= 1 → Rabs y <= 1 → Rabs tx <= 1 → Rabs ty <= 1 →
  0 <= wolf_Speed (wolf_characteristics v) <= 1 →
  / 10 ^ 100 <= Rabs (tx - x) ∨ / 10 ^ 100 <= Rabs (ty - y) →
  ∃ distance x' y',
    / 10 ^ 100 <= distance
    ∧ distance * distance = (tx - x) * (tx - x) + (ty - y) * (ty - y)
    ∧ wolf_x (wolfChaseStep v targetDeer) = Fin x'
    ∧ wolf_y (wolfChaseStep v targetDeer) = Fin y'
    ∧ (x' - x) * distance = wolf_Speed (wolf_characteristics v) * (tx - x)
    ∧ (y' - y) * distance = wolf_Speed (wolf_characteristics v) * (ty - y)
    ∧ (x' - x) ^ 2 + (y' - y) ^ 2 = wolf_Speed (wolf_characteristics v) ^ 2
    ∧ Rabs x' <= 2 ∧ Rabs y' <= 2.
Proof.
  intros Hx Hy Htx Hty Hbx Hby _ _ Hs Hgap.
  destruct (unit_step_gap x y (tx - x) (ty - y)
              (wolf_Speed (wolf_characteristics v)) Hgap)
    as (δ & x' & y' & Hδ & Hδ2 & _ & Hx' & Hy' & Hdx & Hdy & Hlen).
  exists δ, x', y'. unfold wolfChaseStep. cbv zeta. cbn [wolf_x wolf_y set_wolf_pos].
  rewrite Hx, Hy, Htx, Hty. split_and!; try done.
  all: by destruct (step_bounded x y x' y' _ Hbx Hby Hs Hlen).
Qed.

Lemma chase_step_has_length_speed_witness :
  let v := set_wolf_pos 0.3 0.4 sampleWolf in
  ∃ distance x' y',
    / 10 ^ 100 <= distance
    ∧ distance * distance = (0 - 0.3) * (0 - 0.3) + (0 - 0.4) * (0 - 0.4)
    ∧ wolf_x (wolfChaseStep v sampleDeer) = Fin x'
    ∧ wolf_y (wolfChaseStep v sampleDeer) = Fin y'
    ∧ (x' - 0.3) * distance = wolf_Speed (wolf_characteristics v) * (0 - 0.3)
    ∧ (y' - 0.4) * distance = wolf_Speed (wolf_characteristics v) * (0 - 0.4)
    ∧ (x' - 0.3) ^ 2 + (y' - 0.4) ^ 2 = wolf_Speed (wolf_characteristics v) ^ 2
    ∧ Rabs x' <= 2 ∧ Rabs y' <= 2.
Proof.
  cbv zeta.
  apply (chase_step_has_length_speed (set_wolf_pos 0.3 0.4 sampleWolf)
           sampleDeer 0.3 0.4 0 0).
  - reflexivity.
  - reflexivity.
  - reflexivity.
  - reflexivity.
  - apply Rabs_bound. lra.
  - apply Rabs_bound. lra.
  - apply Rabs_bound. lra.
  - apply Rabs_bound. lra.
  - cbn. lra.
  - left. apply Rabs_lower. right. pose proof gap_small. lra.
Defined.

Lemma Int_part_shift (r : R) (k : Z) : IZR k <= r < IZR k + 1 → Int_part r = k.
Proof. intros Hr. symmetry. apply Int_part_spec. lra. Qed.

(** X15.  The wrap-around [(x + 1) % 1] maps a coordinate [x >= -1] to
    the point of [0, 1) that differs from it by an integer; a coordinate
    below -1 is mapped into (-1, 0], not into the unit interval. *)
Theorem wrap_range (x : R) :
  (-1 <= x →
   ∃ (r : R) (k : Z), wrap (Fin x) = Fin r ∧ 0 <= r < 1 ∧ x = r + IZR k)
  ∧ (x < -1 → ∃ r : R, wrap (Fin x) = Fin r ∧ -1 < r <= 0).
Proof.
  unfold wrap. cbn [Num.add Num.rem1]. unfold Num.trunc. split.
  - intros Hx. destruct (decide (0 <= x + 1)) as [_ | Hn]; [| lra].
    destruct (base_Int_part (x + 1)) as [H1 H2].
    exists (x + 1 - IZR (Int_part (x + 1))), (Int_part (x + 1) - 1)%Z.
    split; [done |]. rewrite minus_IZR. split; lra.
  - intros Hx. destruct (decide (0 <= x + 1)) as [Hn | _]; [lra |].
    destruct (base_Int_part (- (x + 1))) as [H1 H2].
    eexists. split; [reflexivity |]. rewrite opp_IZR. lra.
Qed.
End Steps.

(** * Further properties: effects of the passes *)

Section DeerEffects.
Local Open Scope R_scope.

(** The movement rule assigns the two coordinates and nothing else, and
    draws at most one random number. *)
Lemma deerMove_run (d : Deer) (w : World) :
  ∃ x' y' n,
    deerMove d w = (set_deer_pos x' y' d, set_cursor n w)
    ∧ (deer_x d = NaN → x' = NaN) ∧ (deer_y d = NaN → y' = NaN).
Proof.
  assert (Hrandom : ∀ w0 : World, ∃ x' y' n,
    (let* '(x, y) := randomStep (deer_x d) (deer_y d)
                      (deer_Speed (deer_characteristics d)) in
     ret (set_deer_pos x y d)) w0 = (set_deer_pos x' y' d, set_cursor n w0)
    ∧ (deer_x d = NaN → x' = NaN) ∧ (deer_y d = NaN → y' = NaN)).
  { intros w0. eexists _, _, _. split; [reflexivity |]. split; by intros ->. }
  assert (Hstay : ∀ x' y', (set_deer_pos x' y' d, w)
                           = (set_deer_pos x' y' d, set_cursor (cursor w) w)).
  { intros. by rewrite set_cursor_same. }
  unfold deerMove. rewrite bind_eq. cbn [get fst snd]. cbv zeta.
  destruct (decide (_ < _)).
  - destruct (nearestEdibleTree _ _ _) as [target |]; [| apply Hrandom].
    unfold deerSeekStep. cbv zeta. eexists _, _, _. split; [apply Hstay |].
    split; by intros ->.
  - destruct (nearestWolfOf _ _) as [v |]; [| apply Hrandom].
    unfold deerFleeStep. cbv zeta. destruct (Num.gt _ _); [| apply Hrandom].
    eexists _, _, _. split; [apply Hstay |]. split; by intros ->.
Qed.

(** The eating loop scans the trees from the last index down and eats the
    first tree it can. *)
Lemma deerEatLoop_run (d : Deer) (i : nat) (w : World) :
  (deerEatLoop d i w = (d, w)
   ∧ ∀ j tree, (j < i)%nat → trees w !! j = Some tree → canEat d (heap w tree) = false)
  ∨ ∃ j tree,
      (j < i)%nat ∧ trees w !! j = Some tree
      ∧ canEat d (heap w tree) = true
      ∧ (∀ j' tree', (j < j' < i)%nat → trees w !! j' = Some tree' →
                     canEat d (heap w tree') = false)
      ∧ deerEatLoop d i w
        = (set_deer_energy
             (Rmin DEER_MAX_ENERGY (deer_energy d + tree_size (heap w tree) * 0.1)) d,
           eaten j tree w).
Proof.
  induction i as [| i IH]; cbn [deerEatLoop].
  - left. split; [done |]. intros; lia.
  - rewrite bind_eq. cbn [get fst snd].
    destruct (trees w !! i) as [tree |] eqn:Hi.
    + cbv zeta. fold (canEat d (heap w tree)).
      destruct (canEat d (heap w tree)) eqn:Hc.
      * right. exists i, tree. split; [lia |]. split; [done |]. split; [done |].
        split; [intros; lia |]. by rewrite !bind_eq.
      * destruct IH as [[Hrun Hnone] | (j & t & Hj & Ht & Hcan & Hlast & Hrun)].
        -- left. split; [done |]. intros j t Hj Ht.
           destruct (decide (j = i)) as [-> | Hne]; [congruence |].
           apply (Hnone j t); [lia | done].
        -- right. exists j, t. split; [lia |]. split; [done |]. split; [done |].
           split; [| done]. intros j' t' Hj' Ht'.
           destruct (decide (j' = i)) as [-> | Hne]; [congruence |].
           apply (Hlast j' t'); [lia | done].
    + destruct IH as [[Hrun Hnone] | (j & t & Hj & Ht & Hcan & Hlast & Hrun)].
      * left. split; [done |]. intros j t Hj Ht.
        destruct (decide (j = i)) as [-> | Hne]; [congruence |].
        apply (Hnone j t); [lia | done].
      * right. exists j, t. split; [lia |]. split; [done |]. split; [done |].
        split; [| done]. intros j' t' Hj' Ht'.
        destruct (decide (j' = i)) as [-> | Hne]; [congruence |].
        apply (Hlast j' t'); [lia | done].
Qed.

Lemma eaten_fields (j : nat) (tree : loc) (w : World) :
  let w' := eaten j tree w in
  trees w' = delete j (trees w) ∧ deer w' = deer w ∧ wolves w' = wolves w
  ∧ heap w' = heap w ∧ terrain w' = terrain w ∧ nextLoc w' = nextLoc w
  ∧ treeIdGenerator w' = treeIdGenerator w
  ∧ deerIdGenerator w' = deerIdGenerator w
  ∧ wolfIdGenerator w' = wolfIdGenerator w
  ∧ rng w' = rng w ∧ cursor w' = cursor w ∧ newTrees w' = newTrees w
  ∧ newDeer w' = newDeer w ∧ newWolves w' = newWolves w.
Proof.
  cbv zeta. unfold eaten. cbv zeta. cbn.
  destruct (deleteFromGrid_frame (heap w tree) w)
    as (-> & -> & -> & -> & -> & -> & -> & -> & -> & -> & -> & -> & -> & ->).
  by repeat split.
Qed.

(** What one call of the deer callback does to the deer, to the offspring
    collected so far and to the generator of deer ids. *)
Lemma deerCallback_effect (immortalDeer : bool) (d : Deer) (index : nat) (w : World) :
  let w' := exec (deerCallback immortalDeer d index) w in
  ∃ (d' : Deer) (babies : list Deer),
    (deer w' = <[index := d']> (deer w)
     ∧ newDeer w' = newDeer w ++ babies
     ∧ deerIdGenerator w' = (length babies + deerIdGenerator w)%nat
     ∧ heap w' = heap w)
    ∧ deerTick d d'
    ∧ ((length babies ≤ 1)%nat ∧ Forall (deerOffspring (deerIdGenerator w) d) babies)
    ∧ grazed d' (heap w) (trees w) (trees w').
Proof.
  cbv zeta. unfold exec, deerCallback. cbv zeta.
  set (d1 := set_deer_age (deer_age d + 1) d).
  destruct (deerMove_run d1 w) as (x' & y' & n & Hmove & Hnx & Hny).
  erewrite bind_run by exact Hmove.
  set (d2 := set_deer_pos (wrap _) (wrap _) (set_deer_pos x' y' d1)).
  set (w1 := set_cursor n w).
  assert (Heat : ∃ (e : R) (w2 : World),
    (if decide (deer_energy d2 < DEER_MAX_ENERGY)
     then let* ecosystem := get in deerEatLoop d2 (length (trees ecosystem))
     else ret d2) w1 = (set_deer_energy e d2, w2)
    ∧ (0 <= deer_EnergyNeeds (deer_characteristics d) →
       e <= Rmax (deer_energy d) DEER_MAX_ENERGY)
    ∧ deer w2 = deer w ∧ newDeer w2 = newDeer w
    ∧ deerIdGenerator w2 = deerIdGenerator w ∧ heap w2 = heap w
    ∧ grazed d2 (heap w) (trees w) (trees w2)).
  { assert (Hsame : ∀ w0 : World, (d2, w0) = (set_deer_energy (deer_energy d) d2, w0)).
    { intros. reflexivity. }
    destruct (decide (deer_energy d2 < DEER_MAX_ENERGY)) as [Hlt | Hge].
    - rewrite bind_eq. cbn [get fst snd].
      destruct (deerEatLoop_run d2 (length (trees w1)) w1)
        as [[Hrun _] | (j & tree & Hj & Ht & Hcan & _ & Hrun)]; rewrite Hrun.
      + exists (deer_energy d), w1. split; [apply Hsame |].
        split; [intros _; apply Rmax_l |]. by repeat split; try left.
      + eexists _, _. split; [reflexivity |].
        destruct (eaten_fields j tree w1)
          as (Ht' & Hd' & _ & Hh' & _ & _ & _ & Hg & _ & _ & _ & _ & Hn' & _).
        cbv zeta in *. rewrite Ht', Hd', Hg, Hn', Hh'.
        split; [intros _; etransitivity; [apply Rmin_l | apply Rmax_r] |].
        repeat split; try done. right. by exists j, tree.
    - exists (deer_energy d), w1. split; [apply Hsame |].
      split; [intros _; apply Rmax_l |]. by repeat split; try left. }
  destruct Heat as (e & w2 & Hrun & He & Hd2 & Hn2 & Hg2 & Hh2 & Ht2).
  erewrite bind_run by exact Hrun. cbv beta.
  set (e3 := Rmax 0 (deer_energy (set_deer_energy e d2)
                     - deer_EnergyNeeds (deer_characteristics (set_deer_energy e d2)))).
  set (d3 := set_deer_energy e3 (set_deer_energy e d2)).
  assert (He3 : 0 <= e3) by apply Rmax_l.
  assert (He3' : 0 <= deer_EnergyNeeds (deer_characteristics d) →
                 e3 <= Rmax (deer_energy d) DEER_MAX_ENERGY).
  { intros Hneeds. specialize (He Hneeds). unfold e3. cbn.
    apply Rmax_lub; [| lra].
    etransitivity; [| apply Rmax_r]. unfold DEER_MAX_ENERGY. lra. }
  clearbody e3.
  assert (Htick3 : deerTick d d3).
  { repeat split; try done.
    - intros Hx. cbn. by rewrite Hnx.
    - intros Hy. cbn. by rewrite Hny. }
  rewrite !bind_eq. cbn [store_deer modify fst snd].
  set (w3 := set_deer _ w2).
  assert (Hcheck : ∃ n', (deerDeathCheck immortalDeer d3 w3).2 = set_cursor n' w3).
  { unfold deerDeathCheck. rewrite bind_eq. cbn [get fst snd]. cbv zeta.
    destruct (negb _); [by eexists | exists (cursor w3); by rewrite set_cursor_same]. }
  destruct Hcheck as (n' & ->).
  assert (Hnone : ∀ m : nat,
    let w4 := set_cursor m w3 in
    ∃ (d' : Deer) (babies : list Deer),
      (deer w4 = <[index := d']> (deer w)
       ∧ newDeer w4 = newDeer w ++ babies
       ∧ deerIdGenerator w4 = (length babies + deerIdGenerator w)%nat
       ∧ heap w4 = heap w)
      ∧ deerTick d d'
      ∧ ((length babies ≤ 1)%nat
         ∧ Forall (deerOffspring (deerIdGenerator w) d) babies)
      ∧ grazed d' (heap w) (trees w) (trees w4)).
  { intros m. exists d3, []. cbn. rewrite Hd2, Hn2, Hg2, Hh2, app_nil_r.
    repeat split; try done; try (by constructor); apply Htick3. }
  destruct (deerDeathCheck immortalDeer d3 w3).1; [apply Hnone |].
  rewrite bind_eq. cbn [ret fst snd].
  unfold deerReproduce.
  destruct (_ && _) eqn:Hrep; [| apply Hnone].
  rewrite bind_eq. cbn [random fst snd].
  match goal with
  | |- context [if decide (?a < ?b) then bind _ _ else _] => destruct (decide (a < b))
  end; [| apply Hnone].
  apply andb_prop in Hrep as [_ Hthr]. apply bool_decide_eq_true in Hthr.
  cbn in Hthr. unfold DEER_REPRODUCE_THRESHOLD in Hthr.
  rewrite !bind_eq. cbn [deerIdGenerator_next random modify store_deer fst snd].
  eexists (set_deer_energy (deer_energy d3 - DEER_REPRODUCTION_COST) d3), [_].
  cbn. rewrite Hd2, Hn2, Hg2, Hh2, list_insert_insert_eq.
  destruct Htick3 as (Hkin3 & Hage3 & _ & _ & Hx3 & Hy3).
  split; [done |]. split; [| split; [split; [done |] | exact Ht2]].
  - repeat split; try done; try apply Hkin3.
    + cbn. unfold DEER_REPRODUCTION_COST. lra.
    + intros Hneeds. specialize (He3' Hneeds). cbn. unfold DEER_REPRODUCTION_COST. lra.
  - apply Forall_singleton. repeat split.
    + intros Hx. pose proof (Hx3 Hx) as E. cbn in E |- *. by rewrite E.
    + intros Hy. pose proof (Hy3 Hy) as E. cbn in E |- *. by rewrite E.
Qed.
End DeerEffects.

Section WolfEffects.
Local Open Scope R_scope.

Lemma wolfMove_run (v : Wolf) (w : World) :
  ∃ x' y' n,
    wolfMove v w = (set_wolf_pos x' y' v, set_cursor n w)
    ∧ (wolf_x v = NaN → x' = NaN) ∧ (wolf_y v = NaN → y' = NaN).
Proof.
  assert (Hrandom : ∀ w0 : World, ∃ x' y' n,
    (let* '(x, y) := randomStep (wolf_x v) (wolf_y v)
                      (wolf_Speed (wolf_characteristics v)) in
     ret (set_wolf_pos x y v)) w0 = (set_wolf_pos x' y' v, set_cursor n w0)
    ∧ (wolf_x v = NaN → x' = NaN) ∧ (wolf_y v = NaN → y' = NaN)).
  { intros w0. eexists _, _, _. split; [reflexivity |]. split; by intros ->. }
  unfold wolfMove. rewrite bind_eq. cbn [get fst snd]. cbv zeta.
  destruct (decide (_ < _)); [| apply Hrandom].
  destruct (nearestDeerOf _ _) as [target |]; [| apply Hrandom].
  unfold wolfChaseStep. cbv zeta. eexists _, _, (cursor w).
  rewrite set_cursor_same. split; [reflexivity |]. split; by intros ->.
Qed.

(** The hunting loop scans the deer from the last index down; it ends at
    the first kill, or at the first deer in reach when that deer is the
    only one. *)
Lemma wolfHuntLoop_run (v : Wolf) (i : nat) (w : World) :
  ∃ n, (wolfHuntLoop v i w = (v, set_cursor n w))
       ∨ ∃ j d,
           (j < i)%nat ∧ deer w !! j = Some d ∧ canKill v d = true
           ∧ length (deer w) ≠ 1%nat
           ∧ wolfHuntLoop v i w
             = (set_wolf_energy
                  (Rmin WOLF_MAX_ENERGY
                     (wolf_energy v + deer_MaxSize (deer_characteristics d) * 0.3)) v,
                set_deer (delete j (deer w)) (set_cursor n w)).
Proof.
  revert w. induction i as [| i IH]; intros w; cbn [wolfHuntLoop].
  - exists (cursor w). left. by rewrite set_cursor_same.
  - rewrite bind_eq. cbn [get fst snd].
    destruct (deer w !! i) as [d |] eqn:Hi.
    + cbv zeta. fold (canKill v d). destruct (canKill v d) eqn:Hc.
      * destruct (decide (length (deer w) = 1%nat)) as [Hlen | Hlen].
        { exists (cursor w). left. by rewrite set_cursor_same. }
        rewrite bind_eq. cbn [random fst snd].
        destruct (decide (_ < _)) as [Hhit | Hmiss].
        -- exists (S (cursor w)). right. exists i, d.
           split; [lia |]. split; [done |]. split; [done |]. split; [done |].
           by rewrite bind_eq.
        -- destruct (IH (set_cursor (S (cursor w)) w))
             as (m & [Hrun | (j & d' & Hj & Hd' & Hcan & Hl & Hrun)]); exists m.
           ++ left. by rewrite Hrun.
           ++ right. exists j, d'. split; [lia |]. by rewrite Hrun.
      * destruct (IH w) as (n & [Hrun | (j & d' & Hj & Hd' & Hcan & Hl & Hrun)]);
          exists n.
        -- by left.
        -- right. exists j, d'. split; [lia |]. done.
    + destruct (IH w) as (n & [Hrun | (j & d' & Hj & Hd' & Hcan & Hl & Hrun)]);
        exists n.
      * by left.
      * right. exists j, d'. split; [lia |]. done.
Qed.

(** What one call of the wolf callback does to the wolves, to the
    offspring collected so far, to the generator of wolf ids and to the
    deer. *)
Lemma wolfCallback_effect (immortalWolf : bool) (v : Wolf) (index : nat) (w : World) :
  let w' := exec (wolfCallback immortalWolf v index) w in
  ∃ (v' : Wolf) (babies : list Wolf),
    (wolves w' = <[index := v']> (wolves w)
     ∧ newWolves w' = newWolves w ++ babies
     ∧ wolfIdGenerator w' = (length babies + wolfIdGenerator w)%nat)
    ∧ wolfTick v v'
    ∧ ((length babies ≤ 1)%nat ∧ Forall (wolfOffspring (wolfIdGenerator w) v) babies)
    ∧ hunted v' (deer w) (deer w').
Proof.
  cbv zeta. unfold exec, wolfCallback. cbv zeta.
  set (v1 := set_wolf_age (wolf_age v + 1) v).
  destruct (wolfMove_run v1 w) as (x' & y' & n & Hmove & Hnx & Hny).
  erewrite bind_run by exact Hmove.
  set (v2 := set_wolf_pos (wrap _) (wrap _) (set_wolf_pos x' y' v1)).
  set (w1 := set_cursor n w).
  assert (Hhunt : ∃ (e : R) (w2 : World),
    (if decide (wolf_energy v2 < WOLF_MAX_ENERGY)
     then let* ecosystem := get in wolfHuntLoop v2 (length (deer ecosystem))
     else ret v2) w1 = (set_wolf_energy e v2, w2)
    ∧ (0 <= wolf_EnergyNeeds (wolf_characteristics v) →
       e <= Rmax (wolf_energy v) WOLF_MAX_ENERGY)
    ∧ wolves w2 = wolves w ∧ newWolves w2 = newWolves w
    ∧ wolfIdGenerator w2 = wolfIdGenerator w
    ∧ hunted v2 (deer w) (deer w2)).
  { assert (Hsame : ∀ w0 : World, (v2, w0) = (set_wolf_energy (wolf_energy v) v2, w0)).
    { intros. reflexivity. }
    destruct (decide (wolf_energy v2 < WOLF_MAX_ENERGY)) as [Hlt | Hge].
    - rewrite bind_eq. cbn [get fst snd].
      destruct (wolfHuntLoop_run v2 (length (deer w1)) w1)
        as (m & [Hrun | (j & d & Hj & Hd & Hcan & Hlen & Hrun)]); rewrite Hrun.
      + exists (wolf_energy v), (set_cursor m w1). split; [apply Hsame |].
        split; [intros _; apply Rmax_l |]. by repeat split; try left.
      + eexists _, _. split; [reflexivity |].
        split; [intros _; etransitivity; [apply Rmin_l | apply Rmax_r] |].
        repeat split; try done. right. by exists j, d.
    - exists (wolf_energy v), w1. split; [apply Hsame |].
      split; [intros _; apply Rmax_l |]. by repeat split; try left. }
  destruct Hhunt as (e & w2 & Hrun & He & Hv2 & Hn2 & Hg2 & Hd2).
  erewrite bind_run by exact Hrun. cbv beta.
  set (e3 := Rmax 0 (wolf_energy (set_wolf_energy e v2)
                     - wolf_EnergyNeeds (wolf_characteristics (set_wolf_energy e v2)))).
  set (v3 := set_wolf_energy e3 (set_wolf_energy e v2)).
  assert (He3 : 0 <= e3) by apply Rmax_l.
  assert (He3' : 0 <= wolf_EnergyNeeds (wolf_characteristics v) →
                 e3 <= Rmax (wolf_energy v) WOLF_MAX_ENERGY).
  { intros Hneeds. specialize (He Hneeds). unfold e3. cbn.
    apply Rmax_lub; [| lra].
    etransitivity; [| apply Rmax_r]. unfold WOLF_MAX_ENERGY. lra. }
  clearbody e3.
  assert (Htick3 : wolfTick v v3).
  { repeat split; try done.
    - intros Hx. cbn. by rewrite Hnx.
    - intros Hy. cbn. by rewrite Hny. }
  rewrite !bind_eq. cbn [store_wolf modify fst snd].
  set (w3 := set_wolves _ w2).
  assert (Hcheck : ∃ n', (wolfDeathCheck immortalWolf v3 w3).2 = set_cursor n' w3).
  { unfold wolfDeathCheck. rewrite bind_eq. cbn [get fst snd]. cbv zeta.
    destruct (negb _); [by eexists | exists (cursor w3); by rewrite set_cursor_same]. }
  destruct Hcheck as (n' & ->).
  assert (Hnone : ∀ m : nat,
    let w4 := set_cursor m w3 in
    ∃ (v' : Wolf) (babies : list Wolf),
      (wolves w4 = <[index := v']> (wolves w)
       ∧ newWolves w4 = newWolves w ++ babies
       ∧ wolfIdGenerator w4 = (length babies + wolfIdGenerator w)%nat)
      ∧ wolfTick v v'
      ∧ ((length babies ≤ 1)%nat
         ∧ Forall (wolfOffspring (wolfIdGenerator w) v) babies)
      ∧ hunted v' (deer w) (deer w4)).
  { intros m. exists v3, []. cbn. rewrite Hv2, Hn2, Hg2, app_nil_r.
    repeat split; try done; try (by constructor); apply Htick3. }
  destruct (wolfDeathCheck immortalWolf v3 w3).1; [apply Hnone |].
  rewrite bind_eq. cbn [ret fst snd].
  unfold wolfReproduce.
  destruct (_ && _) eqn:Hrep; [| apply Hnone].
  rewrite bind_eq. cbn [random fst snd].
  match goal with
  | |- context [if decide (?a < ?b) then bind _ _ else _] => destruct (decide (a < b))
  end; [| apply Hnone].
  apply andb_prop in Hrep as [_ Hthr]. apply bool_decide_eq_true in Hthr.
  cbn in Hthr. unfold WOLF_REPRODUCE_THRESHOLD in Hthr.
  rewrite !bind_eq. cbn [wolfIdGenerator_next random modify store_wolf fst snd].
  eexists (set_wolf_energy (wolf_energy v3 - WOLF_REPRODUCTION_COST) v3), [_].
  cbn. rewrite Hv2, Hn2, Hg2, list_insert_insert_eq.
  destruct Htick3 as (Hkin3 & Hage3 & _ & _ & Hx3 & Hy3).
  split; [done |]. split; [| split; [split; [done |] | exact Hd2]].
  - repeat split; try done; try apply Hkin3.
    + cbn. unfold WOLF_REPRODUCTION_COST. lra.
    + intros Hneeds. specialize (He3' Hneeds). cbn. unfold WOLF_REPRODUCTION_COST. lra.
  - apply Forall_singleton. by repeat split.
Qed.
End WolfEffects.

Section Selected.
Context {A : Type}.

Lemma omap_lookup_nil (kept : list nat) : omap (λ i, @nil A !! i) kept = [].
Proof. induction kept as [| i kept IH]; [done |]. cbn. by rewrite IH. Qed.

Lemma omap_lookup_cons (a : A) (l : list A) (kept : list nat) :
  Forall (lt 0) kept →
  omap (λ i, (a :: l) !! i) kept = omap (λ i, l !! i) (pred <$> kept).
Proof.
  induction 1 as [| i kept Hi _ IH]; [done |].
  destruct i as [| i]; [lia |]. cbn. by rewrite IH.
Qed.

Lemma StronglySorted_pred (kept : list nat) :
  Forall (lt 0) kept → StronglySorted lt kept → StronglySorted lt (pred <$> kept).
Proof.
  intros Hpos Hs. induction Hs as [| i kept Hs IH Hall]; [constructor |].
  apply list.Forall_cons in Hpos as [Hi Hpos]. cbn. constructor; [by apply IH |].
  apply Forall_fmap. eapply list.Forall_impl; [apply Forall_and; split; [exact Hall | exact Hpos] |].
  intros j [? ?]. cbn. lia.
Qed.

(** The elements at increasing indices form a sublist. *)
Lemma selected_sublist (l : list A) (kept : list nat) :
  StronglySorted lt kept → sublist (selected l kept) l.
Proof.
  unfold selected. revert kept. induction l as [| a l IH]; intros kept Hs.
  - rewrite omap_lookup_nil. constructor.
  - destruct Hs as [| i kept Hs Hall]; [apply sublist_nil_l |].
    assert (Hpos : Forall (lt 0) kept).
    { eapply list.Forall_impl; [exact Hall |]. intros j Hj. cbv beta in Hj |- *. lia. }
    destruct i as [| i].
    + cbn. rewrite omap_lookup_cons by done.
      apply sublist_skip, IH. by apply StronglySorted_pred.
    + rewrite (omap_lookup_cons a l (S i :: kept)) by (constructor; [lia | done]).
      apply sublist_cons, IH.
      apply StronglySorted_pred; constructor; [lia | done | done | done].
Qed.
End Selected.

Lemma keptIndices_cons (index count : nat) (rest : list nat) (keep : bool) :
  keptIndices (S index) count rest →
  keptIndices index (S count) (if keep then index :: rest else rest).
Proof.
  intros (Hs & Hall & Hlen). destruct keep.
  - split; [| split].
    + constructor; [done |]. eapply list.Forall_impl; [exact Hall |]. intros j Hj. cbv beta in Hj |- *. lia.
    + constructor; [lia |]. eapply list.Forall_impl; [exact Hall |]. intros j Hj. cbv beta in Hj |- *. lia.
    + cbn. lia.
  - split; [done |]. split; [| lia].
    eapply list.Forall_impl; [exact Hall |]. intros j Hj. cbv beta in Hj |- *. lia.
Qed.

Section DeerPassEffects.
Variable h : loc → Tree.
Variable I : nat → list Deer → list Deer → nat → list loc → Prop.
Hypothesis I_step : ∀ k ds ns g ts index d d' babies ts',
  I k ds ns g ts → ds !! index = Some d →
  deerTick d d' → length babies ≤ 1 → Forall (deerOffspring g d) babies →
  grazed d' h ts ts' →
  I (S k) (<[index := d']> ds) (ns ++ babies) (length babies + g) ts'.
Hypothesis I_skip : ∀ k ds ns g ts, I k ds ns g ts → I (S k) ds ns g ts.

Let Iw (k : nat) (w : World) : Prop :=
  I k (deer w) (newDeer w) (deerIdGenerator w) (trees w) ∧ heap w = h.

Lemma deerCallback_Iw immortalDeer d index k w :
  Iw k w → deer w !! index = Some d →
  Iw (S k) (exec (deerCallback immortalDeer d index) w).
Proof.
  intros [Hw Hh] Hd.
  destruct (deerCallback_effect immortalDeer d index w)
    as (d' & babies & (Hds & Hns & Hg & Hheap) & Htick & (Hlen & Hbabies) & Hts).
  cbv zeta in *. unfold Iw. rewrite Hds, Hns, Hg, Hheap. split; [| done].
  rewrite Hh in Hts.
  by apply (I_step k (deer w) (newDeer w) (deerIdGenerator w) (trees w) index d d' babies).
Qed.

Lemma filterInPlace_deer_Iw immortalDeer count : ∀ index k w,
  Iw k w →
  let r := filterInPlace deer (deerCallback immortalDeer) index count w in
  Iw (count + k) r.2 ∧ keptIndices index count r.1.
Proof.
  induction count as [| count IH]; intros index k w Hw; cbn [filterInPlace].
  - split; [exact Hw |]. split; [constructor |]. split; [constructor | done].
  - cbv zeta. rewrite bind_eq. cbn [get fst snd].
    destruct (deer w !! index) as [d |] eqn:Hd.
    + rewrite !bind_eq. cbn [ret fst snd].
      pose proof (deerCallback_Iw immortalDeer d index k w Hw Hd) as Hw1.
      unfold exec in Hw1.
      destruct (IH (S index) (S k) _ Hw1) as [Hw2 Hkept]. cbv zeta in Hw2, Hkept.
      split; [by replace (S count + k) with (count + S k) by lia |].
      by apply keptIndices_cons.
    + assert (Hw1 : Iw (S k) w).
      { destruct Hw as [Hw Hh]. split; [by apply I_skip | done]. }
      destruct (IH (S index) (S k) w Hw1) as [Hw2 Hkept].
      cbv zeta in Hw2, Hkept.
      split; [by replace (S count + k) with (count + S k) by lia |].
      by apply (keptIndices_cons index count _ false).
Qed.

(** The deer pass: the deer it leaves are the deer its filter kept, a
    sublist of the array after the last callback, followed by the
    offspring. *)
Lemma deerPass_effects immortalDeer w :
  I 0 (deer w) [] (deerIdGenerator w) (trees w) → heap w = h →
  let w' := exec (deerPass immortalDeer) w in
  ∃ ds survivors,
    I (length (deer w)) ds (newDeer w') (deerIdGenerator w') (trees w')
    ∧ heap w' = h
    ∧ sublist survivors ds
    ∧ deer w' = survivors ++ newDeer w'.
Proof.
  intros Hw Hh. cbv zeta. unfold exec, deerPass. rewrite !bind_eq.
  cbn [modify get fst snd].
  change (deer (set_newDeer [] w)) with (deer w).
  destruct (filterInPlace_deer_Iw immortalDeer (length (deer w)) 0 0 (set_newDeer [] w))
    as [[Hw1 Hh1] (Hs & _ & _)]; [by split |].
  cbv zeta in Hw1, Hh1, Hs. rewrite Nat.add_0_r in Hw1.
  set (r := filterInPlace deer (deerCallback immortalDeer) 0 (length (deer w))
              (set_newDeer [] w)) in *.
  exists (deer r.2), (selected (deer r.2) r.1). cbn.
  split; [exact Hw1 |]. split; [exact Hh1 |].
  split; [by apply selected_sublist | done].
Qed.
End DeerPassEffects.

Section WolfPassEffects.
Variable I : nat → list Wolf → list Wolf → nat → list Deer → Prop.
Hypothesis I_step : ∀ k vs ns g ds index v v' babies ds',
  I k vs ns g ds → vs !! index = Some v →
  wolfTick v v' → length babies ≤ 1 → Forall (wolfOffspring g v) babies →
  hunted v' ds ds' →
  I (S k) (<[index := v']> vs) (ns ++ babies) (length babies + g) ds'.
Hypothesis I_skip : ∀ k vs ns g ds, I k vs ns g ds → I (S k) vs ns g ds.

Let Iw (k : nat) (w : World) : Prop :=
  I k (wolves w) (newWolves w) (wolfIdGenerator w) (deer w).

Lemma wolfCallback_Iw immortalWolf v index k w :
  Iw k w → wolves w !! index = Some v →
  Iw (S k) (exec (wolfCallback immortalWolf v index) w).
Proof.
  intros Hw Hv.
  destruct (wolfCallback_effect immortalWolf v index w)
    as (v' & babies & (Hvs & Hns & Hg) & Htick & (Hlen & Hbabies) & Hdeer).
  cbv zeta in *. unfold Iw. rewrite Hvs, Hns, Hg.
  by apply (I_step k (wolves w) (newWolves w) (wolfIdGenerator w) (deer w) index v v' babies).
Qed.

Lemma filterInPlace_wolf_Iw immortalWolf count : ∀ index k w,
  Iw k w →
  let r := filterInPlace wolves (wolfCallback immortalWolf) index count w in
  Iw (count + k) r.2 ∧ keptIndices index count r.1.
Proof.
  induction count as [| count IH]; intros index k w Hw; cbn [filterInPlace].
  - split; [exact Hw |]. split; [constructor |]. split; [constructor | done].
  - cbv zeta. rewrite bind_eq. cbn [get fst snd].
    destruct (wolves w !! index) as [v |] eqn:Hv.
    + rewrite !bind_eq. cbn [ret fst snd].
      pose proof (wolfCallback_Iw immortalWolf v index k w Hw Hv) as Hw1.
      unfold exec in Hw1.
      destruct (IH (S index) (S k) _ Hw1) as [Hw2 Hkept]. cbv zeta in Hw2, Hkept.
      split; [by replace (S count + k) with (count + S k) by lia |].
      by apply keptIndices_cons.
    + destruct (IH (S index) (S k) w (I_skip _ _ _ _ _ Hw)) as [Hw2 Hkept].
      cbv zeta in Hw2, Hkept.
      split; [by replace (S count + k) with (count + S k) by lia |].
      by apply (keptIndices_cons index count _ false).
Qed.

Lemma wolfPass_effects immortalWolf w :
  I 0 (wolves w) [] (wolfIdGenerator w) (deer w) →
  let w' := exec (wolfPass immortalWolf) w in
  ∃ vs survivors,
    I (length (wolves w)) vs (newWolves w') (wolfIdGenerator w') (deer w')
    ∧ sublist survivors vs
    ∧ wolves w' = survivors ++ newWolves w'.
Proof.
  intros Hw. cbv zeta. unfold exec, wolfPass. rewrite !bind_eq. cbn [modify get fst snd].
  change (wolves (set_newWolves [] w)) with (wolves w).
  destruct (filterInPlace_wolf_Iw immortalWolf (length (wolves w)) 0 0
              (set_newWolves [] w) Hw) as [Hw1 (Hs & _ & _)].
  cbv zeta in Hw1, Hs. rewrite Nat.add_0_r in Hw1.
  set (r := filterInPlace wolves (wolfCallback immortalWolf) 0 (length (wolves w))
              (set_newWolves [] w)) in *.
  exists (wolves r.2), (selected (wolves r.2) r.1). cbn.
  split; [exact Hw1 |]. split; [by apply selected_sublist | done].
Qed.
End WolfPassEffects.

Section Animals.
Local Open Scope R_scope.

Lemma herdOK_sublist ds ds' g : sublist ds' ds → herdOK ds g → herdOK ds' g.
Proof.
  intros Hsub [Hnd Hall]. split.
  - eapply sublist_NoDup; [exact Hnd | by apply fmap_sublist].
  - rewrite list.Forall_forall in *. intros d Hd. apply Hall.
    by eapply elem_of_sublist.
Qed.

Lemma packOK_sublist vs vs' g : sublist vs' vs → packOK vs g → packOK vs' g.
Proof.
  intros Hsub [Hnd Hall]. split.
  - eapply sublist_NoDup; [exact Hnd | by apply fmap_sublist].
  - rewrite list.Forall_forall in *. intros d Hd. apply Hall.
    by eapply elem_of_sublist.
Qed.

Lemma herdOK_step (k : nat) ds ns g index d d' babies :
  herdOK (ds ++ ns) g → ds !! index = Some d →
  deerTick d d' → (length babies ≤ 1)%nat → Forall (deerOffspring g d) babies →
  herdOK (<[index := d']> ds ++ ns ++ babies) (length babies + g).
Proof.
  clear k.
  intros [Hnd Hall] Hd ([Hid Hch] & _ & He0 & He1 & _) Hlen Hbabies.
  assert (Hd_ok : (deer_id d < g)%nat ∧ deerOK d).
  { rewrite list.Forall_forall in Hall. apply Hall, elem_of_app. left.
    by eapply list_elem_of_lookup_2. }
  destruct Hd_ok as [Hdg [[Hd0 Hd1] Hdn]].
  assert (Hd'_ok : deerOK d').
  { split; [| by rewrite Hch]. split; [done |].
    etransitivity; [by apply He1 |]. by apply Rmax_lub. }
  assert (Hids : deer_id <$> <[index := d']> ds = deer_id <$> ds).
  { rewrite list_fmap_insert, Hid. apply list_insert_id.
    by rewrite list_lookup_fmap, Hd. }
  split.
  - rewrite app_assoc, fmap_app, fmap_app, Hids, <- fmap_app.
    apply list.NoDup_app. split; [done |]. split.
    + intros x Hx Hb. apply list_elem_of_fmap in Hx as (a & -> & Ha).
      apply list_elem_of_fmap in Hb as (b & Hab & Hb).
      rewrite list.Forall_forall in Hall, Hbabies.
      destruct (Hall a Ha) as [Hlt _]. destruct (Hbabies b Hb) as (Hbg & _). lia.
    + destruct babies as [| b [| ? ?]]; cbn in Hlen |- *; [constructor | | lia].
      apply NoDup_singleton.
  - rewrite app_assoc. apply Forall_app. split; [apply Forall_app; split |].
    + apply Forall_insert.
      * apply Forall_app in Hall as [Hall _].
        eapply list.Forall_impl; [exact Hall |]. intros a [? ?]. split; [lia | done].
      * split; [rewrite Hid; lia | done].
    + apply Forall_app in Hall as [_ Hall].
      eapply list.Forall_impl; [exact Hall |]. intros a [? ?]. split; [lia | done].
    + destruct babies as [| b [| ? ?]]; cbn in Hlen |- *; [constructor | | lia].
      apply list.Forall_cons in Hbabies as [(Hbg & _ & Hbe & Hbc & _) _].
      apply Forall_singleton. split; [lia |]. split; [| by rewrite Hbc].
      rewrite Hbe. unfold DEER_MAX_ENERGY. lra.
Qed.

Lemma packOK_step (k : nat) vs ns g index v v' babies :
  packOK (vs ++ ns) g → vs !! index = Some v →
  wolfTick v v' → (length babies ≤ 1)%nat → Forall (wolfOffspring g v) babies →
  packOK (<[index := v']> vs ++ ns ++ babies) (length babies + g).
Proof.
  clear k.
  intros [Hnd Hall] Hd ([Hid Hch] & _ & He0 & He1 & _) Hlen Hbabies.
  assert (Hd_ok : (wolf_id v < g)%nat ∧ wolfOK v).
  { rewrite list.Forall_forall in Hall. apply Hall, elem_of_app. left.
    by eapply list_elem_of_lookup_2. }
  destruct Hd_ok as [Hdg [[Hd0 Hd1] Hdn]].
  assert (Hd'_ok : wolfOK v').
  { split; [| by rewrite Hch]. split; [done |].
    etransitivity; [by apply He1 |]. by apply Rmax_lub. }
  assert (Hids : wolf_id <$> <[index := v']> vs = wolf_id <$> vs).
  { rewrite list_fmap_insert, Hid. apply list_insert_id.
    by rewrite list_lookup_fmap, Hd. }
  split.
  - rewrite app_assoc, fmap_app, fmap_app, Hids, <- fmap_app.
    apply list.NoDup_app. split; [done |]. split.
    + intros x Hx Hb. apply list_elem_of_fmap in Hx as (a & -> & Ha).
      apply list_elem_of_fmap in Hb as (b & Hab & Hb).
      rewrite list.Forall_forall in Hall, Hbabies.
      destruct (Hall a Ha) as [Hlt _]. destruct (Hbabies b Hb) as (Hbg & _). lia.
    + destruct babies as [| b [| ? ?]]; cbn in Hlen |- *; [constructor | | lia].
      apply NoDup_singleton.
  - rewrite app_assoc. apply Forall_app. split; [apply Forall_app; split |].
    + apply Forall_insert.
      * apply Forall_app in Hall as [Hall _].
        eapply list.Forall_impl; [exact Hall |]. intros a [? ?]. split; [lia | done].
      * split; [rewrite Hid; lia | done].
    + apply Forall_app in Hall as [_ Hall].
      eapply list.Forall_impl; [exact Hall |]. intros a [? ?]. split; [lia | done].
    + destruct babies as [| b [| ? ?]]; cbn in Hlen |- *; [constructor | | lia].
      apply list.Forall_cons in Hbabies as [(Hbg & _ & Hbe & Hbc) _].
      apply Forall_singleton. split; [lia |]. split; [| by rewrite Hbc].
      rewrite Hbe. unfold WOLF_MAX_ENERGY. lra.
Qed.

Lemma treePass_animalsOK pre : preserves animalsOK (treePass pre).
Proof. apply treePass_preserves; by intros. Qed.

Lemma deerPass_animalsOK immortalDeer : preserves animalsOK (deerPass immortalDeer).
Proof.
  intros w [Hherd Hpack]. split.
  - destruct (deerPass_effects (heap w) (λ _ ds ns g _, herdOK (ds ++ ns) g))
      with (immortalDeer := immortalDeer) (w := w)
      as (ds & survivors & Hok & _ & Hsub & Hdeer).
    + intros k ds ns g ts index d d' babies ts' H1 H2 H3 H4 H5 _.
      by apply (herdOK_step k _ _ _ _ d).
    + done.
    + by rewrite app_nil_r.
    + done.
    + cbv zeta in Hdeer. unfold exec in *. rewrite Hdeer.
      eapply herdOK_sublist; [| exact Hok]. by apply sublist_app.
  - assert (Hframe : wolves ((deerPass immortalDeer w).2) = wolves w
                     ∧ wolfIdGenerator ((deerPass immortalDeer w).2) = wolfIdGenerator w).
    { apply (deerPass_preserves
               (λ w1, wolves w1 = wolves w ∧ wolfIdGenerator w1 = wolfIdGenerator w));
        try by intros.
      intros i tree w1 Hw1 _.
      destruct (eaten_fields i tree w1) as (_ & _ & -> & _ & _ & _ & _ & _ & -> & _).
      done. }
    destruct Hframe as [-> ->]. done.
Qed.

Lemma wolfPass_animalsOK immortalWolf : preserves animalsOK (wolfPass immortalWolf).
Proof.
  intros w [Hherd Hpack]. split.
  - apply (wolfPass_preserves (λ w1, herdOK (deer w1) (deerIdGenerator w1)));
      try (by intros).
    intros i w1 Hw1 _ _. cbn. eapply herdOK_sublist; [apply sublist_delete | done].
  - destruct (wolfPass_effects (λ _ vs ns g _, packOK (vs ++ ns) g))
      with (immortalWolf := immortalWolf) (w := w)
      as (vs & survivors & Hok & Hsub & Hwolves).
    + intros k vs ns g ds index v v' babies ds' H1 H2 H3 H4 H5 _.
      by apply (packOK_step k _ _ _ _ v).
    + done.
    + by rewrite app_nil_r.
    + cbv zeta in Hwolves. unfold exec in *. rewrite Hwolves.
      eapply packOK_sublist; [| exact Hok]. by apply sublist_app.
Qed.

Lemma updateEcosystem_animalsOK pre immortalDeer immortalWolf :
  preserves animalsOK (updateEcosystem pre immortalDeer immortalWolf).
Proof.
  unfold updateEcosystem.
  apply preserves_bind; [apply treePass_animalsOK |]. intros ?.
  apply preserves_bind; [apply deerPass_animalsOK |]. intros ?.
  apply wolfPass_animalsOK.
Qed.

Let initOK (w : World) : Prop := (∀ n, 0 <= rng w n < 1) ∧ animalsOK w.

Lemma initTree_animalsOK : preserves initOK initTree.
Proof. by intros w Hw. Qed.

Lemma initDeer_animalsOK : preserves initOK initDeer.
Proof.
  intros w [Hrng [[Hnd Hall] Hpack]]. unfold initDeer.
  rewrite !bind_eq. cbn [deerIdGenerator_next random fst snd].
  match goal with |- context [(randomDeerCharacteristics ?w1).1] =>
    pose proof (randomDeerCharacteristics_in_bounds w1 Hrng) as Hc;
    unfold eval in Hc; set (c := (randomDeerCharacteristics w1).1) in * end.
  destruct Hc as (_ & _ & _ & _ & _ & _ & [Hneeds _]). cbn in Hneeds.
  split; [exact Hrng |]. split; [| exact Hpack]. cbn. split.
  - rewrite fmap_app. apply list.NoDup_app. split; [done |]. split; [| apply NoDup_singleton].
    intros x Hx Hb. apply list_elem_of_fmap in Hx as (a & -> & Ha).
    apply list_elem_of_singleton in Hb. cbn in Hb.
    rewrite list.Forall_forall in Hall. destruct (Hall a Ha). lia.
  - apply Forall_app. split.
    + eapply list.Forall_impl; [exact Hall |]. intros a [? ?]. split; [lia | done].
    + apply Forall_singleton. unfold deerOK, DEER_MAX_ENERGY. cbn.
      split; [lia |]. split; lra.
Qed.

Lemma initWolf_animalsOK : preserves initOK initWolf.
Proof.
  intros w [Hrng [Hherd [Hnd Hall]]]. unfold initWolf.
  rewrite !bind_eq. cbn [wolfIdGenerator_next random fst snd].
  match goal with |- context [(randomWolfCharacteristics ?w1).1] =>
    pose proof (randomWolfCharacteristics_in_bounds w1 Hrng) as Hc;
    unfold eval in Hc; set (c := (randomWolfCharacteristics w1).1) in * end.
  destruct Hc as (_ & _ & _ & _ & _ & [Hneeds _]). cbn in Hneeds.
  split; [exact Hrng |]. split; [exact Hherd |]. cbn. split.
  - rewrite fmap_app. apply list.NoDup_app. split; [done |]. split; [| apply NoDup_singleton].
    intros x Hx Hb. apply list_elem_of_fmap in Hx as (a & -> & Ha).
    apply list_elem_of_singleton in Hb. cbn in Hb.
    rewrite list.Forall_forall in Hall. destruct (Hall a Ha). lia.
  - apply Forall_app. split.
    + eapply list.Forall_impl; [exact Hall |]. intros a [? ?]. split; [lia | done].
    + apply Forall_singleton. unfold wolfOK, WOLF_MAX_ENERGY. cbn.
      split; [lia |]. split; lra.
Qed.

Lemma initializeEcosystem_animalsOK w0 :
  (∀ n, 0 <= rng w0 n < 1) → animalsOK (exec initializeEcosystem w0).
Proof.
  intros Hrng. unfold exec, initializeEcosystem. rewrite !bind_eq. cbn [modify fst snd].
  set (w1 := set_terrain _ _).
  assert (H1 : initOK w1).
  { split; [exact Hrng |]. split; split; cbn; constructor. }
  apply (preserves_repeatM initOK DEFAULT_WOLF_COUNT initWolf initWolf_animalsOK).
  apply (preserves_repeatM initOK DEFAULT_DEER_COUNT initDeer initDeer_animalsOK).
  apply (preserves_repeatM initOK DEFAULT_TREE_COUNT initTree initTree_animalsOK).
  exact H1.
Qed.

Lemma reachable_animalsOK w : reachable w → animalsOK w.
Proof.
  induction 1 as [w0 Hr | w pre iD iW _ IH].
  - by apply initializeEcosystem_animalsOK.
  - by apply updateEcosystem_animalsOK.
Qed.

Lemma tree_ids_NoDup w : Inv w → NoDup ((λ tree, tree_id (heap w tree)) <$> trees w).
Proof.
  intros [Hnd Hids _ _ _]. rewrite app_nil_r in *.
  apply NoDup_fmap_2_strong; [| done].
  intros r1 r2 H1 H2. by apply Hids.
Qed.

(** X16.  In every state of a run, an initialization followed by any
    number of updates, the trees, the deer and the wolves each have
    pairwise distinct ids, and every id is below the next id of the
    generator of its species. *)
Theorem ids_are_unique (w : World) :
  reachable w →
  (NoDup ((λ tree, tree_id (heap w tree)) <$> trees w)
   ∧ Forall (λ tree, (tree_id (heap w tree) < treeIdGenerator w)%nat) (trees w))
  ∧ (NoDup (deer_id <$> deer w)
     ∧ Forall (λ d, (deer_id d < deerIdGenerator w)%nat) (deer w))
  ∧ (NoDup (wolf_id <$> wolves w)
     ∧ Forall (λ v, (wolf_id v < wolfIdGenerator w)%nat) (wolves w)).
Proof.
  intros Hr. pose proof (reachable_Inv w Hr) as Hinv.
  destruct (reachable_animalsOK w Hr) as [[Hd Hdall] [Hv Hvall]].
  split; [split; [by apply tree_ids_NoDup |] |].
  - rewrite list.Forall_forall. intros r Hin.
    destruct Hinv as [_ _ Hfresh _ _]. apply Hfresh. rewrite app_nil_r. done.
  - split; (split; [done |]).
    + eapply list.Forall_impl; [exact Hdall |]. by intros d [? _].
    + eapply list.Forall_impl; [exact Hvall |]. by intros d [? _].
Qed.

(** X17.  In every state of a run the energy of each deer is between 0
    and [DEER_MAX_ENERGY], and the energy of each wolf between 0 and
    [WOLF_MAX_ENERGY]. *)
Theorem energy_stays_in_range (w : World) :
  reachable w →
  Forall (λ d, 0 <= deer_energy d <= DEER_MAX_ENERGY) (deer w)
  ∧ Forall (λ v, 0 <= wolf_energy v <= WOLF_MAX_ENERGY) (wolves w).
Proof.
  intros Hr. destruct (reachable_animalsOK w Hr) as [[_ Hdall] [_ Hvall]]. split.
  - eapply list.Forall_impl; [exact Hdall |]. by intros d [_ [? _]].
  - eapply list.Forall_impl; [exact Hvall |]. by intros d [_ [? _]].
Qed.

End Animals.

Section Predation.
Local Open Scope R_scope.

Lemma canEat_lost (d : Deer) (t : Tree) : lost d = true → canEat d t = false.
Proof.
  unfold lost, canEat, distanceBetween. intros Hlost.
  destruct (deer_x d), (deer_y d); done.
Qed.

Lemma canKill_lost (v : Wolf) (d : Deer) : lost d = true → canKill v d = false.
Proof.
  unfold lost, canKill, distanceBetween. intros Hlost.
  destruct (deer_x d), (deer_y d); try done; by destruct (wolf_x v).
Qed.

Lemma lost_tick (d d' : Deer) : deerTick d d' → lost d = true → lost d' = true.
Proof.
  intros (_ & _ & _ & _ & Hx & Hy). unfold lost. intros Hlost.
  apply orb_prop in Hlost as [H | H].
  - destruct (deer_x d); try done. by rewrite Hx.
  - destruct (deer_y d); try done. rewrite Hy by done. apply orb_true_r.
Qed.

Lemma filter_delete_other {A} (P : A → Prop) `{∀ x, Decision (P x)}
    (l : list A) (j : nat) (x : A) :
  l !! j = Some x → ¬ P x → filter P (delete j l) = filter P l.
Proof.
  revert j. induction l as [| a l IH]; intros [| j] Hj Hx; try done.
  - cbn in Hj. injection Hj as ->. by rewrite filter_cons_False.
  - cbn in Hj. change (delete (S j) (a :: l)) with (a :: delete j l).
    rewrite !filter_cons. by rewrite (IH j).
Qed.

Lemma grazed_sublist d' h ts ts' : grazed d' h ts ts' → sublist ts' ts ∧ (length ts ≤ S (length ts'))%nat.
Proof.
  intros [-> | (j & tree & Hj & _ & ->)]; [split; [done | lia] |].
  split; [apply sublist_delete |].
  rewrite length_delete by done. lia.
Qed.

Lemma hunted_sublist v' ds ds' : hunted v' ds ds' → sublist ds' ds ∧ (length ds ≤ S (length ds'))%nat.
Proof.
  intros [-> | (j & d & Hj & _ & _ & ->)]; [split; [done | lia] |].
  split; [apply sublist_delete |].
  rewrite length_delete by done. lia.
Qed.

(** X18.  The deer pass only removes trees: the trees it leaves are
    trees of before in their order, it removes at most as many trees as
    there were deer when it started, and it changes no tree object. *)
Theorem deer_eat_at_most_one_tree_each (immortalDeer : bool) (w : World) :
  let w' := exec (deerPass immortalDeer) w in
  sublist (trees w') (trees w)
  ∧ (length (trees w) ≤ length (trees w') + length (deer w))%nat
  ∧ heap w' = heap w.
Proof.
  cbv zeta.
  destruct (deerPass_effects (heap w)
              (λ k _ _ _ ts, sublist ts (trees w)
                             ∧ (length (trees w) ≤ length ts + k)%nat))
    with (immortalDeer := immortalDeer) (w := w)
    as (ds & survivors & [Hsub Hlen] & Hh & _).
  - intros k ds ns g ts index d d' babies ts' [Hs Hl] _ _ _ _ Hg.
    apply grazed_sublist in Hg as [Hs' Hl']. split; [by etransitivity | lia].
  - intros k ds ns g ts [Hs Hl]. split; [done | lia].
  - split; [done | lia].
  - done.
  - cbv zeta in *. split; [done |]. split; [lia | done].
Qed.

(** X19.  The wolf pass only removes deer: the deer it leaves are deer
    of before, unchanged and in their order, it removes at most as many
    deer as there were wolves when it started, and it removes no deer that
    has a NaN coordinate. *)
Theorem wolves_kill_at_most_one_deer_each (immortalWolf : bool) (w : World) :
  let w' := exec (wolfPass immortalWolf) w in
  sublist (deer w') (deer w)
  ∧ (length (deer w) ≤ length (deer w') + length (wolves w))%nat
  ∧ filter lost (deer w') = filter lost (deer w).
Proof.
  cbv zeta.
  destruct (wolfPass_effects
              (λ k _ _ _ ds, sublist ds (deer w)
                             ∧ (length (deer w) ≤ length ds + k)%nat
                             ∧ filter lost ds = filter lost (deer w)))
    with (immortalWolf := immortalWolf) (w := w)
    as (vs & survivors & (Hsub & Hlen & Hlost) & _).
  - intros k vs ns g ds index v v' babies ds' (Hs & Hl & Hf) _ _ _ _ Hh.
    pose proof (hunted_sublist _ _ _ Hh) as [Hs' Hl'].
    split; [by etransitivity |]. split; [lia |].
    destruct Hh as [-> | (j & d & Hj & Hcan & _ & ->)]; [done |].
    rewrite <- Hf. apply (filter_delete_other _ ds j d Hj).
    intros Hd. apply Is_true_true in Hd. by rewrite canKill_lost in Hcan.
  - intros k vs ns g ds (Hs & Hl & Hf). split; [done |]. split; [lia | done].
  - split; [done |]. split; [lia | done].
  - cbv zeta in *. done.
Qed.

(** X20.  A deer one of whose coordinates is NaN eats nothing in its
    callback: the trees stay as they are, the deer written back still has
    a NaN coordinate, and so has an offspring made by the call. *)
Theorem lost_deer_never_eats (immortalDeer : bool) (d : Deer) (index : nat) (w : World) :
  lost d = true →
  let w' := exec (deerCallback immortalDeer d index) w in
  trees w' = trees w
  ∧ ∃ d', deer w' = <[index := d']> (deer w) ∧ lost d' = true
          ∧ Forall (λ b, lost b = true) (drop (length (newDeer w)) (newDeer w')).
Proof.
  intros Hlost. cbv zeta.
  destruct (deerCallback_effect immortalDeer d index w)
    as (d' & babies & (Hds & Hns & _ & _) & Htick & (_ & Hbabies) & Hts).
  cbv zeta in *. pose proof (lost_tick d d' Htick Hlost) as Hlost'. split.
  - destruct Hts as [-> | (j & tree & _ & Hcan & _)]; [done |].
    by rewrite canEat_lost in Hcan.
  - exists d'. split; [done |]. split; [done |].
    rewrite Hns, drop_app_length.
    eapply list.Forall_impl; [exact Hbabies |].
    intros b (_ & _ & _ & _ & Hx & Hy). cbv beta. unfold lost in *.
    apply orb_prop in Hlost as [H | H].
    + destruct (deer_x d); try done. by rewrite Hx.
    + destruct (deer_y d); try done. rewrite Hy by done. apply orb_true_r.
Qed.

End Predation.

Section TreeEffects.
Local Open Scope R_scope.

Lemma treeStored_refl (tree : loc) (w : World) : treeStored tree (heap w tree) w w.
Proof.
  split; [| done]. intros r. destruct (decide (r = tree)) as [-> | Hne].
  - by rewrite fn_lookup_insert.
  - by rewrite fn_lookup_insert_ne.
Qed.

Lemma treeStored_cursor tree t' n w w' :
  treeStored tree t' w w' → treeStored tree t' w (set_cursor n w').
Proof. done. Qed.

Lemma treeStored_deleteFromGrid tree t' t w w' :
  treeStored tree t' w w' → treeStored tree t' w (exec (deleteFromGrid t) w').
Proof.
  intros (Hh & Ht & Hn & Hl & Hg).
  destruct (deleteFromGrid_frame t w')
    as (Ht' & _ & _ & Hh' & _ & Hl' & Hg' & _ & _ & _ & _ & Hn' & _).
  cbv zeta in *. split; [intros r; by rewrite Hh' |].
  by rewrite Ht', Hn', Hl', Hg'.
Qed.

Lemma treeStored_trans tree t1 t2 w w1 w2 :
  treeStored tree t1 w w1 → treeStored tree t2 w1 w2 → treeStored tree t2 w w2.
Proof.
  intros (Hh1 & Ht1 & Hn1 & Hl1 & Hg1) (Hh2 & Ht2 & Hn2 & Hl2 & Hg2).
  split; [| by rewrite Ht2, Hn2, Hl2, Hg2].
  intros r. rewrite Hh2. destruct (decide (r = tree)) as [-> | Hne].
  - by rewrite !fn_lookup_insert.
  - rewrite !fn_lookup_insert_ne by done. rewrite Hh1.
    by rewrite fn_lookup_insert_ne.
Qed.

Lemma treeSpawned_trans tree t1 t2 c w w1 w2 :
  treeStored tree t1 w w1 → treeSpawned tree t2 c w1 w2 → treeSpawned tree t2 c w w2.
Proof.
  intros (Hh1 & Ht1 & Hn1 & Hl1 & Hg1) (Hh2 & Ht2 & Hn2 & Hl2 & Hg2).
  split; [| by rewrite Ht2, Hn2, Hl2, Hg2, Ht1, Hn1, Hl1, Hg1].
  intros r. rewrite Hh2, Hl1. destruct (decide (r = nextLoc w)) as [-> | Hnew].
  - by rewrite !fn_lookup_insert.
  - rewrite !(fn_lookup_insert_ne _ (nextLoc w)) by done.
    destruct (decide (r = tree)) as [-> | Hne].
    + by rewrite !fn_lookup_insert.
    + rewrite !fn_lookup_insert_ne by done. rewrite Hh1.
      by rewrite fn_lookup_insert_ne.
Qed.

(** The growth block stores a size between the old size and [MaxSize]. *)
Lemma treeGrow_run pre tree index w :
  tree_size (heap w tree) < tree_MaxSize (tree_characteristics (heap w tree)) →
  ∃ (s : R) (dead : bool) (w' : World),
    treeGrow pre tree index w = (dead, w')
    ∧ tree_size (heap w tree) <= s <= tree_MaxSize (tree_characteristics (heap w tree))
    ∧ treeStored tree (set_tree_size s (heap w tree)) w w'.
Proof.
  intros Hlt. unfold treeGrow, update_tree. rewrite !bind_eq.
  cbn [read_tree get modify fst snd]. cbv zeta.
  set (t := heap w tree) in *.
  set (crowd := match pre with Some p => p !! index | None => _ end).
  set (s := Rmin _ _).
  assert (Hs : tree_size t <= s <= tree_MaxSize (tree_characteristics t)).
  { unfold s. split; [| apply Rmin_l].
    apply Rmin_glb; [lra |]. pose proof (Rmax_l 0 (treeGrowth t (getMoistureFitness t w) crowd)).
    lra. }
  clearbody s.
  set (w2 := set_heap _ w).
  assert (H2 : treeStored tree (set_tree_size s t) w w2) by done.
  exists s.
  destruct crowd as [c |]; [| by exists false, w2].
  destruct (decide (c > 0)); [| by exists false, w2].
  rewrite bind_eq. cbn [random fst snd].
  destruct (decide (_ < _)); [| eexists false, _; split; [reflexivity |]; by split].
  rewrite !bind_eq. cbn [read_tree ret fst snd].
  eexists true, _. split; [reflexivity |]. split; [done |].
  apply treeStored_deleteFromGrid. by apply treeStored_cursor.
Qed.

(** Natural death and reproduction leave the tree object as it is, and
    make at most one offspring, inside the unit square. *)
Lemma treeSurvive_run tree w :
  let w' := exec (treeSurvive tree) w in
  treeStored tree (heap w tree) w w'
  ∨ ∃ c, treeOffspring (treeIdGenerator w) (heap w tree) c
         ∧ treeSpawned tree (heap w tree) c w w'.
Proof.
  cbv zeta. unfold exec, treeSurvive. rewrite !bind_eq.
  cbn [read_tree random fst snd].
  pose proof (treeStored_refl tree w) as H0.
  destruct (decide (_ < _)).
  { left. rewrite !bind_eq. cbn [ret fst snd].
    apply treeStored_deleteFromGrid. by apply treeStored_cursor. }
  rewrite !bind_eq. cbn [ret fst snd].
  unfold treeReproduce. rewrite bind_eq. cbn [read_tree fst snd].
  set (t := heap w tree) in *.
  destruct (decide (_ > _)); [| by left].
  rewrite !bind_eq. cbn [get random fst snd]. cbv zeta.
  destruct (decide (_ < _)); [| by left].
  rewrite bind_eq, newLocation_run. cbv zeta. cbn [fst snd].
  repeat case_bool_decide; cbn [orb]; try by left.
  right. rewrite !bind_eq. cbn [treeIdGenerator_next new_tree modify fst snd].
  match goal with |- context [<[_ := ?c]> _] => exists c end.
  split; [repeat split; try done; cbn in *; lra |]. split; [| done].
  intros r'. cbn [heap set_heap set_newTrees set_nextLoc set_treeIdGenerator set_cursor
                  nextLoc].
  destruct (decide (r' = nextLoc w)) as [-> | Hnew]; [by rewrite !fn_lookup_insert |].
  rewrite !(fn_lookup_insert_ne _ (nextLoc w)) by done.
  destruct (decide (r' = tree)) as [-> | Hne]; [by rewrite fn_lookup_insert |].
  by rewrite fn_lookup_insert_ne.
Qed.

(** What one call of the tree callback does to the tree objects, to the
    offspring collected so far and to the generator of tree ids. *)
Lemma treeCallback_effect pre tree index w :
  let w' := exec (treeCallback pre tree index) w in
  ∃ t', treeTick (heap w tree) t'
        ∧ (treeStored tree t' w w'
           ∨ ∃ c, treeOffspring (treeIdGenerator w) t' c ∧ treeSpawned tree t' c w w').
Proof.
  cbv zeta. unfold exec, treeCallback, update_tree. rewrite bind_eq.
  cbn [modify fst snd].
  set (t0 := heap w tree).
  set (t1 := set_tree_age (tree_age t0 + 1) t0).
  set (w1 := set_heap (<[tree := t1]> (heap w)) w).
  assert (H1 : treeStored tree t1 w w1) by done.
  assert (Ht1 : heap w1 tree = t1) by apply fn_lookup_insert.
  unfold treeAfterAging. rewrite bind_eq. cbn [read_tree fst snd]. rewrite Ht1.
  assert (Hgrow : ∃ (s : R) (dead : bool) (w2 : World),
    (if decide (tree_size t1 < tree_MaxSize (tree_characteristics t1))
     then treeGrow pre tree index else ret false) w1 = (dead, w2)
    ∧ tree_size t0 <= s <= Rmax (tree_size t0) (tree_MaxSize (tree_characteristics t0))
    ∧ treeStored tree (set_tree_size s t1) w w2).
  { destruct (decide (_ < _)) as [Hlt | Hge].
    - destruct (treeGrow_run pre tree index w1) as (s & dead & w2 & Hrun & Hs & H2).
      { by rewrite Ht1. }
      rewrite Ht1 in Hs, H2. exists s, dead, w2. split; [done |]. split.
      + cbn in Hs. split; [lra |]. etransitivity; [apply Hs | apply Rmax_r].
      + by eapply treeStored_trans.
    - exists (tree_size t0), false, w1. split; [done |].
      split; [split; [lra | apply Rmax_l] |]. done. }
  destruct Hgrow as (s & dead & w2 & Hrun & Hs & H2).
  erewrite bind_run by exact Hrun.
  set (t2 := set_tree_size s t1) in *.
  assert (Htick : treeTick t0 t2) by (repeat split; try done; apply Hs).
  exists t2. split; [done |].
  destruct dead; [by left |].
  assert (Ht2 : heap w2 tree = t2).
  { destruct H2 as [Hh _]. by rewrite Hh, fn_lookup_insert. }
  pose proof (treeSurvive_run tree w2) as Hsurv. cbv zeta in Hsurv.
  unfold exec in Hsurv. rewrite Ht2 in Hsurv.
  destruct H2 as (Hh2 & Htr2 & Hn2 & Hl2 & Hg2).
  destruct Hsurv as [H3 | (c & Hc & H3)].
  - left. eapply treeStored_trans; [| exact H3]. by repeat split.
  - right. exists c. rewrite <- Hg2. split; [done |].
    eapply treeSpawned_trans; [| exact H3]. by repeat split.
Qed.
End TreeEffects.

Section FilterSteps.
Context {A : Type}.

Lemma filterM_steps (P : nat → World → Prop) (callback : A → nat → M bool)
    (l : list A) :
  (∀ a i k w, a ∈ l → P k w → P (S k) (exec (callback a i) w)) →
  ∀ index k w, P k w → P (length l + k)%nat (exec (filterM callback l index) w).
Proof.
  induction l as [| a l IH]; intros Hcb index k w Hw; cbn [filterM]; [done |].
  unfold exec. rewrite !bind_eq. cbn [ret fst snd length].
  replace (S (length l) + k)%nat with (length l + S k)%nat by lia.
  apply IH.
  - intros a' i k' w' Ha'. apply Hcb. by right.
  - apply Hcb; [by left | done].
Qed.
End FilterSteps.

Section TreePassEffects.
Local Open Scope R_scope.
Variable w0 : World.

Let P (k : nat) (w : World) : Prop :=
  trees w = trees w0 ∧ (length (newTrees w) ≤ k)%nat
  ∧ (nextLoc w0 ≤ nextLoc w)%nat
  ∧ (∀ r, (r < nextLoc w0)%nat → treeGrew (heap w0 r) (heap w r))
  ∧ (forestOK (trees w0) w0 → forestOK (trees w0 ++ newTrees w) w).

Lemma treeGrew_tick (t0 t t' : Tree) : treeGrew t0 t → treeTick t t' → treeGrew t0 t'.
Proof.
  intros [(Hi & Hx & Hy & Hc) Hs] [(Hi' & Hx' & Hy' & Hc') (_ & Hs' & _)].
  split; [| lra]. repeat split; congruence.
Qed.

Lemma treeOK_tick (t t' : Tree) : treeOK t → treeTick t t' → treeOK t'.
Proof.
  intros (Hs & Hx & Hy) [(Hi' & Hx' & Hy' & Hc') (_ & Hs' & Hs'')].
  split; [| by rewrite Hx', Hy']. rewrite Hc'. split; [lra |].
  etransitivity; [exact Hs'' |]. apply Rmax_lub; lra.
Qed.

Lemma treeCallback_P pre tree index k w :
  tree ∈ trees w0 → P k w → P (S k) (exec (treeCallback pre tree index) w).
Proof.
  intros Hin (Htrees & Hlen & Hnext & Hgrew & Hok).
  destruct (treeCallback_effect pre tree index w)
    as (t' & Htick & [(Hh & Ht & Hn & Hl & Hg) | (c & Hc & Hh & Ht & Hn & Hl & Hg)]);
    cbv zeta in *.
  - split; [congruence |]. split; [rewrite Hn; lia |]. split; [lia |]. split.
    + intros r Hr. rewrite Hh. destruct (decide (r = tree)) as [-> | Hne].
      * rewrite fn_lookup_insert. eapply treeGrew_tick; [by apply Hgrew | done].
      * rewrite fn_lookup_insert_ne by done. by apply Hgrew.
    + intros H0. specialize (Hok H0). unfold forestOK in *. rewrite Hn, Hl.
      rewrite list.Forall_forall in Hok |- *. intros r Hr.
      destruct (Hok r Hr) as [Hlt Hr_ok]. split; [done |]. rewrite Hh.
      destruct (decide (r = tree)) as [-> | Hne].
      * rewrite fn_lookup_insert. by eapply treeOK_tick.
      * by rewrite fn_lookup_insert_ne.
  - split; [congruence |]. split; [rewrite Hn, length_app; cbn; lia |].
    split; [lia |]. split.
    + intros r Hr. rewrite Hh. rewrite fn_lookup_insert_ne by lia.
      destruct (decide (r = tree)) as [-> | Hne].
      * rewrite fn_lookup_insert. eapply treeGrew_tick; [by apply Hgrew | done].
      * rewrite fn_lookup_insert_ne by done. by apply Hgrew.
    + intros H0. specialize (Hok H0). unfold forestOK in *. rewrite Hn, Hl.
      rewrite list.Forall_forall in Hok.
      assert (Ht'_ok : treeOK t').
      { eapply treeOK_tick; [| exact Htick]. apply Hok, elem_of_app. by left. }
      rewrite app_assoc. apply Forall_app. split.
      * rewrite list.Forall_forall. intros r Hr.
        destruct (Hok r Hr) as [Hlt Hr_ok]. split; [lia |]. rewrite Hh.
        rewrite fn_lookup_insert_ne by lia.
        destruct (decide (r = tree)) as [-> | Hne].
        -- by rewrite fn_lookup_insert.
        -- by rewrite fn_lookup_insert_ne.
      * apply Forall_singleton. split; [lia |]. rewrite Hh, fn_lookup_insert.
        destruct Hc as (_ & _ & Hsize & Hchars & Hx & Hy).
        destruct Ht'_ok as ([? ?] & _ & _).
        split; [| done]. rewrite Hsize, Hchars. lra.
Qed.

Lemma forestOK_frame (ts : list loc) (w w' : World) :
  heap w' = heap w → nextLoc w' = nextLoc w → forestOK ts w → forestOK ts w'.
Proof. unfold forestOK. by intros -> ->. Qed.

Lemma forEach_addToGrid_fields (l : list loc) (w : World) :
  let w' := exec (forEach addToGrid l) w in
  heap w' = heap w ∧ trees w' = trees w ∧ newTrees w' = newTrees w
  ∧ nextLoc w' = nextLoc w ∧ deer w' = deer w ∧ wolves w' = wolves w.
Proof.
  cbv zeta.
  apply (preserves_forEach
           (λ w1, heap w1 = heap w ∧ trees w1 = trees w ∧ newTrees w1 = newTrees w
                  ∧ nextLoc w1 = nextLoc w ∧ deer w1 = deer w ∧ wolves w1 = wolves w));
    [| done].
  intros r _ w1 Hw1. unfold addToGrid. cbv zeta. by destruct (grid w1 !! _).
Qed.

(** The tree pass: the trees it leaves are trees of before, in their
    order, followed by the offspring, at most one for each tree; the tree
    objects of before are kept and may have grown. *)
Lemma treePass_effects pre :
  let w' := exec (treePass pre) w0 in
  ∃ kept,
    sublist kept (trees w0) ∧ trees w' = kept ++ newTrees w'
    ∧ (length (newTrees w') ≤ length (trees w0))%nat
    ∧ (nextLoc w0 ≤ nextLoc w')%nat
    ∧ (∀ r, (r < nextLoc w0)%nat → treeGrew (heap w0 r) (heap w' r))
    ∧ (forestOK (trees w0) w0 → forestOK (trees w0 ++ newTrees w') w').
Proof.
  cbv zeta. unfold exec, treePass. rewrite !bind_eq. cbn [modify get fst snd].
  change (trees (set_newTrees [] w0)) with (trees w0).
  set (r := filterM (treeCallback pre) (trees w0) 0 (set_newTrees [] w0)).
  assert (Hr : P (length (trees w0) + 0) r.2).
  { apply (filterM_steps P (treeCallback pre) (trees w0)).
    - intros a i k w Ha Hw. by apply treeCallback_P.
    - split; [done |]. split; [done |]. split; [done |]. split.
      + intros ? _. by repeat split; try lra.
      + cbn. by rewrite app_nil_r. }
  rewrite Nat.add_0_r in Hr. destruct Hr as (Htrees & Hlen & Hnext & Hgrew & Hok).
  match goal with |- context [forEach addToGrid ?l ?w] =>
    destruct (forEach_addToGrid_fields l w) as (Hh & Ht & Hn & Hl & _) end.
  cbv zeta in *. unfold exec in *. rewrite Hh, Ht, Hn, Hl. cbn.
  exists r.1. split; [apply filterM_sublist |]. split_and!; try done.
  intros H0. eapply forestOK_frame; [exact Hh | exact Hl |]. by apply Hok.
Qed.
End TreePassEffects.

Section Forest.
Local Open Scope R_scope.

Lemma forestOK_sublist (ts ts' : list loc) (w : World) :
  sublist ts' ts → forestOK ts w → forestOK ts' w.
Proof.
  unfold forestOK. intros Hsub Hall. rewrite list.Forall_forall in *.
  intros r Hr. apply Hall. by eapply elem_of_sublist.
Qed.

(** What the passes of the deer and of the wolves do to the trees: they
    remove trees, and leave the tree objects alone. *)
Lemma deerPass_trees immortalDeer w :
  let w' := exec (deerPass immortalDeer) w in
  sublist (trees w') (trees w) ∧ heap w' = heap w ∧ nextLoc w' = nextLoc w.
Proof.
  cbv zeta.
  apply (deerPass_preserves
           (λ w1, sublist (trees w1) (trees w) ∧ heap w1 = heap w
                  ∧ nextLoc w1 = nextLoc w)); try (by intros).
  intros i tree w1 (Hsub & Hh & Hn) _.
  destruct (eaten_fields i tree w1) as (-> & _ & _ & -> & _ & -> & _).
  split; [| done]. etransitivity; [apply sublist_delete | done].
Qed.

Lemma wolfPass_trees immortalWolf w :
  let w' := exec (wolfPass immortalWolf) w in
  trees w' = trees w ∧ heap w' = heap w ∧ nextLoc w' = nextLoc w.
Proof.
  cbv zeta.
  apply (wolfPass_preserves
           (λ w1, trees w1 = trees w ∧ heap w1 = heap w ∧ nextLoc w1 = nextLoc w));
    by intros.
Qed.

Lemma treePass_animals pre w :
  let w' := exec (treePass pre) w in deer w' = deer w ∧ wolves w' = wolves w.
Proof.
  cbv zeta.
  apply (treePass_preserves (λ w1, deer w1 = deer w ∧ wolves w1 = wolves w));
    by intros.
Qed.

Lemma deerPass_wolves immortalDeer w :
  wolves (exec (deerPass immortalDeer) w) = wolves w.
Proof.
  apply (deerPass_preserves (λ w1, wolves w1 = wolves w)); try (by intros).
  intros i tree w1 Hw1 _.
  by destruct (eaten_fields i tree w1) as (_ & _ & -> & _).
Qed.

Lemma wolfPass_deer immortalWolf w :
  sublist (deer (exec (wolfPass immortalWolf) w)) (deer w).
Proof.
  apply (wolfPass_preserves (λ w1, sublist (deer w1) (deer w))); try (by intros).
  intros i w1 Hw1 _ _. cbn. etransitivity; [apply sublist_delete | done].
Qed.

Lemma updateEcosystem_eq pre immortalDeer immortalWolf w :
  exec (updateEcosystem pre immortalDeer immortalWolf) w
  = exec (wolfPass immortalWolf) (exec (deerPass immortalDeer) (exec (treePass pre) w)).
Proof. unfold exec, updateEcosystem. by rewrite !bind_eq. Qed.

Lemma treePass_forestOK pre :
  preserves (λ w, forestOK (trees w) w) (treePass pre).
Proof.
  intros w Hw.
  destruct (treePass_effects w pre) as (kept & Hsub & Htrees & _ & _ & _ & Hok).
  cbv zeta in *. unfold exec in *. rewrite Htrees.
  eapply forestOK_sublist; [| by apply Hok]. by apply sublist_app.
Qed.

Lemma updateEcosystem_forestOK pre immortalDeer immortalWolf :
  preserves (λ w, forestOK (trees w) w) (updateEcosystem pre immortalDeer immortalWolf).
Proof.
  intros w Hw.
  change ((updateEcosystem pre immortalDeer immortalWolf w).2)
    with (exec (updateEcosystem pre immortalDeer immortalWolf) w).
  rewrite updateEcosystem_eq.
  pose proof (treePass_forestOK pre w Hw) as H1.
  set (w1 := exec (treePass pre) w). change ((treePass pre w).2) with w1 in H1.
  destruct (deerPass_trees immortalDeer w1) as (Hsub & Hh & Hn). cbv zeta in *.
  set (w2 := exec (deerPass immortalDeer) w1) in *.
  destruct (wolfPass_trees immortalWolf w2) as (Ht3 & Hh3 & Hn3). cbv zeta in *.
  rewrite Ht3. eapply forestOK_frame; [exact Hh3 | exact Hn3 |].
  eapply forestOK_frame; [exact Hh | exact Hn |].
  by eapply forestOK_sublist.
Qed.

Let initOK (w : World) : Prop := (∀ n, 0 <= rng w n < 1) ∧ forestOK (trees w) w.

Lemma initTree_forestOK : preserves initOK initTree.
Proof.
  intros w [Hrng Hok]. unfold initTree.
  rewrite !bind_eq. cbn [treeIdGenerator_next random new_tree modify fst snd].
  match goal with |- context [(randomTreeCharacteristics ?w1).1] =>
    pose proof (randomTreeCharacteristics_in_bounds w1 Hrng) as Hc;
    unfold eval in Hc; set (c := (randomTreeCharacteristics w1).1) in * end.
  destruct Hc as ([Hmax _] & _). cbn in Hmax.
  split; [exact Hrng |]. unfold forestOK in *. cbn.
  apply Forall_app. split.
  - rewrite list.Forall_forall in Hok |- *. intros r Hr.
    destruct (Hok r Hr) as [Hlt Hr_ok]. split; [lia |].
    by rewrite fn_lookup_insert_ne by lia.
  - apply Forall_singleton. split; [lia |]. rewrite fn_lookup_insert.
    pose proof (Hrng (cursor w)). pose proof (Hrng (S (cursor w))).
    unfold treeOK. cbn. lra.
Qed.

Lemma initDeer_forestOK : preserves initOK initDeer.
Proof. by intros w Hw. Qed.

Lemma initWolf_forestOK : preserves initOK initWolf.
Proof. by intros w Hw. Qed.

Lemma initializeEcosystem_forestOK w0 :
  (∀ n, 0 <= rng w0 n < 1) →
  forestOK (trees (exec initializeEcosystem w0)) (exec initializeEcosystem w0).
Proof.
  intros Hrng. unfold exec, initializeEcosystem. rewrite !bind_eq. cbn [modify fst snd].
  set (w1 := set_terrain _ _).
  assert (H1 : initOK w1) by (split; [exact Hrng | constructor]).
  apply (preserves_repeatM initOK DEFAULT_WOLF_COUNT initWolf initWolf_forestOK).
  apply (preserves_repeatM initOK DEFAULT_DEER_COUNT initDeer initDeer_forestOK).
  apply (preserves_repeatM initOK DEFAULT_TREE_COUNT initTree initTree_forestOK).
  exact H1.
Qed.

(** X23.  In every state of a run each tree has a size between 0 and its
    [MaxSize] and lies inside the unit square. *)
Theorem trees_stay_in_range (w : World) :
  reachable w →
  Forall (λ tree,
            (0 <= tree_size (heap w tree)
             <= tree_MaxSize (tree_characteristics (heap w tree)))
            ∧ (0 <= tree_x (heap w tree) <= 1) ∧ (0 <= tree_y (heap w tree) <= 1))
         (trees w).
Proof.
  intros Hr.
  assert (Hok : forestOK (trees w) w).
  { induction Hr as [w0 Hrng | w pre iD iW _ IH].
    - by apply initializeEcosystem_forestOK.
    - by apply updateEcosystem_forestOK. }
  eapply list.Forall_impl; [exact Hok |]. by intros r [_ ?].
Qed.

(** X24.  One update leaves every tree object made before it with its
    id, position and characteristics, and with a size that is not
    smaller. *)
Theorem tree_objects_only_grow pre immortalDeer immortalWolf (w : World) (tree : loc) :
  (tree < nextLoc w)%nat →
  let w' := exec (updateEcosystem pre immortalDeer immortalWolf) w in
  tree_id (heap w' tree) = tree_id (heap w tree)
  ∧ tree_x (heap w' tree) = tree_x (heap w tree)
  ∧ tree_y (heap w' tree) = tree_y (heap w tree)
  ∧ tree_characteristics (heap w' tree) = tree_characteristics (heap w tree)
  ∧ tree_size (heap w tree) <= tree_size (heap w' tree).
Proof.
  intros Hlt. cbv zeta. rewrite updateEcosystem_eq.
  destruct (treePass_effects w pre) as (kept & _ & _ & _ & _ & Hgrew & _).
  cbv zeta in *. set (w1 := exec (treePass pre) w) in *.
  destruct (deerPass_trees immortalDeer w1) as (_ & Hh & _). cbv zeta in *.
  set (w2 := exec (deerPass immortalDeer) w1) in *.
  destruct (wolfPass_trees immortalWolf w2) as (_ & Hh3 & _). cbv zeta in *.
  rewrite Hh3, Hh. destruct (Hgrew tree Hlt) as [(? & ? & ? & ?) ?]. by split_and!.
Qed.

(** X25.  One update at most doubles each population: after it there are
    at most twice as many trees, deer and wolves as before it. *)
Theorem populations_at_most_double pre immortalDeer immortalWolf (w : World) :
  let w' := exec (updateEcosystem pre immortalDeer immortalWolf) w in
  (length (trees w') ≤ 2 * length (trees w))%nat
  ∧ (length (deer w') ≤ 2 * length (deer w))%nat
  ∧ (length (wolves w') ≤ 2 * length (wolves w))%nat.
Proof.
  cbv zeta. rewrite updateEcosystem_eq.
  destruct (treePass_effects w pre) as (kept & Hkept & Htrees & Hnew & _).
  destruct (treePass_animals pre w) as [Hd1 Hv1].
  cbv zeta in *. set (w1 := exec (treePass pre) w) in *.
  destruct (deerPass_trees immortalDeer w1) as (Hsub2 & _). cbv zeta in *.
  pose proof (deerPass_wolves immortalDeer w1) as Hv2.
  destruct (deerPass_effects (heap w1)
              (λ k ds ns _ _, length ds = length (deer w1) ∧ (length ns ≤ k)%nat))
    with (immortalDeer := immortalDeer) (w := w1)
    as (ds & survivors & [Hds Hns] & _ & Hsurv & Hdeer).
  { intros k ds ns g ts index d d' babies ts' [Hl Hn] _ _ Hb _ _.
    rewrite length_insert, length_app. split; [done | lia]. }
  { intros k ds ns g ts [Hl Hn]. split; [done | lia]. }
  { by split. }
  { done. }
  cbv zeta in *. set (w2 := exec (deerPass immortalDeer) w1) in *.
  destruct (wolfPass_trees immortalWolf w2) as (Ht3 & _). cbv zeta in *.
  pose proof (wolfPass_deer immortalWolf w2) as Hd3.
  destruct (wolfPass_effects
              (λ k vs ns _ _, length vs = length (wolves w2) ∧ (length ns ≤ k)%nat))
    with (immortalWolf := immortalWolf) (w := w2)
    as (vs & vsurvivors & [Hvs Hvns] & Hvsurv & Hwolves).
  { intros k vs ns g ds' index v v' babies ds'' [Hl Hn] _ _ Hb _ _.
    rewrite length_insert, length_app. split; [done | lia]. }
  { intros k vs ns g ds' [Hl Hn]. split; [done | lia]. }
  { by split. }
  cbv zeta in *. set (w3 := exec (wolfPass immortalWolf) w2) in *.
  apply sublist_length in Hkept, Hsub2, Hsurv, Hd3, Hvsurv.
  rewrite Htrees, length_app in Hsub2. rewrite Hdeer, length_app in Hd3.
  rewrite Hwolves, length_app. rewrite Ht3. rewrite Hv2, Hv1 in *. rewrite Hd1 in *.
  lia.
Qed.
End Forest.

Section Eating.
Local Open Scope R_scope.

(** X21.  When some tree is within eating distance of the deer and small
    enough, the eating loop eats the one with the highest index in
    [ecosystem.trees], whatever the distances: that tree is removed from
    the grid and from the array, and the deer gains a tenth of its size,
    up to [DEER_MAX_ENERGY]. *)
Theorem deer_eats_last_tree_in_reach (d : Deer) (w : World) (j : nat) (tree : loc) :
  trees w !! j = Some tree →
  canEat d (heap w tree) = true →
  (∀ j' tree', (j < j')%nat → trees w !! j' = Some tree' →
               canEat d (heap w tree') = false) →
  deerEatLoop d (length (trees w)) w
  = (set_deer_energy
       (Rmin DEER_MAX_ENERGY (deer_energy d + tree_size (heap w tree) * 0.1)) d,
     eaten j tree w)
  ∧ trees (eaten j tree w) = delete j (trees w).
Proof.
  intros Hj Hcan Hlast.
  split; [| by destruct (eaten_fields j tree w) as (-> & _)].
  destruct (deerEatLoop_run d (length (trees w)) w)
    as [[_ Hnone] | (i & t & Hi & Ht & Hc & Hafter & ->)].
  - apply lookup_lt_Some in Hj as Hlt. by rewrite (Hnone j tree Hlt Hj) in Hcan.
  - destruct (Nat.lt_trichotomy i j) as [Hlt | [-> | Hgt]].
    + apply lookup_lt_Some in Hj as Hlen.
      assert (Hij : (i < j < length (trees w))%nat) by lia.
      by rewrite (Hafter j tree Hij Hj) in Hcan.
    + by replace t with tree by congruence.
    + by rewrite (Hlast i t Hgt Ht) in Hc.
Qed.

Lemma deer_eats_last_tree_in_reach_witness :
  let w := feedingWorld (λ _, 0) in
  deerEatLoop sampleDeer (length (trees w)) w
  = (set_deer_energy
       (Rmin DEER_MAX_ENERGY
          (deer_energy sampleDeer + tree_size (heap w 0%nat) * 0.1)) sampleDeer,
     eaten 0 0%nat w)
  ∧ trees (eaten 0 0%nat w) = delete 0%nat (trees w).
Proof.
  cbv zeta. apply deer_eats_last_tree_in_reach.
  - reflexivity.
  - unfold canEat. cbn [heap feedingWorld set_trees set_grid set_heap set_nextLoc
                         set_treeIdGenerator sampleTree tree_x tree_y sampleDeer
                         deer_x deer_y tree_size deer_characteristics
                         deer_MaxEatableSize tree_characteristics].
    rewrite distanceBetween_Fin. unfold distanceTo.
    replace ((0 - 0) * (0 - 0) + (0 - 0) * (0 - 0)) with 0 by ring.
    rewrite sqrt_0. cbn [Num.lt]. apply andb_true_intro.
    split; apply bool_decide_eq_true;
      unfold DEER_EATING_RADIUS_BASE, ECOSYSTEM_SCALE; lra.
  - intros [| j'] tree' Hlt Hj'; [lia | done].
Defined.
End Eating.

Section Fleeing.
Local Open Scope R_scope.

Lemma sqrt_sum_squares (dx dy : R) :
  Num.sqrt (Fin dx * Fin dx + Fin dy * Fin dy)%js = Fin (sqrt (dx * dx + dy * dy)).
Proof.
  cbn [Num.mul Num.add]. unfold Num.sqrt.
  destruct (decide (_ < 0)) as [Hneg | _]; [| done].
  pose proof (Rle_0_sqr dx). pose proof (Rle_0_sqr dy). unfold Rsqr in *. lra.
Qed.

(** X22.  The flee rule yields no NaN for a deer and a wolf in the square
    [-1, 1], when the deer is exactly on the wolf or at least [1e-100]
    away from it in one coordinate: the deer ends at finite coordinates,
    a step of length [Speed] away; when it is not on the wolf, the step
    is [Speed] times the unit vector from the wolf to the deer.
    Coordinates are exact reals here; below the gap the squares of the
    differences underflow to 0 in doubles, and the deer steps in a random
    direction as if it were on the wolf. *)
Theorem flee_step_is_guarded
    (d : Deer) (nearestWolf : Wolf) (x y vx vy : R) (w : World) :
  deer_x d = Fin x → deer_y d = Fin y →
  wolf_x nearestWolf = Fin vx → wolf_y nearestWolf = Fin vy →
  Rabs x <= 1 → Rabs y <= 1 → Rabs vx <= 1 → Rabs vy <= 1 →
  0 <= deer_Speed (deer_characteristics d) <= 1 →
  (x = vx ∧ y = vy)
  ∨ / 10 ^ 100 <= Rabs (x - vx) ∨ / 10 ^ 100 <= Rabs (y - vy) →
  let d' := eval (deerFleeStep d nearestWolf) w in
  ∃ x' y',
    deer_x d' = Fin x' ∧ deer_y d' = Fin y'
    ∧ (x' - x) ^ 2 + (y' - y) ^ 2 = deer_Speed (deer_characteristics d) ^ 2
    ∧ (Rabs x' <= 2 ∧ Rabs y' <= 2)
    ∧ (x ≠ vx ∨ y ≠ vy →
       ∃ distance,
         / 10 ^ 100 <= distance
         ∧ distance * distance = (x - vx) * (x - vx) + (y - vy) * (y - vy)
         ∧ (x' - x) * distance = deer_Speed (deer_characteristics d) * (x - vx)
         ∧ (y' - y) * distance = deer_Speed (deer_characteristics d) * (y - vy)).
Proof.
  intros Hx Hy Hvx Hvy Hbx Hby _ _ Hs Hcases. cbv zeta.
  unfold eval, deerFleeStep. cbv zeta.
  rewrite Hx, Hy, Hvx, Hvy.
  change (Fin x - Fin vx)%js with (Fin (x - vx)).
  change (Fin y - Fin vy)%js with (Fin (y - vy)).
  set (speed := deer_Speed (deer_characteristics d)) in *.
  destruct Hcases as [[-> ->] | Hgap].
  - rewrite sqrt_sum_squares.
    replace ((vx - vx) * (vx - vx) + (vy - vy) * (vy - vy)) with 0 by ring.
    rewrite sqrt_0. unfold Num.gt, Num.lt.
    rewrite bool_decide_eq_false_2 by lra.
    unfold randomStep. rewrite !bind_eq.
    cbn [random ret fst snd deer_x deer_y set_deer_pos Num.add].
    set (a := rng w (cursor w) * PI * 2).
    assert (Hlen : (vx + cos a * speed - vx) ^ 2 + (vy + sin a * speed - vy) ^ 2
                   = speed ^ 2).
    { pose proof (sin2_cos2 a) as Hsc. unfold Rsqr in Hsc.
      replace ((vx + cos a * speed - vx) ^ 2 + (vy + sin a * speed - vy) ^ 2)
        with ((sin a * sin a + cos a * cos a) * speed ^ 2) by ring.
      rewrite Hsc. ring. }
    eexists _, _. split; [reflexivity |]. split; [reflexivity |].
    split; [exact Hlen |].
    split; [exact (step_bounded vx vy _ _ speed Hbx Hby Hs Hlen) |].
    intros [? | ?]; done.
  - destruct (unit_step_gap x y (x - vx) (y - vy) speed Hgap)
      as (δ & x' & y' & Hδ & Hδ2 & Hsqrt & Hx' & Hy' & Hdx & Hdy & Hlen).
    cbv zeta in Hsqrt, Hx', Hy'. pose proof gap_pos as Hpos.
    assert (Hgt : Num.gt (Num.sqrt (Fin (x - vx) * Fin (x - vx)
                                    + Fin (y - vy) * Fin (y - vy))%js) 0 = true).
    { rewrite Hsqrt. unfold Num.gt, Num.lt. apply bool_decide_eq_true. lra. }
    rewrite Hgt. cbn [ret fst deer_x deer_y set_deer_pos].
    exists x', y'. split; [exact Hx' |]. split; [exact Hy' |].
    split; [exact Hlen |].
    split; [exact (step_bounded x y x' y' speed Hbx Hby Hs Hlen) |].
    intros _. by exists δ.
Qed.

(** On the wolf, and at distance 0.5 from it. *)
Lemma flee_step_is_guarded_witness :
  (let d := sampleDeer in
   let d' := eval (deerFleeStep d sampleWolf) (moduleState (λ _, 0)) in
   ∃ x' y',
     deer_x d' = Fin x' ∧ deer_y d' = Fin y'
     ∧ (x' - 0) ^ 2 + (y' - 0) ^ 2 = deer_Speed (deer_characteristics d) ^ 2
     ∧ (Rabs x' <= 2 ∧ Rabs y' <= 2)
     ∧ (0 ≠ 0 ∨ 0 ≠ 0 →
        ∃ distance,
          / 10 ^ 100 <= distance
          ∧ distance * distance = (0 - 0) * (0 - 0) + (0 - 0) * (0 - 0)
          ∧ (x' - 0) * distance = deer_Speed (deer_characteristics d) * (0 - 0)
          ∧ (y' - 0) * distance = deer_Speed (deer_characteristics d) * (0 - 0)))
  ∧ (let d := set_deer_pos 0.3 0.4 sampleDeer in
     let d' := eval (deerFleeStep d sampleWolf) (moduleState (λ _, 0)) in
     ∃ x' y',
       deer_x d' = Fin x' ∧ deer_y d' = Fin y'
       ∧ (x' - 0.3) ^ 2 + (y' - 0.4) ^ 2 = deer_Speed (deer_characteristics d) ^ 2
       ∧ (Rabs x' <= 2 ∧ Rabs y' <= 2)
       ∧ (0.3 ≠ 0 ∨ 0.4 ≠ 0 →
          ∃ distance,
            / 10 ^ 100 <= distance
            ∧ distance * distance = (0.3 - 0) * (0.3 - 0) + (0.4 - 0) * (0.4 - 0)
            ∧ (x' - 0.3) * distance
              = deer_Speed (deer_characteristics d) * (0.3 - 0)
            ∧ (y' - 0.4) * distance
              = deer_Speed (deer_characteristics d) * (0.4 - 0))).
Proof.
  cbv zeta. split.
  - apply (flee_step_is_guarded sampleDeer sampleWolf 0 0 0 0).
    + reflexivity.
    + reflexivity.
    + reflexivity.
    + reflexivity.
    + apply Rabs_bound. lra.
    + apply Rabs_bound. lra.
    + apply Rabs_bound. lra.
    + apply Rabs_bound. lra.
    + cbn. lra.
    + left. done.
  - apply (flee_step_is_guarded (set_deer_pos 0.3 0.4 sampleDeer) sampleWolf
             0.3 0.4 0 0).
    + reflexivity.
    + reflexivity.
    + reflexivity.
    + reflexivity.
    + apply Rabs_bound. lra.
    + apply Rabs_bound. lra.
    + apply Rabs_bound. lra.
    + apply Rabs_bound. lra.
    + cbn. lra.
    + right. left. apply Rabs_lower. left. pose proof gap_small. lra.
Defined.
End Fleeing.

Section Neighborhood.
Local Open Scope R_scope.





End Neighborhood.

Section Handlers.
Local Open Scope R_scope.

Lemma createTreeCharacteristics_cursor sliders w :
  ∃ n, (createTreeCharacteristics sliders w).2 = set_cursor n w.
Proof.
  unfold createTreeCharacteristics.
  repeat match goal with
  | |- context [bind (fromSlider ?b ?s) ?k ?w] =>
      let v := fresh "v" in
      destruct (fromSlider_bind b s k w) as (v & -> & _); cbv beta
  end.
  by eexists.
Qed.

Lemma createDeerCharacteristics_cursor sliders w :
  ∃ n, (createDeerCharacteristics sliders w).2 = set_cursor n w.
Proof.
  unfold createDeerCharacteristics.
  repeat match goal with
  | |- context [bind (fromSlider ?b ?s) ?k ?w] =>
      let v := fresh "v" in
      destruct (fromSlider_bind b s k w) as (v & -> & _); cbv beta
  end.
  by eexists.
Qed.

Lemma createWolfCharacteristics_cursor sliders w :
  ∃ n, (createWolfCharacteristics sliders w).2 = set_cursor n w.
Proof.
  unfold createWolfCharacteristics.
  repeat match goal with
  | |- context [bind (fromSlider ?b ?s) ?k ?w] =>
      let v := fresh "v" in
      destruct (fromSlider_bind b s k w) as (v & -> & _); cbv beta
  end.
  by eexists.
Qed.

Lemma addTrees_body_Inv sliders : preserves Inv (addTrees_body sliders).
Proof.
  intros w Hw. unfold addTrees_body, Inv in *.
  rewrite !bind_eq. cbn [treeIdGenerator_next random fst snd].
  match goal with |- context [(createTreeCharacteristics sliders ?w1).2] =>
    destruct (createTreeCharacteristics_cursor sliders w1) as (n & ->);
    set (c := (createTreeCharacteristics sliders w1).1) end.
  cbn [new_tree modify fst snd].
  set (t := Build_Tree _ _ _ _ _ _).
  pose proof (TInv_alloc (trees w) [] t w eq_refl Hw) as Ha.
  cbn [app] in Ha. apply TInv_add in Ha. cbv zeta in Ha.
  revert Ha. cbn. by apply TInv_equiv.
Qed.

Lemma addDeer_body_Inv sliders : preserves Inv (addDeer_body sliders).
Proof.
  intros w Hw. unfold addDeer_body.
  rewrite !bind_eq. cbn [deerIdGenerator_next random fst snd].
  match goal with |- context [(createDeerCharacteristics sliders ?w1).2] =>
    destruct (createDeerCharacteristics_cursor sliders w1) as (n & ->) end.
  revert Hw. by apply Inv_ext.
Qed.

Lemma addWolves_body_Inv sliders : preserves Inv (addWolves_body sliders).
Proof.
  intros w Hw. unfold addWolves_body.
  rewrite !bind_eq. cbn [wolfIdGenerator_next random fst snd].
  match goal with |- context [(createWolfCharacteristics sliders ?w1).2] =>
    destruct (createWolfCharacteristics_cursor sliders w1) as (n & ->) end.
  revert Hw. by apply Inv_ext.
Qed.

Lemma at_index_Some {A} (l : list A) (z : Z) (a : A) :
  at_index l z = Some a →
  l !! Z.to_nat z = Some a ∧ splice1 z l = delete (Z.to_nat z) l.
Proof.
  unfold at_index, splice1. destruct (decide (0 ≤ z)%Z) as [Hz | ?]; [| done].
  intros Ha. split; [done |]. apply lookup_lt_Some in Ha. cbv zeta.
  destruct (decide (z < 0)%Z); [lia |]. f_equal. lia.
Qed.

Lemma splice1_sublist {A} (z : Z) (l : list A) : sublist (splice1 z l) l.
Proof. apply sublist_delete. Qed.

Lemma cullTrees_loop_Inv n : preserves Inv (cullTrees_loop n).
Proof.
  induction n as [| n IH]; intros w Hw; cbn [cullTrees_loop]; [done |].
  rewrite bind_eq. cbn [get fst snd].
  destruct (decide (length (trees w) = 0%nat)); [done |].
  rewrite bind_eq. cbn [random fst snd]. cbv zeta.
  change (trees (set_cursor (S (cursor w)) w)) with (trees w).
  destruct (at_index (trees w) _) as [tree |] eqn:Hat; [| revert Hw; by apply Inv_ext].
  apply at_index_Some in Hat as [Hi Hsp].
  rewrite !bind_eq. cbn [read_tree modify fst snd].
  apply IH.
  set (w1 := set_cursor (S (cursor w)) w).
  assert (Hw1 : Inv w1) by (revert Hw; by apply Inv_ext).
  pose proof (Inv_eaten _ tree w1 Hw1 Hi) as He. unfold eaten, exec in He.
  cbv zeta in He.
  destruct (deleteFromGrid_frame (heap w1 tree) w1) as (Ht & _).
  cbv zeta in Ht. unfold exec in Ht. rewrite Ht in He |- *.
  change (trees w1) with (trees w) in *. by rewrite Hsp.
Qed.

Lemma cullDeer_loop_Inv n : preserves Inv (cullDeer_loop n).
Proof.
  induction n as [| n IH]; intros w Hw; cbn [cullDeer_loop]; [done |].
  rewrite bind_eq. cbn [get fst snd].
  destruct (decide (length (deer w) = 0%nat)); [done |].
  rewrite !bind_eq. cbn [random modify fst snd]. apply IH.
  revert Hw. by apply Inv_ext.
Qed.

Lemma cullWolves_loop_Inv n : preserves Inv (cullWolves_loop n).
Proof.
  induction n as [| n IH]; intros w Hw; cbn [cullWolves_loop]; [done |].
  rewrite bind_eq. cbn [get fst snd].
  destruct (decide (length (wolves w) = 0%nat)); [done |].
  rewrite !bind_eq. cbn [random modify fst snd]. apply IH.
  revert Hw. by apply Inv_ext.
Qed.

Lemma Inv_cleared w : Inv (set_wolves [] (set_deer [] (set_grid ∅ (set_trees [] w)))).
Proof.
  split; cbn.
  - constructor.
  - intros r1 r2 Hr. by apply elem_of_nil in Hr.
  - intros r Hr. by apply elem_of_nil in Hr.
  - intros c b Hb. by rewrite lookup_empty in Hb.
  - intros r Hr. by apply elem_of_nil in Hr.
Qed.

Lemma session_Inv w : session w → Inv w.
Proof.
  induction 1 as [w0 _ | w pre iD iW _ IH | w count sliders _ IH
                  | w count sliders _ IH | w count sliders _ IH
                  | w percent _ IH | w percent _ IH | w percent _ IH
                  | w nt st nd sd nv sv _ _].
  - apply initializeEcosystem_Inv.
  - by apply updateEcosystem_Inv.
  - by apply (preserves_repeatM Inv _ _ (addTrees_body_Inv sliders)).
  - by apply (preserves_repeatM Inv _ _ (addDeer_body_Inv sliders)).
  - by apply (preserves_repeatM Inv _ _ (addWolves_body_Inv sliders)).
  - by apply cullTrees_loop_Inv.
  - by apply cullDeer_loop_Inv.
  - by apply cullWolves_loop_Inv.
  - unfold exec, resetEcosystem. rewrite !bind_eq. cbn [modify fst snd].
    apply (preserves_repeatM Inv _ _ (addWolves_body_Inv sv)).
    apply (preserves_repeatM Inv _ _ (addDeer_body_Inv sd)).
    apply (preserves_repeatM Inv _ _ (addTrees_body_Inv st)).
    apply Inv_cleared.
Qed.

(** X27.  The handlers of App.tsx keep the grid index exact: in every
    state of a session, in which the ecosystem is initialized and then
    updated or changed by [addTrees], [addDeer], [addWolves], [cullTrees],
    [cullDeer], [cullWolves] and [resetEcosystem] in any order, every tree
    of [ecosystem.trees] is in the bucket of its cell, and the buckets hold
    nothing else. *)
Theorem handlers_keep_grid_exact (w : World) : session w → grid_exact w.
Proof. intros Hs. by apply Inv_grid_exact, session_Inv. Qed.

Lemma handlers_keep_grid_exact_witness :
  grid_exact
    (exec (cullTrees 80)
       (exec (addTrees 5 sampleTreeSliders)
          (exec initializeEcosystem (moduleState (λ _, 0))))).
Proof.
  apply handlers_keep_grid_exact.
  apply session_cullTrees, session_addTrees, session_init.
  intros n. cbn. lra.
Defined.

Lemma randomIndexOf_range (u : R) (len : nat) :
  0 <= u < 1 → len ≠ 0%nat → (0 ≤ randomIndexOf u len < Z.of_nat len)%Z.
Proof.
  intros Hu Hlen. unfold randomIndexOf.
  assert (Hpos : 0 < INR len) by (apply lt_0_INR; lia).
  destruct (base_Int_part (u * INR len)) as [H1 H2].
  rewrite INR_IZR_INZ in *. split.
  - apply Z.lt_succ_r, lt_IZR. rewrite succ_IZR. nra.
  - apply lt_IZR. nra.
Qed.

Lemma cullCount_range (len : nat) (percent : Z) :
  (0 ≤ percent ≤ 100)%Z → (0 ≤ cullCount len percent ≤ Z.of_nat len)%Z.
Proof.
  intros Hp. unfold cullCount. split.
  - apply Z.div_pos; nia.
  - apply Z.div_le_upper_bound; nia.
Qed.

Lemma cullTrees_loop_run n : ∀ w,
  (∀ k, 0 <= rng w k < 1) → (n ≤ length (trees w))%nat →
  let r := cullTrees_loop n w in
  r.1 = Some tt ∧ length (trees r.2) = (length (trees w) - n)%nat
  ∧ sublist (trees r.2) (trees w) ∧ heap r.2 = heap w.
Proof.
  induction n as [| n IH]; intros w Hrng Hn; cbn [cullTrees_loop].
  { cbn. split; [done |]. split; [lia | done]. }
  cbv zeta. rewrite bind_eq. cbn [get fst snd].
  destruct (decide (length (trees w) = 0%nat)) as [? | Hlen]; [lia |].
  rewrite bind_eq. cbn [random fst snd]. cbv zeta.
  change (trees (set_cursor (S (cursor w)) w)) with (trees w).
  pose proof (randomIndexOf_range (rng w (cursor w)) (length (trees w))
                (Hrng _) Hlen) as Hidx.
  destruct (at_index (trees w) _) as [tree |] eqn:Hat.
  2:{ unfold at_index in Hat. destruct (decide _) as [_ | ?]; [| lia].
      apply lookup_ge_None in Hat. lia. }
  apply at_index_Some in Hat as [Hi Hsp].
  rewrite !bind_eq. cbn [read_tree modify fst snd].
  set (w1 := set_cursor (S (cursor w)) w).
  destruct (deleteFromGrid_frame (heap w1 tree) w1)
    as (Ht & _ & _ & Hh & _ & _ & _ & _ & _ & Hr & _).
  cbv zeta in Ht, Hh, Hr. unfold exec in Ht, Hh, Hr.
  rewrite Ht. change (trees w1) with (trees w). rewrite Hsp.
  match goal with |- context [cullTrees_loop n ?w2] =>
    destruct (IH w2) as (Hres & Hlen' & Hsub & Hheap) end.
  { intros k. cbn [rng set_trees]. rewrite Hr. apply Hrng. }
  { cbn [trees set_trees]. rewrite length_delete by done. lia. }
  cbv zeta in Hres, Hlen', Hsub, Hheap.
  cbn [trees set_trees heap] in Hlen', Hsub, Hheap.
  rewrite length_delete in Hlen' by done.
  split; [done |]. split; [lia |]. split.
  - etransitivity; [exact Hsub | apply sublist_delete].
  - by rewrite Hheap, Hh.
Qed.

Lemma cullDeer_loop_run n : ∀ w,
  (∀ k, 0 <= rng w k < 1) → (n ≤ length (deer w))%nat →
  let w' := exec (cullDeer_loop n) w in
  length (deer w') = (length (deer w) - n)%nat ∧ sublist (deer w') (deer w).
Proof.
  induction n as [| n IH]; intros w Hrng Hn; cbn [cullDeer_loop].
  { cbn. split; [lia | done]. }
  cbv zeta. unfold exec. rewrite bind_eq. cbn [get fst snd].
  destruct (decide (length (deer w) = 0%nat)) as [? | Hlen]; [lia |].
  rewrite !bind_eq. cbn [random modify fst snd].
  change (deer (set_cursor (S (cursor w)) w)) with (deer w).
  pose proof (randomIndexOf_range (rng w (cursor w)) (length (deer w))
                (Hrng _) Hlen) as Hidx.
  set (z := randomIndexOf _ _) in *.
  assert (Hsp : splice1 z (deer w) = delete (Z.to_nat z) (deer w)).
  { unfold splice1. cbv zeta. destruct (decide (z < 0)%Z); [lia |]. f_equal. lia. }
  assert (Hd : is_Some (deer w !! Z.to_nat z)) by (apply lookup_lt_is_Some; lia).
  destruct Hd as [d Hd]. rewrite Hsp.
  match goal with |- context [cullDeer_loop n ?w2] =>
    destruct (IH w2) as (Hlen' & Hsub) end.
  { done. }
  { cbn [deer set_deer set_cursor]. rewrite length_delete by done. lia. }
  cbv zeta in Hlen', Hsub. unfold exec in Hlen', Hsub.
  cbn [deer set_deer set_cursor] in Hlen', Hsub.
  rewrite length_delete in Hlen' by done.
  split; [lia |]. etransitivity; [exact Hsub | apply sublist_delete].
Qed.

Lemma cullWolves_loop_run n : ∀ w,
  (∀ k, 0 <= rng w k < 1) → (n ≤ length (wolves w))%nat →
  let w' := exec (cullWolves_loop n) w in
  length (wolves w') = (length (wolves w) - n)%nat ∧ sublist (wolves w') (wolves w).
Proof.
  induction n as [| n IH]; intros w Hrng Hn; cbn [cullWolves_loop].
  { cbn. split; [lia | done]. }
  cbv zeta. unfold exec. rewrite bind_eq. cbn [get fst snd].
  destruct (decide (length (wolves w) = 0%nat)) as [? | Hlen]; [lia |].
  rewrite !bind_eq. cbn [random modify fst snd].
  change (wolves (set_cursor (S (cursor w)) w)) with (wolves w).
  pose proof (randomIndexOf_range (rng w (cursor w)) (length (wolves w))
                (Hrng _) Hlen) as Hidx.
  set (z := randomIndexOf _ _) in *.
  assert (Hsp : splice1 z (wolves w) = delete (Z.to_nat z) (wolves w)).
  { unfold splice1. cbv zeta. destruct (decide (z < 0)%Z); [lia |]. f_equal. lia. }
  assert (Hd : is_Some (wolves w !! Z.to_nat z)) by (apply lookup_lt_is_Some; lia).
  destruct Hd as [d Hd]. rewrite Hsp.
  match goal with |- context [cullWolves_loop n ?w2] =>
    destruct (IH w2) as (Hlen' & Hsub) end.
  { done. }
  { cbn [wolves set_wolves set_cursor]. rewrite length_delete by done. lia. }
  cbv zeta in Hlen', Hsub. unfold exec in Hlen', Hsub.
  cbn [wolves set_wolves set_cursor] in Hlen', Hsub.
  rewrite length_delete in Hlen' by done.
  split; [lia |]. etransitivity; [exact Hsub | apply sublist_delete].
Qed.

(** X28.  With draws in [0, 1) and a percentage between 0 and 100, the
    handlers [cullTrees], [cullDeer] and [cullWolves] remove exactly
    floor(count * percent / 100) individuals and keep the others in their
    order; [cullTrees] finds a tree at every index it draws, so that no
    TypeError is thrown. *)
Theorem cull_removes_requested_share (percent : Z) (w : World) :
  (∀ k, 0 <= rng w k < 1) → (0 ≤ percent ≤ 100)%Z →
  (let r := cullTrees percent w in
   let removed := Z.to_nat (cullCount (length (trees w)) percent) in
   r.1 = Some tt
   ∧ length (trees r.2) = (length (trees w) - removed)%nat
   ∧ sublist (trees r.2) (trees w))
  ∧ (let w' := exec (cullDeer percent) w in
     let removed := Z.to_nat (cullCount (length (deer w)) percent) in
     length (deer w') = (length (deer w) - removed)%nat
     ∧ sublist (deer w') (deer w))
  ∧ (let w' := exec (cullWolves percent) w in
     let removed := Z.to_nat (cullCount (length (wolves w)) percent) in
     length (wolves w') = (length (wolves w) - removed)%nat
     ∧ sublist (wolves w') (wolves w)).
Proof.
  intros Hrng Hp. cbv zeta. split; [| split].
  - unfold cullTrees. rewrite bind_eq. cbn [get fst snd].
    pose proof (cullCount_range (length (trees w)) percent Hp).
    destruct (cullTrees_loop_run (Z.to_nat (cullCount (length (trees w)) percent)) w)
      as (H1 & H2 & H3 & _); [done | lia |]. done.
  - unfold exec, cullDeer. rewrite bind_eq. cbn [get fst snd].
    pose proof (cullCount_range (length (deer w)) percent Hp).
    by apply cullDeer_loop_run; [| lia].
  - unfold exec, cullWolves. rewrite bind_eq. cbn [get fst snd].
    pose proof (cullCount_range (length (wolves w)) percent Hp).
    by apply cullWolves_loop_run; [| lia].
Qed.

End Handlers.

(** * Populated states, and the extinction floor on a herd (C2) *)

Section InitialWorld.
Local Open Scope R_scope.

Lemma initializeEcosystem_lengths (w0 : World) :
  let w := exec initializeEcosystem w0 in
  length (trees w) = 120%nat ∧ length (deer w) = 30%nat ∧ length (wolves w) = 6%nat
  ∧ rng w = rng w0.
Proof.
  cbv zeta. unfold exec, initializeEcosystem. rewrite !bind_eq. cbn [modify fst snd].
  set (w1 := set_terrain _ _).
  set (P := λ (a b c : nat) (w : World),
         length (trees w) = a ∧ length (deer w) = b ∧ length (wolves w) = c
         ∧ rng w = rng w0).
  assert (H1 : P 0%nat 0%nat 0%nat w1) by done.
  apply (repeatM_count (λ k, P k 0%nat 0%nat) initTree) with (n := DEFAULT_TREE_COUNT)
    in H1; cycle 1.
  { intros k w (Ha & Hb & Hc & Hr). unfold initTree.
    rewrite !bind_eq. cbn [treeIdGenerator_next random fst snd].
    rewrite randomTreeCharacteristics_state. cbn [new_tree modify fst snd].
    unfold P. cbn. rewrite length_app. cbn. repeat split; try done. lia. }
  cbv beta in H1. rewrite Nat.add_0_r in H1.
  set (w2 := (repeatM DEFAULT_TREE_COUNT initTree w1).2) in *. clearbody w2.
  apply (repeatM_count (λ k, P DEFAULT_TREE_COUNT k 0%nat) initDeer)
    with (n := DEFAULT_DEER_COUNT) in H1; cycle 1.
  { intros k w (Ha & Hb & Hc & Hr). unfold initDeer.
    rewrite !bind_eq. cbn [deerIdGenerator_next random fst snd].
    set (c := (randomDeerCharacteristics _).1).
    unfold P. cbn. rewrite length_app. cbn. repeat split; try done. lia. }
  cbv beta in H1. rewrite Nat.add_0_r in H1.
  set (w3 := (repeatM DEFAULT_DEER_COUNT initDeer w2).2) in *. clearbody w3.
  apply (repeatM_count (λ k, P DEFAULT_TREE_COUNT DEFAULT_DEER_COUNT k) initWolf)
    with (n := DEFAULT_WOLF_COUNT) in H1; cycle 1.
  { intros k w (Ha & Hb & Hc & Hr). unfold initWolf.
    rewrite !bind_eq. cbn [wolfIdGenerator_next random fst snd].
    set (c := (randomWolfCharacteristics _).1).
    unfold P. cbn. rewrite length_app. cbn. repeat split; try done. lia. }
  cbv beta in H1. rewrite Nat.add_0_r in H1. exact H1.
Qed.


Lemma initialWorld_reachable : reachable initialWorld.
Proof. apply reach_init. intros n. cbn. lra. Qed.

Lemma initialWorld_populated :
  length (trees initialWorld) = 120%nat ∧ length (deer initialWorld) = 30%nat
  ∧ length (wolves initialWorld) = 6%nat.
Proof.
  destruct (initializeEcosystem_lengths (moduleState (λ _, 0))) as (H1 & H2 & H3 & _).
  cbv zeta in H1, H2, H3. unfold initialWorld. split; [exact H1 |]. split; [exact H2 | exact H3].
Qed.

Lemma initialWorld_rng (n : nat) : rng initialWorld n = 0.
Proof.
  destruct (initializeEcosystem_lengths (moduleState (λ _, 0))) as (_ & _ & _ & Hr).
  cbv zeta in Hr. unfold initialWorld. rewrite Hr. reflexivity.
Qed.
End InitialWorld.

Section Extinction.
Local Open Scope R_scope.

Lemma deerDeathChance_pos (d : Deer) (nearbyDeer : nat) :
  0 < deer_DeathChance (deer_characteristics d) →
  0 <= deer_CrowdingSusceptibility (deer_characteristics d) →
  0 < deerDeathChance d nearbyDeer.
Proof.
  intros Hd Hs. unfold deerDeathChance. cbv zeta.
  pose proof (pos_INR nearbyDeer) as Hn. unfold DEER_CROWDING_DEATH_PENALTY.
  assert (0 <= INR nearbyDeer * 0.002
               * deer_CrowdingSusceptibility (deer_characteristics d)) by nra.
  destruct (decide (_ < 0.3)); lra.
Qed.

Lemma wolfDeathChance_pos (v : Wolf) (nearbyWolves : nat) :
  0 < wolf_DeathChance (wolf_characteristics v) →
  0 <= wolf_CrowdingSusceptibility (wolf_characteristics v) →
  0 < wolfDeathChance v nearbyWolves.
Proof.
  intros Hd Hs. unfold wolfDeathChance. cbv zeta.
  pose proof (pos_INR nearbyWolves) as Hn. unfold WOLF_CROWDING_DEATH_PENALTY.
  assert (0 <= INR nearbyWolves * 0.006
               * wolf_CrowdingSusceptibility (wolf_characteristics v)) by nra.
  destruct (decide (_ < 0.3)); lra.
Qed.

(** With every draw 0 and an array of length other than 1, the callback
    of the deer filter returns [false], whatever the flag: the death check
    draws 0, which is below every death chance. *)
Lemma deerCallback_dies (immortalDeer : bool) (d : Deer) (index : nat) (w : World) :
  (∀ n, rng w n = 0) → length (deer w) ≠ 1%nat →
  0 < deer_DeathChance (deer_characteristics d) →
  0 <= deer_CrowdingSusceptibility (deer_characteristics d) →
  ∃ d' w',
    deerCallback immortalDeer d index w = (false, w')
    ∧ deer w' = <[index := d']> (deer w)
    ∧ deer_characteristics d' = deer_characteristics d
    ∧ newDeer w' = newDeer w ∧ rng w' = rng w ∧ wolves w' = wolves w.
Proof.
  intros Hrng Hlen Hdc Hcs. unfold deerCallback. cbv zeta.
  set (d1 := set_deer_age (deer_age d + 1) d).
  destruct (deerMove_run d1 w) as (x' & y' & n & Hmove & _ & _).
  erewrite bind_run by exact Hmove.
  set (d2 := set_deer_pos (wrap _) (wrap _) (set_deer_pos x' y' d1)).
  set (w1 := set_cursor n w).
  assert (Heat : ∃ (e : R) (w2 : World),
    (if decide (deer_energy d2 < DEER_MAX_ENERGY)
     then let* ecosystem := get in deerEatLoop d2 (length (trees ecosystem))
     else ret d2) w1 = (set_deer_energy e d2, w2)
    ∧ deer w2 = deer w ∧ newDeer w2 = newDeer w ∧ rng w2 = rng w
    ∧ wolves w2 = wolves w).
  { assert (Hsame : ∀ w0 : World, (d2, w0) = (set_deer_energy (deer_energy d) d2, w0)).
    { intros. reflexivity. }
    destruct (decide (deer_energy d2 < DEER_MAX_ENERGY)) as [Hlt | Hge].
    - rewrite bind_eq. cbn [get fst snd].
      destruct (deerEatLoop_run d2 (length (trees w1)) w1)
        as [[Hrun _] | (j & tree & _ & _ & _ & _ & Hrun)]; rewrite Hrun.
      + exists (deer_energy d), w1. by split; [apply Hsame |].
      + eexists _, _. split; [reflexivity |].
        destruct (eaten_fields j tree w1)
          as (_ & Hd' & Hv' & _ & _ & _ & _ & _ & _ & Hr' & _ & _ & Hn' & _).
        cbv zeta in *. by rewrite Hd', Hv', Hr', Hn'.
    - exists (deer_energy d), w1. by split; [apply Hsame |]. }
  destruct Heat as (e & w2 & Hrun & Hd2 & Hn2 & Hr2 & Hv2).
  erewrite bind_run by exact Hrun. cbv beta.
  set (d3 := set_deer_energy _ (set_deer_energy e d2)).
  rewrite !bind_eq. cbn [store_deer modify fst snd].
  set (w3 := set_deer _ w2).
  assert (Hcheck : deerDeathCheck immortalDeer d3 w3
                   = (true, set_cursor (S (cursor w3)) w3)).
  { unfold deerDeathCheck. rewrite bind_eq. cbn [get fst snd]. cbv zeta.
    assert (Hl3 : length (deer w3) ≠ 1%nat).
    { unfold w3. cbn [deer set_deer]. by rewrite length_insert, Hd2. }
    rewrite (bool_decide_eq_false_2 _ Hl3), andb_false_r. cbn [negb].
    rewrite bind_eq. cbn [random ret fst snd].
    assert (Hu : rng w3 (cursor w3) = 0).
    { unfold w3. cbn [rng set_deer]. rewrite Hr2. apply Hrng. }
    rewrite Hu, bool_decide_eq_true_2; [done |].
    by apply deerDeathChance_pos. }
  rewrite Hcheck. cbn [fst snd].
  exists d3, (set_cursor (S (cursor w3)) w3). split; [done |].
  cbn [deer newDeer rng wolves set_cursor set_deer w3]. by rewrite Hd2, Hn2, Hr2, Hv2.
Qed.

Lemma filterInPlace_deer_all_die (immortalDeer : bool) (count : nat) : ∀ index w,
  (∀ n, rng w n = 0) → length (deer w) ≠ 1%nat →
  Forall (λ d, 0 < deer_DeathChance (deer_characteristics d)
               ∧ 0 <= deer_CrowdingSusceptibility (deer_characteristics d)) (deer w) →
  let r := filterInPlace deer (deerCallback immortalDeer) index count w in
  r.1 = [] ∧ newDeer r.2 = newDeer w ∧ rng r.2 = rng w ∧ wolves r.2 = wolves w.
Proof.
  induction count as [| count IH]; intros index w Hrng Hlen Hall;
    cbn [filterInPlace]; [done |].
  cbv zeta. rewrite bind_eq. cbn [get fst snd].
  destruct (deer w !! index) as [d |] eqn:Hd; [| by apply IH].
  assert (Hd_ok := Hall). rewrite list.Forall_forall in Hd_ok.
  destruct (Hd_ok d) as [Hdc Hcs]; [by eapply list_elem_of_lookup_2 |].
  destruct (deerCallback_dies immortalDeer d index w Hrng Hlen Hdc Hcs)
    as (d' & w' & Hrun & Hds & Hch & Hn & Hr & Hv).
  erewrite bind_run by exact Hrun. cbv beta. rewrite bind_eq. cbn [ret fst snd].
  destruct (IH (S index) w') as (Hk & Hn' & Hr' & Hv').
  - intros k. rewrite Hr. apply Hrng.
  - by rewrite Hds, length_insert.
  - rewrite Hds. apply Forall_insert; [exact Hall | by rewrite Hch].
  - cbv zeta in *. by rewrite Hk, Hn', Hr', Hv', Hn, Hr, Hv.
Qed.

(** With every draw 0, a herd of two or more is extinct after the deer
    pass, with the flag as well. *)
Lemma deerPass_extinction (immortalDeer : bool) (w : World) :
  (∀ n, rng w n = 0) → length (deer w) ≠ 1%nat →
  Forall (λ d, 0 < deer_DeathChance (deer_characteristics d)
               ∧ 0 <= deer_CrowdingSusceptibility (deer_characteristics d)) (deer w) →
  let w' := exec (deerPass immortalDeer) w in
  deer w' = [] ∧ rng w' = rng w ∧ wolves w' = wolves w.
Proof.
  intros Hrng Hlen Hall. cbv zeta. unfold exec, deerPass. rewrite !bind_eq.
  cbn [modify get fst snd].
  change (deer (set_newDeer [] w)) with (deer w).
  destruct (filterInPlace_deer_all_die immortalDeer (length (deer w)) 0
              (set_newDeer [] w) Hrng Hlen Hall) as (Hk & Hn & Hr & Hv).
  cbv zeta in *. cbn [deer newDeer rng wolves set_deer]. rewrite Hk, Hn, Hr, Hv.
  done.
Qed.

Lemma wolfCallback_dies (immortalWolf : bool) (v : Wolf) (index : nat) (w : World) :
  (∀ n, rng w n = 0) → length (wolves w) ≠ 1%nat →
  0 < wolf_DeathChance (wolf_characteristics v) →
  0 <= wolf_CrowdingSusceptibility (wolf_characteristics v) →
  ∃ v' w',
    wolfCallback immortalWolf v index w = (false, w')
    ∧ wolves w' = <[index := v']> (wolves w)
    ∧ wolf_characteristics v' = wolf_characteristics v
    ∧ newWolves w' = newWolves w ∧ rng w' = rng w.
Proof.
  intros Hrng Hlen Hdc Hcs. unfold wolfCallback. cbv zeta.
  set (v1 := set_wolf_age (wolf_age v + 1) v).
  destruct (wolfMove_run v1 w) as (x' & y' & n & Hmove & _ & _).
  erewrite bind_run by exact Hmove.
  set (v2 := set_wolf_pos (wrap _) (wrap _) (set_wolf_pos x' y' v1)).
  set (w1 := set_cursor n w).
  assert (Hhunt : ∃ (e : R) (w2 : World),
    (if decide (wolf_energy v2 < WOLF_MAX_ENERGY)
     then let* ecosystem := get in wolfHuntLoop v2 (length (deer ecosystem))
     else ret v2) w1 = (set_wolf_energy e v2, w2)
    ∧ wolves w2 = wolves w ∧ newWolves w2 = newWolves w ∧ rng w2 = rng w).
  { assert (Hsame : ∀ w0 : World, (v2, w0) = (set_wolf_energy (wolf_energy v) v2, w0)).
    { intros. reflexivity. }
    destruct (decide (wolf_energy v2 < WOLF_MAX_ENERGY)) as [Hlt | Hge].
    - rewrite bind_eq. cbn [get fst snd].
      destruct (wolfHuntLoop_run v2 (length (deer w1)) w1)
        as (m & [Hrun | (j & d & _ & _ & _ & _ & Hrun)]); rewrite Hrun.
      + exists (wolf_energy v), (set_cursor m w1). by split; [apply Hsame |].
      + eexists _, _. by split; [reflexivity |].
    - exists (wolf_energy v), w1. by split; [apply Hsame |]. }
  destruct Hhunt as (e & w2 & Hrun & Hv2 & Hn2 & Hr2).
  erewrite bind_run by exact Hrun. cbv beta.
  set (v3 := set_wolf_energy _ (set_wolf_energy e v2)).
  rewrite !bind_eq. cbn [store_wolf modify fst snd].
  set (w3 := set_wolves _ w2).
  assert (Hcheck : wolfDeathCheck immortalWolf v3 w3
                   = (true, set_cursor (S (cursor w3)) w3)).
  { unfold wolfDeathCheck. rewrite bind_eq. cbn [get fst snd]. cbv zeta.
    assert (Hl3 : length (wolves w3) ≠ 1%nat).
    { unfold w3. cbn [wolves set_wolves]. by rewrite length_insert, Hv2. }
    rewrite (bool_decide_eq_false_2 _ Hl3), andb_false_r. cbn [negb].
    rewrite bind_eq. cbn [random ret fst snd].
    assert (Hu : rng w3 (cursor w3) = 0).
    { unfold w3. cbn [rng set_wolves]. rewrite Hr2. apply Hrng. }
    rewrite Hu, bool_decide_eq_true_2; [done |].
    by apply wolfDeathChance_pos. }
  rewrite Hcheck. cbn [fst snd].
  exists v3, (set_cursor (S (cursor w3)) w3). split; [done |].
  cbn [wolves newWolves rng set_cursor set_wolves w3]. by rewrite Hv2, Hn2, Hr2.
Qed.

Lemma filterInPlace_wolf_all_die (immortalWolf : bool) (count : nat) : ∀ index w,
  (∀ n, rng w n = 0) → length (wolves w) ≠ 1%nat →
  Forall (λ v, 0 < wolf_DeathChance (wolf_characteristics v)
               ∧ 0 <= wolf_CrowdingSusceptibility (wolf_characteristics v)) (wolves w) →
  let r := filterInPlace wolves (wolfCallback immortalWolf) index count w in
  r.1 = [] ∧ newWolves r.2 = newWolves w.
Proof.
  induction count as [| count IH]; intros index w Hrng Hlen Hall;
    cbn [filterInPlace]; [done |].
  cbv zeta. rewrite bind_eq. cbn [get fst snd].
  destruct (wolves w !! index) as [v |] eqn:Hv; [| by apply IH].
  assert (Hv_ok := Hall). rewrite list.Forall_forall in Hv_ok.
  destruct (Hv_ok v) as [Hdc Hcs]; [by eapply list_elem_of_lookup_2 |].
  destruct (wolfCallback_dies immortalWolf v index w Hrng Hlen Hdc Hcs)
    as (v' & w' & Hrun & Hvs & Hch & Hn & Hr).
  erewrite bind_run by exact Hrun. cbv beta. rewrite bind_eq. cbn [ret fst snd].
  destruct (IH (S index) w') as (Hk & Hn').
  - intros k. rewrite Hr. apply Hrng.
  - by rewrite Hvs, length_insert.
  - rewrite Hvs. apply Forall_insert; [exact Hall | by rewrite Hch].
  - cbv zeta in *. by rewrite Hk, Hn', Hn.
Qed.

Lemma wolfPass_extinction (immortalWolf : bool) (w : World) :
  (∀ n, rng w n = 0) → length (wolves w) ≠ 1%nat →
  Forall (λ v, 0 < wolf_DeathChance (wolf_characteristics v)
               ∧ 0 <= wolf_CrowdingSusceptibility (wolf_characteristics v)) (wolves w) →
  wolves (exec (wolfPass immortalWolf) w) = [].
Proof.
  intros Hrng Hlen Hall. unfold exec, wolfPass. rewrite !bind_eq.
  cbn [modify get fst snd].
  change (wolves (set_newWolves [] w)) with (wolves w).
  destruct (filterInPlace_wolf_all_die immortalWolf (length (wolves w)) 0
              (set_newWolves [] w) Hrng Hlen Hall) as (Hk & Hn).
  cbv zeta in *. cbn [wolves newWolves set_wolves]. by rewrite Hk, Hn.
Qed.
End Extinction.

Section ExtinctionFloor.
Local Open Scope R_scope.

Lemma treePass_rng pre w : rng (exec (treePass pre) w) = rng w.
Proof. apply (treePass_preserves (λ w1, rng w1 = rng w)); by intros. Qed.

Lemma initialWorld_mortal :
  Forall (λ d, 0 < deer_DeathChance (deer_characteristics d)
               ∧ 0 <= deer_CrowdingSusceptibility (deer_characteristics d))
         (deer initialWorld)
  ∧ Forall (λ v, 0 < wolf_DeathChance (wolf_characteristics v)
                 ∧ 0 <= wolf_CrowdingSusceptibility (wolf_characteristics v))
           (wolves initialWorld).
Proof.
  destruct (reachable_bounds initialWorld initialWorld_reachable)
    as (_ & _ & Hd & Hv).
  split; rewrite list.Forall_forall.
  - intros d Hin. destruct (Hd d Hin) as (_ & _ & [H1 _] & _ & [H2 _] & _).
    cbn in H1, H2. split; lra.
  - intros v Hin. destruct (Hv v Hin) as (_ & _ & [H1 _] & _ & [H2 _] & _).
    cbn in H1, H2. split; lra.
Qed.

(** C2 fails on the code.  The death checks compare the length of the
    array under [filter] with 1, and that array keeps the individuals for
    which the callback has already returned [false]: with an array of two
    or more the flag changes nothing, for the last living individual as
    for the others.  In the state [initializeEcosystem] returns when every
    draw is 0, with 30 deer and 6 wolves, one [updateEcosystem] with both
    flags set leaves no deer and no wolf. *)
Theorem extinction_floor_misses_last_survivor :
  (∀ d w, length (deer w) ≠ 1%nat → deerDeathCheck true d w = deerDeathCheck false d w)
  ∧ (∀ v w, length (wolves w) ≠ 1%nat →
            wolfDeathCheck true v w = wolfDeathCheck false v w)
  ∧ reachable initialWorld
  ∧ (length (deer initialWorld) = 30%nat ∧ length (wolves initialWorld) = 6%nat)
  ∧ (let w' := exec (updateEcosystem None true true) initialWorld in
     deer w' = [] ∧ wolves w' = []).
Proof.
  split; [| split].
  { intros d w Hlen. unfold deerDeathCheck. rewrite !bind_eq. cbn [get fst snd].
    cbv zeta. by rewrite (bool_decide_eq_false_2 _ Hlen). }
  { intros v w Hlen. unfold wolfDeathCheck. rewrite !bind_eq. cbn [get fst snd].
    cbv zeta. by rewrite (bool_decide_eq_false_2 _ Hlen). }
  split; [exact initialWorld_reachable |].
  destruct initialWorld_populated as (_ & Hnd & Hnv).
  split; [by split |]. cbv zeta. rewrite updateEcosystem_eq.
  destruct initialWorld_mortal as [Hd Hv].
  destruct (treePass_animals None initialWorld) as [Hd1 Hv1]. cbv zeta in Hd1, Hv1.
  pose proof (treePass_rng None initialWorld) as Hr1.
  set (w1 := exec (treePass None) initialWorld) in *. clearbody w1.
  destruct (deerPass_extinction true w1) as (Hd2 & Hr2 & Hv2).
  { intros n. rewrite Hr1. apply initialWorld_rng. }
  { rewrite Hd1, Hnd. lia. }
  { by rewrite Hd1. }
  cbv zeta in Hd2, Hr2, Hv2.
  set (w2 := exec (deerPass true) w1) in *. clearbody w2.
  split.
  - pose proof (wolfPass_deer true w2) as Hsub. rewrite Hd2 in Hsub.
    by apply sublist_nil_r in Hsub.
  - apply wolfPass_extinction.
    + intros n. rewrite Hr2, Hr1. apply initialWorld_rng.
    + rewrite Hv2, Hv1, Hnv. lia.
    + by rewrite Hv2, Hv1.
Qed.
End ExtinctionFloor.

Section Seeding.
Local Open Scope R_scope.

Lemma getMoistureFitness_dry_origin (t : Tree) (w : World) :
  tree_x t = 0 → tree_y t = 0 →
  tree_OptimalMoisture (tree_characteristics t) = 0 →
  terrain w = dryTerrain →
  getMoistureFitness t w = 1.
Proof.
  intros Hx Hy Ho Ht. unfold getMoistureFitness, getMoisture. cbv zeta.
  rewrite Hx, Hy, Ho, Ht, Rmult_0_l, (Int_part_IZR 0).
  change (terrainAt dryTerrain _ _) with 0.
  rewrite Rminus_0_r, Rabs_R0. rewrite Rmax_right; lra.
Qed.


(** The tree pass on [seedingWorld]: the tree grows from size 0 to size 1,
    survives, and makes an offspring at the origin, which is indexed in the
    grid with it. *)
Lemma treePass_seeding :
  let w1 := exec (treePass None) seedingWorld in
  trees w1 = [0%nat; 1%nat] ∧ newTrees w1 = [1%nat]
  ∧ grid w1 = {[ (0, 0)%Z := [0%nat; 1%nat] ]}
  ∧ tree_size (heap w1 0%nat) = 1 ∧ tree_age (heap w1 0%nat) = 6
  ∧ heap w1 1%nat
    = {| tree_id := 1; tree_x := 0; tree_y := 0; tree_age := 0; tree_size := 0;
         tree_characteristics := tree_characteristics matureTree |}.
Proof.
  cbv zeta. unfold exec, treePass.
  erewrite bind_run; [| reflexivity]. cbv beta.
  erewrite bind_run; [| reflexivity]. cbv beta.
  set (w0 := set_newTrees [] seedingWorld).
  change (trees w0) with [0%nat]. cbn [filterM].
  assert (Hcb : ∃ w1, treeCallback None 0%nat 0%nat w0 = (true, w1)
                      ∧ newTrees w1 = [1%nat]
                      ∧ grid w1 = {[ (0, 0)%Z := [0%nat] ]}
                      ∧ tree_size (heap w1 0%nat) = 1 ∧ tree_age (heap w1 0%nat) = 6
                      ∧ heap w1 1%nat
                        = {| tree_id := 1; tree_x := 0; tree_y := 0; tree_age := 0;
                             tree_size := 0;
                             tree_characteristics := tree_characteristics matureTree |}).
  { unfold treeCallback. erewrite bind_run; [| reflexivity]. cbv beta.
    set (wA := set_heap _ w0).
    assert (HtA : heap wA 0%nat = set_tree_age (5 + 1) matureTree)
      by apply fn_lookup_insert.
    assert (HfA : getMoistureFitness (heap wA 0%nat) wA = 1).
    { apply getMoistureFitness_dry_origin; by rewrite ?HtA. }
    unfold treeAfterAging. erewrite bind_run; [| reflexivity]. cbv beta.
    set (wB := set_heap (<[0%nat := set_tree_size (Rmin 5 (0 + Rmax 0 (1.0 * 1)))
                                      (heap wA 0%nat)]> (heap wA)) wA).
    erewrite (bind_run _ _ wA false wB); cycle 1.
    { destruct (decide (_ < _)) as [_ | Hn]; cycle 1.
      { exfalso. apply Hn. rewrite HtA. cbn. lra. }
      unfold treeGrow. erewrite bind_run; [| reflexivity]. cbv beta.
      erewrite bind_run; [| reflexivity]. cbv beta zeta.
      rewrite (crowdedness_alone (heap wA 0%nat) wA) by reflexivity.
      rewrite HfA.
      unfold treeGrowth. destruct (decide (0 > 0)) as [Hgt | _]; [lra |].
      erewrite bind_run; [| reflexivity]. reflexivity. }
    cbv iota. unfold treeSurvive. erewrite bind_run; [| reflexivity]. cbv beta.
    erewrite bind_run; [| reflexivity]. cbv beta.
    destruct (decide (_ < _)) as [Hlt | _].
    { exfalso. cbn in Hlt. rewrite !fn_lookup_insert in Hlt. cbn in Hlt. lra. }
    set (wC := set_cursor (S (cursor wB)) wB).
    assert (HtC : heap wC 0%nat
                  = set_tree_size (Rmin 5 (0 + Rmax 0 (1.0 * 1)))
                      (set_tree_age (5 + 1) matureTree)).
    { unfold wC, wB. cbn [heap set_cursor set_heap].
      rewrite fn_lookup_insert. by rewrite HtA. }
    assert (HfC : getMoistureFitness (heap wC 0%nat) wC = 1).
    { apply getMoistureFitness_dry_origin; by rewrite ?HtC. }
    assert (Hsize : Rmin 5 (0 + Rmax 0 (1.0 * 1)) = 1).
    { rewrite Rmax_right by lra. rewrite Rmin_right; lra. }
    erewrite bind_run; cycle 1.
    { unfold treeReproduce. erewrite bind_run; [| reflexivity]. cbv beta.
      destruct (decide (_ > _)) as [_ | Hn]; cycle 1.
      { exfalso. apply Hn. rewrite HtC. cbn. lra. }
      erewrite bind_run; [| reflexivity]. cbv beta zeta.
      erewrite bind_run; [| reflexivity]. cbv beta.
      destruct (decide (_ < _)) as [_ | Hn]; cycle 1.
      { exfalso. apply Hn. rewrite HfC, HtC. cbn. lra. }
      erewrite bind_run; [| apply newLocation_run]. cbv beta zeta.
      change (rng (set_cursor (S (cursor wC)) wC)) with seedDraws.
      change (cursor (set_cursor (S (cursor wC)) wC)) with 2%nat.
      cbn [seedDraws]. rewrite !Rmult_0_r, HtC.
      cbn [tree_x tree_y set_tree_size set_tree_age matureTree sampleTree].
      rewrite !Rplus_0_r.
      rewrite (bool_decide_eq_false_2 (0 > 1)) by lra.
      rewrite (bool_decide_eq_false_2 (0 < 0)) by lra.
      cbn [orb].
      erewrite bind_run; [| reflexivity]. cbv beta.
      erewrite bind_run; [| reflexivity]. cbv beta.
      reflexivity. }
    cbv beta.
    eexists. split; [reflexivity |].
    change (nextLoc (set_treeIdGenerator _ _)) with 1%nat.
    change (treeIdGenerator (set_cursor _ _)) with 1%nat.
    cbn [newTrees grid heap set_newTrees set_nextLoc set_heap].
    rewrite fn_lookup_insert, fn_lookup_insert_ne by done.
    change (heap (set_treeIdGenerator _ _) 0%nat) with (heap wC 0%nat).
    rewrite HtC, Hsize. split_and!; try reflexivity.
    cbn. lra. }
  destruct Hcb as (w1 & Hcb & Hn & Hg & Hs & Ha & Hb).
  erewrite bind_run; cycle 1.
  { erewrite bind_run; [| exact Hcb]. reflexivity. }
  cbv beta iota.
  erewrite bind_run; [| reflexivity]. cbv beta.
  erewrite bind_run; [| reflexivity]. cbv beta.
  erewrite bind_run; [| reflexivity]. cbv beta.
  cbn [newTrees set_trees trees]. rewrite Hn. cbn [forEach app].
  erewrite bind_run; cycle 1.
  { unfold addToGrid. cbv zeta. cbn [heap grid set_trees]. rewrite Hb.
    unfold getCellOfTree. cbn [tree_x tree_y].
    rewrite getCell_origin, Hg, lookup_singleton_eq. reflexivity. }
  cbn [ret snd trees newTrees grid heap set_trees set_grid].
  rewrite insert_singleton_eq. by split_and!.
Qed.

Lemma updateEcosystem_seeding :
  let w' := exec (updateEcosystem None true true) seedingWorld in
  tree_size (heap w' 0%nat) = 1.
Proof.
  cbv zeta. rewrite updateEcosystem_eq.
  destruct (wolfPass_trees true
              (exec (deerPass true) (exec (treePass None) seedingWorld)))
    as (_ & -> & _).
  destruct (deerPass_trees true (exec (treePass None) seedingWorld))
    as (_ & -> & _).
  apply treePass_seeding.
Qed.


Lemma tree_objects_only_grow_witness :
  let w := seedingWorld in
  let w' := exec (updateEcosystem None true true) w in
  (tree_size (heap w 0%nat) = 0 ∧ tree_size (heap w' 0%nat) = 1)
  ∧ tree_id (heap w' 0%nat) = tree_id (heap w 0%nat)
  ∧ tree_x (heap w' 0%nat) = tree_x (heap w 0%nat)
  ∧ tree_y (heap w' 0%nat) = tree_y (heap w 0%nat)
  ∧ tree_characteristics (heap w' 0%nat) = tree_characteristics (heap w 0%nat)
  ∧ tree_size (heap w 0%nat) <= tree_size (heap w' 0%nat).
Proof.
  cbv zeta. split.
  - split; [reflexivity | apply updateEcosystem_seeding].
  - apply (tree_objects_only_grow None true true seedingWorld 0%nat).
    cbn. lia.
Defined.
End Seeding.

Section Populated.
Local Open Scope R_scope.


Lemma grid_index_exact_witness :
  (length (trees initialWorld) = 120%nat ∧ length (deer initialWorld) = 30%nat
   ∧ length (wolves initialWorld) = 6%nat)
  ∧ grid_exact initialWorld.
Proof.
  split; [exact initialWorld_populated |].
  apply (grid_index_exact initialWorld). exact initialWorld_reachable.
Defined.

Lemma characteristics_within_scaled_bounds_witness :
  (length (trees initialWorld) = 120%nat ∧ length (deer initialWorld) = 30%nat
   ∧ length (wolves initialWorld) = 6%nat)
  ∧ bounds_respected initialWorld.
Proof.
  split; [exact initialWorld_populated |].
  apply (characteristics_within_scaled_bounds initialWorld).
  exact initialWorld_reachable.
Defined.

Lemma ids_are_unique_witness :
  let w := initialWorld in
  (length (trees w) = 120%nat ∧ length (deer w) = 30%nat
   ∧ length (wolves w) = 6%nat)
  ∧ (NoDup ((λ tree, tree_id (heap w tree)) <$> trees w)
     ∧ Forall (λ tree, (tree_id (heap w tree) < treeIdGenerator w)%nat) (trees w))
  ∧ (NoDup (deer_id <$> deer w)
     ∧ Forall (λ d, (deer_id d < deerIdGenerator w)%nat) (deer w))
  ∧ (NoDup (wolf_id <$> wolves w)
     ∧ Forall (λ v, (wolf_id v < wolfIdGenerator w)%nat) (wolves w)).
Proof.
  cbv zeta. split; [exact initialWorld_populated |].
  apply (ids_are_unique initialWorld). exact initialWorld_reachable.
Defined.

Lemma energy_stays_in_range_witness :
  let w := initialWorld in
  (length (deer w) = 30%nat ∧ length (wolves w) = 6%nat)
  ∧ Forall (λ d, 0 <= deer_energy d <= DEER_MAX_ENERGY) (deer w)
  ∧ Forall (λ v, 0 <= wolf_energy v <= WOLF_MAX_ENERGY) (wolves w).
Proof.
  cbv zeta. split; [exact (proj2 initialWorld_populated) |].
  apply (energy_stays_in_range initialWorld). exact initialWorld_reachable.
Defined.

Lemma trees_stay_in_range_witness :
  let w := initialWorld in
  length (trees w) = 120%nat
  ∧ Forall (λ tree,
            (0 <= tree_size (heap w tree)
             <= tree_MaxSize (tree_characteristics (heap w tree)))
            ∧ (0 <= tree_x (heap w tree) <= 1) ∧ (0 <= tree_y (heap w tree) <= 1))
         (trees w).
Proof.
  cbv zeta. split; [exact (proj1 initialWorld_populated) |].
  apply (trees_stay_in_range initialWorld). exact initialWorld_reachable.
Defined.


Lemma cull_removes_requested_share_witness :
  let w := initialWorld in
  (length (trees w) = 120%nat ∧ length (deer w) = 30%nat
   ∧ length (wolves w) = 6%nat)
  ∧ ((cullTrees 50 w).1 = Some tt
     ∧ length (trees (cullTrees 50 w).2) = 60%nat
     ∧ sublist (trees (cullTrees 50 w).2) (trees w))
  ∧ (length (deer (exec (cullDeer 50) w)) = 15%nat
     ∧ sublist (deer (exec (cullDeer 50) w)) (deer w))
  ∧ (length (wolves (exec (cullWolves 50) w)) = 3%nat
     ∧ sublist (wolves (exec (cullWolves 50) w)) (wolves w)).
Proof.
  cbv zeta. split; [exact initialWorld_populated |].
  destruct initialWorld_populated as (Ht & Hd & Hv).
  destruct (cull_removes_requested_share 50 initialWorld)
    as ((H1 & H2 & H3) & (H4 & H5) & (H6 & H7)).
  { intros k. rewrite initialWorld_rng. lra. }
  { lia. }
  rewrite Ht in H2. rewrite Hd in H4. rewrite Hv in H6.
  split; [| split].
  - split; [exact H1 |]. split; [exact H2 | exact H3].
  - split; [exact H4 | exact H5].
  - split; [exact H6 | exact H7].
Defined.
End Populated.

Section LostDeer.
Local Open Scope R_scope.

(** The callback of [lostDeer] in [lostWorld], where it is the last deer
    and spared: it leaves the tree and makes one offspring. *)
Lemma lostDeer_reproduces :
  let w' := exec (deerCallback true lostDeer 0%nat) lostWorld in
  trees w' = [0%nat] ∧ length (newDeer w') = 1%nat.
Proof.
  cbv zeta. unfold exec, deerCallback. cbv zeta.
  set (d1 := set_deer_age (deer_age lostDeer + 1) lostDeer).
  erewrite (bind_run _ _ _ d1 (set_cursor 1 lostWorld)); cycle 1.
  { unfold deerMove. erewrite bind_run; [| reflexivity]. cbv beta zeta.
    destruct (decide (_ < _)) as [Hlt | _].
    { exfalso. cbn in Hlt. unfold DEER_REPRODUCE_THRESHOLD in Hlt. lra. }
    change (getWolvesInNeighborhood _ _ _) with (@nil Wolf).
    cbn [nearestWolfOf foldl fst].
    erewrite bind_run; [| reflexivity]. reflexivity. }
  cbv beta.
  change (set_deer_pos (wrap (deer_x d1)) (wrap (deer_y d1)) d1) with d1.
  set (w1 := set_cursor 1 lostWorld).
  erewrite (bind_run _ _ _ d1 w1); cycle 1.
  { destruct (decide (_ < _)) as [_ | Hn]; cycle 1.
    { exfalso. apply Hn. cbn. unfold DEER_MAX_ENERGY. lra. }
    erewrite bind_run; [| reflexivity]. cbv beta. reflexivity. }
  cbv beta.
  set (d2 := set_deer_energy _ d1).
  erewrite bind_run; [| reflexivity]. cbv beta.
  erewrite (bind_run _ _ _ false); cycle 1.
  { unfold deerDeathCheck. erewrite bind_run; [| reflexivity]. cbv beta zeta.
    reflexivity. }
  cbv beta iota.
  assert (He : deer_energy d2 = 1.49).
  { cbn. rewrite Rmax_right; lra. }
  erewrite bind_run; cycle 1.
  { unfold deerReproduce.
    rewrite (bool_decide_eq_true_2 (deer_age d2 > DEER_REPRODUCE_AGE)); cycle 1.
    { cbn. unfold DEER_REPRODUCE_AGE. lra. }
    rewrite (bool_decide_eq_true_2 (deer_energy d2 >= DEER_REPRODUCE_THRESHOLD)); cycle 1.
    { rewrite He. unfold DEER_REPRODUCE_THRESHOLD. lra. }
    cbn [andb]. erewrite bind_run; [| reflexivity]. cbv beta.
    destruct (decide (_ < _)) as [_ | Hn]; cycle 1.
    { exfalso. apply Hn. cbn. lra. }
    erewrite bind_run; [| reflexivity]. cbv beta.
    erewrite bind_run; [| reflexivity]. cbv beta.
    erewrite bind_run; [| reflexivity]. cbv beta zeta.
    erewrite bind_run; [| reflexivity]. cbv beta.
    reflexivity. }
  cbv beta. split; reflexivity.
Qed.

Lemma lost_deer_never_eats_witness :
  let w := lostWorld in
  let w' := exec (deerCallback true lostDeer 0%nat) w in
  (trees w = [0%nat] ∧ newDeer w = [] ∧ length (newDeer w') = 1%nat)
  ∧ trees w' = trees w
  ∧ ∃ d', deer w' = <[0%nat := d']> (deer w) ∧ lost d' = true
          ∧ Forall (λ b, lost b = true) (drop (length (newDeer w)) (newDeer w')).
Proof.
  cbv zeta. split.
  - split; [reflexivity |]. split; [reflexivity | apply lostDeer_reproduces].
  - apply (lost_deer_never_eats true lostDeer 0%nat lostWorld). reflexivity.
Defined.
End LostDeer.
